(** * json-asm: a shallow embedding of the parser, the arena, the accessors,
      the serializer and the scalar / NEON kernels.

    The C sources are [include/json_asm.h], [src/internal.h], [src/arena.c],
    [src/parse.c], [src/json_asm.c], [src/stringify.c] and
    [src/arm64/simd_arm64.c].

    Modelling conventions.
    - Memory is one flat little-endian byte store (both supported targets,
      x86-64 and arm64, are little-endian).  A pointer is an address in [Z],
      [0] is [NULL].  A [struct json_val] is 24 bytes of that store, so the
      unions of words 1 and 2 alias exactly as they do in C.
    - [struct json_doc] and [parser_ctx] are records; the 64-bit words kept
      in nodes have their wrap-around written out; [size_t] counters
      (positions, lengths, arena sizes) are unbounded [Z].
    - The C library is modelled by a bump allocator that never fails and never
      hands out an address twice.  [free] only removes a block from the table
      of live blocks; the bytes stay where they are, which is what a stale
      pointer observes on real hardware until the allocator reuses them.  C
      leaves an access through such a pointer undefined.  [arena_grow] is
      where the parser keeps pointers into a block it has released; the
      theorems on whole texts that need those pointers to be good are stated
      for texts that fit the first arena, on which it is not called (lemma
      [parse_value_keeps_arena]). *)

From Stdlib Require Import ZArith Lia Bool String Ascii.
From stdpp Require Import gmap list.

Local Open Scope Z_scope.

(** ** Byte-addressed memory *)

Definition load8 (m : gmap Z Z) (a : Z) : Z := default 0 (m !! a) mod 256.

Definition store8 (m : gmap Z Z) (a v : Z) : gmap Z Z := <[a := v mod 256]> m.

(** Little-endian loads and stores of [n] bytes. *)
Fixpoint load_le (n : nat) (m : gmap Z Z) (a : Z) : Z :=
  match n with
  | O => 0
  | S k => load8 m a + 256 * load_le k m (a + 1)
  end.

Fixpoint store_le (n : nat) (m : gmap Z Z) (a v : Z) : gmap Z Z :=
  match n with
  | O => m
  | S k => store_le k (store8 m a v) (a + 1) (v / 256)
  end.

Definition load64 : gmap Z Z -> Z -> Z := load_le 8.
Definition store64 : gmap Z Z -> Z -> Z -> gmap Z Z := store_le 8.

Fixpoint read_bytes (n : nat) (m : gmap Z Z) (a : Z) : list Z :=
  match n with
  | O => []
  | S k => load8 m a :: read_bytes k m (a + 1)
  end.

Fixpoint write_bytes (m : gmap Z Z) (a : Z) (l : list Z) : gmap Z Z :=
  match l with
  | [] => m
  | b :: t => write_bytes (store8 m a b) (a + 1) t
  end.

(** [memcpy] of non-overlapping regions, [memset], [memcmp(..) == 0]. *)
Definition memcpy (m : gmap Z Z) (dst src n : Z) : gmap Z Z :=
  write_bytes m dst (read_bytes (Z.to_nat n) m src).

Definition memset (m : gmap Z Z) (dst c n : Z) : gmap Z Z :=
  write_bytes m dst (repeat c (Z.to_nat n)).

Definition bytes_eqb (l1 l2 : list Z) : bool :=
  bool_decide (l1 = l2).

Definition memcmp_eq (m : gmap Z Z) (p q n : Z) : bool :=
  bytes_eqb (read_bytes (Z.to_nat n) m p) (read_bytes (Z.to_nat n) m q).

(** ** json_asm.h *)

Definition JSON_NULL : Z := 0.
Definition JSON_FALSE : Z := 1.
Definition JSON_TRUE : Z := 3.
Definition JSON_INT : Z := 4.
Definition JSON_FLOAT : Z := 5.
Definition JSON_STRING : Z := 6.
Definition JSON_ARRAY : Z := 8.
Definition JSON_OBJECT : Z := 9.

Definition JSON_PARSE_DEFAULT : Z := 0.
Definition JSON_PARSE_ALLOW_COMMENTS : Z := 1.
Definition JSON_PARSE_ALLOW_TRAILING : Z := 2.
Definition JSON_PARSE_ALLOW_INF_NAN : Z := 4.
Definition JSON_PARSE_INSITU : Z := 8.

Definition JSON_STRINGIFY_PRETTY : Z := 1.

Inductive json_error : Set :=
  | JSON_OK
  | JSON_ERROR_MEMORY
  | JSON_ERROR_SYNTAX
  | JSON_ERROR_DEPTH
  | JSON_ERROR_NUMBER
  | JSON_ERROR_STRING
  | JSON_ERROR_UTF8
  | JSON_ERROR_IO
  | JSON_ERROR_TYPE.

Record json_error_info := mk_error_info {
  code : json_error;
  position : Z;
  err_line : Z;
  column : Z;
  message : string
}.

Record json_parse_options := mk_parse_options {
  opt_flags : Z;
  opt_max_depth : Z;
  user_data : Z
}.

Record json_stringify_options := mk_stringify_options {
  sopt_flags : Z;
  indent : Z;
  newline : option (list Z)
}.

(** ** Process state: memory, allocator, globals of json_asm.c *)

Record world := mk_world {
  mem : gmap Z Z;
  brk : Z;                        (* first address never handed out *)
  live : gmap Z Z;                (* base address -> size of the live blocks *)
  g_last_error : json_error_info;
  g_initialized : bool;
  g_cpu_features : Z;
  hw_features : Z                 (* what cpu_detect_features() reports *)
}.

Definition set_mem (w : world) (m : gmap Z Z) : world :=
  mk_world m (brk w) (live w) (g_last_error w) (g_initialized w)
           (g_cpu_features w) (hw_features w).

Definition set_error (w : world) (e : json_error) (p l c : Z) (msg : string) : world :=
  mk_world (mem w) (brk w) (live w) (mk_error_info e p l c msg)
           (g_initialized w) (g_cpu_features w) (hw_features w).

(** *** libc: allocation *)

Definition malloc_at (alignment size : Z) (w : world) : Z * world :=
  let p := (brk w + alignment - 1) / alignment * alignment in
  (p, mk_world (mem w) (p + size) (<[p := size]> (live w)) (g_last_error w)
               (g_initialized w) (g_cpu_features w) (hw_features w)).

Definition malloc (size : Z) (w : world) : Z * world := malloc_at 16 size w.

Definition aligned_alloc (alignment size : Z) (w : world) : Z * world :=
  malloc_at alignment size w.

(** [free] takes the block out of the table of live blocks.  Its bytes stay
    in the memory of the model, which does not tell a load or a store
    through a stale pointer from any other. *)
Definition free (p : Z) (w : world) : world :=
  mk_world (mem w) (brk w) (delete p (live w)) (g_last_error w)
           (g_initialized w) (g_cpu_features w) (hw_features w).

(** C lets [realloc] extend the block in place or move it.  The model takes
    the second way every time: new block, copy, release the old one.  The
    theorems about the callers state what holds either way. *)
Definition realloc (p new_size : Z) (w : world) : Z * world :=
  let old_size := default 0 (live w !! p) in
  let '(q, w1) := malloc new_size w in
  let w2 := set_mem w1 (memcpy (mem w1) q p (Z.min old_size new_size)) in
  (q, free p w2).

(** A pointer is usable when it falls inside a live block. *)
Definition in_live_block (w : world) (p : Z) : bool :=
  bool_decide (map_Exists (fun base size => base <= p < base + size) (live w)).

(** ** internal.h: the 24-byte value node *)

Definition JSON_TAG_MASK : Z := 0x0F.
Definition JSON_PAYLOAD_SHIFT : Z := 4.
Definition JSON_STRING_SHORT : Z := 6.
Definition JSON_STRING_LONG : Z := 7.
Definition JSON_SHORT_STR_MAX : Z := 7.
Definition sizeof_json_val : Z := 24.

Definition u64 (x : Z) : Z := x mod 2 ^ 64.
Definition u32 (x : Z) : Z := x mod 2 ^ 32.

(** Field accessors: [v->tag_payload], the union at offset 8
    ([next] / [str_len] / [int_ext]) and the union at offset 16
    ([child] / [str_ptr] / [float_val]). *)
Definition tag_payload (m : gmap Z Z) (v : Z) : Z := load64 m v.
Definition next (m : gmap Z Z) (v : Z) : Z := load64 m (v + 8).
Definition child (m : gmap Z Z) (v : Z) : Z := load64 m (v + 16).
Definition str_ptr (m : gmap Z Z) (v : Z) : Z := load64 m (v + 16).
Definition float_val (m : gmap Z Z) (v : Z) : Z := load64 m (v + 16).

Definition set_tag_payload (m : gmap Z Z) (v x : Z) : gmap Z Z := store64 m v x.
Definition set_next (m : gmap Z Z) (v x : Z) : gmap Z Z := store64 m (v + 8) x.
Definition set_child (m : gmap Z Z) (v x : Z) : gmap Z Z := store64 m (v + 16) x.
Definition set_str_ptr (m : gmap Z Z) (v x : Z) : gmap Z Z := store64 m (v + 16) x.
Definition set_float_val (m : gmap Z Z) (v x : Z) : gmap Z Z := store64 m (v + 16) x.

Definition val_get_type (m : gmap Z Z) (v : Z) : Z :=
  Z.land (tag_payload m v) JSON_TAG_MASK.

Definition val_set_type (m : gmap Z Z) (v t : Z) : gmap Z Z :=
  set_tag_payload m v
    (Z.lor (Z.land (tag_payload m v) (u64 (Z.lnot JSON_TAG_MASK))) t).

Definition val_get_payload (m : gmap Z Z) (v : Z) : Z :=
  Z.shiftr (tag_payload m v) JSON_PAYLOAD_SHIFT.

Definition val_set_payload (m : gmap Z Z) (v p : Z) : gmap Z Z :=
  set_tag_payload m v
    (Z.lor (Z.land (tag_payload m v) JSON_TAG_MASK)
           (u64 (Z.shiftl p JSON_PAYLOAD_SHIFT))).

Definition val_is_short_string (m : gmap Z Z) (v : Z) : bool :=
  Z.land (tag_payload m v) JSON_TAG_MASK =? JSON_STRING_SHORT.

Definition val_short_str_len (m : gmap Z Z) (v : Z) : Z :=
  Z.land (Z.shiftr (tag_payload m v) 4) 0x07.

Definition val_short_str_ptr (v : Z) : Z := v + 1.

Record json_doc := mk_doc {
  arena : Z;
  arena_size : Z;
  arena_used : Z;
  strings : Z;
  strings_size : Z;
  strings_used : Z;
  root : Z;
  value_count : Z;
  cpu_features : Z
}.

(** ** arena.c *)

Definition ARENA_INITIAL_SIZE : Z := 64 * 1024.
Definition ARENA_GROWTH_FACTOR : Z := 2.
Definition STRING_INITIAL_SIZE : Z := 16 * 1024.
Definition ARENA_ALIGNMENT : Z := 64.

(** The arena counts sizes in unbounded integers, as the allocator of the
    model never runs out of addresses: [align_up] is the expression of the
    source without the wrap of [size_t]. *)
Definition align_up (size align : Z) : Z :=
  Z.land (size + align - 1) (Z.lnot (align - 1)).

(** [align_up] as C computes it, in the 64 bits of [size_t]: the sum wraps,
    and so does the complement. *)
Definition align_up_size_t (size align : Z) : Z :=
  Z.land (u64 (size + align - 1)) (u64 (Z.lnot (align - 1))).

Definition aligned_alloc_impl (alignment size : Z) (w : world) : Z * world :=
  aligned_alloc alignment (align_up size alignment) w.

Definition aligned_free_impl (p : Z) (w : world) : world := free p w.

(** The [struct json_doc] itself is a record of the model, so its own
    [calloc] is not an allocation here. *)
Definition arena_create (initial_size : Z) (w : world) : option json_doc * world :=
  let initial_size := if initial_size =? 0 then ARENA_INITIAL_SIZE else initial_size in
  let initial_size := align_up initial_size ARENA_ALIGNMENT in
  let '(a, w) := aligned_alloc_impl ARENA_ALIGNMENT initial_size w in
  if a =? 0 then (None, w)
  else
    let '(s, w) := malloc STRING_INITIAL_SIZE w in
    if s =? 0 then (None, aligned_free_impl a w)
    else (Some (mk_doc a initial_size 0 s STRING_INITIAL_SIZE 0 0 0 (g_cpu_features w)), w).

Definition arena_destroy (d : json_doc) (w : world) : world :=
  let w := if arena d =? 0 then w else aligned_free_impl (arena d) w in
  if strings d =? 0 then w else free (strings d) w.

(** [while (new_size < target) new_size *= ARENA_GROWTH_FACTOR].  A positive
    size reaches the target within [target] doublings, which is the fuel the
    callers pass. *)
Fixpoint grow_size (fuel : nat) (new_size target : Z) : Z :=
  match fuel with
  | O => new_size
  | S k =>
      if new_size <? target
      then grow_size k (new_size * ARENA_GROWTH_FACTOR) target
      else new_size
  end.

Definition arena_grow (d : json_doc) (needed : Z) (w : world) : bool * json_doc * world :=
  let new_size := arena_size d * ARENA_GROWTH_FACTOR in
  let new_size :=
    grow_size (Z.to_nat (arena_used d + needed)) new_size (arena_used d + needed) in
  let new_size := align_up new_size ARENA_ALIGNMENT in
  let '(new_arena, w) := aligned_alloc_impl ARENA_ALIGNMENT new_size w in
  if new_arena =? 0 then (false, d, w)
  else
    let w := set_mem w (memcpy (mem w) new_arena (arena d) (arena_used d)) in
    let w := aligned_free_impl (arena d) w in
    (true,
     mk_doc new_arena new_size (arena_used d) (strings d) (strings_size d)
            (strings_used d) (root d) (value_count d) (cpu_features d),
     w).

Definition strings_grow (d : json_doc) (needed : Z) (w : world) : bool * json_doc * world :=
  let new_size := strings_size d * ARENA_GROWTH_FACTOR in
  let new_size :=
    grow_size (Z.to_nat (strings_used d + needed)) new_size (strings_used d + needed) in
  let '(new_strings, w) := realloc (strings d) new_size w in
  if new_strings =? 0 then (false, d, w)
  else
    (true,
     mk_doc (arena d) (arena_size d) (arena_used d) new_strings new_size
            (strings_used d) (root d) (value_count d) (cpu_features d),
     w).

Definition arena_alloc_val (d : json_doc) (w : world) : Z * json_doc * world :=
  let needed := sizeof_json_val in
  let '(ok, d, w) :=
    if arena_used d + needed >? arena_size d
    then arena_grow d needed w
    else (true, d, w) in
  if negb ok then (0, d, w)
  else
    let val := arena d + arena_used d in
    let d := mk_doc (arena d) (arena_size d) (arena_used d + needed) (strings d)
                    (strings_size d) (strings_used d) (root d)
                    (value_count d + 1) (cpu_features d) in
    (val, d, set_mem w (memset (mem w) val 0 sizeof_json_val)).

Definition arena_alloc_string (d : json_doc) (slen : Z) (w : world) : Z * json_doc * world :=
  let needed := slen + 1 in
  let '(ok, d, w) :=
    if strings_used d + needed >? strings_size d
    then strings_grow d needed w
    else (true, d, w) in
  if negb ok then (0, d, w)
  else
    let str := strings d + strings_used d in
    let d := mk_doc (arena d) (arena_size d) (arena_used d) (strings d)
                    (strings_size d) (strings_used d + needed) (root d)
                    (value_count d) (cpu_features d) in
    (str, d, w).

(** ** libc: character classes and number conversions

    A [double] is its IEEE-754 binary64 bit pattern.  [strtoll] and [strtod]
    get a pointer and no length: they read the memory from that byte on and
    stop at the first byte that does not fit the literal, wherever the
    caller's token ends.  Here they take the bytes they may look at,
    [number_chars], and convert the longest prefix that is a literal. *)

Definition isdigit (c : Z) : bool := (48 <=? c) && (c <=? 57).

(** The bytes a decimal literal is made of: digits, signs, the point and the
    exponent letters. *)
Definition is_number_byte (c : Z) : bool :=
  isdigit c || (c =? 43) || (c =? 45) || (c =? 46) || (c =? 101) || (c =? 69).

(** The bytes at [p] up to the first one that is none of these: no
    conversion of a decimal literal reads further.  [n] bounds the scan; the
    callers pass the distance to the end of the allocated memory. *)
Fixpoint number_chars (n : nat) (m : gmap Z Z) (p : Z) : list Z :=
  match n with
  | O => []
  | S k =>
      let b := load8 m p in
      if is_number_byte b then b :: number_chars k m (p + 1) else []
  end.

Definition LLONG_MAX : Z := 2 ^ 63 - 1.
Definition LLONG_MIN : Z := - 2 ^ 63.

Fixpoint digits_value (l : list Z) (acc : Z) : Z * list Z :=
  match l with
  | c :: t => if isdigit c then digits_value t (acc * 10 + (c - 48)) else (acc, l)
  | [] => (acc, [])
  end.

Fixpoint frac_value (l : list Z) (acc cnt : Z) : Z * Z * list Z :=
  match l with
  | c :: t => if isdigit c then frac_value t (acc * 10 + (c - 48)) (cnt + 1) else (acc, cnt, l)
  | [] => (acc, cnt, [])
  end.

Definition strip_minus (s : list Z) : bool * list Z :=
  match s with
  | c :: t => if c =? 45 then (true, t) else (false, s)
  | [] => (false, s)
  end.

(** [strtoll(s, &end, 10)]: the value and whether [errno] is [ERANGE]. *)
Definition strtoll (s : list Z) : Z * bool :=
  let '(neg, s) := strip_minus s in
  let '(v, _) := digits_value s 0 in
  let v := if neg then - v else v in
  if v >? LLONG_MAX then (LLONG_MAX, true)
  else if v <? LLONG_MIN then (LLONG_MIN, true)
  else (v, false).

Definition DBL_SIGN : Z := 2 ^ 63.
Definition DBL_INF : Z := 0x7FF * 2 ^ 52.

(** The binary64 nearest to [N / D] (ties to even) for [N >= 0], [D > 0],
    and whether the conversion is a range error: overflow to infinity, or a
    tiny inexact result. *)
Definition round_binary64 (neg : bool) (N D : Z) : Z * bool :=
  let sign := if neg then DBL_SIGN else 0 in
  if N =? 0 then (sign, false)
  else
    let t := Z.log2 N - Z.log2 D in
    let ge := if 0 <=? t then D * 2 ^ t <=? N else D <=? N * 2 ^ (- t) in
    let e2 := if ge then t else t - 1 in
    let E := Z.max e2 (-1022) in
    let s := 52 - E in
    let num := if 0 <=? s then N * 2 ^ s else N in
    let den := if 0 <=? s then D else D * 2 ^ (- s) in
    let q := num / den in
    let r := num mod den in
    let q := if (2 * r >? den) || ((2 * r =? den) && Z.odd q) then q + 1 else q in
    let bits := (E + 1022) * 2 ^ 52 + q in
    if bits >=? DBL_INF then (sign + DBL_INF, true)
    else (sign + bits, negb (r =? 0) && (e2 <? -1022)).

Definition exponent_part (s : list Z) : Z :=
  match s with
  | c :: t =>
      if (c =? 101) || (c =? 69) then
        match t with
        | sg :: t' =>
            if sg =? 45 then - fst (digits_value t' 0)
            else if sg =? 43 then fst (digits_value t' 0)
            else fst (digits_value t 0)
        | [] => 0
        end
      else 0
  | [] => 0
  end.

(** [strtod] on a decimal literal [-?digits(.digits)?([eE][+-]?digits)?]. *)
Definition strtod (s : list Z) : Z * bool :=
  let '(neg, s) := strip_minus s in
  let '(ip, s1) := digits_value s 0 in
  let '(m, fcnt, s2) :=
    match s1 with
    | c :: t => if c =? 46 then frac_value t ip 0 else (ip, 0, s1)
    | [] => (ip, 0, s1)
    end in
  let e10 := exponent_part s2 - fcnt in
  if m =? 0 then round_binary64 neg 0 1
  else if e10 >? 400 then ((if neg then DBL_SIGN else 0) + DBL_INF, true)
  else if e10 + Z.log2 m <? -1200 then (if neg then DBL_SIGN else 0, true)
  else if 0 <=? e10 then round_binary64 neg (m * 10 ^ e10) 1
  else round_binary64 neg m (10 ^ (- e10)).

Definition dbl_exp (d : Z) : Z := Z.land (Z.shiftr d 52) 0x7FF.
Definition dbl_frac (d : Z) : Z := Z.land d (2 ^ 52 - 1).
Definition dbl_neg (d : Z) : bool := Z.testbit d 63.

Definition isnan (d : Z) : bool := (dbl_exp d =? 0x7FF) && negb (dbl_frac d =? 0).
Definition isinf (d : Z) : bool := (dbl_exp d =? 0x7FF) && (dbl_frac d =? 0).

(** A finite double is [(-1)^s * dbl_num / dbl_den]. *)
Definition dbl_mant (d : Z) : Z :=
  if dbl_exp d =? 0 then dbl_frac d else 2 ^ 52 + dbl_frac d.
Definition dbl_scale (d : Z) : Z :=
  (if dbl_exp d =? 0 then 1 else dbl_exp d) - 1075.
Definition dbl_num (d : Z) : Z :=
  if 0 <=? dbl_scale d then dbl_mant d * 2 ^ dbl_scale d else dbl_mant d.
Definition dbl_den (d : Z) : Z :=
  if 0 <=? dbl_scale d then 1 else 2 ^ (- dbl_scale d).

(** [(double)i] for a 64-bit signed [i]. *)
Definition int64_to_double (i : Z) : Z := fst (round_binary64 (i <? 0) (Z.abs i) 1).

(** [(int64_t)d].  C leaves the conversion undefined when the truncated value
    does not fit; the arm64 instruction saturates and maps NaN to 0. *)
Definition double_to_int64 (d : Z) : Z :=
  if isnan d then 0
  else if isinf d then (if dbl_neg d then LLONG_MIN else LLONG_MAX)
  else
    let t := dbl_num d / dbl_den d in
    let v := if dbl_neg d then - t else t in
    Z.max LLONG_MIN (Z.min LLONG_MAX v).

(** [a == b] on doubles. *)
Definition double_eq (a b : Z) : bool :=
  if isnan a || isnan b then false
  else if (dbl_exp a =? 0) && (dbl_frac a =? 0) && (dbl_exp b =? 0) && (dbl_frac b =? 0)
  then true
  else a =? b.

(** The signed reading of a 64-bit word. *)
Definition s64 (x : Z) : Z := if x <? 2 ^ 63 then x else x - 2 ^ 64.

(** ** parse.c *)

Record parser_ctx := mk_ctx {
  input : Z;
  len : Z;
  pos : Z;
  line : Z;
  col : Z;
  doc : json_doc;
  flags : Z;
  max_depth : Z;
  depth : Z
}.

Definition set_doc (c : parser_ctx) (d : json_doc) : parser_ctx :=
  mk_ctx (input c) (len c) (pos c) (line c) (col c) d (flags c) (max_depth c) (depth c).

Definition set_depth (c : parser_ctx) (n : Z) : parser_ctx :=
  mk_ctx (input c) (len c) (pos c) (line c) (col c) (doc c) (flags c) (max_depth c) n.

(** [ctx->pos += n; ctx->col += n]. *)
Definition advance (c : parser_ctx) (n : Z) : parser_ctx :=
  mk_ctx (input c) (len c) (pos c + n) (line c) (col c + n) (doc c) (flags c)
         (max_depth c) (depth c).

(** [ctx->pos++; ctx->line++; ctx->col = 1]. *)
Definition advance_line (c : parser_ctx) : parser_ctx :=
  mk_ctx (input c) (len c) (pos c + 1) (line c + 1) 1 (doc c) (flags c)
         (max_depth c) (depth c).

(** [ctx->input[i]]. *)
Definition input_at (w : world) (c : parser_ctx) (i : Z) : Z :=
  load8 (mem w) (input c + i).

Definition ctx_error (w : world) (c : parser_ctx) (e : json_error) (msg : string) : world :=
  set_error w e (pos c) (line c) (col c) msg.

Fixpoint skip_ws_loop (n : nat) (w : world) (c : parser_ctx) : parser_ctx :=
  match n with
  | O => c
  | S k =>
      if pos c <? len c then
        let ch := input_at w c (pos c) in
        if (ch =? 32) || (ch =? 9) || (ch =? 13) then skip_ws_loop k w (advance c 1)
        else if ch =? 10 then skip_ws_loop k w (advance_line c)
        else c
      else c
  end.

Definition skip_ws (w : world) (c : parser_ctx) : parser_ctx :=
  skip_ws_loop (Z.to_nat (len c - pos c)) w c.

Definition consume (w : world) (c : parser_ctx) (expected : Z) : bool * parser_ctx :=
  let c := skip_ws w c in
  if (pos c <? len c) && (input_at w c (pos c) =? expected)
  then (true, advance c 1)
  else (false, c).

Definition peek (w : world) (c : parser_ctx) : Z * parser_ctx :=
  let c := skip_ws w c in
  if pos c >=? len c then (0, c) else (input_at w c (pos c), c).

(** The three literals share their shape: compare the bytes, advance,
    allocate a node and tag it. *)
Definition parse_literal (word : list Z) (tag : Z) (msg : string)
    (c : parser_ctx) (w : world) : Z * parser_ctx * world :=
  let n := Z.of_nat (length word) in
  if (pos c + n <=? len c) &&
     bytes_eqb (read_bytes (length word) (mem w) (input c + pos c)) word
  then
    let c := advance c n in
    let '(val, d, w) := arena_alloc_val (doc c) w in
    let c := set_doc c d in
    if val =? 0 then (0, c, w)
    else (val, c, set_mem w (val_set_type (mem w) val tag))
  else (0, c, ctx_error w c JSON_ERROR_SYNTAX msg).

Definition parse_null : parser_ctx -> world -> Z * parser_ctx * world :=
  parse_literal [110; 117; 108; 108] JSON_NULL "Expected 'null'"%string.

Definition parse_true : parser_ctx -> world -> Z * parser_ctx * world :=
  parse_literal [116; 114; 117; 101] JSON_TRUE "Expected 'true'"%string.

Definition parse_false : parser_ctx -> world -> Z * parser_ctx * world :=
  parse_literal [102; 97; 108; 115; 101] JSON_FALSE "Expected 'false'"%string.

(** [while (i < remaining && isdigit(start[i])) i++]. *)
Fixpoint skip_digits (n : nat) (m : gmap Z Z) (start remaining i : Z) : Z :=
  match n with
  | O => i
  | S k =>
      if (i <? remaining) && isdigit (load8 m (start + i))
      then skip_digits k m start remaining (i + 1)
      else i
  end.

(** The fractional part: [None] is the error return, otherwise the new
    [is_float] and [i]. *)
Definition number_fraction (m : gmap Z Z) (start remaining i : Z) : option (bool * Z) :=
  if (i <? remaining) && (load8 m (start + i) =? 46) then
    let i := i + 1 in
    if (i >=? remaining) || negb (isdigit (load8 m (start + i))) then None
    else Some (true, skip_digits (Z.to_nat (remaining - i)) m start remaining i)
  else Some (false, i).

Definition number_exponent (m : gmap Z Z) (start remaining : Z) (is_float : bool) (i : Z)
    : option (bool * Z) :=
  if (i <? remaining) && ((load8 m (start + i) =? 101) || (load8 m (start + i) =? 69)) then
    let i := i + 1 in
    let i :=
      if (i <? remaining) && ((load8 m (start + i) =? 43) || (load8 m (start + i) =? 45))
      then i + 1 else i in
    if (i >=? remaining) || negb (isdigit (load8 m (start + i))) then None
    else Some (true, skip_digits (Z.to_nat (remaining - i)) m start remaining i)
  else Some (is_float, i).

Definition parse_number (c : parser_ctx) (w : world) : Z * parser_ctx * world :=
  let start := input c + pos c in
  let remaining := len c - pos c in
  let m := mem w in
  let fail msg := (0, c, ctx_error w c JSON_ERROR_NUMBER msg) in
  let i := 0 in
  let i := if (i <? remaining) && (load8 m (start + i) =? 45) then i + 1 else i in
  if (i >=? remaining) || negb (isdigit (load8 m (start + i)))
  then fail "Invalid number"%string
  else if (load8 m (start + i) =? 48) && (i + 1 <? remaining) &&
          isdigit (load8 m (start + (i + 1)))
  then fail "Leading zeros not allowed"%string
  else
    let i := skip_digits (Z.to_nat (remaining - i)) m start remaining i in
    match number_fraction m start remaining i with
    | None => fail "Expected digit after decimal point"%string
    | Some (is_float, i) =>
        match number_exponent m start remaining is_float i with
        | None => fail "Expected digit in exponent"%string
        | Some (is_float, i) =>
            let '(val, d, w) := arena_alloc_val (doc c) w in
            let c := set_doc c d in
            if val =? 0 then (0, c, w)
            else
              (* strtod(start, &end) and strtoll(start, &end, 10): no length *)
              let token := number_chars (Z.to_nat (brk w - start)) (mem w) start in
              if is_float then
                let '(dv, erange) := strtod token in
                if erange
                then (0, c, ctx_error w c JSON_ERROR_NUMBER "Number out of range"%string)
                else
                  let m := val_set_type (mem w) val JSON_FLOAT in
                  (val, advance c i, set_mem w (set_float_val m val dv))
              else
                let '(ll, erange) := strtoll token in
                if erange then
                  (* Fall back to double for very large integers *)
                  let '(dv, _) := strtod token in
                  let m := val_set_type (mem w) val JSON_FLOAT in
                  (val, advance c i, set_mem w (set_float_val m val dv))
                else
                  let m := val_set_type (mem w) val JSON_INT in
                  let ival := ll in
                  (* Store value in 60-bit payload *)
                  let m := val_set_payload m val (Z.land (u64 ival) 0x0FFFFFFFFFFFFFFF) in
                  (val, advance c i, set_mem w m)
        end
    end.

Definition hex_digit (c : Z) : Z :=
  if (48 <=? c) && (c <=? 57) then c - 48
  else if (97 <=? c) && (c <=? 102) then c - 97 + 10
  else if (65 <=? c) && (c <=? 70) then c - 65 + 10
  else -1.

(** [for (i = 0; i < 4; i++) { d = hex_digit(input[p + i]); if (d < 0) return -1;
    cp = (cp << 4) | d; }] with [n] iterations left. *)
Fixpoint hex_loop (n : nat) (m : gmap Z Z) (p cp : Z) : option Z :=
  match n with
  | O => Some cp
  | S k =>
      let d := hex_digit (load8 m p) in
      if d <? 0 then None
      else hex_loop k m (p + 1) (Z.lor (u32 (Z.shiftl cp 4)) (u32 d))
  end.

(** [None] is the [-1] return; otherwise the code point and the advanced
    context. *)
Definition parse_unicode_escape (w : world) (c : parser_ctx) : option (Z * parser_ctx) :=
  if pos c + 4 >? len c then None
  else
    match hex_loop 4 (mem w) (input c + pos c) 0 with
    | None => None
    | Some cp => Some (cp, advance c 4)
    end.

(** The bytes [encode_utf8] writes to [buf]; their number is its result. *)
Definition encode_utf8 (cp : Z) : list Z :=
  if cp <? 0x80 then [cp mod 256]
  else if cp <? 0x800 then
    [Z.lor 0xC0 (Z.shiftr cp 6) mod 256;
     Z.lor 0x80 (Z.land cp 0x3F) mod 256]
  else if cp <? 0x10000 then
    [Z.lor 0xE0 (Z.shiftr cp 12) mod 256;
     Z.lor 0x80 (Z.land (Z.shiftr cp 6) 0x3F) mod 256;
     Z.lor 0x80 (Z.land cp 0x3F) mod 256]
  else if cp <=? 0x10FFFF then
    [Z.lor 0xF0 (Z.shiftr cp 18) mod 256;
     Z.lor 0x80 (Z.land (Z.shiftr cp 12) 0x3F) mod 256;
     Z.lor 0x80 (Z.land (Z.shiftr cp 6) 0x3F) mod 256;
     Z.lor 0x80 (Z.land cp 0x3F) mod 256]
  else [].

Definition is_simple_escape (e : Z) : bool :=
  (e =? 34) || (e =? 92) || (e =? 47) || (e =? 98) ||
  (e =? 102) || (e =? 110) || (e =? 114) || (e =? 116).

Definition surrogate_pair (hi lo : Z) : Z :=
  u32 (0x10000 + u32 (Z.shiftl (u32 (hi - 0xD800)) 10) + u32 (lo - 0xDC00)).

(** The [case 'u'] of the first pass, entered after the [u] has been
    consumed: the code point and the context behind the escape, or the error
    return. *)
Definition scan_unicode (w : world) (c : parser_ctx) : option (Z * parser_ctx) * parser_ctx * world :=
  match parse_unicode_escape w c with
  | None => (None, c, ctx_error w c JSON_ERROR_STRING "Invalid unicode escape"%string)
  | Some (cp, c) =>
      if (0xD800 <=? cp) && (cp <=? 0xDBFF) then
        if (pos c + 2 >? len c) || negb (input_at w c (pos c) =? 92) ||
           negb (input_at w c (pos c + 1) =? 117)
        then (None, c, ctx_error w c JSON_ERROR_STRING "Expected surrogate pair"%string)
        else
          let c := advance c 2 in
          match parse_unicode_escape w c with
          | None => (None, c, ctx_error w c JSON_ERROR_STRING "Invalid unicode escape"%string)
          | Some (cp2, c) =>
              if (cp2 <? 0xDC00) || (cp2 >? 0xDFFF)
              then (None, c, ctx_error w c JSON_ERROR_STRING "Invalid low surrogate"%string)
              else (Some (surrogate_pair cp cp2, c), c, w)
          end
      else (Some (cp, c), c, w)
  end.

(** First pass of [parse_string]: the loop up to the closing quote.  The
    result is [None] on an error return, otherwise the decoded length and
    [has_escapes]. *)
Fixpoint measure_string (n : nat) (w : world) (c : parser_ctx) (slen : Z) (has_escapes : bool)
    : option (Z * bool) * parser_ctx * world :=
  match n with
  | O => (Some (slen, has_escapes), c, w)
  | S k =>
      if pos c <? len c then
        let ch := input_at w c (pos c) in
        if ch =? 34 then (Some (slen, has_escapes), c, w)
        else if ch =? 92 then
          let c := advance c 1 in
          if pos c >=? len c
          then (None, c, ctx_error w c JSON_ERROR_STRING "Unterminated escape"%string)
          else
            let esc := input_at w c (pos c) in
            if is_simple_escape esc then measure_string k w (advance c 1) (slen + 1) true
            else if esc =? 117 then
              match scan_unicode w (advance c 1) with
              | (Some (cp, c), _, w) =>
                  measure_string k w c (slen + Z.of_nat (length (encode_utf8 cp))) true
              | (None, c, w) => (None, c, w)
              end
            else (None, c, ctx_error w c JSON_ERROR_STRING "Invalid escape sequence"%string)
        else if ch <? 0x20
        then (None, c, ctx_error w c JSON_ERROR_STRING "Control character in string"%string)
        else measure_string k w (advance c 1) (slen + 1) has_escapes
      else (Some (slen, has_escapes), c, w)
  end.

(** [cp = (cp << 4) | (uint32_t)hex_digit(input[src_pos++])], four times,
    without the validity check of the first pass. *)
Fixpoint hex_unchecked (n : nat) (m : gmap Z Z) (p cp : Z) : Z :=
  match n with
  | O => cp
  | S k => hex_unchecked k m (p + 1) (Z.lor (u32 (Z.shiftl cp 4)) (u32 (hex_digit (load8 m p))))
  end.

Definition unescape_char (esc : Z) : option Z :=
  if esc =? 34 then Some 34
  else if esc =? 92 then Some 92
  else if esc =? 47 then Some 47
  else if esc =? 98 then Some 8
  else if esc =? 102 then Some 12
  else if esc =? 110 then Some 10
  else if esc =? 114 then Some 13
  else if esc =? 116 then Some 9
  else None.

(** Second pass of [parse_string]: copy with escape processing; [inp] is
    [ctx->input], and the result is the memory and the final [dst_pos]. *)
Fixpoint copy_escaped (n : nat) (m : gmap Z Z) (inp str src_pos src_end dst_pos : Z)
    : gmap Z Z * Z :=
  match n with
  | O => (m, dst_pos)
  | S k =>
      if src_pos <? src_end then
        let ch := load8 m (inp + src_pos) in
        if ch =? 92 then
          let src_pos := src_pos + 1 in
          let esc := load8 m (inp + src_pos) in
          let src_pos := src_pos + 1 in
          match unescape_char esc with
          | Some b => copy_escaped k (store8 m (str + dst_pos) b) inp str src_pos src_end (dst_pos + 1)
          | None =>
              if esc =? 117 then
                let cp := hex_unchecked 4 m (inp + src_pos) 0 in
                let src_pos := src_pos + 4 in
                if (0xD800 <=? cp) && (cp <=? 0xDBFF) then
                  let src_pos := src_pos + 2 in
                  let cp2 := hex_unchecked 4 m (inp + src_pos) 0 in
                  let src_pos := src_pos + 4 in
                  let cp := surrogate_pair cp cp2 in
                  copy_escaped k (write_bytes m (str + dst_pos) (encode_utf8 cp)) inp str
                               src_pos src_end (dst_pos + Z.of_nat (length (encode_utf8 cp)))
                else
                  copy_escaped k (write_bytes m (str + dst_pos) (encode_utf8 cp)) inp str
                               src_pos src_end (dst_pos + Z.of_nat (length (encode_utf8 cp)))
              else copy_escaped k m inp str src_pos src_end dst_pos
          end
        else copy_escaped k (store8 m (str + dst_pos) ch) inp str (src_pos + 1) src_end (dst_pos + 1)
      else (m, dst_pos)
  end.

(** The message of the first error return of [parse_string]: the word
    Expected followed by a double quote between two single quotes. *)
Definition msg_expected_quote : string :=
  String.append "Expected '"%string (String.String (Ascii.ascii_of_nat 34) "%string'"%string).

Definition parse_string (c : parser_ctx) (w : world) : Z * parser_ctx * world :=
  if (pos c >=? len c) || negb (input_at w c (pos c) =? 34)
  then (0, c, ctx_error w c JSON_ERROR_SYNTAX msg_expected_quote)
  else
    let c := advance c 1 in
    (* First pass: find string length and check for escapes *)
    let start := pos c in
    match measure_string (Z.to_nat (len c - pos c)) w c 0 false with
    | (None, c, w) => (0, c, w)
    | (Some (slen, has_escapes), c, w) =>
        if pos c >=? len c
        then (0, c, ctx_error w c JSON_ERROR_STRING "Unterminated string"%string)
        else
          (* Skip closing quote *)
          let c := advance c 1 in
          let '(val, d, w) := arena_alloc_val (doc c) w in
          let c := set_doc c d in
          if val =? 0 then (0, c, w)
          else if negb has_escapes && (slen <=? JSON_SHORT_STR_MAX) then
            let m := val_set_type (mem w) val JSON_STRING_SHORT in
            let m := set_tag_payload m val (Z.lor JSON_STRING_SHORT (u64 (Z.shiftl slen 4))) in
            let dst := val + 1 in
            (val, c, set_mem w (memcpy m dst (input c + start) slen))
          else
            let '(str, d, w) := arena_alloc_string (doc c) slen w in
            let c := set_doc c d in
            if str =? 0 then (0, c, w)
            else
              let m :=
                if negb has_escapes then
                  store8 (memcpy (mem w) str (input c + start) slen) (str + slen) 0
                else
                  let src_end := pos c - 1 in
                  let '(m, dst_pos) :=
                    copy_escaped (Z.to_nat (src_end - start)) (mem w) (input c) str
                                 start src_end 0 in
                  store8 m (str + dst_pos) 0 in
              let m := val_set_type m val JSON_STRING_LONG in
              let m := val_set_payload m val slen in
              (val, c, set_mem w (set_str_ptr m val str))
    end.

(** The recursive descent.  [parse_value], [parse_array] and [parse_object]
    are mutually recursive in C; here [parse_value] recurses on a fuel and
    hands itself, with one unit less, to the two container parsers.  [None]
    means that the fuel ran out, never that the C function returned [NULL]:
    a [NULL] result is [Some (0, _, _)].  Every call consumes at least one
    byte before it recurses or iterates, so [len - pos + 1] units suffice
    (lemma [parse_value_fuel] below). *)

Definition parser (A : Type) : Type := parser_ctx -> world -> option (A * parser_ctx * world).

(** The [while (1)] loop of [parse_array]; the boolean tells a [break] from
    an error return. *)
Fixpoint array_loop (pv : parser Z) (n : nat) (arr first prev : Z) : parser bool :=
  fun c w =>
  match n with
  | O => None
  | S k =>
      match pv c w with
      | None => None
      | Some (elem, c, w) =>
          if elem =? 0 then Some (false, c, w)
          else
            let m := if first =? 0 then set_child (mem w) arr elem
                     else set_next (mem w) prev elem in
            let first := if first =? 0 then elem else first in
            let w := set_mem w m in
            let prev := elem in
            let '(ch, c) := peek w c in
            if ch =? 93 then Some (true, snd (consume w c 93), w)
            else
              let '(ok, c) := consume w c 44 in
              if negb ok
              then Some (false, c, ctx_error w c JSON_ERROR_SYNTAX "Expected ',' or ']'"%string)
              else if negb (Z.land (flags c) JSON_PARSE_ALLOW_TRAILING =? 0) then
                let '(ch, c) := peek w c in
                if ch =? 93 then Some (true, snd (consume w c 93), w)
                else array_loop pv k arr first prev c w
              else array_loop pv k arr first prev c w
      end
  end.

Definition parse_array (pv : parser Z) (n : nat) : parser Z :=
  fun c w =>
  let '(ok, c) := consume w c 91 in
  if negb ok then Some (0, c, ctx_error w c JSON_ERROR_SYNTAX "Expected '['"%string)
  else if (max_depth c >? 0) && (depth c >=? max_depth c)
  then Some (0, c, ctx_error w c JSON_ERROR_DEPTH "Maximum depth exceeded"%string)
  else
    let c := set_depth c (depth c + 1) in
    let '(arr, d, w) := arena_alloc_val (doc c) w in
    let c := set_doc c d in
    if arr =? 0 then Some (0, c, w)
    else
      let w := set_mem w (val_set_type (mem w) arr JSON_ARRAY) in
      let '(ch, c) := peek w c in
      if ch =? 93 then
        let c := snd (consume w c 93) in
        Some (arr, set_depth c (depth c - 1), w)
      else
        match array_loop pv n arr 0 0 c w with
        | None => None
        | Some (false, c, w) => Some (0, c, w)
        | Some (true, c, w) => Some (arr, set_depth c (depth c - 1), w)
        end.

Fixpoint object_loop (pv : parser Z) (n : nat) (obj first prev : Z) : parser bool :=
  fun c w =>
  match n with
  | O => None
  | S k =>
      let '(ch, c) := peek w c in
      if negb (ch =? 34)
      then Some (false, c, ctx_error w c JSON_ERROR_SYNTAX "Expected string key"%string)
      else
        let '(key, c, w) := parse_string c w in
        if key =? 0 then Some (false, c, w)
        else
          let '(ok, c) := consume w c 58 in
          if negb ok
          then Some (false, c, ctx_error w c JSON_ERROR_SYNTAX "Expected ':'"%string)
          else
            match pv c w with
            | None => None
            | Some (value, c, w) =>
                if value =? 0 then Some (false, c, w)
                else
                  (* Link key to value *)
                  let m := set_child (mem w) key value in
                  let m := if first =? 0 then set_child m obj key
                           else set_next m prev key in
                  let first := if first =? 0 then key else first in
                  let w := set_mem w m in
                  let prev := key in
                  let '(ch, c) := peek w c in
                  if ch =? 125 then Some (true, snd (consume w c 125), w)
                  else
                    let '(ok, c) := consume w c 44 in
                    if negb ok
                    then Some (false, c,
                               ctx_error w c JSON_ERROR_SYNTAX "Expected ',' or '}'"%string)
                    else if negb (Z.land (flags c) JSON_PARSE_ALLOW_TRAILING =? 0) then
                      let '(ch, c) := peek w c in
                      if ch =? 125 then Some (true, snd (consume w c 125), w)
                      else object_loop pv k obj first prev c w
                    else object_loop pv k obj first prev c w
            end
  end.

Definition parse_object (pv : parser Z) (n : nat) : parser Z :=
  fun c w =>
  let '(ok, c) := consume w c 123 in
  if negb ok then Some (0, c, ctx_error w c JSON_ERROR_SYNTAX "Expected '{'"%string)
  else if (max_depth c >? 0) && (depth c >=? max_depth c)
  then Some (0, c, ctx_error w c JSON_ERROR_DEPTH "Maximum depth exceeded"%string)
  else
    let c := set_depth c (depth c + 1) in
    let '(obj, d, w) := arena_alloc_val (doc c) w in
    let c := set_doc c d in
    if obj =? 0 then Some (0, c, w)
    else
      let w := set_mem w (val_set_type (mem w) obj JSON_OBJECT) in
      let '(ch, c) := peek w c in
      if ch =? 125 then
        let c := snd (consume w c 125) in
        Some (obj, set_depth c (depth c - 1), w)
      else
        match object_loop pv n obj 0 0 c w with
        | None => None
        | Some (false, c, w) => Some (0, c, w)
        | Some (true, c, w) => Some (obj, set_depth c (depth c - 1), w)
        end.

Fixpoint parse_value (fuel : nat) : parser Z :=
  fun c w =>
  match fuel with
  | O => None
  | S f =>
      let '(ch, c) := peek w c in
      if ch =? 110 then Some (parse_null c w)
      else if ch =? 116 then Some (parse_true c w)
      else if ch =? 102 then Some (parse_false c w)
      else if ch =? 34 then Some (parse_string c w)
      else if ch =? 91 then parse_array (parse_value f) f c w
      else if ch =? 123 then parse_object (parse_value f) f c w
      else if (ch =? 45) || isdigit ch then Some (parse_number c w)
      else if ch =? 0
      then Some (0, c, ctx_error w c JSON_ERROR_SYNTAX "Unexpected end of input"%string)
      else Some (0, c, ctx_error w c JSON_ERROR_SYNTAX "Unexpected character"%string)
  end.

(** [parse_json]: the outer [option] is the fuel, the inner one the
    [struct json_doc *] result ([None] for [NULL]). *)
Definition parse_json (json len_ : Z) (opts : option json_parse_options) (w : world)
    : option (option json_doc * world) :=
  let estimated_values := len_ / 4 + 1 in
  let arena_bytes := estimated_values * sizeof_json_val in
  let arena_bytes := if arena_bytes <? 64 * 1024 then 64 * 1024 else arena_bytes in
  match arena_create arena_bytes w with
  | (None, w) =>
      Some (None, set_error w JSON_ERROR_MEMORY 0 0 0 "Failed to allocate document"%string)
  | (Some d, w) =>
      let c := mk_ctx json len_ 0 1 1 d
                 (match opts with Some o => opt_flags o | None => JSON_PARSE_DEFAULT end)
                 (match opts with Some o => opt_max_depth o | None => 0 end)
                 0 in
      match parse_value (S (Z.to_nat len_)) c w with
      | None => None
      | Some (root_, c, w) =>
          if root_ =? 0 then Some (None, arena_destroy (doc c) w)
          else
            let d := doc c in
            let d := mk_doc (arena d) (arena_size d) (arena_used d) (strings d)
                       (strings_size d) (strings_used d) root_ (value_count d)
                       (cpu_features d) in
            let c := skip_ws w (set_doc c d) in
            if pos c <? len c
            then Some (None,
                       arena_destroy d
                         (ctx_error w c JSON_ERROR_SYNTAX "Trailing content after JSON"%string))
            else Some (Some d, w)
      end
  end.

(** ** json_asm.c *)

(** [json_init]: the feature probe is read once.  The kernel table it fills
    is the subject of the section on kernels below. *)
Definition json_init (w : world) : world :=
  if g_initialized w then w
  else mk_world (mem w) (brk w) (live w) (g_last_error w) true (hw_features w)
                (hw_features w).

Definition json_parse_opts (json len_ : Z) (opts : option json_parse_options) (w : world)
    : option (option json_doc * world) :=
  let w := if g_initialized w then w else json_init w in
  if (json =? 0) || (len_ =? 0)
  then Some (None, set_error w JSON_ERROR_SYNTAX 0 1 1 "Empty input"%string)
  else parse_json json len_ opts w.

Definition json_parse (json len_ : Z) (w : world) : option (option json_doc * world) :=
  json_parse_opts json len_ None w.

Definition json_doc_root (d : option json_doc) : Z :=
  match d with Some d => root d | None => 0 end.

Definition json_doc_free (d : option json_doc) (w : world) : world :=
  match d with Some d => arena_destroy d w | None => w end.

Definition json_doc_count (d : option json_doc) : Z :=
  match d with Some d => value_count d | None => 0 end.

Definition json_get_type (m : gmap Z Z) (val : Z) : Z :=
  if val =? 0 then JSON_NULL
  else
    let t := val_get_type m val in
    if (t =? JSON_STRING_SHORT) || (t =? JSON_STRING_LONG) then JSON_STRING else t.

Definition json_is_null (m : gmap Z Z) (val : Z) : bool :=
  negb (val =? 0) && (val_get_type m val =? JSON_NULL).
Definition json_is_int (m : gmap Z Z) (val : Z) : bool :=
  negb (val =? 0) && (val_get_type m val =? JSON_INT).
Definition json_is_float (m : gmap Z Z) (val : Z) : bool :=
  negb (val =? 0) && (val_get_type m val =? JSON_FLOAT).
Definition json_is_string (m : gmap Z Z) (val : Z) : bool :=
  if val =? 0 then false
  else
    let t := val_get_type m val in
    (t =? JSON_STRING_SHORT) || (t =? JSON_STRING_LONG).
Definition json_is_array (m : gmap Z Z) (val : Z) : bool :=
  negb (val =? 0) && (val_get_type m val =? JSON_ARRAY).
Definition json_is_object (m : gmap Z Z) (val : Z) : bool :=
  negb (val =? 0) && (val_get_type m val =? JSON_OBJECT).

Definition json_get_bool (m : gmap Z Z) (val : Z) : bool :=
  negb (val =? 0) && (val_get_type m val =? JSON_TRUE).

(** The result is the signed 64-bit value. *)
Definition json_get_int (m : gmap Z Z) (val : Z) : Z :=
  if val =? 0 then 0
  else
    let t := val_get_type m val in
    if t =? JSON_INT then
      let payload := val_get_payload m val in
      (* Sign-extend from 60 bits to 64 bits *)
      if negb (Z.land payload (Z.shiftl 1 59) =? 0)
      then s64 (Z.lor payload 0xF000000000000000)
      else s64 payload
    else if t =? JSON_FLOAT then double_to_int64 (float_val m val)
    else 0.


(** The result is the bit pattern of the double; [0] is [0.0]. *)
Definition json_get_num (m : gmap Z Z) (val : Z) : Z :=
  if val =? 0 then 0
  else
    let t := val_get_type m val in
    if t =? JSON_FLOAT then float_val m val
    else if t =? JSON_INT then int64_to_double (json_get_int m val)
    else 0.

Definition json_get_str (m : gmap Z Z) (val : Z) : Z :=
  if val =? 0 then 0
  else
    let t := val_get_type m val in
    if t =? JSON_STRING_SHORT then val_short_str_ptr val
    else if t =? JSON_STRING_LONG then str_ptr m val
    else 0.

Definition json_get_str_len (m : gmap Z Z) (val : Z) : Z :=
  if val =? 0 then 0
  else
    let t := val_get_type m val in
    if t =? JSON_STRING_SHORT then val_short_str_len m val
    else if t =? JSON_STRING_LONG then val_get_payload m val
    else 0.

(** Walks over sibling lists and C strings take a fuel: a list that does not
    end in [NULL] makes the C loop run forever, and [None] stands for that. *)
Fixpoint strlen_from (n : nat) (m : gmap Z Z) (p acc : Z) : option Z :=
  match n with
  | O => None
  | S k => if load8 m p =? 0 then Some acc else strlen_from k m (p + 1) (acc + 1)
  end.

Definition strlen (n : nat) (m : gmap Z Z) (p : Z) : option Z := strlen_from n m p 0.

Fixpoint obj_getn_loop (n : nat) (m : gmap Z Z) (chld key key_len : Z) : option Z :=
  match n with
  | O => None
  | S k =>
      if chld =? 0 then Some 0
      else
        let child_key_len := json_get_str_len m chld in
        if (child_key_len =? key_len) &&
           (let child_key := json_get_str m chld in
            negb (child_key =? 0) && memcmp_eq m child_key key key_len)
        then Some (child m chld)
        else obj_getn_loop k m (next m chld) key key_len
  end.

Definition json_obj_getn (n : nat) (m : gmap Z Z) (obj key key_len : Z) : option Z :=
  if (obj =? 0) || (key =? 0) || negb (val_get_type m obj =? JSON_OBJECT) then Some 0
  else obj_getn_loop n m (child m obj) key key_len.

Definition json_obj_get (n : nat) (m : gmap Z Z) (obj key : Z) : option Z :=
  if key =? 0 then Some 0
  else
    match strlen n m key with
    | None => None
    | Some l => json_obj_getn n m obj key l
    end.

Definition json_obj_has (n : nat) (m : gmap Z Z) (obj key : Z) : option bool :=
  match json_obj_get n m obj key with
  | None => None
  | Some p => Some (negb (p =? 0))
  end.

(** [while (child) { count++; child = child->next; }]. *)
Fixpoint count_siblings (n : nat) (m : gmap Z Z) (chld count : Z) : option Z :=
  match n with
  | O => None
  | S k => if chld =? 0 then Some count else count_siblings k m (next m chld) (count + 1)
  end.

Definition json_obj_size (n : nat) (m : gmap Z Z) (obj : Z) : option Z :=
  if (obj =? 0) || negb (val_get_type m obj =? JSON_OBJECT) then Some 0
  else count_siblings n m (child m obj) 0.

Definition json_obj_first (m : gmap Z Z) (obj : Z) : Z :=
  if (obj =? 0) || negb (val_get_type m obj =? JSON_OBJECT) then 0 else child m obj.

Definition json_obj_next (m : gmap Z Z) (val : Z) : Z :=
  if val =? 0 then 0 else next m val.

Definition json_obj_key (m : gmap Z Z) (val : Z) : Z := json_get_str m val.
Definition json_obj_key_len (m : gmap Z Z) (val : Z) : Z := json_get_str_len m val.

(** [while (child && i < index) { child = child->next; i++; }]: the loop runs
    at most [index] times. *)
Fixpoint arr_get_loop (n : nat) (m : gmap Z Z) (chld i index : Z) : Z :=
  match n with
  | O => chld
  | S k =>
      if negb (chld =? 0) && (i <? index)
      then arr_get_loop k m (next m chld) (i + 1) index
      else chld
  end.

Definition json_arr_get (m : gmap Z Z) (arr index : Z) : Z :=
  if (arr =? 0) || negb (val_get_type m arr =? JSON_ARRAY) then 0
  else arr_get_loop (Z.to_nat index) m (child m arr) 0 index.

Definition json_arr_size (n : nat) (m : gmap Z Z) (arr : Z) : option Z :=
  if (arr =? 0) || negb (val_get_type m arr =? JSON_ARRAY) then Some 0
  else count_siblings n m (child m arr) 0.

Definition json_arr_first (m : gmap Z Z) (arr : Z) : Z :=
  if (arr =? 0) || negb (val_get_type m arr =? JSON_ARRAY) then 0 else child m arr.

Definition json_arr_next (m : gmap Z Z) (val : Z) : Z :=
  if val =? 0 then 0 else next m val.

(** [json_equals]: the pairwise loop over two arrays and the [foreach] over
    the keys of the left object, each given the recursive comparison. *)
Fixpoint equals_array_loop (eq : Z -> Z -> option bool) (n : nat) (m : gmap Z Z) (ca cb : Z)
    : option bool :=
  match n with
  | O => None
  | S k =>
      if negb (ca =? 0) && negb (cb =? 0) then
        match eq ca cb with
        | None => None
        | Some false => Some false
        | Some true => equals_array_loop eq k m (json_arr_next m ca) (json_arr_next m cb)
        end
      else Some ((ca =? 0) && (cb =? 0))
  end.

Fixpoint equals_object_loop (eq : Z -> Z -> option bool) (n : nat) (m : gmap Z Z) (key b : Z)
    : option bool :=
  match n with
  | O => None
  | S k =>
      if key =? 0 then Some true
      else
        let va := child m key in
        match json_obj_getn n m b (json_obj_key m key) (json_obj_key_len m key) with
        | None => None
        | Some vb =>
            if vb =? 0 then Some false
            else
              match eq va vb with
              | None => None
              | Some false => Some false
              | Some true => equals_object_loop eq k m (json_obj_next m key) b
              end
        end
  end.

Fixpoint json_equals (fuel : nat) (m : gmap Z Z) (a b : Z) : option bool :=
  match fuel with
  | O => None
  | S f =>
      if a =? b then Some true
      else if (a =? 0) || (b =? 0) then Some false
      else
        let ta := json_get_type m a in
        let tb := json_get_type m b in
        if negb (ta =? tb) then Some false
        else if (ta =? JSON_NULL) || (ta =? JSON_TRUE) || (ta =? JSON_FALSE) then Some true
        else if ta =? JSON_INT then Some (json_get_int m a =? json_get_int m b)
        else if ta =? JSON_FLOAT then Some (double_eq (json_get_num m a) (json_get_num m b))
        else if ta =? JSON_STRING then
          let la := json_get_str_len m a in
          let lb := json_get_str_len m b in
          if negb (la =? lb) then Some false
          else Some (memcmp_eq m (json_get_str m a) (json_get_str m b) la)
        else if ta =? JSON_ARRAY then
          equals_array_loop (json_equals f m) f m (json_arr_first m a) (json_arr_first m b)
        else if ta =? JSON_OBJECT then
          match json_obj_size f m a, json_obj_size f m b with
          | Some sa, Some sb =>
              if negb (sa =? sb) then Some false
              else equals_object_loop (json_equals f m) f m (json_obj_first m a) b
          | _, _ => None
          end
        else Some false
  end.

(** ** Callers: input buffers and whole-program runs *)

Definition bytes_of_string (s : string) : list Z :=
  map (fun a => Z.of_N (N_of_ascii a)) (list_ascii_of_string s).

(** A process that has not called into the library yet. *)
Definition fresh_world : world :=
  mk_world ∅ 4096 ∅ (mk_error_info JSON_OK 0 0 0 EmptyString) false 0 0.

(** The caller's buffer: a [malloc]ed, NUL-terminated copy of the text. *)
Definition place_string (bytes : list Z) (w : world) : Z * world :=
  let '(p, w) := malloc (Z.of_nat (length bytes) + 1) w in
  (p, set_mem w (write_bytes (mem w) p (bytes ++ [0]))).

(** [json_parse_opts(text, strlen(text), opts)] in a fresh process. *)
Definition parse_text (bytes : list Z) (opts : option json_parse_options)
    : option (option json_doc * world) :=
  let '(p, w) := place_string bytes fresh_world in
  json_parse_opts p (Z.of_nat (length bytes)) opts w.

(** The state in which [parse_json] hands the text to [parse_value]: the
    library initialised, the document created, the cursor at the start. *)
Definition token_start (bytes : list Z) : parser_ctx * world :=
  let '(p, w) := place_string bytes fresh_world in
  let '(d, w) := arena_create (64 * 1024) (json_init w) in
  (mk_ctx p (Z.of_nat (length bytes)) 0 1 1
     (default (mk_doc 0 0 0 0 0 0 0 0 0) d) JSON_PARSE_DEFAULT 0 0, w).

(** ** libc: [snprintf] conversions used by the serializer *)

Fixpoint dec_digits (n : nat) (v : Z) (acc : list Z) : list Z :=
  match n with
  | O => acc
  | S k => if v <? 10 then (48 + v) :: acc else dec_digits k (v / 10) ((48 + v mod 10) :: acc)
  end.

Definition fmt_unsigned (v : Z) : list Z := dec_digits (S (Z.to_nat (Z.log2 v))) v [].

(** ["%lld"]. *)
Definition fmt_lld (v : Z) : list Z :=
  if v <? 0 then 45 :: fmt_unsigned (- v) else fmt_unsigned v.

Definition round_div (n d : Z) : Z :=
  let q := n / d in
  let r := n mod d in
  if (2 * r >? d) || ((2 * r =? d) && Z.odd q) then q + 1 else q.

Definition pow10_le (x n d : Z) : bool :=
  if 0 <=? x then d * 10 ^ x <=? n else d <=? n * 10 ^ (- x).

Fixpoint log10_search (k : nat) (x n d : Z) : Z :=
  match k with
  | O => x
  | S k' => if pow10_le (x + 1) n d then log10_search k' (x + 1) n d else x
  end.

(** The [x] with [10^x <= n/d < 10^(x+1)]. *)
Definition floor_log10 (n d : Z) : Z :=
  log10_search 4 ((Z.log2 n - Z.log2 d - 1) * 30103 / 100000 - 1) n d.

Fixpoint strip_zeros_rev (l : list Z) : list Z :=
  match l with
  | c :: t => if c =? 48 then strip_zeros_rev t else l
  | [] => []
  end.

Definition strip_trailing_zeros (l : list Z) : list Z := rev (strip_zeros_rev (rev l)).

Definition with_fraction (int_part frac : list Z) : list Z :=
  match strip_trailing_zeros frac with
  | [] => int_part
  | f => int_part ++ 46 :: f
  end.

(** ["%.17g"] of a finite double. *)
Definition fmt_17g (d : Z) : list Z :=
  let sign := if dbl_neg d then [45] else [] in
  if dbl_mant d =? 0 then sign ++ [48]
  else
    let n := dbl_num d in
    let dn := dbl_den d in
    let x := floor_log10 n dn in
    let digits :=
      if 0 <=? 16 - x then round_div (n * 10 ^ (16 - x)) dn
      else round_div n (dn * 10 ^ (x - 16)) in
    let x := if digits =? 10 ^ 17 then x + 1 else x in
    let digits := if digits =? 10 ^ 17 then 10 ^ 16 else digits in
    let ds := fmt_unsigned digits in
    if (x <? -4) || (x >=? 17) then
      let e := fmt_unsigned (Z.abs x) in
      let e := if Z.abs x <? 10 then 48 :: e else e in
      sign ++ with_fraction (take 1 ds) (drop 1 ds)
           ++ 101 :: (if x <? 0 then 45 else 43) :: e
    else if 0 <=? x then
      sign ++ with_fraction (take (Z.to_nat (x + 1)) ds) (drop (Z.to_nat (x + 1)) ds)
    else
      sign ++ with_fraction [48] (repeat 48 (Z.to_nat (- x - 1)) ++ ds).

(** ** stringify.c *)

Record strbuf := mk_strbuf {
  data : Z;
  sb_len : Z;
  cap : Z
}.

Definition strbuf_init (initial_cap : Z) (w : world) : option strbuf * world :=
  let '(p, w) := malloc initial_cap w in
  if p =? 0 then (None, w) else (Some (mk_strbuf p 0 initial_cap), w).

Definition strbuf_free (sb : strbuf) (w : world) : strbuf * world :=
  (mk_strbuf 0 0 0, free (data sb) w).

Definition strbuf_grow (sb : strbuf) (needed : Z) (w : world) : bool * strbuf * world :=
  if sb_len sb + needed <=? cap sb then (true, sb, w)
  else
    let new_cap := cap sb * 2 in
    let new_cap := grow_size (Z.to_nat (sb_len sb + needed)) new_cap (sb_len sb + needed) in
    let '(new_data, w) := realloc (data sb) new_cap w in
    if new_data =? 0 then (false, sb, w)
    else (true, mk_strbuf new_data (sb_len sb) new_cap, w).

(** [strbuf_append(sb, str, len)], given the [len] bytes found at [str]. *)
Definition strbuf_append (bytes : list Z) (sb : strbuf) (w : world) : bool * strbuf * world :=
  let n := Z.of_nat (length bytes) in
  let '(ok, sb, w) := strbuf_grow sb n w in
  if negb ok then (false, sb, w)
  else
    (true, mk_strbuf (data sb) (sb_len sb + n) (cap sb),
     set_mem w (write_bytes (mem w) (data sb + sb_len sb) bytes)).

Definition strbuf_append_char (ch : Z) : strbuf -> world -> bool * strbuf * world :=
  strbuf_append [ch].

(** [if (!f(..)) return false; rest]. *)
Definition and_then (r : bool * strbuf * world)
    (k : strbuf -> world -> bool * strbuf * world) : bool * strbuf * world :=
  let '(ok, sb, w) := r in
  if ok then k sb w else (false, sb, w).

Definition and_then_opt (r : option (bool * strbuf * world))
    (k : strbuf -> world -> option (bool * strbuf * world)) : option (bool * strbuf * world) :=
  match r with
  | None => None
  | Some (ok, sb, w) => if ok then k sb w else Some (false, sb, w)
  end.

Definition hex_digits (i : Z) : Z :=
  nth (Z.to_nat i) (bytes_of_string "0123456789abcdef") 0.

(** What [stringify_string] appends for one byte. *)
Definition escape_byte (c : Z) : list Z :=
  if c =? 34 then [92; 34]
  else if c =? 92 then [92; 92]
  else if c =? 8 then [92; 98]
  else if c =? 12 then [92; 102]
  else if c =? 10 then [92; 110]
  else if c =? 13 then [92; 114]
  else if c =? 9 then [92; 116]
  else if c <? 0x20 then
    [92; 117; 48; 48; hex_digits (Z.land (Z.shiftr c 4) 0xF); hex_digits (Z.land c 0xF)]
  else [c].

Fixpoint stringify_string_loop (n : nat) (str i : Z) (sb : strbuf) (w : world)
    : bool * strbuf * world :=
  match n with
  | O => (true, sb, w)
  | S k =>
      and_then (strbuf_append (escape_byte (load8 (mem w) (str + i))) sb w)
               (stringify_string_loop k str (i + 1))
  end.

Definition stringify_string (str slen : Z) (sb : strbuf) (w : world) : bool * strbuf * world :=
  and_then (strbuf_append_char 34 sb w) (fun sb w =>
  and_then (stringify_string_loop (Z.to_nat slen) str 0 sb w) (strbuf_append_char 34)).

Definition stringify_number (val : Z) (sb : strbuf) (w : world) : bool * strbuf * world :=
  let t := val_get_type (mem w) val in
  let buf :=
    if t =? JSON_INT then fmt_lld (json_get_int (mem w) val)
    else
      let d := float_val (mem w) val in
      if isnan d then bytes_of_string "null"
      else if isinf d then bytes_of_string "null"
      else fmt_17g d in
  strbuf_append buf sb w.

Definition is_pretty (opts : option json_stringify_options) : bool :=
  match opts with
  | Some o => negb (Z.land (sopt_flags o) JSON_STRINGIFY_PRETTY =? 0)
  | None => false
  end.

Fixpoint append_spaces (n : nat) (sb : strbuf) (w : world) : bool * strbuf * world :=
  match n with
  | O => (true, sb, w)
  | S k => and_then (strbuf_append_char 32 sb w) (append_spaces k)
  end.

Fixpoint indent_levels (levels : nat) (per_level : nat) (sb : strbuf) (w : world)
    : bool * strbuf * world :=
  match levels with
  | O => (true, sb, w)
  | S k => and_then (append_spaces per_level sb w) (indent_levels k per_level)
  end.

Definition stringify_indent (opts : option json_stringify_options) (dep : Z)
    (sb : strbuf) (w : world) : bool * strbuf * world :=
  match opts with
  | Some o =>
      if Z.land (sopt_flags o) JSON_STRINGIFY_PRETTY =? 0 then (true, sb, w)
      else
        let nl := match newline o with Some s => s | None => [10] end in
        and_then (strbuf_append nl sb w)
                 (indent_levels (Z.to_nat dep) (Z.to_nat (indent o)))
  | None => (true, sb, w)
  end.

Definition when_pretty (opts : option json_stringify_options)
    (f : strbuf -> world -> bool * strbuf * world) (sb : strbuf) (w : world)
    : bool * strbuf * world :=
  if is_pretty opts then f sb w else (true, sb, w).

Definition serializer : Type := strbuf -> world -> option (bool * strbuf * world).

(** The [while (elem)] loop of [stringify_array]. *)
Fixpoint stringify_array_loop (sv : Z -> Z -> serializer) (n : nat)
    (opts : option json_stringify_options) (dep elem : Z) (first : bool) : serializer :=
  fun sb w =>
  match n with
  | O => None
  | S k =>
      if elem =? 0 then
        Some (and_then (if first then (true, sb, w)
                        else when_pretty opts (stringify_indent opts dep) sb w)
                       (strbuf_append_char 93))
      else
        and_then_opt
          (Some (and_then (if first then (true, sb, w) else strbuf_append_char 44 sb w)
                          (when_pretty opts (stringify_indent opts (dep + 1)))))
          (fun sb w =>
           and_then_opt (sv elem (dep + 1) sb w)
             (fun sb w =>
              stringify_array_loop sv k opts dep (next (mem w) elem) false sb w))
  end.

Fixpoint stringify_object_loop (sv : Z -> Z -> serializer) (n : nat)
    (opts : option json_stringify_options) (dep key : Z) (first : bool) : serializer :=
  fun sb w =>
  match n with
  | O => None
  | S k =>
      if key =? 0 then
        Some (and_then (if first then (true, sb, w)
                        else when_pretty opts (stringify_indent opts dep) sb w)
                       (strbuf_append_char 125))
      else
        and_then_opt
          (Some
             (and_then (if first then (true, sb, w) else strbuf_append_char 44 sb w)
                (fun sb w =>
                 and_then (when_pretty opts (stringify_indent opts (dep + 1)) sb w)
                   (fun sb w =>
                    let key_str := json_get_str (mem w) key in
                    let key_len := json_get_str_len (mem w) key in
                    and_then (stringify_string key_str key_len sb w)
                      (fun sb w =>
                       and_then (strbuf_append_char 58 sb w)
                                (when_pretty opts (strbuf_append_char 32)))))))
          (fun sb w =>
           and_then_opt (sv (child (mem w) key) (dep + 1) sb w)
             (fun sb w =>
              stringify_object_loop sv k opts dep (next (mem w) key) false sb w))
  end.

Fixpoint stringify_value_impl (fuel : nat) (opts : option json_stringify_options)
    (val dep : Z) : serializer :=
  fun sb w =>
  match fuel with
  | O => None
  | S f =>
      if val =? 0 then Some (strbuf_append (bytes_of_string "null") sb w)
      else
        let t := val_get_type (mem w) val in
        if t =? JSON_NULL then Some (strbuf_append (bytes_of_string "null") sb w)
        else if t =? JSON_FALSE then Some (strbuf_append (bytes_of_string "false") sb w)
        else if t =? JSON_TRUE then Some (strbuf_append (bytes_of_string "true") sb w)
        else if (t =? JSON_INT) || (t =? JSON_FLOAT) then Some (stringify_number val sb w)
        else if (t =? JSON_STRING_SHORT) || (t =? JSON_STRING_LONG) then
          Some (stringify_string (json_get_str (mem w) val) (json_get_str_len (mem w) val) sb w)
        else if t =? JSON_ARRAY then
          and_then_opt (Some (strbuf_append_char 91 sb w))
            (stringify_array_loop (stringify_value_impl f opts) f opts dep
                                  (child (mem w) val) true)
        else if t =? JSON_OBJECT then
          and_then_opt (Some (strbuf_append_char 123 sb w))
            (stringify_object_loop (stringify_value_impl f opts) f opts dep
                                   (child (mem w) val) true)
        else Some (strbuf_append (bytes_of_string "null") sb w)
  end.

(** [stringify_value]: the outer [option] is the fuel; the pointer is [0] when
    C returns [NULL], otherwise it is the NUL-terminated text, whose length
    without the NUL is returned with it. *)
Definition stringify_value (fuel : nat) (val : Z) (opts : option json_stringify_options)
    (w : world) : option (Z * Z * world) :=
  match strbuf_init 1024 w with
  | (None, w) => Some (0, 0, w)
  | (Some sb, w) =>
      match stringify_value_impl fuel opts val 0 sb w with
      | None => None
      | Some (false, sb, w) => Some (0, 0, snd (strbuf_free sb w))
      | Some (true, sb, w) =>
          let '(ok, sb', w) := strbuf_append_char 0 sb w in
          if negb ok then Some (0, 0, snd (strbuf_free sb' w))
          else Some (data sb', sb_len sb, w)
      end
  end.

Definition json_stringify_opts (fuel : nat) (val : Z) (opts : option json_stringify_options)
    (w : world) : option (Z * Z * world) :=
  if val =? 0 then Some (0, 0, w) else stringify_value fuel val opts w.

Definition json_stringify (fuel : nat) (val : Z) (w : world) : option (Z * Z * world) :=
  json_stringify_opts fuel val None w.

(** [json_clone]: serialize, then parse [strlen(str)] bytes of the text. *)
Definition json_clone (fuel : nat) (val : Z) (w : world) : option (option json_doc * world) :=
  match json_stringify fuel val w with
  | None => None
  | Some (str, _, w) =>
      if str =? 0 then Some (None, w)
      else
        match strlen fuel (mem w) str with
        | None => None
        | Some l =>
            match json_parse str l w with
            | None => None
            | Some (d, w) => Some (d, free str w)
            end
        end
  end.

(** ** Kernels: parse.c (scalar) and arm64/simd_arm64.c (NEON)

    A kernel reads the slice [str[0 .. len-1]]; the slice is a list of bytes
    and [len] is passed along as in C.  A vector load that runs past the end
    of the list reads zeros. *)

Definition byte_at (str : list Z) (i : Z) : Z := nth (Z.to_nat i) str 0.

Definition is_stop_byte (c : Z) : bool := (c =? 34) || (c =? 92) || (c <? 0x20).

Definition is_structural (c : Z) : bool :=
  (c =? 123) || (c =? 125) || (c =? 91) || (c =? 93) ||
  (c =? 58) || (c =? 44) || (c =? 34).

(** [for (; i < len; i++) if (stop(str[i])) return i;  return len;] *)
Fixpoint scan_from (n : nat) (str : list Z) (len_ i : Z) : Z :=
  match n with
  | O => len_
  | S k =>
      if i <? len_ then
        if is_stop_byte (byte_at str i) then i else scan_from k str len_ (i + 1)
      else len_
  end.

Definition scan_string_scalar (str : list Z) (len_ : Z) : Z :=
  scan_from (Z.to_nat len_) str len_ 0.

(** [for (; i < count; i++) if (structural(str[i])) m |= 1ULL << i;] *)
Fixpoint structural_from (n : nat) (str : list Z) (count i m : Z) : Z :=
  match n with
  | O => m
  | S k =>
      if i <? count then
        structural_from k str count (i + 1)
          (if is_structural (byte_at str i) then Z.lor m (u64 (Z.shiftl 1 i)) else m)
      else m
  end.

(** The pair is the returned count and [*mask]. *)
Definition find_structural_scalar (str : list Z) (len_ : Z) : Z * Z :=
  let count := if len_ <? 64 then len_ else 64 in
  (count, structural_from (Z.to_nat count) str count 0 0).

(** [result = result * 10 + (str[i] - '0')] on [int64_t], wrapping. *)
Definition int64_step (result digit : Z) : Z := s64 (u64 (result * 10 + (digit - 48))).

Fixpoint digits_from (n : nat) (str : list Z) (len_ i result : Z) : Z * Z :=
  match n with
  | O => (result, i)
  | S k =>
      if (i <? len_) && (48 <=? byte_at str i) && (byte_at str i <=? 57)
      then digits_from k str len_ (i + 1) (int64_step result (byte_at str i))
      else (result, i)
  end.

(** The pair is the returned value and [*consumed]. *)
Definition parse_int_scalar (str : list Z) (len_ : Z) : Z * Z :=
  let negative := (0 <? len_) && (byte_at str 0 =? 45) in
  let i := if negative then 1 else 0 in
  let '(result, i) := digits_from (Z.to_nat (len_ - i)) str len_ i 0 in
  (if negative then s64 (u64 (- result)) else result, i).

(** *** NEON: a [uint8x16_t] is the list of its sixteen lanes *)

Definition vdupq_n_u8 (c : Z) : list Z := repeat c 16.

Definition vld1q_u8 (str : list Z) (p : Z) : list Z :=
  map (fun i => byte_at str (p + Z.of_nat i)) (seq 0 16).

Definition vceqq_u8 (a b : list Z) : list Z :=
  zip_with (fun x y => if x =? y then 0xFF else 0) a b.

Definition vcltq_u8 (a b : list Z) : list Z :=
  zip_with (fun x y => if x <? y then 0xFF else 0) a b.

Definition vorrq_u8 (a b : list Z) : list Z := zip_with Z.lor a b.

Fixpoint le_value (l : list Z) : Z :=
  match l with
  | [] => 0
  | b :: t => b + 256 * le_value t
  end.

(** [vgetq_lane_u64(vreinterpretq_u64_u8(v), lane)]. *)
Definition vgetq_lane_u64 (v : list Z) (lane : nat) : Z :=
  le_value (take 8 (drop (8 * lane) v)).

(** [for (i = 0; i < 8; i++) if ((x >> (i * 8)) & 0xFF) return base + i;]
    with [None] when the loop falls through. *)
Fixpoint first_set_byte (n : nat) (x i : Z) : option Z :=
  match n with
  | O => None
  | S k =>
      if negb (Z.land (Z.shiftr x (i * 8)) 0xFF =? 0) then Some i
      else first_set_byte k x (i + 1)
  end.

Definition chunk_match (str : list Z) (p : Z) : list Z :=
  let chunk := vld1q_u8 str p in
  let quote_match := vceqq_u8 chunk (vdupq_n_u8 34) in
  let bslash_match := vceqq_u8 chunk (vdupq_n_u8 92) in
  let ctrl_match := vcltq_u8 chunk (vdupq_n_u8 0x20) in
  vorrq_u8 (vorrq_u8 quote_match bslash_match) ctrl_match.

(** [while (pos + 16 <= len) { ... pos += 16; }] followed by the scalar
    tail; [n] bounds the number of chunks. *)
Fixpoint scan_chunks (n : nat) (str : list Z) (len_ p : Z) : Z :=
  match n with
  | O => scan_from (Z.to_nat (len_ - p)) str len_ p
  | S k =>
      if p + 16 <=? len_ then
        let any_match := chunk_match str p in
        let low := vgetq_lane_u64 any_match 0 in
        let high := vgetq_lane_u64 any_match 1 in
        match (if negb (low =? 0) then first_set_byte 8 low 0 else None) with
        | Some i => p + i
        | None =>
            match (if negb (high =? 0) then first_set_byte 8 high 0 else None) with
            | Some i => p + 8 + i
            | None => scan_chunks k str len_ (p + 16)
            end
        end
      else scan_from (Z.to_nat (len_ - p)) str len_ p
  end.

Definition scan_string_neon (str : list Z) (len_ : Z) : Z :=
  if len_ =? 0 then 0 else scan_chunks (Z.to_nat (len_ / 16)) str len_ 0.

(** The vector comparison of the source feeds only the unused [result]; the
    mask that is returned comes from the byte loop over [count]. *)
Definition find_structural_neon (str : list Z) (len_ : Z) : Z * Z :=
  if len_ =? 0 then (0, 0)
  else
    let count := if len_ <? 16 then len_ else 16 in
    (count, structural_from (Z.to_nat count) str count 0 0).

(** [while (pos + digit_count < len && isdigit) { digit_count++;
    if (digit_count >= 19) break; }] *)
Fixpoint count_digits (n : nat) (str : list Z) (len_ p digit_count : Z) : Z :=
  match n with
  | O => digit_count
  | S k =>
      if (p + digit_count <? len_) && (48 <=? byte_at str (p + digit_count)) &&
         (byte_at str (p + digit_count) <=? 57)
      then
        let digit_count := digit_count + 1 in
        if digit_count >=? 19 then digit_count
        else count_digits k str len_ p digit_count
      else digit_count
  end.

(** [for (i = 0; i < digit_count; i++) result = result * 10 + (str[pos + i] - '0');] *)
Fixpoint accumulate_digits (n : nat) (str : list Z) (p i result : Z) : Z :=
  match n with
  | O => result
  | S k => accumulate_digits k str p (i + 1) (int64_step result (byte_at str (p + i)))
  end.

Definition parse_int_neon (str : list Z) (len_ : Z) : Z * Z :=
  if len_ =? 0 then (0, 0)
  else
    let negative := byte_at str 0 =? 45 in
    let p := if negative then 1 else 0 in
    let digit_count := count_digits 19 str len_ p 0 in
    if digit_count =? 0 then (0, 0)
    else
      let result := accumulate_digits (Z.to_nat digit_count) str p 0 0 in
      (if negative then s64 (u64 (- result)) else result, p + digit_count).

(** [json_equals(root(parse(I)), root(parse(stringify(parse(I)))))]: the
    outer [option] is the fuel, the inner one is [None] when one of the three
    calls returns [NULL]. *)
Definition round_trip (fuel : nat) (bytes : list Z) : option (option bool) :=
  match parse_text bytes None with
  | None => None
  | Some (None, _) => Some None
  | Some (Some d1, w) =>
      match json_stringify fuel (root d1) w with
      | None => None
      | Some (str, l, w) =>
          if str =? 0 then Some None
          else
            match json_parse str l w with
            | None => None
            | Some (None, _) => Some None
            | Some (Some d2, w) =>
                match json_equals fuel (mem w) (root d1) (root d2) with
                | None => None
                | Some b => Some (Some b)
                end
            end
      end
  end.

(** The text [[1,1,...,1]] with [n] elements. *)
Definition array_of_ones (n : nat) : list Z :=
  [91] ++ concat (repeat [49; 44] (n - 1)) ++ [49; 93].

(** A decimal one followed by [n] zeros. *)
Definition power_of_ten_text (n : nat) : list Z := 49 :: repeat 48 n.

(** A [NULL]-terminated sibling list that starts at [p] and visits the nodes
    of [l] in order. *)
Fixpoint siblings (m : gmap Z Z) (p : Z) (l : list Z) : Prop :=
  match l with
  | [] => p = 0
  | x :: t => p = x /\ x <> 0 /\ siblings m (next m x) t
  end.

(** The key node [k] carries the [key_len] bytes found at [key]. *)
Definition key_matches (m : gmap Z Z) (k key key_len : Z) : Prop :=
  json_get_str_len m k = key_len /\
  json_get_str m k <> 0 /\
  read_bytes (Z.to_nat key_len) m (json_get_str m k) = read_bytes (Z.to_nat key_len) m key.

(** ** Vocabulary of the statements *)

(** Values that are bytes already. *)
Definition are_bytes (l : list Z) : Prop := Forall (fun b => 0 <= b < 256) l.

(** The [n] little-endian bytes of [v]. *)
Fixpoint bytes_le (n : nat) (v : Z) : list Z :=
  match n with
  | O => []
  | S k => v mod 256 :: bytes_le k (v / 256)
  end.

(** Two memories agree below an address. *)
Definition same_below (B : Z) (m m' : gmap Z Z) : Prop :=
  forall a, a < B -> load8 m' a = load8 m a.

(** The layout a document keeps while it is being built: both blocks lie at
    or above [B] (the break when the parse started) and below the current
    break, they do not overlap, and the used parts fit. *)
Record doc_ok (B : Z) (d : json_doc) (w : world) : Prop := mk_doc_ok {
  ok_B : 0 < B;
  ok_arena : B <= arena d;
  ok_strings : B <= strings d;
  ok_arena_used : 0 <= arena_used d <= arena_size d;
  ok_strings_used : 0 <= strings_used d <= strings_size d;
  ok_arena_size : 0 < arena_size d;
  ok_strings_size : 0 < strings_size d;
  ok_arena_brk : arena d + arena_size d <= brk w;
  ok_strings_brk : strings d + strings_size d <= brk w;
  ok_apart : arena d + arena_size d <= strings d \/ strings d + strings_size d <= arena d
}.

(** What [arena_alloc_val] guarantees. *)
Record alloc_val_post (B : Z) (d : json_doc) (w : world) (val : Z) (d' : json_doc) (w' : world)
    : Prop := mk_alloc_val_post {
  av_doc : doc_ok B d' w';
  av_mem : same_below B (mem w) (mem w');
  av_val : val = arena d' + arena_used d;
  av_used : arena_used d' = arena_used d + 24;
  av_strings : strings d' = strings d;
  av_strings_size : strings_size d' = strings_size d;
  av_strings_used : strings_used d' = strings_used d;
  av_strings_mem : forall b, strings d <= b < strings d + strings_size d ->
                             load8 (mem w') b = load8 (mem w) b;
  av_zero : forall b, val <= b < val + 24 -> load8 (mem w') b = 0;
  av_err : g_last_error w' = g_last_error w;
  av_brk : brk w <= brk w'
}.

(** What [arena_alloc_string] guarantees. *)
Record alloc_string_post (B : Z) (d : json_doc) (slen : Z) (w : world) (str : Z)
    (d' : json_doc) (w' : world) : Prop := mk_alloc_string_post {
  as_doc : doc_ok B d' w';
  as_mem : same_below (brk w) (mem w) (mem w');
  as_str : str = strings d' + strings_used d;
  as_used : strings_used d' = strings_used d + slen + 1;
  as_arena : arena d' = arena d;
  as_arena_size : arena_size d' = arena_size d;
  as_arena_used : arena_used d' = arena_used d;
  as_err : g_last_error w' = g_last_error w;
  as_brk : brk w <= brk w'
}.

(** A parser context over a sound document, with the cursor inside the input. *)
Record ctx_ok (B : Z) (c : parser_ctx) (w : world) : Prop := mk_ctx_ok {
  co_doc : doc_ok B (doc c) w;
  co_pos : 0 <= pos c <= len c
}.

(** A step of the cursor alone. *)
Record moves (c c' : parser_ctx) : Prop := mk_moves {
  mv_input : input c' = input c;
  mv_len : len c' = len c;
  mv_flags : flags c' = flags c;
  mv_max_depth : max_depth c' = max_depth c;
  mv_doc : doc c' = doc c;
  mv_depth : depth c' = depth c;
  mv_pos : pos c <= pos c';
  mv_pos_len : pos c <= len c -> pos c' <= len c
}.

(** A step of the parser: the cursor moves forward within the same input,
    the document stays sound, and memory below [B] is untouched. *)
Record steps (B : Z) (c : parser_ctx) (w : world) (c' : parser_ctx) (w' : world)
    : Prop := mk_steps {
  st_ok : ctx_ok B c' w';
  st_input : input c' = input c;
  st_len : len c' = len c;
  st_flags : flags c' = flags c;
  st_max_depth : max_depth c' = max_depth c;
  st_pos : pos c <= pos c';
  st_mem : same_below B (mem w) (mem w')
}.

(** A node pointer returned by a parsing function: [NULL], or a node of the
    document, with the cursor advanced and the depth restored. *)
Definition result_ok (B : Z) (c c' : parser_ctx) (r : Z) : Prop :=
  r = 0 \/ (B <= r /\ pos c < pos c' /\ depth c' = depth c).

(** What a recursive parser handed to the container loops has to satisfy. *)
Definition parser_ok (B : Z) (pv : parser Z) : Prop :=
  forall c w r c' w',
    ctx_ok B c w -> pv c w = Some (r, c', w') ->
    steps B c w c' w' /\ result_ok B c c' r.

(** A recursive parser that returns whenever fewer than [F] bytes remain. *)
Definition total_below (B F : Z) (pv : parser Z) : Prop :=
  forall c w, ctx_ok B c w -> len c - pos c < F ->
    exists r c' w', pv c w = Some (r, c', w').

(** ** String tokens, as the specification words them *)

(** UTF-8, stated arithmetically. *)
Definition utf8_encoding (cp : Z) : list Z :=
  if cp <? 0x80 then [cp]
  else if cp <? 0x800 then [0xC0 + cp / 64; 0x80 + cp mod 64]
  else if cp <? 0x10000 then
    [0xE0 + cp / 4096; 0x80 + (cp / 64) mod 64; 0x80 + cp mod 64]
  else
    [0xF0 + cp / 262144; 0x80 + (cp / 4096) mod 64;
     0x80 + (cp / 64) mod 64; 0x80 + cp mod 64].

(** The value of a hexadecimal digit. *)
Definition hex_value (c : Z) : option Z :=
  if (48 <=? c) && (c <=? 57) then Some (c - 48)
  else if (97 <=? c) && (c <=? 102) then Some (c - 87)
  else if (65 <=? c) && (c <=? 70) then Some (c - 55)
  else None.

Definition hex4 (h1 h2 h3 h4 : Z) : option Z :=
  match hex_value h1, hex_value h2, hex_value h3, hex_value h4 with
  | Some a, Some b, Some c, Some d => Some (((a * 16 + b) * 16 + c) * 16 + d)
  | _, _, _, _ => None
  end.

(** The byte a single-character escape stands for. *)
Definition escape_value (e : Z) : option Z :=
  snd <$> List.find (fun p => fst p =? e)
    [(34, 34); (92, 92); (47, 47); (98, 8); (102, 12); (110, 10); (114, 13); (116, 9)].

Definition is_high_surrogate (cp : Z) : Prop := 0xD800 <= cp <= 0xDBFF.
Definition is_low_surrogate (cp : Z) : Prop := 0xDC00 <= cp <= 0xDFFF.

(** The code point of a surrogate pair. *)
Definition pair_code_point (hi lo : Z) : Z :=
  0x10000 + (hi - 0xD800) * 1024 + (lo - 0xDC00).

(** [decodes raw bytes]: the text [raw] between two quotes is well formed and
    stands for [bytes]. *)
Inductive decodes : list Z -> list Z -> Prop :=
  | dec_nil : decodes [] []
  | dec_plain c raw bs :
      0x20 <= c < 256 -> c <> 34 -> c <> 92 ->
      decodes raw bs -> decodes (c :: raw) (c :: bs)
  | dec_escape e b raw bs :
      escape_value e = Some b ->
      decodes raw bs -> decodes (92 :: e :: raw) (b :: bs)
  | dec_unicode h1 h2 h3 h4 cp raw bs :
      hex4 h1 h2 h3 h4 = Some cp -> ~ is_high_surrogate cp ->
      decodes raw bs ->
      decodes (92 :: 117 :: h1 :: h2 :: h3 :: h4 :: raw) (utf8_encoding cp ++ bs)
  | dec_pair h1 h2 h3 h4 l1 l2 l3 l4 hi lo raw bs :
      hex4 h1 h2 h3 h4 = Some hi -> is_high_surrogate hi ->
      hex4 l1 l2 l3 l4 = Some lo -> is_low_surrogate lo ->
      decodes raw bs ->
      decodes (92 :: 117 :: h1 :: h2 :: h3 :: h4 :: 92 :: 117 :: l1 :: l2 :: l3 :: l4 :: raw)
              (utf8_encoding (pair_code_point hi lo) ++ bs).

(** The token contained an escape. *)
Definition has_escape (raw : list Z) : bool := existsb (fun c => c =? 92) raw.

(** The input of [c] holds [l] at the cursor. *)
Definition text_at (w : world) (c : parser_ctx) (l : list Z) : Prop :=
  pos c + Z.of_nat (length l) <= len c /\
  read_bytes (length l) (mem w) (input c + pos c) = l.

(** The caller's buffer lies below [B]. *)
Definition input_below (B : Z) (c : parser_ctx) : Prop :=
  0 < input c /\ input c + len c <= B.

(** The byte behind the input was allocated by the caller, below [B], and
    cannot continue a number: [strtod] and [strtoll] stop there at the
    latest.  The NUL that ends a C string is such a byte. *)
Definition terminated (B : Z) (w : world) (c : parser_ctx) : Prop :=
  input c + len c < B /\ is_number_byte (load8 (mem w) (input c + len c)) = false.

(** The same of a buffer [json] of [len] bytes the caller hands to the
    parser: the byte behind it is allocated and cannot continue a number. *)
Definition ends_input (json len : Z) (w : world) : Prop :=
  json + len < brk w /\ is_number_byte (load8 (mem w) (json + len)) = false.

(** ** The first arena *)

(** The arena has room for one node per byte that is left of the input.
    Every node is allocated for a token of at least one byte, so with this
    much room [arena_alloc_val] never calls [arena_grow]. *)
Definition node_room (c : parser_ctx) : Prop :=
  arena_used (doc c) + sizeof_json_val * (len c - pos c) <= arena_size (doc c).

(** The node arena is the block it was: [arena_grow], which moves it and
    doubles its size, was not called in between. *)
Definition same_arena (d d' : json_doc) : Prop :=
  arena d' = arena d /\ arena_size d' = arena_size d.

(** A step that starts with room leaves the arena where it is. *)
Definition arena_stays (c c' : parser_ctx) : Prop :=
  len c' = len c /\ (node_room c -> same_arena (doc c) (doc c')).

(** A step that moreover leaves room for the rest of the input. *)
Definition room_stays (c c' : parser_ctx) : Prop :=
  arena_stays c c' /\ (node_room c -> node_room c').

(** A parsing function that never grows an arena with room, and leaves room
    when it returns a node. *)
Definition keeps_arena (pv : parser Z) : Prop :=
  forall c w r c' w',
    pv c w = Some (r, c', w') -> arena_stays c c' /\ (r <> 0 -> room_stays c c').

(** The bytes behind a high-surrogate escape start with a [\u] escape of a
    low surrogate. *)
Definition low_surrogate_follows (rest : list Z) : bool :=
  match rest with
  | a :: b :: l1 :: l2 :: l3 :: l4 :: _ =>
      (a =? 92) && (b =? 117) &&
      match hex4 l1 l2 l3 l4 with
      | Some lo => (0xDC00 <=? lo) && (lo <=? 0xDFFF)
      | None => false
      end
  | _ => false
  end.

(** ** JSON texts, as the grammar words them *)

Definition is_ws_byte (b : Z) : bool := (b =? 32) || (b =? 9) || (b =? 10) || (b =? 13).

Definition is_ws (l : list Z) : Prop := Forall (fun b => is_ws_byte b = true) l.

Definition all_digits (l : list Z) : Prop := Forall (fun b => 48 <= b <= 57) l.

Inductive int_part : list Z -> Prop :=
  | ip_zero : int_part [48]
  | ip_digits d ds : 49 <= d <= 57 -> all_digits ds -> int_part (d :: ds).

Inductive frac_part : list Z -> Prop :=
  | fp_none : frac_part []
  | fp_some d ds : 48 <= d <= 57 -> all_digits ds -> frac_part (46 :: d :: ds).

Inductive exp_part : list Z -> Prop :=
  | ep_none : exp_part []
  | ep_some e sgn d ds :
      e = 101 \/ e = 69 -> sgn = [] \/ sgn = [43] \/ sgn = [45] ->
      48 <= d <= 57 -> all_digits ds -> exp_part (e :: sgn ++ d :: ds).

(** A number token.  With a fraction or an exponent the token is converted
    by [strtod], and the parser rejects it when the conversion reports a
    range error; such tokens are not counted among the inputs. *)
Inductive number_text : list Z -> Prop :=
  | nt_number sgn ip fp ep :
      sgn = [] \/ sgn = [45] -> int_part ip -> frac_part fp -> exp_part ep ->
      (fp ++ ep <> [] -> snd (strtod (sgn ++ ip ++ fp ++ ep)) = false) ->
      number_text (sgn ++ ip ++ fp ++ ep).

(** [value_text d t]: [t] is the text of a JSON value whose arrays and
    objects are nested exactly [d] deep.  Whitespace may stand wherever the
    grammar allows it. *)
Inductive value_text : nat -> list Z -> Prop :=
  | vt_null : value_text 0 [110; 117; 108; 108]
  | vt_true : value_text 0 [116; 114; 117; 101]
  | vt_false : value_text 0 [102; 97; 108; 115; 101]
  | vt_number t : number_text t -> value_text 0 t
  | vt_string raw bs : decodes raw bs -> value_text 0 (34 :: raw ++ [34])
  | vt_empty_array ws : is_ws ws -> value_text 1 (91 :: ws ++ [93])
  | vt_array ws d items :
      is_ws ws -> elements_text d items -> value_text (S d) (91 :: ws ++ items ++ [93])
  | vt_empty_object ws : is_ws ws -> value_text 1 (123 :: ws ++ [125])
  | vt_object ws d members :
      is_ws ws -> members_text d members ->
      value_text (S d) (123 :: ws ++ members ++ [125])
with elements_text : nat -> list Z -> Prop :=
  | et_last d v ws2 :
      value_text d v -> is_ws ws2 -> elements_text d (v ++ ws2)
  | et_cons d1 v ws2 ws1 d2 rest :
      value_text d1 v -> is_ws ws2 -> is_ws ws1 -> elements_text d2 rest ->
      elements_text (Nat.max d1 d2) (v ++ ws2 ++ 44 :: ws1 ++ rest)
with members_text : nat -> list Z -> Prop :=
  | mt_last raw bs ws2 ws3 d v ws4 :
      decodes raw bs -> is_ws ws2 -> is_ws ws3 -> value_text d v -> is_ws ws4 ->
      members_text d ((34 :: raw ++ [34]) ++ ws2 ++ 58 :: ws3 ++ v ++ ws4)
  | mt_cons raw bs ws2 ws3 d1 v ws4 ws1 d2 rest :
      decodes raw bs -> is_ws ws2 -> is_ws ws3 -> value_text d1 v -> is_ws ws4 ->
      is_ws ws1 -> members_text d2 rest ->
      members_text (Nat.max d1 d2)
        ((34 :: raw ++ [34]) ++ ws2 ++ 58 :: ws3 ++ v ++ ws4 ++ 44 :: ws1 ++ rest).

(** A whole input: one value, with whitespace around it. *)
Definition document_text (d : nat) (text : list Z) : Prop :=
  exists ws1 v ws2, is_ws ws1 /\ value_text d v /\ is_ws ws2 /\ text = ws1 ++ v ++ ws2.

(** The rest of the input, from the cursor on, is exactly [l]. *)
Definition remaining (w : world) (c : parser_ctx) (l : list Z) : Prop :=
  pos c + Z.of_nat (length l) = len c /\
  read_bytes (length l) (mem w) (input c + pos c) = l.

(** What may stand behind a value: nothing, whitespace, a comma or a closing
    bracket. *)
Definition is_delimiter (b : Z) : bool :=
  is_ws_byte b || (b =? 44) || (b =? 93) || (b =? 125).

Definition follows (rest : list Z) : Prop :=
  match rest with
  | [] => True
  | b :: _ => is_delimiter b = true
  end.

(** The depth limit lets a value of nesting [d] pass at depth [k]. *)
Definition within_limit (max_depth k : Z) (d : nat) : Prop :=
  max_depth <= 0 \/ k + Z.of_nat d <= max_depth.

(** The bytes of the number scanner's buffer from index [i] to its end. *)
Definition window (m : gmap Z Z) (start remaining i : Z) (l : list Z) : Prop :=
  i + Z.of_nat (length l) = remaining /\
  read_bytes (length l) m (start + i) = l.

(** [l] is empty or starts with a byte that satisfies [P]. *)
Definition next_is (P : Z -> Prop) (l : list Z) : Prop :=
  match l with
  | [] => True
  | b :: _ => P b
  end.

(** A byte at which every loop of the number scanner stops. *)
Definition ends_number (b : Z) : Prop :=
  isdigit b = false /\ b <> 46 /\ b <> 101 /\ b <> 69.

(** The bytes a value can start with. *)
Definition is_value_start (b : Z) : bool :=
  (b =? 110) || (b =? 116) || (b =? 102) || (b =? 34) || (b =? 91) || (b =? 123) ||
  (b =? 45) || isdigit b.

(** What the container loops need of the parser of values they call: on the
    text of a value, with fewer than [F] bytes left, it returns the node and
    stands behind the text when the nesting fits the limit, and fails with
    the depth error otherwise.  A value that ends the input needs the byte
    behind the input to stop the conversion of a number. *)
Definition parses_values (pv : parser Z) (F : Z) : Prop :=
  forall B c w ws d v rest,
    ctx_ok B c w -> input_below B c -> is_ws ws -> value_text d v -> follows rest ->
    remaining w c (ws ++ v ++ rest) -> len c - pos c < F ->
    (max_depth c <= 0 \/ depth c <= max_depth c) ->
    (rest = [] -> number_text v -> terminated B w c) ->
    exists r c' w',
      pv c w = Some (r, c', w') /\
      (within_limit (max_depth c) (depth c) d ->
         r <> 0 /\ pos c' = pos c + Z.of_nat (length ws) + Z.of_nat (length v)) /\
      (~ within_limit (max_depth c) (depth c) d ->
         r = 0 /\ code (g_last_error w') = JSON_ERROR_DEPTH).

(** * More of the library *)

(** ** Vocabulary of the kernels *)

(** The value of a run of decimal digits. *)
Definition decimal_value (ds : list Z) : Z :=
  fold_left (fun a d => a * 10 + (d - 48)) ds 0.

(** The same run accumulated in an [int64_t]. *)
Definition wrapped_value (ds : list Z) : Z := fold_left int64_step ds 0.

(** A slice on which no byte before [r] stops the scan, and the byte at [r]
    does if there is one. *)
Definition first_stop (str : list Z) (len_ i r : Z) : Prop :=
  i <= r <= len_ /\
  (forall j, i <= j < r -> is_stop_byte (byte_at str j) = false) /\
  (r < len_ -> is_stop_byte (byte_at str r) = true).

(** The index of the first [true], counted from [i]. *)
Fixpoint first_true (bs : list bool) (i : Z) : option Z :=
  match bs with
  | [] => None
  | b :: t => if b then Some i else first_true t (i + 1)
  end.

(** The lanes of a comparison result. *)
Definition lanes (bs : list bool) : list Z := map (fun b : bool => if b then 0xFF else 0) bs.

(** ** Vocabulary of the strings *)

(** A continuation byte of UTF-8. *)
Definition is_continuation (b : Z) : bool := (0x80 <=? b) && (b <? 0xC0).

(** The code point of one UTF-8 sequence, read by its lead byte. *)
Definition utf8_decode (bs : list Z) : option Z :=
  match bs with
  | [b0] => if (0 <=? b0) && (b0 <? 0x80) then Some b0 else None
  | [b0; b1] =>
      if (0xC0 <=? b0) && (b0 <? 0xE0) && is_continuation b1
      then Some ((b0 - 0xC0) * 64 + (b1 - 0x80)) else None
  | [b0; b1; b2] =>
      if (0xE0 <=? b0) && (b0 <? 0xF0) && is_continuation b1 && is_continuation b2
      then Some ((b0 - 0xE0) * 4096 + (b1 - 0x80) * 64 + (b2 - 0x80)) else None
  | [b0; b1; b2; b3] =>
      if (0xF0 <=? b0) && (b0 <? 0xF8) && is_continuation b1 && is_continuation b2 &&
         is_continuation b3
      then Some ((b0 - 0xF0) * 262144 + (b1 - 0x80) * 4096 + (b2 - 0x80) * 64 + (b3 - 0x80))
      else None
  | _ => None
  end.

(** What can follow a well-formed part of a string token and make it
    malformed: the end of the input, a control byte, a backslash at the end
    of the input or before a byte that is no escape letter, and a [\u] that
    is not followed by four hexadecimal digits. *)
Inductive bad_tail : list Z -> Prop :=
  | bad_end : bad_tail []
  | bad_control b rest : 0 <= b < 0x20 -> bad_tail (b :: rest)
  | bad_escape_end : bad_tail [92]
  | bad_escape e rest : escape_value e = None -> e <> 117 -> bad_tail (92 :: e :: rest)
  | bad_hex_short hs : (length hs < 4)%nat -> bad_tail (92 :: 117 :: hs)
  | bad_hex h1 h2 h3 h4 rest :
      hex4 h1 h2 h3 h4 = None -> bad_tail (92 :: 117 :: h1 :: h2 :: h3 :: h4 :: rest).

(** ** Vocabulary of the string buffer *)

(** The addresses of the block of a buffer, and the bytes appended so far. *)
Definition in_buf (sb : strbuf) (a : Z) : Prop := data sb <= a < data sb + cap sb.

Definition content (sb : strbuf) (w : world) : list Z :=
  read_bytes (Z.to_nat (sb_len sb)) (mem w) (data sb).

(** A buffer in use: its block is live, of positive capacity, and holds the
    length. *)
Record strbuf_ok (sb : strbuf) (w : world) : Prop := mk_strbuf_ok {
  so_data : 0 < data sb;
  so_len : 0 <= sb_len sb <= cap sb;
  so_cap : 0 < cap sb;
  so_live : live w !! data sb = Some (cap sb);
  so_brk : data sb + cap sb <= brk w
}.

(** What a call on the buffer may change: the buffer stays in use, possibly
    in a new block behind everything allocated before, and the memory
    outside the old block that was allocated before the call keeps its
    bytes. *)
Record strbuf_step (sb : strbuf) (w : world) (sb' : strbuf) (w' : world) : Prop :=
  mk_strbuf_step {
  ss_ok : strbuf_ok sb' w';
  ss_brk : brk w <= brk w';
  ss_frame : forall a, a < brk w -> ~ in_buf sb a -> load8 (mem w') a = load8 (mem w) a;
  ss_buf : forall a, in_buf sb' a -> in_buf sb a \/ brk w <= a;
  ss_error : g_last_error w' = g_last_error w
}.

(** The text [stringify_string] writes for the bytes of a string. *)
Definition escaped (bs : list Z) : list Z := 34 :: concat (map escape_byte bs) ++ [34].

(** ** Vocabulary of the numbers *)

(** The rest of an input at which [parse_number] gives up: no digit behind
    the optional sign, a zero before another digit, no digit behind the
    decimal point, and no digit behind the exponent letter and its optional
    sign. *)
Inductive bad_number : list Z -> Prop :=
  | bn_no_digit sgn rest :
      sgn = [] \/ sgn = [45] ->
      next_is (fun b => isdigit b = false) rest ->
      (sgn = [] -> next_is (fun b => b <> 45) rest) ->
      bad_number (sgn ++ rest)
  | bn_leading_zero sgn d rest :
      sgn = [] \/ sgn = [45] -> 48 <= d <= 57 ->
      bad_number (sgn ++ 48 :: d :: rest)
  | bn_fraction sgn ip rest :
      sgn = [] \/ sgn = [45] -> int_part ip ->
      next_is (fun b => isdigit b = false) rest ->
      bad_number (sgn ++ ip ++ 46 :: rest)
  | bn_exponent sgn ip fp e es rest :
      sgn = [] \/ sgn = [45] -> int_part ip -> frac_part fp ->
      e = 101 \/ e = 69 -> es = [] \/ es = [43] \/ es = [45] ->
      next_is (fun b => isdigit b = false) rest ->
      (es = [] -> next_is (fun b => b <> 43 /\ b <> 45) rest) ->
      bad_number (sgn ++ ip ++ fp ++ e :: es ++ rest).

(** ** Vocabulary of the cursor *)

(** The number of line feeds of a text. *)
Definition newlines (l : list Z) : Z := Z.of_nat (count_occ Z.eq_dec l 10).

(** A text without line feed. *)
Definition one_line (l : list Z) : Prop := Forall (fun b => b <> 10) l.

(** ** json_asm.c: the remaining type predicates *)

Definition json_is_bool (m : gmap Z Z) (val : Z) : bool :=
  if val =? 0 then false
  else
    let t := val_get_type m val in
    (t =? JSON_FALSE) || (t =? JSON_TRUE).

Definition json_is_true (m : gmap Z Z) (val : Z) : bool :=
  negb (val =? 0) && (val_get_type m val =? JSON_TRUE).

Definition json_is_false (m : gmap Z Z) (val : Z) : bool :=
  negb (val =? 0) && (val_get_type m val =? JSON_FALSE).

Definition json_is_number (m : gmap Z Z) (val : Z) : bool :=
  if val =? 0 then false
  else
    let t := val_get_type m val in
    (t =? JSON_INT) || (t =? JSON_FLOAT).

Definition json_is_container (m : gmap Z Z) (val : Z) : bool :=
  if val =? 0 then false
  else
    let t := val_get_type m val in
    (t =? JSON_ARRAY) || (t =? JSON_OBJECT).

(** ** Vocabulary of the malformed containers *)





(** ** Vocabulary of the documents *)

(** A JSON value as a tree; a Float carries its binary64 bit pattern, a
    string and a key their bytes. *)
Inductive jval : Type :=
  | JNull
  | JTrue
  | JFalse
  | JInt (z : Z)
  | JFloat (d : Z)
  | JString (bs : list Z)
  | JArray (vs : list jval)
  | JObject (ms : list (list Z * jval)).

(** Texts joined by commas. *)
Fixpoint join (ls : list (list Z)) : list Z :=
  match ls with
  | [] => []
  | [x] => x
  | x :: t => x ++ 44 :: join t
  end.

(** The compact text of a value: no whitespace, integers in decimal, floats
    as [%.17g] prints them and [null] for NaN and the infinities, strings
    escaped as [stringify_string] escapes them. *)
Fixpoint render (v : jval) : list Z :=
  match v with
  | JNull => bytes_of_string "null"
  | JTrue => bytes_of_string "true"
  | JFalse => bytes_of_string "false"
  | JInt z => fmt_lld z
  | JFloat d =>
      if isnan d then bytes_of_string "null"
      else if isinf d then bytes_of_string "null"
      else fmt_17g d
  | JString bs => escaped bs
  | JArray vs => 91 :: join (map render vs) ++ [93]
  | JObject ms =>
      123 :: join (map (fun kv => escaped (fst kv) ++ 58 :: render (snd kv)) ms) ++ [125]
  end.

(** The number of nodes of a value, keys included. *)
Fixpoint jsize (v : jval) : nat :=
  match v with
  | JArray vs => S (list_sum (map jsize vs))
  | JObject ms => S (list_sum (map (fun kv => S (jsize (snd kv))) ms))
  | _ => 1
  end.

(** The 24 bytes of the node at [p] lie in the region [A]. *)
Definition node_in (A : Z -> Prop) (p : Z) : Prop :=
  p <> 0 /\ forall a, p <= a < p + 24 -> A a.

(** The node at [p] is a string node that holds [bs], with its bytes in
    [A]; its string pointer is not [NULL]. *)
Definition string_node (A : Z -> Prop) (m : gmap Z Z) (p : Z) (bs : list Z) : Prop :=
  (val_get_type m p = JSON_STRING_SHORT \/ val_get_type m p = JSON_STRING_LONG) /\
  json_get_str_len m p = Z.of_nat (length bs) /\
  read_bytes (length bs) m (json_get_str m p) = bs /\
  (forall a, json_get_str m p <= a < json_get_str m p + Z.of_nat (length bs) -> A a) /\
  json_get_str m p <> 0.

(** [repr A m p v]: in the memory [m] the node at [p] is the root of a tree
    of nodes that stands for [v]; all its nodes and string bytes lie in
    [A]. *)
Inductive repr (A : Z -> Prop) (m : gmap Z Z) : Z -> jval -> Prop :=
  | repr_null p : node_in A p -> val_get_type m p = JSON_NULL -> repr A m p JNull
  | repr_true p : node_in A p -> val_get_type m p = JSON_TRUE -> repr A m p JTrue
  | repr_false p : node_in A p -> val_get_type m p = JSON_FALSE -> repr A m p JFalse
  | repr_int p z :
      node_in A p -> val_get_type m p = JSON_INT -> json_get_int m p = z ->
      repr A m p (JInt z)
  | repr_float p d :
      node_in A p -> val_get_type m p = JSON_FLOAT -> float_val m p = d ->
      repr A m p (JFloat d)
  | repr_string p bs : node_in A p -> string_node A m p bs -> repr A m p (JString bs)
  | repr_array p l vs :
      node_in A p -> val_get_type m p = JSON_ARRAY -> siblings m (child m p) l ->
      repr_list A m l vs -> repr A m p (JArray vs)
  | repr_object p l ms :
      node_in A p -> val_get_type m p = JSON_OBJECT -> siblings m (child m p) l ->
      repr_members A m l ms -> repr A m p (JObject ms)
with repr_list (A : Z -> Prop) (m : gmap Z Z) : list Z -> list jval -> Prop :=
  | repr_list_nil : repr_list A m [] []
  | repr_list_cons p l v vs :
      repr A m p v -> repr_list A m l vs -> repr_list A m (p :: l) (v :: vs)
with repr_members (A : Z -> Prop) (m : gmap Z Z) : list Z -> list (list Z * jval) -> Prop :=
  | repr_members_nil : repr_members A m [] []
  | repr_members_cons k l bs v ms :
      node_in A k -> string_node A m k bs -> repr A m (child m k) v ->
      repr_members A m l ms -> repr_members A m (k :: l) ((bs, v) :: ms).

(** What the loops of [stringify_array] and [stringify_object] append for
    the texts of the remaining children: a comma before every child but the
    first, and the closing byte. *)
Fixpoint children_text (close : Z) (first : bool) (texts : list (list Z)) : list Z :=
  match texts with
  | [] => [close]
  | x :: t => (if first then x else 44 :: x) ++ children_text close false t
  end.

(** The buffer is in use and apart from the region [A], which was allocated
    before it. *)
Definition apart (A : Z -> Prop) (sb : strbuf) (w : world) : Prop :=
  strbuf_ok sb w /\ forall a, A a -> a < brk w /\ ~ in_buf sb a.

(** Two memories with the same bytes in [A]. *)
Definition agree (A : Z -> Prop) (m m' : gmap Z Z) : Prop :=
  forall a, A a -> load8 m' a = load8 m a.

(** No Float node in the tree. *)
Fixpoint no_float (v : jval) : bool :=
  match v with
  | JFloat _ => false
  | JArray vs => forallb no_float vs
  | JObject ms => forallb (fun kv => no_float (snd kv)) ms
  | _ => true
  end.

(** Bytes of a C string: none of them is NUL. *)
Definition is_text (l : list Z) : Prop := Forall (fun b => 0 < b < 256) l.

(** A value [json_equals] can compare with a copy of itself: no NaN, and the
    keys of each object pairwise distinct. *)
Fixpoint comparable (v : jval) : bool :=
  match v with
  | JFloat d => negb (isnan d)
  | JArray vs => forallb comparable vs
  | JObject ms =>
      bool_decide (NoDup (map fst ms)) && forallb (fun kv => comparable (snd kv)) ms
  | _ => true
  end.

(** ** json_asm.c: [json_stringify_buf]

    Serialize, take [strlen] of the text, copy the text and its NUL into the
    caller's buffer when the buffer is there and longer than the text,
    release the text and return its length. *)
Definition json_stringify_buf (fuel : nat) (val buf buf_len : Z) (w : world)
    : option (Z * world) :=
  match json_stringify fuel val w with
  | None => None
  | Some (str, _, w) =>
      if str =? 0 then Some (0, w)
      else
        match strlen fuel (mem w) str with
        | None => None
        | Some l =>
            let w :=
              if negb (buf =? 0) && (buf_len >? l)
              then set_mem w (memcpy (mem w) buf str (l + 1))
              else w in
            Some (l, free str w)
        end
  end.

(** ** Vocabulary of the pretty printer *)

(** What [stringify_indent] appends at depth [dep]: with the pretty flag the
    newline string of the options (a line feed when there is none) and
    [indent] spaces for each level, nothing without it. *)
Definition indent_text (opts : option json_stringify_options) (dep : Z) : list Z :=
  match opts with
  | Some o =>
      if Z.land (sopt_flags o) JSON_STRINGIFY_PRETTY =? 0 then []
      else (match newline o with Some s => s | None => [10] end)
           ++ repeat 32 (Z.to_nat dep * Z.to_nat (indent o))
  | None => []
  end.

(** What follows a key: a colon, and a space with the pretty flag. *)
Definition colon_text (opts : option json_stringify_options) : list Z :=
  if is_pretty opts then [58; 32] else [58].

(** The newline string of the options, where it is used, is made of bytes. *)
Definition newline_ok (opts : option json_stringify_options) : Prop :=
  match opts with
  | Some o =>
      if Z.land (sopt_flags o) JSON_STRINGIFY_PRETTY =? 0 then True
      else match newline o with Some s => are_bytes s | None => True end
  | None => True
  end.

(** The children of a container behind its opening byte: [sep] stands before
    each child, a comma before that for every child but the first, and [last]
    stands before the closing byte unless there is no child. *)
Fixpoint layout_children (close : Z) (sep last : list Z) (first : bool)
    (texts : list (list Z)) : list Z :=
  match texts with
  | [] => (if first then [] else last) ++ [close]
  | x :: t =>
      (if first then [] else [44]) ++ sep ++ x ++ layout_children close sep last false t
  end.

(** The text of a value at nesting depth [dep] under the options [opts]. *)
Fixpoint layout (opts : option json_stringify_options) (v : jval) (dep : Z) : list Z :=
  match v with
  | JArray vs =>
      91 :: layout_children 93 (indent_text opts (dep + 1)) (indent_text opts dep) true
              (map (fun x => layout opts x (dep + 1)) vs)
  | JObject ms =>
      123 :: layout_children 125 (indent_text opts (dep + 1)) (indent_text opts dep) true
               (map (fun kv => escaped (fst kv) ++ colon_text opts
                                 ++ layout opts (snd kv) (dep + 1)) ms)
  | _ => render v
  end.

(** The newline string of the options, where it is used, is made of JSON
    whitespace. *)
Definition ws_newline (opts : option json_stringify_options) : Prop :=
  match opts with
  | Some o =>
      if Z.land (sopt_flags o) JSON_STRINGIFY_PRETTY =? 0 then True
      else match newline o with Some s => is_ws s | None => True end
  | None => True
  end.

(** * Properties *)

(** ** Memory *)

Lemma load8_range (m : gmap Z Z) (a : Z) : 0 <= load8 m a < 256.
Proof. unfold load8. apply Z.mod_pos_bound. lia. Qed.

Lemma load8_store8_eq (m : gmap Z Z) (a v : Z) : load8 (store8 m a v) a = v mod 256.
Proof.
  unfold load8, store8. rewrite lookup_insert_eq. simpl.
  apply Z.mod_mod. lia.
Qed.

Lemma load8_store8_ne (m : gmap Z Z) (a b v : Z) :
  a <> b -> load8 (store8 m a v) b = load8 m b.
Proof. intros H. unfold load8, store8. now rewrite lookup_insert_ne. Qed.

Lemma load8_write_bytes_ne (l : list Z) :
  forall m a b, b < a \/ a + Z.of_nat (length l) <= b ->
    load8 (write_bytes m a l) b = load8 m b.
Proof.
  induction l as [|x t IH]; intros m a b H; simpl; [reflexivity|].
  simpl length in H. rewrite IH by lia. apply load8_store8_ne. lia.
Qed.

Lemma load8_write_bytes_in (l : list Z) :
  forall m a i, (i < length l)%nat ->
    load8 (write_bytes m a l) (a + Z.of_nat i) = nth i l 0 mod 256.
Proof.
  induction l as [|x t IH]; intros m a i H; simpl in *; [lia|].
  destruct i as [|i].
  - rewrite Z.add_0_r, load8_write_bytes_ne by lia. apply load8_store8_eq.
  - replace (a + Z.of_nat (S i)) with (a + 1 + Z.of_nat i) by lia.
    apply IH. lia.
Qed.

Lemma read_bytes_length (n : nat) : forall m a, length (read_bytes n m a) = n.
Proof. induction n; intros; simpl; [reflexivity|]. now rewrite IHn. Qed.

Lemma read_bytes_ext (n : nat) :
  forall m m' a,
    (forall b, a <= b < a + Z.of_nat n -> load8 m' b = load8 m b) ->
    read_bytes n m' a = read_bytes n m a.
Proof.
  induction n as [|n IH]; intros m m' a H; simpl; [reflexivity|].
  rewrite H by lia. f_equal. apply IH. intros b Hb. apply H. lia.
Qed.

Lemma read_bytes_nth (n : nat) :
  forall m a i, (i < n)%nat -> nth i (read_bytes n m a) 0 = load8 m (a + Z.of_nat i).
Proof.
  induction n as [|n IH]; intros m a i H; [lia|]. simpl.
  destruct i as [|i].
  - now rewrite Z.add_0_r.
  - rewrite IH by lia. f_equal. lia.
Qed.

Lemma read_bytes_app (n k : nat) :
  forall m a, read_bytes (n + k) m a = read_bytes n m a ++ read_bytes k m (a + Z.of_nat n).
Proof.
  induction n as [|n IH]; intros m a.
  - simpl. now rewrite Z.add_0_r.
  - simpl. rewrite IH. do 3 f_equal. lia.
Qed.


Lemma read_bytes_write_bytes (l : list Z) :
  forall m a, are_bytes l -> read_bytes (length l) (write_bytes m a l) a = l.
Proof.
  induction l as [|x t IH]; intros m a H; simpl; [reflexivity|].
  inversion H as [|? ? Hx Ht]; subst.
  rewrite load8_write_bytes_ne by lia.
  rewrite load8_store8_eq, Z.mod_small by lia.
  f_equal. now apply IH.
Qed.

Lemma read_bytes_are_bytes (n : nat) : forall m a, are_bytes (read_bytes n m a).
Proof.
  induction n; intros; simpl; constructor; [apply load8_range | apply IHn].
Qed.

(** Multi-byte stores are byte writes, multi-byte loads read bytes. *)

Lemma bytes_le_length (n : nat) : forall v, length (bytes_le n v) = n.
Proof. induction n; intros; simpl; [reflexivity|]. now rewrite IHn. Qed.

Lemma bytes_le_are_bytes (n : nat) : forall v, are_bytes (bytes_le n v).
Proof.
  induction n; intros; simpl; constructor; [apply Z.mod_pos_bound; lia | apply IHn].
Qed.

Lemma store8_mod (m : gmap Z Z) (a v : Z) : store8 m a (v mod 256) = store8 m a v.
Proof. unfold store8. now rewrite Z.mod_mod by lia. Qed.

Lemma store_le_write_bytes (n : nat) :
  forall m a v, store_le n m a v = write_bytes m a (bytes_le n v).
Proof.
  induction n as [|n IH]; intros; simpl; [reflexivity|].
  now rewrite store8_mod, IH.
Qed.

Lemma load_le_read_bytes (n : nat) :
  forall m a, load_le n m a = le_value (read_bytes n m a).
Proof. induction n as [|n IH]; intros; simpl; [reflexivity|]. now rewrite IH. Qed.

Lemma le_value_bytes_le (n : nat) :
  forall v, le_value (bytes_le n v) = v mod 256 ^ Z.of_nat n.
Proof.
  induction n as [|n IH]; intros v.
  - simpl. now rewrite Z.mod_1_r.
  - cbn [bytes_le le_value]. rewrite IH.
    replace (256 ^ Z.of_nat (S n)) with (256 * 256 ^ Z.of_nat n)
      by (rewrite Nat2Z.inj_succ, Z.pow_succ_r; lia).
    rewrite Z.rem_mul_r by lia. lia.
Qed.

Lemma load64_store64_eq (m : gmap Z Z) (a v : Z) : load64 (store64 m a v) a = u64 v.
Proof.
  unfold load64, store64, u64.
  rewrite store_le_write_bytes, load_le_read_bytes.
  rewrite <- (bytes_le_length 8 v) at 1.
  rewrite read_bytes_write_bytes by apply bytes_le_are_bytes.
  apply (le_value_bytes_le 8).
Qed.

Lemma load8_store64_ne (m : gmap Z Z) (a v b : Z) :
  b < a \/ a + 8 <= b -> load8 (store64 m a v) b = load8 m b.
Proof.
  intros H. unfold store64. rewrite store_le_write_bytes.
  apply load8_write_bytes_ne. rewrite bytes_le_length. lia.
Qed.

Lemma load64_ext (m m' : gmap Z Z) (a : Z) :
  (forall b, a <= b < a + 8 -> load8 m' b = load8 m b) -> load64 m' a = load64 m a.
Proof.
  intros H. unfold load64. rewrite !load_le_read_bytes.
  f_equal. now apply read_bytes_ext.
Qed.

Lemma load64_store64_ne (m : gmap Z Z) (a v b : Z) :
  b + 8 <= a \/ a + 8 <= b -> load64 (store64 m a v) b = load64 m b.
Proof.
  intros H. apply load64_ext. intros c Hc. apply load8_store64_ne. lia.
Qed.

Lemma load64_range (m : gmap Z Z) (a : Z) : 0 <= load64 m a < 2 ^ 64.
Proof.
  unfold load64. cbn [load_le].
  pose proof (load8_range m a). pose proof (load8_range m (a + 1)).
  pose proof (load8_range m (a + 1 + 1)). pose proof (load8_range m (a + 1 + 1 + 1)).
  pose proof (load8_range m (a + 1 + 1 + 1 + 1)).
  pose proof (load8_range m (a + 1 + 1 + 1 + 1 + 1)).
  pose proof (load8_range m (a + 1 + 1 + 1 + 1 + 1 + 1)).
  pose proof (load8_range m (a + 1 + 1 + 1 + 1 + 1 + 1 + 1)).
  change (2 ^ 64) with 18446744073709551616. lia.
Qed.

(** The low byte of a word is the byte at its address. *)
Lemma load64_low_byte (m : gmap Z Z) (a : Z) : load64 m a mod 256 = load8 m a.
Proof.
  unfold load64. cbn [load_le].
  match goal with
  | |- (?x + 256 * ?y) mod 256 = _ => replace (x + 256 * y) with (x + y * 256) by lia
  end.
  rewrite Z.mod_add by lia.
  apply Z.mod_small, load8_range.
Qed.

Lemma read_bytes_ext_at (n : nat) (m m' : gmap Z Z) (a a' : Z) :
  (forall i, 0 <= i < Z.of_nat n -> load8 m' (a' + i) = load8 m (a + i)) ->
  read_bytes n m' a' = read_bytes n m a.
Proof.
  revert a a'. induction n as [|n IH]; intros a a' H; simpl; [reflexivity|].
  f_equal.
  - specialize (H 0 ltac:(lia)). now rewrite !Z.add_0_r in H.
  - apply IH. intros i Hi. specialize (H (1 + i) ltac:(lia)).
    now rewrite !Z.add_assoc in H.
Qed.

(** ** Allocation *)

Lemma same_below_refl (B : Z) (m : gmap Z Z) : same_below B m m.
Proof. intros a _. reflexivity. Qed.

Lemma same_below_trans (B : Z) (m1 m2 m3 : gmap Z Z) :
  same_below B m1 m2 -> same_below B m2 m3 -> same_below B m1 m3.
Proof. intros H1 H2 a Ha. rewrite H2, H1 by assumption. reflexivity. Qed.

Lemma same_below_weaken (B B' : Z) (m m' : gmap Z Z) :
  B' <= B -> same_below B m m' -> same_below B' m m'.
Proof. intros H H1 a Ha. apply H1. lia. Qed.

Lemma same_below_write_bytes (B : Z) (m : gmap Z Z) (a : Z) (l : list Z) :
  B <= a -> same_below B m (write_bytes m a l).
Proof. intros H b Hb. apply load8_write_bytes_ne. lia. Qed.

Lemma same_below_store8 (B : Z) (m : gmap Z Z) (a v : Z) :
  B <= a -> same_below B m (store8 m a v).
Proof. intros H b Hb. apply load8_store8_ne. lia. Qed.

Lemma same_below_store64 (B : Z) (m : gmap Z Z) (a v : Z) :
  B <= a -> same_below B m (store64 m a v).
Proof. intros H b Hb. apply load8_store64_ne. lia. Qed.

Lemma malloc_at_spec (a size : Z) (w : world) (p : Z) (w' : world) :
  0 < a -> malloc_at a size w = (p, w') ->
  brk w <= p /\ brk w' = p + size /\ mem w' = mem w /\
  g_last_error w' = g_last_error w.
Proof.
  intros Ha H. unfold malloc_at in H. inversion H; subst; clear H. cbn.
  repeat split.
  pose proof (Z.mul_div_le (brk w + a - 1) a Ha).
  pose proof (Z.mul_succ_div_gt (brk w + a - 1) a Ha).
  lia.
Qed.

Lemma align_up_64 (x : Z) : align_up x 64 = (x + 63) / 64 * 64.
Proof.
  unfold align_up. change (64 - 1) with (Z.ones 6).
  rewrite <- Z.ldiff_land, Z.ldiff_ones_r by lia.
  rewrite Z.shiftl_mul_pow2, Z.shiftr_div_pow2 by lia.
  replace (x + 64 - 1) with (x + 63) by lia.
  reflexivity.
Qed.

Lemma align_up_64_bounds (x : Z) : x <= align_up x 64 < x + 64.
Proof.
  rewrite align_up_64.
  pose proof (Z.div_mod (x + 63) 64 ltac:(lia)).
  pose proof (Z.mod_pos_bound (x + 63) 64 ltac:(lia)). lia.
Qed.

Lemma grow_size_reaches (target : Z) :
  forall fuel s, 0 < s -> target - s < Z.of_nat fuel ->
    target <= grow_size fuel s target /\ s <= grow_size fuel s target.
Proof.
  induction fuel as [|k IH]; intros s Hs Hf; simpl.
  - lia.
  - destruct (Z.ltb_spec s target).
    + unfold ARENA_GROWTH_FACTOR.
      destruct (IH (s * 2)) as [H1 H2]; lia.
    + lia.
Qed.

Lemma grow_size_from_double (size used needed : Z) :
  0 < size -> 0 <= used + needed ->
  used + needed <= grow_size (Z.to_nat (used + needed)) (size * ARENA_GROWTH_FACTOR) (used + needed)
  /\ 0 < grow_size (Z.to_nat (used + needed)) (size * ARENA_GROWTH_FACTOR) (used + needed).
Proof.
  intros Hs Hn. unfold ARENA_GROWTH_FACTOR.
  destruct (grow_size_reaches (used + needed) (Z.to_nat (used + needed)) (size * 2))
    as [H1 H2]; lia.
Qed.

Lemma arena_grow_ok (B : Z) (d : json_doc) (w : world) (ok : bool) (d' : json_doc) (w' : world) :
  doc_ok B d w -> arena_grow d sizeof_json_val w = (ok, d', w') ->
  ok = true /\ doc_ok B d' w' /\ same_below (brk w) (mem w) (mem w') /\
  arena_used d' = arena_used d /\ arena_used d + 24 <= arena_size d' /\
  strings d' = strings d /\ strings_size d' = strings_size d /\
  strings_used d' = strings_used d /\ g_last_error w' = g_last_error w /\
  brk w <= brk w'.
Proof.
  intros Hd H. destruct Hd. unfold arena_grow in H.
  destruct (grow_size_from_double (arena_size d) (arena_used d) sizeof_json_val)
    as [Hg Hg0]; [lia | unfold sizeof_json_val; lia |].
  set (ns := grow_size _ _ _) in *.
  pose proof (align_up_64_bounds ns) as Hal.
  unfold aligned_alloc_impl, aligned_alloc, ARENA_ALIGNMENT in H.
  destruct (malloc_at 64 (align_up (align_up ns 64) 64) w) as [p w1] eqn:Em.
  apply malloc_at_spec in Em as (Hp & Hbrk & Hmem & Herr); [|lia].
  pose proof (align_up_64_bounds (align_up ns 64)) as Hal2.
  destruct (Z.eqb_spec p 0) as [Hp0|Hp0]; [lia|].
  inversion H; subst; clear H. cbn in *.
  unfold sizeof_json_val in *.
  split; [reflexivity|]. split; [|split; [|repeat split; try lia]].
  - constructor; cbn; try lia.
  - rewrite Hmem. apply same_below_write_bytes. lia.
  - congruence.
Qed.

Lemma arena_alloc_val_ok (B : Z) (d : json_doc) (w : world) (val : Z) (d' : json_doc) (w' : world) :
  doc_ok B d w -> arena_alloc_val d w = (val, d', w') ->
  alloc_val_post B d w val d' w'.
Proof.
  intros Hd H. unfold arena_alloc_val in H.
  assert (Hz : forall m v b, v <= b < v + 24 ->
            load8 (memset m v 0 sizeof_json_val) b = 0).
  { intros m v b Hb. unfold memset, sizeof_json_val.
    replace b with (v + Z.of_nat (Z.to_nat (b - v))) by lia.
    rewrite load8_write_bytes_in by (rewrite repeat_length; lia).
    rewrite nth_repeat. reflexivity. }
  assert (Hs : forall m v b, b < v \/ v + 24 <= b ->
            load8 (memset m v 0 sizeof_json_val) b = load8 m b).
  { intros m v b Hb. unfold memset, sizeof_json_val.
    apply load8_write_bytes_ne. rewrite repeat_length. lia. }
  destruct (arena_used d + sizeof_json_val >? arena_size d) eqn:Efull.
  - destruct (arena_grow d sizeof_json_val w) as [[ok d1] w1] eqn:Eg.
    apply (arena_grow_ok B) in Eg as (-> & Hd1 & Hm & Hu & Hfit & Hs1 & Hs2 & Hs3 & He & Hb);
      [|exact Hd].
    cbn in H. inversion H; subst; clear H. destruct Hd, Hd1. cbn in *.
    unfold sizeof_json_val in *.
    constructor; cbn; try lia; try congruence.
    + constructor; cbn; lia.
    + intros a Ha. rewrite Hs by lia. apply Hm. lia.
    + intros b Hb'. rewrite Hs by lia. apply Hm. lia.
    + intros b Hb'. apply Hz. lia.
  - cbn in H. inversion H; subst; clear H. destruct Hd. cbn in *.
    unfold sizeof_json_val in *.
    assert (arena_used d + 24 <= arena_size d) by lia.
    constructor; cbn; try lia; try congruence.
    + constructor; cbn; lia.
    + intros a Ha. apply Hs. lia.
    + intros b Hb'. apply Hs. lia.
    + intros b Hb'. apply Hz. lia.
Qed.

Lemma strings_grow_ok (B : Z) (d : json_doc) (needed : Z) (w : world)
    (ok : bool) (d' : json_doc) (w' : world) :
  doc_ok B d w -> 0 <= needed -> strings_grow d needed w = (ok, d', w') ->
  ok = true /\ doc_ok B d' w' /\ same_below (brk w) (mem w) (mem w') /\
  strings_used d' = strings_used d /\ strings_used d + needed <= strings_size d' /\
  arena d' = arena d /\ arena_size d' = arena_size d /\
  arena_used d' = arena_used d /\ g_last_error w' = g_last_error w /\
  brk w <= brk w'.
Proof.
  intros Hd Hn H. destruct Hd. unfold strings_grow in H.
  destruct (grow_size_from_double (strings_size d) (strings_used d) needed)
    as [Hg Hg0]; [lia | lia |].
  set (ns := grow_size _ _ _) in *.
  unfold realloc, malloc in H.
  destruct (malloc_at 16 ns w) as [p w1] eqn:Em.
  apply malloc_at_spec in Em as (Hp & Hbrk & Hmem & Herr); [|lia].
  destruct (Z.eqb_spec p 0) as [Hp0|Hp0]; [lia|].
  inversion H; subst; clear H. cbn in *.
  split; [reflexivity|]. split; [|split; [|repeat split; try lia]].
  - constructor; cbn; try lia.
  - rewrite Hmem. apply same_below_write_bytes. lia.
  - congruence.
Qed.

Lemma arena_alloc_string_ok (B : Z) (d : json_doc) (slen : Z) (w : world)
    (str : Z) (d' : json_doc) (w' : world) :
  doc_ok B d w -> 0 <= slen -> arena_alloc_string d slen w = (str, d', w') ->
  alloc_string_post B d slen w str d' w'.
Proof.
  intros Hd Hn H. unfold arena_alloc_string in H.
  destruct (strings_used d + (slen + 1) >? strings_size d) eqn:Efull.
  - destruct (strings_grow d (slen + 1) w) as [[ok d1] w1] eqn:Eg.
    apply (strings_grow_ok B) in Eg
      as (-> & Hd1 & Hm & Hu & Hfit & Ha1 & Ha2 & Ha3 & He & Hb); [|exact Hd|lia].
    cbn in H. inversion H; subst; clear H. destruct Hd, Hd1. cbn in *.
    constructor; cbn; try lia; try congruence; try assumption.
    constructor; cbn; lia.
  - cbn in H. inversion H; subst; clear H. destruct Hd. cbn in *.
    assert (strings_used d + (slen + 1) <= strings_size d) by lia.
    constructor; cbn; try lia; try congruence; try apply same_below_refl.
    constructor; cbn; lia.
Qed.

Lemma arena_create_ok (n : Z) (w : world) (r : option json_doc) (w' : world) :
  0 < brk w -> 0 < n -> arena_create n w = (r, w') ->
  exists d, r = Some d /\ doc_ok (brk w) d w' /\ mem w' = mem w /\
            arena_used d = 0 /\ strings_used d = 0 /\ n <= arena_size d /\
            g_last_error w' = g_last_error w.
Proof.
  intros Hb Hn H. unfold arena_create in H.
  destruct (Z.eqb_spec n 0) as [|_]; [lia|].
  unfold aligned_alloc_impl, aligned_alloc, ARENA_ALIGNMENT, malloc in H.
  pose proof (align_up_64_bounds n) as H1.
  pose proof (align_up_64_bounds (align_up n 64)) as H2.
  destruct (malloc_at 64 _ w) as [a w1] eqn:Ea.
  apply malloc_at_spec in Ea as (Hp & Hbrk & Hmem & Herr); [|lia].
  destruct (Z.eqb_spec a 0) as [|_]; [lia|].
  destruct (malloc_at 16 STRING_INITIAL_SIZE w1) as [s w2] eqn:Es.
  apply malloc_at_spec in Es as (Hp2 & Hbrk2 & Hmem2 & Herr2); [|lia].
  destruct (Z.eqb_spec s 0) as [|_]; [lia|].
  inversion H; subst; clear H.
  eexists. split; [reflexivity|]. unfold STRING_INITIAL_SIZE in *.
  repeat split; cbn; try lia; try congruence.
Qed.

(** ** The cursor *)

Lemma moves_refl (c : parser_ctx) : moves c c.
Proof. constructor; auto; lia. Qed.

Lemma moves_trans (c1 c2 c3 : parser_ctx) : moves c1 c2 -> moves c2 c3 -> moves c1 c3.
Proof.
  intros [] []. constructor; try congruence; try lia.
Qed.

Lemma moves_advance (c : parser_ctx) (n : Z) :
  0 <= n -> pos c + n <= len c -> moves c (advance c n).
Proof. intros. constructor; cbn; auto; lia. Qed.

Lemma moves_advance_line (c : parser_ctx) : pos c < len c -> moves c (advance_line c).
Proof. intros. constructor; cbn; auto; lia. Qed.

Lemma skip_ws_loop_moves (w : world) (n : nat) : forall c, moves c (skip_ws_loop n w c).
Proof.
  induction n as [|n IH]; intros c; simpl; [apply moves_refl|].
  destruct (Z.ltb_spec (pos c) (len c)); [|apply moves_refl].
  destruct ((input_at w c (pos c) =? 32) || (input_at w c (pos c) =? 9) ||
            (input_at w c (pos c) =? 13)).
  - apply (moves_trans _ (advance c 1)); [apply moves_advance; lia | apply IH].
  - destruct (input_at w c (pos c) =? 10); [|apply moves_refl].
    apply (moves_trans _ (advance_line c)); [apply moves_advance_line; lia | apply IH].
Qed.

Lemma skip_ws_moves (w : world) (c : parser_ctx) : moves c (skip_ws w c).
Proof. apply skip_ws_loop_moves. Qed.

Lemma consume_moves (w : world) (c : parser_ctx) (e : Z) (b : bool) (c' : parser_ctx) :
  consume w c e = (b, c') -> moves c c' /\ (b = true -> pos c < pos c').
Proof.
  unfold consume. intros H. pose proof (skip_ws_moves w c) as Hm.
  destruct ((pos (skip_ws w c) <? len (skip_ws w c)) &&
            (input_at w (skip_ws w c) (pos (skip_ws w c)) =? e)) eqn:E;
    inversion H; subst; clear H.
  - apply andb_prop in E as [E _]. apply Z.ltb_lt in E.
    split.
    + eapply moves_trans; [exact Hm | apply moves_advance; destruct Hm; lia].
    + intros _. destruct Hm. cbn. lia.
  - split; [exact Hm | discriminate].
Qed.

Lemma peek_moves (w : world) (c : parser_ctx) (ch : Z) (c' : parser_ctx) :
  peek w c = (ch, c') -> c' = skip_ws w c /\ moves c c'.
Proof.
  unfold peek. intros H.
  destruct (pos (skip_ws w c) >=? len (skip_ws w c)); inversion H; subst;
    (split; [reflexivity | apply skip_ws_moves]).
Qed.

(** ** Steps of the parser *)

Lemma doc_ok_same_brk (B : Z) (d : json_doc) (w w' : world) :
  brk w' = brk w -> doc_ok B d w -> doc_ok B d w'.
Proof. intros E []. constructor; try assumption; rewrite E; assumption. Qed.

Lemma steps_refl (B : Z) (c : parser_ctx) (w : world) : ctx_ok B c w -> steps B c w c w.
Proof. intros H. constructor; auto; try lia. apply same_below_refl. Qed.

Lemma steps_trans (B : Z) (c1 c2 c3 : parser_ctx) (w1 w2 w3 : world) :
  steps B c1 w1 c2 w2 -> steps B c2 w2 c3 w3 -> steps B c1 w1 c3 w3.
Proof.
  intros [] []. constructor; try congruence; try lia.
  eapply same_below_trans; eassumption.
Qed.

Lemma steps_moves (B : Z) (c c' : parser_ctx) (w : world) :
  ctx_ok B c w -> moves c c' -> steps B c w c' w.
Proof.
  intros [Hd Hp] []. constructor; try assumption.
  - constructor; [now rewrite mv_doc0 | lia].
  - apply same_below_refl.
Qed.

(** A step that keeps the context and changes the world: an error record,
    or writes at or above [B]. *)
Lemma steps_world (B : Z) (c : parser_ctx) (w w' : world) :
  ctx_ok B c w -> brk w' = brk w -> same_below B (mem w) (mem w') -> steps B c w c w'.
Proof.
  intros [Hd Hp] Hb Hm. constructor; auto; try lia.
  constructor; [eapply doc_ok_same_brk; eassumption | assumption].
Qed.

Lemma steps_error (B : Z) (c : parser_ctx) (w : world) (e : json_error) (msg : string) :
  ctx_ok B c w -> steps B c w c (ctx_error w c e msg).
Proof. intros H. apply steps_world; [assumption | reflexivity | apply same_below_refl]. Qed.

Lemma steps_set_mem (B : Z) (c : parser_ctx) (w : world) (m : gmap Z Z) :
  ctx_ok B c w -> same_below B (mem w) m -> steps B c w c (set_mem w m).
Proof. intros H Hm. apply steps_world; [assumption | reflexivity | exact Hm]. Qed.

Lemma steps_set_depth (B : Z) (c : parser_ctx) (w : world) (n : Z) :
  ctx_ok B c w -> steps B c w (set_depth c n) w.
Proof.
  intros [Hd Hp]. constructor; cbn; auto; try lia.
  - constructor; assumption.
  - apply same_below_refl.
Qed.

(** Allocating a node is a step; the node lies at or above [B]. *)
Lemma steps_alloc_val (B : Z) (c : parser_ctx) (w : world) (val : Z) (d : json_doc) (w' : world) :
  ctx_ok B c w -> arena_alloc_val (doc c) w = (val, d, w') ->
  steps B c w (set_doc c d) w' /\ B <= val /\ alloc_val_post B (doc c) w val d w'.
Proof.
  intros [Hd Hp] H. pose proof (arena_alloc_val_ok B _ _ _ _ _ Hd H) as Hpost.
  destruct Hpost, Hd. split; [|split].
  - constructor; cbn; auto; try lia. constructor; cbn; assumption.
  - destruct av_doc0. lia.
  - constructor; assumption.
Qed.

Lemma same_below_store64_after (B : Z) (m0 m : gmap Z Z) (a v : Z) :
  B <= a -> same_below B m0 m -> same_below B m0 (store64 m a v).
Proof. intros H H0. eapply same_below_trans; [exact H0 | now apply same_below_store64]. Qed.

Lemma same_below_store8_after (B : Z) (m0 m : gmap Z Z) (a v : Z) :
  B <= a -> same_below B m0 m -> same_below B m0 (store8 m a v).
Proof. intros H H0. eapply same_below_trans; [exact H0 | now apply same_below_store8]. Qed.

Lemma same_below_write_bytes_after (B : Z) (m0 m : gmap Z Z) (a : Z) (l : list Z) :
  B <= a -> same_below B m0 m -> same_below B m0 (write_bytes m a l).
Proof.
  intros H H0. eapply same_below_trans; [exact H0 | now apply same_below_write_bytes].
Qed.

(** Writes through node fields and buffers that lie at or above [B]. *)
Ltac solve_below :=
  unfold set_float_val, set_str_ptr, set_child, set_next, val_set_payload,
    val_set_type, set_tag_payload, memcpy, memset;
  repeat first
    [ apply same_below_refl
    | assumption
    | apply same_below_store64_after; [lia|]
    | apply same_below_store8_after; [lia|]
    | apply same_below_write_bytes_after; [lia|] ].

Lemma result_ok_null (B : Z) (c c' : parser_ctx) : result_ok B c c' 0.
Proof. now left. Qed.

Lemma val_set_type_below (B : Z) (m : gmap Z Z) (v t : Z) :
  B <= v -> same_below B m (val_set_type m v t).
Proof. intros H. now apply same_below_store64. Qed.

Lemma val_set_payload_below (B : Z) (m : gmap Z Z) (v p : Z) :
  B <= v -> same_below B m (val_set_payload m v p).
Proof. intros H. now apply same_below_store64. Qed.

Lemma parse_literal_steps (B : Z) (word : list Z) (tag : Z) (msg : string)
    (c : parser_ctx) (w : world) (r : Z) (c' : parser_ctx) (w' : world) :
  word <> [] -> ctx_ok B c w -> parse_literal word tag msg c w = (r, c', w') ->
  steps B c w c' w' /\ result_ok B c c' r.
Proof.
  intros Hw Hc H. unfold parse_literal in H.
  destruct ((pos c + Z.of_nat (length word) <=? len c) && _) eqn:E.
  - apply andb_prop in E as [E _]. apply Z.leb_le in E.
    assert (Hl : 0 < Z.of_nat (length word)) by (destruct word; [contradiction | simpl; lia]).
    assert (Hc1 : ctx_ok B (advance c (Z.of_nat (length word))) w).
    { destruct Hc. constructor; cbn; [assumption | lia]. }
    assert (Hs1 : steps B c w (advance c (Z.of_nat (length word))) w).
    { apply steps_moves; [assumption | apply moves_advance; lia]. }
    destruct (arena_alloc_val _ w) as [[val d] w1] eqn:Ea.
    apply (steps_alloc_val B) in Ea as (Hs2 & Hv & Hpost); [|exact Hc1].
    destruct (Z.eqb_spec val 0).
    + inversion H; subst. split; [eapply steps_trans; eassumption | apply result_ok_null].
    + inversion H; subst; clear H. split.
      * eapply steps_trans; [exact Hs1|]. eapply steps_trans; [exact Hs2|].
        apply steps_set_mem; [apply Hs2 | now apply val_set_type_below].
      * right. cbn. repeat split; [assumption | lia].
  - inversion H; subst. split; [now apply steps_error | apply result_ok_null].
Qed.

Lemma skip_digits_bounds (n : nat) (m : gmap Z Z) (start remaining : Z) :
  forall i, i <= remaining -> i <= skip_digits n m start remaining i <= remaining.
Proof.
  induction n as [|n IH]; intros i Hi; simpl; [lia|].
  destruct (Z.ltb_spec i remaining); simpl; [|lia].
  destruct (isdigit (load8 m (start + i))); [|lia].
  specialize (IH (i + 1)). lia.
Qed.

Lemma skip_digits_progress (n : nat) (m : gmap Z Z) (start remaining i : Z) :
  (0 < n)%nat -> i < remaining -> isdigit (load8 m (start + i)) = true ->
  i < skip_digits n m start remaining i.
Proof.
  intros Hn Hi Hd. destruct n as [|n]; [lia|]. simpl.
  destruct (Z.ltb_spec i remaining); [|lia]. rewrite Hd. simpl.
  pose proof (skip_digits_bounds n m start remaining (i + 1)). lia.
Qed.

Lemma number_fraction_bounds (m : gmap Z Z) (start remaining i : Z) (f : bool) (i' : Z) :
  i <= remaining -> number_fraction m start remaining i = Some (f, i') ->
  i <= i' <= remaining.
Proof.
  intros Hi H. unfold number_fraction in H.
  destruct ((i <? remaining) && _); [|inversion H; lia].
  destruct ((i + 1 >=? remaining) || _) eqn:E; [discriminate|].
  apply orb_false_elim in E as [E _].
  inversion H; subst; clear H.
  pose proof (skip_digits_bounds (Z.to_nat (remaining - (i + 1))) m start remaining (i + 1)).
  lia.
Qed.

Lemma number_exponent_bounds (m : gmap Z Z) (start remaining : Z) (f0 : bool) (i : Z)
    (f : bool) (i' : Z) :
  i <= remaining -> number_exponent m start remaining f0 i = Some (f, i') ->
  i <= i' <= remaining.
Proof.
  intros Hi H. unfold number_exponent in H.
  destruct ((i <? remaining) && _); [|inversion H; lia].
  set (j := if (i + 1 <? remaining) && _ then i + 1 + 1 else i + 1) in *.
  assert (Hj : i + 1 <= j) by (subst j; destruct (_ && _); lia).
  destruct ((j >=? remaining) || _) eqn:E; [discriminate|].
  apply orb_false_elim in E as [E _].
  inversion H; subst; clear H.
  pose proof (skip_digits_bounds (Z.to_nat (remaining - j)) m start remaining j).
  lia.
Qed.

Lemma parse_number_steps (B : Z) (c : parser_ctx) (w : world)
    (r : Z) (c' : parser_ctx) (w' : world) :
  ctx_ok B c w -> parse_number c w = (r, c', w') ->
  steps B c w c' w' /\ result_ok B c c' r.
Proof.
  intros Hc H. unfold parse_number in H.
  set (start := input c + pos c) in *. set (remaining := len c - pos c) in *.
  set (i0 := if (0 <? remaining) && (load8 (mem w) (start + 0) =? 45) then 0 + 1 else 0) in *.
  assert (Hi0 : 0 <= i0) by (subst i0; destruct (_ && _); lia).
  assert (Herr : forall msg,
            steps B c w c (ctx_error w c JSON_ERROR_NUMBER msg) /\ result_ok B c c 0)
    by (intros; split; [now apply steps_error | apply result_ok_null]).
  destruct ((i0 >=? remaining) || negb (isdigit (load8 (mem w) (start + i0)))) eqn:E1;
    [inversion H; subst; apply Herr|].
  apply orb_false_elim in E1 as [E1 E1d]. apply negb_false_iff in E1d.
  assert (Hlt : i0 < remaining) by lia.
  destruct ((load8 (mem w) (start + i0) =? 48) && (i0 + 1 <? remaining) && _);
    [inversion H; subst; apply Herr|].
  pose proof (skip_digits_bounds (Z.to_nat (remaining - i0)) (mem w) start remaining i0
                ltac:(lia)) as Hb1.
  pose proof (skip_digits_progress (Z.to_nat (remaining - i0)) (mem w) start remaining i0
                ltac:(lia) Hlt E1d) as Hp1.
  set (i1 := skip_digits _ _ _ _ i0) in *.
  destruct (number_fraction (mem w) start remaining i1) as [[f2 i2]|] eqn:E2;
    [|inversion H; subst; apply Herr].
  apply number_fraction_bounds in E2; [|lia].
  destruct (number_exponent (mem w) start remaining f2 i2) as [[f3 i3]|] eqn:E3;
    [|inversion H; subst; apply Herr].
  apply number_exponent_bounds in E3; [|lia].
  destruct (arena_alloc_val (doc c) w) as [[val d] w1] eqn:Ea.
  apply (steps_alloc_val B) in Ea as (Hs1 & Hv & Hpost); [|exact Hc].
  destruct (Z.eqb_spec val 0);
    [inversion H; subst; split; [assumption | apply result_ok_null]|].
  assert (Hadv : forall m,
            same_below B (mem w1) m ->
            steps B c w (advance (set_doc c d) i3) (set_mem w1 m) /\
            result_ok B c (advance (set_doc c d) i3) val).
  { intros m Hm. split.
    - eapply steps_trans; [exact Hs1|].
      eapply steps_trans; [apply steps_set_mem; [apply Hs1 | exact Hm]|].
      apply steps_moves.
      + destruct Hs1 as [[Hd1 Hp1'] _ _ _ _ _ _].
        constructor; [eapply doc_ok_same_brk; [|exact Hd1]; reflexivity | assumption].
      + apply moves_advance; cbn; subst remaining; lia.
    - right. cbn. repeat split; [assumption | lia]. }
  destruct f3.
  - destruct (strtod _) as [dv erange].
    destruct erange.
    + inversion H; subst; clear H. split; [|apply result_ok_null].
      eapply steps_trans; [exact Hs1 | apply steps_error, Hs1].
    + inversion H; subst; clear H. apply Hadv.
      solve_below.
  - destruct (strtoll _) as [ll erange].
    destruct erange.
    + destruct (strtod _) as [dv e2].
      inversion H; subst; clear H. apply Hadv.
      solve_below.
    + inversion H; subst; clear H. apply Hadv.
      solve_below.
Qed.

Lemma parse_unicode_escape_moves (w : world) (c : parser_ctx) (cp : Z) (c' : parser_ctx) :
  parse_unicode_escape w c = Some (cp, c') -> c' = advance c 4 /\ pos c + 4 <= len c.
Proof.
  unfold parse_unicode_escape.
  destruct (Z.gtb_spec (pos c + 4) (len c)) as [Hgt|Hle]; [discriminate|].
  destruct (hex_loop _ _ _ _); [|discriminate].
  intros E. inversion E. split; [reflexivity | lia].
Qed.

Ltac no_result :=
  split; [first [assumption | apply moves_refl]
         | split; [reflexivity | split; [reflexivity | intros ? ? E; discriminate E]]].

(** The first pass only moves the cursor; the world changes by an error
    record at most. *)
Lemma scan_unicode_moves (w : world) (c : parser_ctx)
    (res : option (Z * parser_ctx)) (c' : parser_ctx) (w' : world) :
  scan_unicode w c = (res, c', w') ->
  moves c c' /\ mem w' = mem w /\ brk w' = brk w /\
  (forall cp c2, res = Some (cp, c2) -> c2 = c' /\ w' = w /\ pos c < pos c').
Proof.
  unfold scan_unicode. intros H.
  destruct (parse_unicode_escape w c) as [[cp c1]|] eqn:E1.
  - apply parse_unicode_escape_moves in E1 as [-> Hl1].
    assert (M1 : moves c (advance c 4)) by (apply moves_advance; lia).
    destruct ((55296 <=? cp) && (cp <=? 56319)).
    + destruct ((pos (advance c 4) + 2 >? len (advance c 4)) || _ || _) eqn:E2.
      * inversion H; subst. no_result.
      * apply orb_false_elim in E2 as [E2 _]. apply orb_false_elim in E2 as [E2 _].
        assert (Hl2 : pos c + 4 + 2 <= len c) by (cbn in E2; lia).
        assert (M2 : moves c (advance (advance c 4) 2)).
        { eapply moves_trans; [exact M1 | apply moves_advance; cbn; lia]. }
        destruct (parse_unicode_escape w (advance (advance c 4) 2)) as [[cp2 c3]|] eqn:E3.
        -- apply parse_unicode_escape_moves in E3 as [-> Hl3].
           assert (M3 : moves c (advance (advance (advance c 4) 2) 4)).
           { eapply moves_trans; [exact M2 | apply moves_advance; cbn in *; lia]. }
           destruct ((cp2 <? 56320) || (cp2 >? 57343)); inversion H; subst.
           ++ no_result.
           ++ split; [assumption | split; [reflexivity | split; [reflexivity|]]].
              intros ? ? E. inversion E; subst. repeat split. cbn. lia.
        -- inversion H; subst. no_result.
    + inversion H; subst.
      split; [assumption | split; [reflexivity | split; [reflexivity|]]].
      intros ? ? E. inversion E; subst. repeat split. cbn. lia.
  - inversion H; subst. no_result.
Qed.

Ltac measured :=
  split; [first [assumption | apply moves_refl]
         | split; [reflexivity | split; [reflexivity|]]];
  intros ? ? E; inversion E; subst; split; [lia | reflexivity].

Lemma measure_string_moves (n : nat) :
  forall w c slen esc res c' w',
    measure_string n w c slen esc = (res, c', w') ->
    moves c c' /\ mem w' = mem w /\ brk w' = brk w /\
    (forall l e, res = Some (l, e) -> slen <= l /\ w' = w).
Proof.
  induction n as [|n IH]; intros w c slen esc res c' w' H; simpl in H.
  - inversion H; subst. measured.
  - destruct (Z.ltb_spec (pos c) (len c)) as [Hlt|Hge]; [|inversion H; subst; measured].
    destruct (input_at w c (pos c) =? 34); [inversion H; subst; measured|].
    assert (M1 : moves c (advance c 1)) by (apply moves_advance; lia).
    destruct (input_at w c (pos c) =? 92).
    + destruct (Z.geb_spec (pos c + 1) (len c)) as [Hend|Hin];
        [inversion H; subst; no_result|].
      assert (M2 : moves c (advance (advance c 1) 1)).
      { eapply moves_trans; [exact M1 | apply moves_advance; cbn; lia]. }
      destruct (is_simple_escape _).
      { apply IH in H as (Hm & Hmem & Hbrk & Hres).
        split; [eapply moves_trans; eassumption|].
        split; [assumption | split; [assumption|]].
        intros l e E. destruct (Hres l e E). split; [lia | assumption]. }
      destruct (input_at w (advance c 1) (pos c + 1) =? 117).
      * destruct (scan_unicode w (advance (advance c 1) 1)) as [[su c2] w2] eqn:Es.
        apply scan_unicode_moves in Es as (Hm2 & Hmem2 & Hbrk2 & Hres2).
        destruct su as [[cp c3]|].
        -- destruct (Hres2 cp c3 eq_refl) as (-> & -> & Hpos).
           apply IH in H as (Hm & Hmem & Hbrk & Hres).
           split; [eapply moves_trans; [exact M2|]; eapply moves_trans; eassumption|].
           split; [assumption | split; [assumption|]].
           intros l e E. destruct (Hres l e E). split; [lia | assumption].
        -- inversion H; subst.
           split; [eapply moves_trans; eassumption|].
           split; [assumption | split; [assumption|]].
           intros ? ? E; discriminate E.
      * inversion H; subst. no_result.
    + destruct (input_at w c (pos c) <? 32); [inversion H; subst; no_result|].
      apply IH in H as (Hm & Hmem & Hbrk & Hres).
      split; [eapply moves_trans; eassumption|].
      split; [assumption | split; [assumption|]].
      intros l e E. destruct (Hres l e E). split; [lia | assumption].
Qed.

(** Case analysis on the scrutinee at the head of an equation. *)
Ltac head_case H :=
  match type of H with
  | (match ?x with _ => _ end) = _ => destruct x eqn:?
  end.

Lemma copy_escaped_below (B inp str src_end : Z) (n : nat) :
  forall m src_pos dst_pos m' dst',
    B <= str -> 0 <= dst_pos ->
    copy_escaped n m inp str src_pos src_end dst_pos = (m', dst') ->
    same_below B m m' /\ dst_pos <= dst'.
Proof.
  induction n as [|n IH]; intros m src_pos dst_pos m' dst' HB Hd H;
    cbn [copy_escaped] in H.
  - inversion H; subst. split; [apply same_below_refl | lia].
  - head_case H; [|inversion H; subst; split; [apply same_below_refl | lia]].
    head_case H.
    + head_case H.
      * apply IH in H as [H1 H2]; [|lia|lia]. split; [|lia].
        eapply same_below_trans; [|exact H1]. apply same_below_store8. lia.
      * head_case H.
        -- head_case H;
             (apply IH in H as [H1 H2]; [|lia|lia]; split; [|lia];
              eapply same_below_trans; [|exact H1]; apply same_below_write_bytes; lia).
        -- now apply IH in H.
    + apply IH in H as [H1 H2]; [|lia|lia]. split; [|lia].
      eapply same_below_trans; [|exact H1]. apply same_below_store8. lia.
Qed.

Lemma steps_moves_world (B : Z) (c c' : parser_ctx) (w w' : world) :
  ctx_ok B c w -> moves c c' -> mem w' = mem w -> brk w' = brk w ->
  steps B c w c' w'.
Proof.
  intros Hc Hm Hmem Hbrk.
  eapply steps_trans; [apply steps_moves; eassumption|].
  apply steps_world; [|assumption|].
  - destruct Hc as [Hd Hp], Hm. constructor; [now rewrite mv_doc0 | lia].
  - rewrite Hmem. apply same_below_refl.
Qed.

Lemma doc_ok_B_le_brk (B : Z) (d : json_doc) (w : world) : doc_ok B d w -> B <= brk w.
Proof. intros []. lia. Qed.

Lemma steps_alloc_string (B : Z) (c : parser_ctx) (slen : Z) (w : world)
    (str : Z) (d : json_doc) (w' : world) :
  ctx_ok B c w -> 0 <= slen -> arena_alloc_string (doc c) slen w = (str, d, w') ->
  steps B c w (set_doc c d) w' /\ B <= str /\
  alloc_string_post B (doc c) slen w str d w'.
Proof.
  intros [Hd Hp] Hs H.
  pose proof (arena_alloc_string_ok B _ _ _ _ _ _ Hd Hs H) as Hpost.
  pose proof (doc_ok_B_le_brk _ _ _ Hd) as HB.
  destruct Hpost, Hd. split; [|split].
  - constructor; cbn; auto; try lia.
    + constructor; cbn; assumption.
    + eapply same_below_weaken; eassumption.
  - destruct as_doc0. lia.
  - constructor; assumption.
Qed.

Lemma parse_string_steps (B : Z) (c : parser_ctx) (w : world)
    (r : Z) (c' : parser_ctx) (w' : world) :
  ctx_ok B c w -> parse_string c w = (r, c', w') ->
  steps B c w c' w' /\ result_ok B c c' r.
Proof.
  intros Hc H. unfold parse_string in H.
  head_case H; [inversion H; subst; split; [now apply steps_error | apply result_ok_null]|].
  match goal with E : _ || _ = false |- _ => apply orb_false_elim in E as [E _] end.
  assert (Hlt : pos c < len c) by lia.
  assert (M1 : moves c (advance c 1)) by (apply moves_advance; lia).
  destruct (measure_string _ w (advance c 1) 0 false) as [[res c2] w2] eqn:Em.
  apply measure_string_moves in Em as (M2 & Hmem2 & Hbrk2 & Hres).
  assert (M12 : moves c c2) by (eapply moves_trans; eassumption).
  assert (S2 : steps B c w c2 w2) by (now apply steps_moves_world).
  destruct res as [[slen esc]|];
    [|inversion H; subst; split; [assumption | apply result_ok_null]].
  destruct (Hres slen esc eq_refl) as [Hslen ->].
  head_case H.
  { inversion H; subst; split; [|apply result_ok_null].
    eapply steps_trans; [exact S2 | apply steps_error, S2]. }
  assert (Hlt2 : pos c2 < len c2) by lia.
  assert (S3 : steps B c w (advance c2 1) w).
  { eapply steps_trans; [exact S2|]. apply steps_moves; [apply S2|].
    apply moves_advance; lia. }
  assert (Hpos : pos c < pos (advance c2 1)) by (destruct M12; cbn; lia).
  assert (Hdep : depth (advance c2 1) = depth c) by (destruct M12; cbn; assumption).
  destruct (arena_alloc_val _ w) as [[val d] w3] eqn:Ea.
  apply (steps_alloc_val B) in Ea as (S4 & Hv & Hpost); [|apply S3].
  assert (S5 : steps B c w (set_doc (advance c2 1) d) w3)
    by (eapply steps_trans; eassumption).
  head_case H; [inversion H; subst; split; [assumption | apply result_ok_null]|].
  head_case H.
  - inversion H; subst; clear H. split.
    + eapply steps_trans; [exact S5|]. apply steps_set_mem; [apply S5|]. solve_below.
    + right. repeat split; assumption.
  - destruct (arena_alloc_string _ slen w3) as [[str d2] w4] eqn:Es.
    apply (steps_alloc_string B) in Es as (S6 & Hstr & Hpost2); [|apply S5|lia].
    cbn in S6.
    assert (S7 : steps B c w (set_doc (set_doc (advance c2 1) d) d2) w4)
      by (eapply steps_trans; eassumption).
    head_case H; [inversion H; subst; split; [assumption | apply result_ok_null]|].
    inversion H; subst; clear H. split.
    + eapply steps_trans; [exact S7|]. apply steps_set_mem; [apply S7|].
      destruct (negb esc).
      * solve_below.
      * destruct (copy_escaped _ _ _ _ _ _ _) as [m5 dst5] eqn:Ec.
        apply (copy_escaped_below B) in Ec as [Hm5 Hd5]; [|assumption|lia].
        solve_below.
    + right. repeat split; assumption.
Qed.

Lemma steps_peek (B : Z) (c : parser_ctx) (w : world) (ch : Z) (c' : parser_ctx) :
  ctx_ok B c w -> peek w c = (ch, c') ->
  steps B c w c' w /\ depth c' = depth c /\ pos c <= pos c'.
Proof.
  intros Hc H. apply peek_moves in H as [_ Hm].
  split; [now apply steps_moves | destruct Hm; split; assumption].
Qed.

Lemma steps_consume (B : Z) (c : parser_ctx) (w : world) (e : Z) (b : bool) (c' : parser_ctx) :
  ctx_ok B c w -> consume w c e = (b, c') ->
  steps B c w c' w /\ depth c' = depth c /\ pos c <= pos c' /\ (b = true -> pos c < pos c').
Proof.
  intros Hc H. apply consume_moves in H as [Hm Hb].
  split; [now apply steps_moves|].
  destruct Hm. split; [assumption | split; assumption].
Qed.

Lemma steps_consume_snd (B : Z) (c : parser_ctx) (w : world) (e : Z) :
  ctx_ok B c w ->
  steps B c w (snd (consume w c e)) w /\ depth (snd (consume w c e)) = depth c /\
  pos c <= pos (snd (consume w c e)).
Proof.
  intros Hc. destruct (consume w c e) as [b c'] eqn:E.
  apply (steps_consume B) in E as (H1 & H2 & H3 & _); [|assumption].
  simpl. split; [assumption | split; assumption].
Qed.

Lemma array_loop_steps (B : Z) (pv : parser Z) (n : nat) :
  parser_ok B pv ->
  forall arr first prev c w b c' w',
    ctx_ok B c w -> B <= arr -> (first = 0 \/ B <= prev) ->
    array_loop pv n arr first prev c w = Some (b, c', w') ->
    steps B c w c' w' /\ (b = true -> pos c < pos c' /\ depth c' = depth c).
Proof.
  intros Hpv. induction n as [|n IH]; intros arr first prev c w b c' w' Hc Harr Hprev H;
    cbn [array_loop] in H; [discriminate|].
  destruct (pv c w) as [[[elem c1] w1]|] eqn:Epv; [|discriminate].
  apply Hpv in Epv as [S1 R1]; [|assumption].
  head_case H; [inversion H; subst; split; [assumption | discriminate]|].
  destruct R1 as [R1|(He & Hp1 & Hd1)]; [lia|].
  set (m2 := if first =? 0 then set_child (mem w1) arr elem
             else set_next (mem w1) prev elem) in *.
  assert (Hm2 : same_below B (mem w1) m2).
  { subst m2. destruct (Z.eqb_spec first 0); [solve_below|].
    destruct Hprev; [contradiction|]. solve_below. }
  assert (S2 : steps B c w c1 (set_mem w1 m2)).
  { eapply steps_trans; [exact S1 | apply steps_set_mem; [apply S1 | exact Hm2]]. }
  destruct (peek (set_mem w1 m2) c1) as [ch c2] eqn:Ep.
  apply (steps_peek B) in Ep as (S3 & Hd3 & Hp3); [|apply S2].
  assert (S3' : steps B c w c2 (set_mem w1 m2)) by (eapply steps_trans; eassumption).
  head_case H.
  { destruct (steps_consume_snd B c2 (set_mem w1 m2) 93 ltac:(apply S3')) as (S4 & Hd4 & Hp4).
    inversion H; subst; clear H.
    split; [eapply steps_trans; eassumption | intros _; split; [lia | congruence]]. }
  destruct (consume (set_mem w1 m2) c2 44) as [ok c3] eqn:Ec.
  apply (steps_consume B) in Ec as (S4 & Hd4 & Hp4 & _); [|apply S3'].
  assert (S4' : steps B c w c3 (set_mem w1 m2)) by (eapply steps_trans; eassumption).
  head_case H.
  { inversion H; subst; clear H. split; [|discriminate].
    eapply steps_trans; [exact S4' | apply steps_error, S4']. }
  assert (Hrec : forall c4, steps B c3 (set_mem w1 m2) c4 (set_mem w1 m2) ->
            depth c4 = depth c3 -> pos c3 <= pos c4 ->
            array_loop pv n arr (if first =? 0 then elem else first) elem c4 (set_mem w1 m2)
              = Some (b, c', w') ->
            steps B c w c' w' /\ (b = true -> pos c < pos c' /\ depth c' = depth c)).
  { intros c4 S5 Hd5 Hp5 Hloop.
    apply IH in Hloop as [S6 R6]; [|apply S5|assumption|right; assumption].
    split.
    - eapply steps_trans; [exact S4'|]. eapply steps_trans; eassumption.
    - intros Hb. destruct (R6 Hb). split; [lia | congruence]. }
  head_case H.
  - destruct (peek (set_mem w1 m2) c3) as [ch2 c4] eqn:Ep2.
    apply (steps_peek B) in Ep2 as (S5 & Hd5 & Hp5); [|apply S4'].
    head_case H.
    + destruct (steps_consume_snd B c4 (set_mem w1 m2) 93
                  ltac:(eapply steps_trans; [exact S4' | exact S5])) as (S6 & Hd6 & Hp6).
      inversion H; subst; clear H. split.
      * eapply steps_trans; [exact S4'|]. eapply steps_trans; eassumption.
      * intros _. split; [lia | congruence].
    + apply (Hrec c4); assumption.
  - apply (Hrec c3); [apply steps_refl, S4' | reflexivity | lia | assumption].
Qed.

Lemma parse_array_steps (B : Z) (pv : parser Z) (n : nat) :
  parser_ok B pv -> parser_ok B (parse_array pv n).
Proof.
  intros Hpv c w r c' w' Hc H. unfold parse_array in H.
  destruct (consume w c 91) as [ok c1] eqn:Ec.
  apply (steps_consume B) in Ec as (S1 & Hd1 & Hp1 & Hok); [|assumption].
  head_case H.
  { inversion H; subst; clear H. split; [|apply result_ok_null].
    eapply steps_trans; [exact S1 | apply steps_error, S1]. }
  destruct ok; [|discriminate]. specialize (Hok eq_refl).
  head_case H.
  { inversion H; subst; clear H. split; [|apply result_ok_null].
    eapply steps_trans; [exact S1 | apply steps_error, S1]. }
  assert (S2 : steps B c w (set_depth c1 (depth c1 + 1)) w).
  { eapply steps_trans; [exact S1 | apply steps_set_depth, S1]. }
  destruct (arena_alloc_val _ w) as [[arr d] w2] eqn:Ea.
  apply (steps_alloc_val B) in Ea as (S3 & Hv & Hpost); [|apply S2].
  assert (S3' : steps B c w (set_doc (set_depth c1 (depth c1 + 1)) d) w2)
    by (eapply steps_trans; eassumption).
  head_case H; [inversion H; subst; split; [assumption | apply result_ok_null]|].
  set (w3 := set_mem w2 (val_set_type (mem w2) arr JSON_ARRAY)) in *.
  assert (S4 : steps B c w (set_doc (set_depth c1 (depth c1 + 1)) d) w3).
  { eapply steps_trans; [exact S3'|]. apply steps_set_mem; [apply S3' | solve_below]. }
  destruct (peek w3 _) as [ch c4] eqn:Ep.
  apply (steps_peek B) in Ep as (S5 & Hd5 & Hp5); [|apply S4].
  assert (S5' : steps B c w c4 w3) by (eapply steps_trans; eassumption).
  cbn in Hd5, Hp5.
  head_case H.
  - destruct (steps_consume_snd B c4 w3 93 ltac:(apply S5')) as (S6 & Hd6 & Hp6).
    inversion H; subst; clear H. split.
    + eapply steps_trans; [exact S5'|]. eapply steps_trans; [exact S6|].
      apply steps_set_depth, S6.
    + right. cbn. repeat split; [assumption | lia | lia].
  - destruct (array_loop pv n arr 0 0 c4 w3) as [[[b c5] w5]|] eqn:El; [|discriminate].
    apply (array_loop_steps B) in El as [S6 R6];
      [|assumption|apply S5'|assumption|now left].
    destruct b; inversion H; subst; clear H.
    + destruct (R6 eq_refl) as [Hp6 Hd6]. split.
      * eapply steps_trans; [exact S5'|]. eapply steps_trans; [exact S6|].
        apply steps_set_depth, S6.
      * right. cbn. repeat split; [assumption | lia | lia].
    + split; [eapply steps_trans; eassumption | apply result_ok_null].
Qed.

Lemma object_loop_steps (B : Z) (pv : parser Z) (n : nat) :
  parser_ok B pv ->
  forall obj first prev c w b c' w',
    ctx_ok B c w -> B <= obj -> (first = 0 \/ B <= prev) ->
    object_loop pv n obj first prev c w = Some (b, c', w') ->
    steps B c w c' w' /\ (b = true -> pos c < pos c' /\ depth c' = depth c).
Proof.
  intros Hpv. induction n as [|n IH]; intros obj first prev c w b c' w' Hc Hobj Hprev H;
    cbn [object_loop] in H; [discriminate|].
  destruct (peek w c) as [ch0 c0] eqn:Ep0.
  apply (steps_peek B) in Ep0 as (S0 & Hd0 & Hp0); [|assumption].
  head_case H.
  { inversion H; subst; clear H. split; [|discriminate].
    eapply steps_trans; [exact S0 | apply steps_error, S0]. }
  destruct (parse_string c0 w) as [[key ck] wk] eqn:Ek.
  apply (parse_string_steps B) in Ek as [Sk Rk]; [|apply S0].
  assert (Sk' : steps B c w ck wk) by (eapply steps_trans; eassumption).
  head_case H; [inversion H; subst; split; [assumption | discriminate]|].
  destruct Rk as [Rk|(Hkey & Hpk & Hdk)]; [lia|].
  destruct (consume wk ck 58) as [okc cc] eqn:Ecc.
  apply (steps_consume B) in Ecc as (Sc & Hdc & Hpc & _); [|apply Sk'].
  assert (Sc' : steps B c w cc wk) by (eapply steps_trans; eassumption).
  head_case H.
  { inversion H; subst; clear H. split; [|discriminate].
    eapply steps_trans; [exact Sc' | apply steps_error, Sc']. }
  destruct (pv cc wk) as [[[value c1] w1]|] eqn:Epv; [|discriminate].
  apply Hpv in Epv as [S1 R1]; [|apply Sc'].
  assert (S1' : steps B c w c1 w1) by (eapply steps_trans; eassumption).
  head_case H; [inversion H; subst; split; [assumption | discriminate]|].
  destruct R1 as [R1|(He & Hp1 & Hd1)]; [lia|].
  set (m2 := if first =? 0 then set_child (set_child (mem w1) key value) obj key
             else set_next (set_child (mem w1) key value) prev key) in *.
  assert (Hm2 : same_below B (mem w1) m2).
  { subst m2. destruct (Z.eqb_spec first 0); [solve_below|].
    destruct Hprev; [contradiction|]. solve_below. }
  assert (S2 : steps B c w c1 (set_mem w1 m2)).
  { eapply steps_trans; [exact S1' | apply steps_set_mem; [apply S1' | exact Hm2]]. }
  destruct (peek (set_mem w1 m2) c1) as [ch c2] eqn:Ep.
  apply (steps_peek B) in Ep as (S3 & Hd3 & Hp3); [|apply S2].
  assert (S3' : steps B c w c2 (set_mem w1 m2)) by (eapply steps_trans; eassumption).
  head_case H.
  { destruct (steps_consume_snd B c2 (set_mem w1 m2) 125 ltac:(apply S3')) as (S4 & Hd4 & Hp4).
    inversion H; subst; clear H.
    split; [eapply steps_trans; eassumption | intros _; split; [lia | congruence]]. }
  destruct (consume (set_mem w1 m2) c2 44) as [ok c3] eqn:Ec.
  apply (steps_consume B) in Ec as (S4 & Hd4 & Hp4 & _); [|apply S3'].
  assert (S4' : steps B c w c3 (set_mem w1 m2)) by (eapply steps_trans; eassumption).
  head_case H.
  { inversion H; subst; clear H. split; [|discriminate].
    eapply steps_trans; [exact S4' | apply steps_error, S4']. }
  assert (Hrec : forall c4, steps B c3 (set_mem w1 m2) c4 (set_mem w1 m2) ->
            depth c4 = depth c3 -> pos c3 <= pos c4 ->
            object_loop pv n obj (if first =? 0 then key else first) key c4 (set_mem w1 m2)
              = Some (b, c', w') ->
            steps B c w c' w' /\ (b = true -> pos c < pos c' /\ depth c' = depth c)).
  { intros c4 S5 Hd5 Hp5 Hloop.
    apply IH in Hloop as [S6 R6]; [|apply S5|assumption|right; assumption].
    split.
    - eapply steps_trans; [exact S4'|]. eapply steps_trans; eassumption.
    - intros Hb. destruct (R6 Hb). split; [lia | congruence]. }
  head_case H.
  - destruct (peek (set_mem w1 m2) c3) as [ch2 c4] eqn:Ep2.
    apply (steps_peek B) in Ep2 as (S5 & Hd5 & Hp5); [|apply S4'].
    head_case H.
    + destruct (steps_consume_snd B c4 (set_mem w1 m2) 125
                  ltac:(eapply steps_trans; [exact S4' | exact S5])) as (S6 & Hd6 & Hp6).
      inversion H; subst; clear H. split.
      * eapply steps_trans; [exact S4'|]. eapply steps_trans; eassumption.
      * intros _. split; [lia | congruence].
    + apply (Hrec c4); assumption.
  - apply (Hrec c3); [apply steps_refl, S4' | reflexivity | lia | assumption].
Qed.

Lemma parse_object_steps (B : Z) (pv : parser Z) (n : nat) :
  parser_ok B pv -> parser_ok B (parse_object pv n).
Proof.
  intros Hpv c w r c' w' Hc H. unfold parse_object in H.
  destruct (consume w c 123) as [ok c1] eqn:Ec.
  apply (steps_consume B) in Ec as (S1 & Hd1 & Hp1 & Hok); [|assumption].
  head_case H.
  { inversion H; subst; clear H. split; [|apply result_ok_null].
    eapply steps_trans; [exact S1 | apply steps_error, S1]. }
  destruct ok; [|discriminate]. specialize (Hok eq_refl).
  head_case H.
  { inversion H; subst; clear H. split; [|apply result_ok_null].
    eapply steps_trans; [exact S1 | apply steps_error, S1]. }
  assert (S2 : steps B c w (set_depth c1 (depth c1 + 1)) w).
  { eapply steps_trans; [exact S1 | apply steps_set_depth, S1]. }
  destruct (arena_alloc_val _ w) as [[obj d] w2] eqn:Ea.
  apply (steps_alloc_val B) in Ea as (S3 & Hv & Hpost); [|apply S2].
  assert (S3' : steps B c w (set_doc (set_depth c1 (depth c1 + 1)) d) w2)
    by (eapply steps_trans; eassumption).
  head_case H; [inversion H; subst; split; [assumption | apply result_ok_null]|].
  set (w3 := set_mem w2 (val_set_type (mem w2) obj JSON_OBJECT)) in *.
  assert (S4 : steps B c w (set_doc (set_depth c1 (depth c1 + 1)) d) w3).
  { eapply steps_trans; [exact S3'|]. apply steps_set_mem; [apply S3' | solve_below]. }
  destruct (peek w3 _) as [ch c4] eqn:Ep.
  apply (steps_peek B) in Ep as (S5 & Hd5 & Hp5); [|apply S4].
  assert (S5' : steps B c w c4 w3) by (eapply steps_trans; eassumption).
  cbn in Hd5, Hp5.
  head_case H.
  - destruct (steps_consume_snd B c4 w3 125 ltac:(apply S5')) as (S6 & Hd6 & Hp6).
    inversion H; subst; clear H. split.
    + eapply steps_trans; [exact S5'|]. eapply steps_trans; [exact S6|].
      apply steps_set_depth, S6.
    + right. cbn. repeat split; [assumption | lia | lia].
  - destruct (object_loop pv n obj 0 0 c4 w3) as [[[b c5] w5]|] eqn:El; [|discriminate].
    apply (object_loop_steps B) in El as [S6 R6];
      [|assumption|apply S5'|assumption|now left].
    destruct b; inversion H; subst; clear H.
    + destruct (R6 eq_refl) as [Hp6 Hd6]. split.
      * eapply steps_trans; [exact S5'|]. eapply steps_trans; [exact S6|].
        apply steps_set_depth, S6.
      * right. cbn. repeat split; [assumption | lia | lia].
    + split; [eapply steps_trans; eassumption | apply result_ok_null].
Qed.

Lemma parse_value_steps (B : Z) (fuel : nat) : parser_ok B (parse_value fuel).
Proof.
  induction fuel as [|f IH]; intros c w r c' w' Hc H; cbn [parse_value] in H; [discriminate|].
  destruct (peek w c) as [ch c0] eqn:Ep.
  apply (steps_peek B) in Ep as (S0 & Hd0 & Hp0); [|assumption].
  assert (Hleaf : forall g : parser_ctx -> world -> Z * parser_ctx * world,
            (forall r1 c1 w1, g c0 w = (r1, c1, w1) ->
               steps B c0 w c1 w1 /\ result_ok B c0 c1 r1) ->
            Some (g c0 w) = Some (r, c', w') ->
            steps B c w c' w' /\ result_ok B c c' r).
  { intros g Hg E. inversion E as [E']. apply Hg in E' as [S1 R1]. split.
    - eapply steps_trans; eassumption.
    - destruct R1 as [|(? & ? & ?)]; [now left | right; repeat split; [assumption|lia|congruence]]. }
  assert (Hrec : forall g : parser Z, parser_ok B g ->
            g c0 w = Some (r, c', w') ->
            steps B c w c' w' /\ result_ok B c c' r).
  { intros g Hg E. apply Hg in E as [S1 R1]; [|apply S0]. split.
    - eapply steps_trans; eassumption.
    - destruct R1 as [|(? & ? & ?)]; [now left | right; repeat split; [assumption|lia|congruence]]. }
  assert (Herr : forall msg, Some (0, c0, ctx_error w c0 JSON_ERROR_SYNTAX msg) = Some (r, c', w') ->
            steps B c w c' w' /\ result_ok B c c' r).
  { intros msg E. inversion E; subst. split; [|apply result_ok_null].
    eapply steps_trans; [exact S0 | apply steps_error, S0]. }
  head_case H.
  { apply (Hleaf parse_null); [|exact H]. intros.
    eapply parse_literal_steps; [| apply S0 | eassumption]; discriminate. }
  head_case H.
  { apply (Hleaf parse_true); [|exact H]. intros.
    eapply parse_literal_steps; [| apply S0 | eassumption]; discriminate. }
  head_case H.
  { apply (Hleaf parse_false); [|exact H]. intros.
    eapply parse_literal_steps; [| apply S0 | eassumption]; discriminate. }
  head_case H.
  { apply (Hleaf parse_string); [|exact H]. intros.
    eapply parse_string_steps; [apply S0 | eassumption]. }
  head_case H; [apply (Hrec (parse_array (parse_value f) f));
                [now apply parse_array_steps | exact H]|].
  head_case H; [apply (Hrec (parse_object (parse_value f) f));
                [now apply parse_object_steps | exact H]|].
  head_case H.
  { apply (Hleaf parse_number); [|exact H]. intros.
    eapply parse_number_steps; [apply S0 | eassumption]. }
  head_case H; eapply Herr; exact H.
Qed.
(** * Short texts stay in the first arena *)

Lemma same_arena_refl (d : json_doc) : same_arena d d.
Proof. split; reflexivity. Qed.

Lemma same_arena_trans (d1 d2 d3 : json_doc) :
  same_arena d1 d2 -> same_arena d2 d3 -> same_arena d1 d3.
Proof. intros [] []. split; congruence. Qed.

Lemma arena_stays_refl (c : parser_ctx) : arena_stays c c.
Proof. split; [reflexivity | intros _; apply same_arena_refl]. Qed.

Lemma room_stays_refl (c : parser_ctx) : room_stays c c.
Proof. split; [apply arena_stays_refl | auto]. Qed.

Lemma room_stays_trans (c1 c2 c3 : parser_ctx) :
  room_stays c1 c2 -> room_stays c2 c3 -> room_stays c1 c3.
Proof.
  intros [[L1 A1] R1] [[L2 A2] R2]. split; [split|].
  - congruence.
  - intros H. eapply same_arena_trans; [apply A1 | apply A2]; auto.
  - auto.
Qed.

(** Steps that leave room, then one that keeps the arena. *)
Lemma arena_stays_after (c1 c2 c3 : parser_ctx) :
  room_stays c1 c2 -> arena_stays c2 c3 -> arena_stays c1 c3.
Proof.
  intros [[L1 A1] R1] [L2 A2]. split; [congruence|].
  intros H. eapply same_arena_trans; [apply A1 | apply A2]; auto.
Qed.

(** A move of the cursor leaves the document alone. *)
Lemma room_stays_moves (c c' : parser_ctx) : moves c c' -> room_stays c c'.
Proof.
  intros []. unfold room_stays, arena_stays, node_room, same_arena.
  rewrite mv_doc0, mv_len0. repeat split; auto.
  unfold sizeof_json_val. lia.
Qed.

Lemma room_stays_set_depth (c : parser_ctx) (n : Z) : room_stays c (set_depth c n).
Proof. unfold room_stays, arena_stays, node_room, same_arena. cbn. auto. Qed.

(** With room for a node, [arena_alloc_val] does not call [arena_grow]. *)
Lemma arena_alloc_val_fits (d : json_doc) (w : world) (val : Z) (d' : json_doc) (w' : world) :
  arena_used d + sizeof_json_val <= arena_size d ->
  arena_alloc_val d w = (val, d', w') ->
  same_arena d d' /\ arena_used d' = arena_used d + sizeof_json_val.
Proof.
  intros Hfit H. unfold arena_alloc_val in H.
  destruct (Z.gtb_spec (arena_used d + sizeof_json_val) (arena_size d)) as [|_]; [lia|].
  cbn [negb] in H. inversion H; subst. cbn. repeat split; reflexivity.
Qed.

(** [arena_alloc_string] leaves the node arena alone. *)
Lemma arena_alloc_string_arena (d : json_doc) (slen : Z) (w : world) (str : Z)
    (d' : json_doc) (w' : world) :
  arena_alloc_string d slen w = (str, d', w') ->
  same_arena d d' /\ arena_used d' = arena_used d.
Proof.
  unfold arena_alloc_string, strings_grow. intros H.
  destruct (strings_used d + (slen + 1) >? strings_size d).
  - destruct (realloc _ _ w) as [p w1]. destruct (p =? 0); cbn [negb] in H;
      inversion H; subst; cbn; repeat split; reflexivity.
  - cbn [negb] in H. inversion H; subst; cbn; repeat split; reflexivity.
Qed.

(** A node allocated behind at least [k >= 1] bytes that the cursor passes:
    the step leaves room. *)
Lemma room_stays_node (c c' : parser_ctx) (w : world) (val : Z) (d : json_doc) (w' : world) :
  arena_alloc_val (doc c) w = (val, d, w') ->
  len c' = len c -> pos c < pos c' <= len c -> doc c' = d ->
  room_stays c c'.
Proof.
  intros Ea Hl Hp Hd. unfold room_stays, arena_stays, node_room. rewrite Hl, Hd.
  assert (H : node_room c -> same_arena (doc c) d /\
                             arena_used d = arena_used (doc c) + sizeof_json_val).
  { intros Hr. apply (arena_alloc_val_fits _ w val d w'); [|exact Ea].
    unfold node_room, sizeof_json_val in *. lia. }
  split; [split; [reflexivity | intros Hr; exact (proj1 (H Hr))]|].
  intros Hr. destruct (H Hr) as [[_ Es] Eu]. rewrite Es, Eu.
  unfold node_room, sizeof_json_val in *. lia.
Qed.

(** The same when the function fails behind the allocation. *)
Lemma arena_stays_node (c c' : parser_ctx) (w : world) (val : Z) (d : json_doc) (w' : world) :
  arena_alloc_val (doc c) w = (val, d, w') ->
  len c' = len c -> pos c < len c -> same_arena d (doc c') ->
  arena_stays c c'.
Proof.
  intros Ea Hl Hp Hd. split; [exact Hl|]. intros Hr.
  eapply same_arena_trans; [|exact Hd].
  apply (arena_alloc_val_fits _ w val d w'); [|exact Ea].
  unfold node_room, sizeof_json_val in *. lia.
Qed.

Ltac no_node := split; [apply arena_stays_refl | intros Hnz; now contradiction Hnz].

Lemma parse_literal_keeps (word : list Z) (tag : Z) (msg : string)
    (c : parser_ctx) (w : world) (r : Z) (c' : parser_ctx) (w' : world) :
  word <> [] -> parse_literal word tag msg c w = (r, c', w') ->
  arena_stays c c' /\ (r <> 0 -> room_stays c c').
Proof.
  intros Hw H. unfold parse_literal in H.
  destruct ((pos c + Z.of_nat (length word) <=? len c) && _) eqn:E;
    [|inversion H; subst; no_node].
  apply andb_prop in E as [E _]. apply Z.leb_le in E.
  assert (Hl : 0 < Z.of_nat (length word)) by (destruct word; [contradiction | simpl; lia]).
  destruct (arena_alloc_val _ w) as [[val d] w1] eqn:Ea. cbn [doc advance] in Ea.
  assert (Hroom : room_stays c (set_doc (advance c (Z.of_nat (length word))) d)).
  { apply (room_stays_node c _ w val d w1 Ea); cbn; [reflexivity | lia | reflexivity]. }
  destruct (val =? 0); inversion H; subst; (split; [apply Hroom | intros _; exact Hroom]).
Qed.

Lemma parse_number_keeps (c : parser_ctx) (w : world) (r : Z) (c' : parser_ctx) (w' : world) :
  parse_number c w = (r, c', w') ->
  arena_stays c c' /\ (r <> 0 -> room_stays c c').
Proof.
  intros H. unfold parse_number in H.
  set (start := input c + pos c) in *. set (remaining := len c - pos c) in *.
  set (i0 := if (0 <? remaining) && (load8 (mem w) (start + 0) =? 45) then 0 + 1 else 0) in *.
  assert (Hi0 : 0 <= i0) by (subst i0; destruct (_ && _); lia).
  destruct ((i0 >=? remaining) || negb (isdigit (load8 (mem w) (start + i0)))) eqn:E1;
    [inversion H; subst; no_node|].
  apply orb_false_elim in E1 as [E1 E1d]. apply negb_false_iff in E1d.
  assert (Hlt : i0 < remaining) by lia.
  destruct ((load8 (mem w) (start + i0) =? 48) && (i0 + 1 <? remaining) && _);
    [inversion H; subst; no_node|].
  pose proof (skip_digits_bounds (Z.to_nat (remaining - i0)) (mem w) start remaining i0
                ltac:(lia)) as Hb1.
  pose proof (skip_digits_progress (Z.to_nat (remaining - i0)) (mem w) start remaining i0
                ltac:(lia) Hlt E1d) as Hp1.
  set (i1 := skip_digits _ _ _ _ i0) in *.
  destruct (number_fraction (mem w) start remaining i1) as [[f2 i2]|] eqn:E2;
    [|inversion H; subst; no_node].
  apply number_fraction_bounds in E2; [|lia].
  destruct (number_exponent (mem w) start remaining f2 i2) as [[f3 i3]|] eqn:E3;
    [|inversion H; subst; no_node].
  apply number_exponent_bounds in E3; [|lia].
  destruct (arena_alloc_val (doc c) w) as [[val d] w1] eqn:Ea.
  assert (Hroom : room_stays c (advance (set_doc c d) i3)).
  { apply (room_stays_node c _ w val d w1 Ea); cbn; [reflexivity | | reflexivity].
    subst remaining. lia. }
  assert (Hfail : arena_stays c (set_doc c d)).
  { apply (arena_stays_node c _ w val d w1 Ea); cbn;
      [reflexivity | subst remaining; lia | apply same_arena_refl]. }
  destruct (val =? 0); [inversion H; subst; split; [exact Hfail | intros Hnz; now contradiction Hnz]|].
  destruct f3.
  - destruct (strtod _) as [dv erange]. destruct erange; inversion H; subst; clear H.
    + split; [exact Hfail | intros Hnz; now contradiction Hnz].
    + split; [apply Hroom | intros _; exact Hroom].
  - destruct (strtoll _) as [ll erange]. destruct erange.
    + destruct (strtod _) as [dv e2]. inversion H; subst; clear H.
      split; [apply Hroom | intros _; exact Hroom].
    + inversion H; subst; clear H. split; [apply Hroom | intros _; exact Hroom].
Qed.

Lemma parse_string_keeps (c : parser_ctx) (w : world) (r : Z) (c' : parser_ctx) (w' : world) :
  parse_string c w = (r, c', w') ->
  arena_stays c c' /\ (r <> 0 -> room_stays c c').
Proof.
  intros H. unfold parse_string in H.
  head_case H; [inversion H; subst; no_node|].
  match goal with E : _ || _ = false |- _ => apply orb_false_elim in E as [E _] end.
  assert (Hlt : pos c < len c) by lia.
  assert (M1 : moves c (advance c 1)) by (apply moves_advance; lia).
  destruct (measure_string _ w (advance c 1) 0 false) as [[res c2] w2] eqn:Em.
  apply measure_string_moves in Em as (M2 & Hmem2 & Hbrk2 & Hres).
  assert (M12 : moves c c2) by (eapply moves_trans; eassumption).
  pose proof (room_stays_moves c c2 M12) as K2.
  destruct res as [[slen esc]|];
    [|inversion H; subst; split; [apply K2 | intros Hnz; now contradiction Hnz]].
  destruct (Hres slen esc eq_refl) as [Hslen ->].
  head_case H.
  { inversion H; subst; split; [apply K2 | intros Hnz; now contradiction Hnz]. }
  assert (Hlt2 : pos c2 < len c2) by lia.
  destruct (arena_alloc_val _ w) as [[val d] w3] eqn:Ea. cbn [doc advance] in Ea.
  destruct M12 as [_ Ml _ _ Md _ Mp _]. rewrite Md in Ea.
  assert (Hroom : room_stays c (set_doc (advance c2 1) d)).
  { apply (room_stays_node c _ w val d w3 Ea); cbn; [exact Ml | lia | reflexivity]. }
  head_case H; [inversion H; subst; split; [apply Hroom | intros Hnz; now contradiction Hnz]|].
  head_case H.
  - inversion H; subst; clear H. split; [apply Hroom | intros _; exact Hroom].
  - destruct (arena_alloc_string _ slen w3) as [[str d2] w4] eqn:Es. cbn [doc set_doc] in Es.
    apply arena_alloc_string_arena in Es as [Hs2 Hu2].
    assert (Hroom2 : room_stays c (set_doc (set_doc (advance c2 1) d) d2)).
    { destruct Hroom as [[Hl Ha] Hr]. cbn in Hl, Ha, Hr.
      unfold room_stays, arena_stays, node_room. cbn.
      destruct Hs2 as [Ea2 Es2]. rewrite Hu2, Es2.
      split; [split; [exact Hl|]|exact Hr].
      intros Hc. eapply same_arena_trans; [apply Ha; exact Hc | split; assumption]. }
    head_case H; inversion H; subst; clear H;
      (split; [apply Hroom2 | intros _; exact Hroom2]).
Qed.

(** [consume] that finds its byte stands inside the input. *)
Lemma consume_keeps (w : world) (c : parser_ctx) (e : Z) (b : bool) (c' : parser_ctx) :
  consume w c e = (b, c') ->
  room_stays c c' /\ (b = true -> pos c < pos c' <= len c /\ doc c' = doc c).
Proof.
  intros H. pose proof H as H'. apply consume_moves in H' as [Hm Hb].
  split; [now apply room_stays_moves|]. intros ->. specialize (Hb eq_refl).
  unfold consume in H. pose proof (skip_ws_moves w c) as Hs.
  destruct ((pos (skip_ws w c) <? len (skip_ws w c)) && _) eqn:E; [|discriminate].
  apply andb_prop in E as [E _]. apply Z.ltb_lt in E.
  inversion H; subst; clear H. destruct Hs. cbn. split; [lia | assumption].
Qed.

Lemma peek_keeps (w : world) (c : parser_ctx) (ch : Z) (c' : parser_ctx) :
  peek w c = (ch, c') -> room_stays c c'.
Proof. intros H. apply peek_moves in H as [_ Hm]. now apply room_stays_moves. Qed.

Lemma consume_snd_keeps (w : world) (c : parser_ctx) (e : Z) :
  room_stays c (snd (consume w c e)).
Proof.
  destruct (consume w c e) as [b c'] eqn:E. apply consume_keeps in E as [H _]. exact H.
Qed.

Ltac fails_with K := split; [apply K | intros Hnz; discriminate Hnz || now contradiction Hnz].

Lemma array_loop_keeps (pv : parser Z) (n : nat) :
  keeps_arena pv ->
  forall arr first prev c w b c' w',
    array_loop pv n arr first prev c w = Some (b, c', w') ->
    arena_stays c c' /\ (b = true -> room_stays c c').
Proof.
  intros Hpv. induction n as [|n IH]; intros arr first prev c w b c' w' H;
    cbn [array_loop] in H; [discriminate|].
  destruct (pv c w) as [[[elem c1] w1]|] eqn:Epv; [|discriminate].
  apply Hpv in Epv as [A1 R1].
  destruct (Z.eqb_spec elem 0) as [|Hne];
    [inversion H; subst; split; [exact A1 | discriminate]|].
  specialize (R1 Hne).
  set (w2 := set_mem w1 _) in *.
  destruct (peek w2 c1) as [ch c2] eqn:Ep. apply peek_keeps in Ep.
  assert (K2 : room_stays c c2) by (eapply room_stays_trans; eassumption).
  head_case H.
  { inversion H; subst; clear H.
    assert (K : room_stays c (snd (consume w2 c2 93)))
      by (eapply room_stays_trans; [exact K2 | apply consume_snd_keeps]).
    split; [apply K | intros _; exact K]. }
  destruct (consume w2 c2 44) as [ok c3] eqn:Ec. apply consume_keeps in Ec as [Kc _].
  assert (K3 : room_stays c c3) by (eapply room_stays_trans; eassumption).
  head_case H; [inversion H; subst; split; [apply K3 | discriminate]|].
  assert (Hrec : forall c4, room_stays c3 c4 ->
            array_loop pv n arr (if first =? 0 then elem else first) elem c4 w2
              = Some (b, c', w') ->
            arena_stays c c' /\ (b = true -> room_stays c c')).
  { intros c4 K4 Hloop. apply IH in Hloop as [A5 R5].
    assert (K04 : room_stays c c4) by (eapply room_stays_trans; eassumption).
    split; [eapply arena_stays_after; eassumption|].
    intros Hb. eapply room_stays_trans; [exact K04 | exact (R5 Hb)]. }
  head_case H.
  - destruct (peek w2 c3) as [ch2 c4] eqn:Ep2. apply peek_keeps in Ep2.
    head_case H.
    + inversion H; subst; clear H.
      assert (K : room_stays c (snd (consume w2 c4 93))).
      { eapply room_stays_trans; [exact K3|].
        eapply room_stays_trans; [exact Ep2 | apply consume_snd_keeps]. }
      split; [apply K | intros _; exact K].
    + apply (Hrec c4); assumption.
  - apply (Hrec c3); [apply room_stays_refl | assumption].
Qed.

(** The entry of a container: the opening byte, the depth, the node. *)
Lemma container_node_keeps (c c1 : parser_ctx) (w : world) (e : Z) (n : Z) (val : Z)
    (d : json_doc) (w' : world) :
  consume w c e = (true, c1) ->
  arena_alloc_val (doc (set_depth c1 n)) w = (val, d, w') ->
  room_stays c (set_doc (set_depth c1 n) d).
Proof.
  intros Ec Ea. pose proof Ec as Ec'. apply consume_keeps in Ec' as [[[Hl _] _] Hin].
  destruct (Hin eq_refl) as [Hp Hd]. cbn [doc set_depth] in Ea. rewrite Hd in Ea.
  apply (room_stays_node c _ w val d w' Ea); cbn; [exact Hl | lia | reflexivity].
Qed.

Lemma parse_array_keeps (pv : parser Z) (n : nat) :
  keeps_arena pv -> keeps_arena (parse_array pv n).
Proof.
  intros Hpv c w r c' w' H. unfold parse_array in H.
  destruct (consume w c 91) as [ok c1] eqn:Ec.
  pose proof Ec as Ec'. apply consume_keeps in Ec' as [K1 _].
  head_case H; [inversion H; subst; clear H; fails_with K1|].
  destruct ok; [|discriminate].
  head_case H; [inversion H; subst; clear H; fails_with K1|].
  destruct (arena_alloc_val _ w) as [[arr d] w2] eqn:Ea.
  pose proof (container_node_keeps c c1 w 91 _ arr d w2 Ec Ea) as K2.
  head_case H; [inversion H; subst; fails_with K2|].
  set (w3 := set_mem w2 _) in *.
  destruct (peek w3 _) as [ch c4] eqn:Ep. apply peek_keeps in Ep.
  assert (K4 : room_stays c c4) by (eapply room_stays_trans; eassumption).
  head_case H.
  - inversion H; subst; clear H.
    assert (K : room_stays c (set_depth (snd (consume w3 c4 93))
                                 (depth (snd (consume w3 c4 93)) - 1))).
    { eapply room_stays_trans; [exact K4|].
      eapply room_stays_trans; [apply consume_snd_keeps | apply room_stays_set_depth]. }
    split; [apply K | intros _; exact K].
  - destruct (array_loop pv n arr 0 0 c4 w3) as [[[b c5] w5]|] eqn:El; [|discriminate].
    apply (array_loop_keeps pv n Hpv) in El as [A5 R5].
    destruct b; inversion H; subst; clear H.
    + assert (K : room_stays c (set_depth c5 (depth c5 - 1))).
      { eapply room_stays_trans; [exact K4|].
        eapply room_stays_trans; [exact (R5 eq_refl) | apply room_stays_set_depth]. }
      split; [apply K | intros _; exact K].
    + split; [eapply arena_stays_after; eassumption | intros Hnz; now contradiction Hnz].
Qed.

Lemma object_loop_keeps (pv : parser Z) (n : nat) :
  keeps_arena pv ->
  forall obj first prev c w b c' w',
    object_loop pv n obj first prev c w = Some (b, c', w') ->
    arena_stays c c' /\ (b = true -> room_stays c c').
Proof.
  intros Hpv. induction n as [|n IH]; intros obj first prev c w b c' w' H;
    cbn [object_loop] in H; [discriminate|].
  destruct (peek w c) as [ch0 c0] eqn:Ep0. apply peek_keeps in Ep0.
  head_case H; [inversion H; subst; split; [apply Ep0 | discriminate]|].
  destruct (parse_string c0 w) as [[key ck] wk] eqn:Ek.
  apply parse_string_keeps in Ek as [Ak Rk].
  destruct (Z.eqb_spec key 0) as [|Hkey];
    [inversion H; subst; split; [eapply arena_stays_after; eassumption | discriminate]|].
  assert (Kk : room_stays c ck) by (eapply room_stays_trans; [exact Ep0 | exact (Rk Hkey)]).
  destruct (consume wk ck 58) as [okc cc] eqn:Ecc. apply consume_keeps in Ecc as [Kcc _].
  assert (Kc : room_stays c cc) by (eapply room_stays_trans; eassumption).
  head_case H; [inversion H; subst; split; [apply Kc | discriminate]|].
  destruct (pv cc wk) as [[[value c1] w1]|] eqn:Epv; [|discriminate].
  apply Hpv in Epv as [A1 R1].
  destruct (Z.eqb_spec value 0) as [|Hne];
    [inversion H; subst; split; [eapply arena_stays_after; eassumption | discriminate]|].
  assert (K1 : room_stays c c1) by (eapply room_stays_trans; [exact Kc | exact (R1 Hne)]).
  set (w2 := set_mem w1 _) in *.
  destruct (peek w2 c1) as [ch c2] eqn:Ep. apply peek_keeps in Ep.
  assert (K2 : room_stays c c2) by (eapply room_stays_trans; eassumption).
  head_case H.
  { inversion H; subst; clear H.
    assert (K : room_stays c (snd (consume w2 c2 125)))
      by (eapply room_stays_trans; [exact K2 | apply consume_snd_keeps]).
    split; [apply K | intros _; exact K]. }
  destruct (consume w2 c2 44) as [ok c3] eqn:Ec. apply consume_keeps in Ec as [Kc3 _].
  assert (K3 : room_stays c c3) by (eapply room_stays_trans; eassumption).
  head_case H; [inversion H; subst; split; [apply K3 | discriminate]|].
  assert (Hrec : forall c4, room_stays c3 c4 ->
            object_loop pv n obj (if first =? 0 then key else first) key c4 w2
              = Some (b, c', w') ->
            arena_stays c c' /\ (b = true -> room_stays c c')).
  { intros c4 K4 Hloop. apply IH in Hloop as [A5 R5].
    assert (K04 : room_stays c c4) by (eapply room_stays_trans; eassumption).
    split; [eapply arena_stays_after; eassumption|].
    intros Hb. eapply room_stays_trans; [exact K04 | exact (R5 Hb)]. }
  head_case H.
  - destruct (peek w2 c3) as [ch2 c4] eqn:Ep2. apply peek_keeps in Ep2.
    head_case H.
    + inversion H; subst; clear H.
      assert (K : room_stays c (snd (consume w2 c4 125))).
      { eapply room_stays_trans; [exact K3|].
        eapply room_stays_trans; [exact Ep2 | apply consume_snd_keeps]. }
      split; [apply K | intros _; exact K].
    + apply (Hrec c4); assumption.
  - apply (Hrec c3); [apply room_stays_refl | assumption].
Qed.

Lemma parse_object_keeps (pv : parser Z) (n : nat) :
  keeps_arena pv -> keeps_arena (parse_object pv n).
Proof.
  intros Hpv c w r c' w' H. unfold parse_object in H.
  destruct (consume w c 123) as [ok c1] eqn:Ec.
  pose proof Ec as Ec'. apply consume_keeps in Ec' as [K1 _].
  head_case H; [inversion H; subst; clear H; fails_with K1|].
  destruct ok; [|discriminate].
  head_case H; [inversion H; subst; clear H; fails_with K1|].
  destruct (arena_alloc_val _ w) as [[obj d] w2] eqn:Ea.
  pose proof (container_node_keeps c c1 w 123 _ obj d w2 Ec Ea) as K2.
  head_case H; [inversion H; subst; fails_with K2|].
  set (w3 := set_mem w2 _) in *.
  destruct (peek w3 _) as [ch c4] eqn:Ep. apply peek_keeps in Ep.
  assert (K4 : room_stays c c4) by (eapply room_stays_trans; eassumption).
  head_case H.
  - inversion H; subst; clear H.
    assert (K : room_stays c (set_depth (snd (consume w3 c4 125))
                                 (depth (snd (consume w3 c4 125)) - 1))).
    { eapply room_stays_trans; [exact K4|].
      eapply room_stays_trans; [apply consume_snd_keeps | apply room_stays_set_depth]. }
    split; [apply K | intros _; exact K].
  - destruct (object_loop pv n obj 0 0 c4 w3) as [[[b c5] w5]|] eqn:El; [|discriminate].
    apply (object_loop_keeps pv n Hpv) in El as [A5 R5].
    destruct b; inversion H; subst; clear H.
    + assert (K : room_stays c (set_depth c5 (depth c5 - 1))).
      { eapply room_stays_trans; [exact K4|].
        eapply room_stays_trans; [exact (R5 eq_refl) | apply room_stays_set_depth]. }
      split; [apply K | intros _; exact K].
    + split; [eapply arena_stays_after; eassumption | intros Hnz; now contradiction Hnz].
Qed.

(** No call of the recursive descent grows an arena that has room for one
    node per byte left: whatever the input holds and however the call ends,
    the arena is the block it was, and a call that returns a node leaves
    room for the bytes behind it. *)
Lemma parse_value_keeps_arena (fuel : nat) : keeps_arena (parse_value fuel).
Proof.
  induction fuel as [|f IH]; intros c w r c' w' H; cbn [parse_value] in H; [discriminate|].
  destruct (peek w c) as [ch c0] eqn:Ep. apply peek_keeps in Ep.
  assert (Hleaf : forall g : parser_ctx -> world -> Z * parser_ctx * world,
            (forall r1 c1 w1, g c0 w = (r1, c1, w1) ->
               arena_stays c0 c1 /\ (r1 <> 0 -> room_stays c0 c1)) ->
            Some (g c0 w) = Some (r, c', w') ->
            arena_stays c c' /\ (r <> 0 -> room_stays c c')).
  { intros g Hg E. inversion E as [E']. apply Hg in E' as [A1 R1]. split.
    - eapply arena_stays_after; eassumption.
    - intros Hnz. eapply room_stays_trans; [exact Ep | exact (R1 Hnz)]. }
  assert (Hrec : forall g : parser Z, keeps_arena g ->
            g c0 w = Some (r, c', w') ->
            arena_stays c c' /\ (r <> 0 -> room_stays c c')).
  { intros g Hg E. apply Hg in E as [A1 R1]. split.
    - eapply arena_stays_after; eassumption.
    - intros Hnz. eapply room_stays_trans; [exact Ep | exact (R1 Hnz)]. }
  head_case H.
  { apply (Hleaf parse_null); [|exact H]. intros.
    eapply parse_literal_keeps; [|eassumption]; discriminate. }
  head_case H.
  { apply (Hleaf parse_true); [|exact H]. intros.
    eapply parse_literal_keeps; [|eassumption]; discriminate. }
  head_case H.
  { apply (Hleaf parse_false); [|exact H]. intros.
    eapply parse_literal_keeps; [|eassumption]; discriminate. }
  head_case H.
  { apply (Hleaf parse_string); [|exact H]. intros. eapply parse_string_keeps; eassumption. }
  head_case H; [apply (Hrec (parse_array (parse_value f) f));
                [now apply parse_array_keeps | exact H]|].
  head_case H; [apply (Hrec (parse_object (parse_value f) f));
                [now apply parse_object_keeps | exact H]|].
  head_case H.
  { apply (Hleaf parse_number); [|exact H]. intros. eapply parse_number_keeps; eassumption. }
  head_case H; inversion H; subst; (split; [apply Ep | intros Hnz; now contradiction Hnz]).
Qed.

(** ** The document of a short text *)

Lemma arena_create_size (n : Z) (w : world) (d : json_doc) (w' : world) :
  arena_create n w = (Some d, w') ->
  arena_used d = 0 /\
  arena_size d = align_up (if n =? 0 then ARENA_INITIAL_SIZE else n) ARENA_ALIGNMENT.
Proof.
  unfold arena_create. intros H.
  destruct (aligned_alloc_impl _ _ w) as [a w1].
  destruct (a =? 0); [discriminate|].
  destruct (malloc _ w1) as [s w2].
  destruct (s =? 0); [discriminate|].
  inversion H; subst. split; reflexivity.
Qed.

(** The arena [parse_json] creates for a text of at most 2730 bytes has the
    64 KiB of the lower bound, and room for one node per byte of the text. *)
Lemma short_text_arena (len_ : Z) :
  len_ * sizeof_json_val <= 64 * 1024 ->
  (if (len_ / 4 + 1) * sizeof_json_val <? 64 * 1024 then 64 * 1024
   else (len_ / 4 + 1) * sizeof_json_val) = 64 * 1024.
Proof.
  unfold sizeof_json_val. intros H.
  destruct (Z.ltb_spec ((len_ / 4 + 1) * 24) (64 * 1024)) as [|Hge]; [reflexivity|].
  assert (len_ / 4 < 683) by (apply Z.div_lt_upper_bound; lia). lia.
Qed.

(** A document that [parse_json] returns for a text of at most 2730 bytes
    lives in the arena [arena_create] made: [arena_grow] was never called. *)
Lemma parse_json_first_arena (json len_ : Z) (opts : option json_parse_options) (w : world)
    (d : json_doc) (w' : world) :
  len_ * sizeof_json_val <= 64 * 1024 ->
  parse_json json len_ opts w = Some (Some d, w') ->
  arena_size d = 64 * 1024.
Proof.
  intros Hlen H. unfold parse_json in H. rewrite (short_text_arena len_ Hlen) in H.
  destruct (arena_create (64 * 1024) w) as [[d0|] w1] eqn:Ec; [|discriminate].
  apply arena_create_size in Ec as [Hu Hs].
  change (align_up (if 64 * 1024 =? 0 then ARENA_INITIAL_SIZE else 64 * 1024)
            ARENA_ALIGNMENT) with (64 * 1024) in Hs.
  set (c0 := mk_ctx json len_ 0 1 1 d0 _ _ 0) in H.
  assert (Hroom : node_room c0).
  { unfold node_room. cbn [doc len pos c0]. rewrite Hu, Hs. lia. }
  destruct (parse_value _ c0 w1) as [[[r c1] w2]|] eqn:Ep; [|discriminate].
  apply parse_value_keeps_arena in Ep as [[_ Hstay] _].
  destruct (Hstay Hroom) as [_ Hsize]. cbn [doc c0] in Hsize.
  destruct (r =? 0); [discriminate|].
  match type of H with
  | (if ?b then _ else _) = _ => destruct b; [discriminate|]
  end.
  inversion H; subst. cbn [arena_size]. congruence.
Qed.

Lemma json_parse_opts_first_arena (json len_ : Z) (opts : option json_parse_options)
    (w : world) (d : json_doc) (w' : world) :
  len_ * sizeof_json_val <= 64 * 1024 ->
  json_parse_opts json len_ opts w = Some (Some d, w') ->
  arena_size d = 64 * 1024.
Proof.
  intros Hlen H. unfold json_parse_opts in H.
  destruct ((json =? 0) || (len_ =? 0)); [discriminate|].
  exact (parse_json_first_arena json len_ opts _ d w' Hlen H).
Qed.

(** ** The fuel suffices *)

Lemma array_loop_total (B F : Z) (pv : parser Z) (n : nat) :
  parser_ok B pv -> total_below B F pv ->
  forall arr first prev c w,
    ctx_ok B c w -> B <= arr -> (first = 0 \/ B <= prev) ->
    len c - pos c < Z.of_nat n -> len c - pos c < F ->
    exists b c' w', array_loop pv n arr first prev c w = Some (b, c', w').
Proof.
  intros Hpv Htot. induction n as [|n IH]; intros arr first prev c w Hc Harr Hprev Hn HF.
  { destruct Hc as [_ Hp]. lia. }
  cbn [array_loop].
  destruct (Htot c w Hc HF) as (elem & c1 & w1 & Epv). rewrite Epv.
  apply Hpv in Epv as [S1 R1]; [|assumption].
  destruct (Z.eqb_spec elem 0) as [|Hne]; [eauto|].
  destruct R1 as [R1|(He & Hp1 & Hd1)]; [lia|].
  set (m2 := if first =? 0 then set_child (mem w1) arr elem
             else set_next (mem w1) prev elem) in *.
  assert (Hm2 : same_below B (mem w1) m2).
  { subst m2. destruct (Z.eqb_spec first 0); [solve_below|].
    destruct Hprev; [contradiction|]. solve_below. }
  assert (S2 : steps B c1 w1 c1 (set_mem w1 m2))
    by (apply steps_set_mem; [apply S1 | exact Hm2]).
  destruct (peek (set_mem w1 m2) c1) as [ch c2] eqn:Ep.
  apply (steps_peek B) in Ep as (S3 & Hd3 & Hp3); [|apply S2].
  destruct (ch =? 93); [eauto|].
  destruct (consume (set_mem w1 m2) c2 44) as [ok c3] eqn:Ec.
  apply (steps_consume B) in Ec as (S4 & Hd4 & Hp4 & _); [|apply S3].
  destruct (negb ok); [eauto|].
  assert (Hlen : len c3 = len c).
  { destruct S1, S3, S4. congruence. }
  destruct (negb (Z.land (flags c3) JSON_PARSE_ALLOW_TRAILING =? 0)).
  - destruct (peek (set_mem w1 m2) c3) as [ch2 c4] eqn:Ep2.
    apply (steps_peek B) in Ep2 as (S5 & Hd5 & Hp5); [|apply S4].
    destruct (ch2 =? 93); [eauto|].
    apply IH; [apply S5 | assumption | now right | |];
      destruct S5; lia.
  - apply IH; [apply S4 | assumption | now right | |]; lia.
Qed.

Lemma parse_array_total (B : Z) (pv : parser Z) (n : nat) :
  parser_ok B pv -> total_below B (Z.of_nat n) pv ->
  total_below B (Z.of_nat (S n)) (parse_array pv n).
Proof.
  intros Hpv Htot c w Hc Hn. unfold parse_array.
  destruct (consume w c 91) as [ok c1] eqn:Ec.
  apply (steps_consume B) in Ec as (S1 & Hd1 & Hp1 & Hok); [|assumption].
  destruct ok; cbn [negb]; [|eauto]. specialize (Hok eq_refl).
  destruct ((max_depth c1 >? 0) && (depth c1 >=? max_depth c1)); [eauto|].
  assert (S2 : steps B c1 w (set_depth c1 (depth c1 + 1)) w)
    by (apply steps_set_depth, S1).
  destruct (arena_alloc_val _ w) as [[arr d] w2] eqn:Ea.
  apply (steps_alloc_val B) in Ea as (S3 & Hv & Hpost); [|apply S2].
  destruct (arr =? 0); [eauto|].
  set (w3 := set_mem w2 (val_set_type (mem w2) arr JSON_ARRAY)) in *.
  assert (S4 : steps B (set_doc (set_depth c1 (depth c1 + 1)) d) w2
                       (set_doc (set_depth c1 (depth c1 + 1)) d) w3).
  { apply steps_set_mem; [apply S3 | solve_below]. }
  destruct (peek w3 _) as [ch c4] eqn:Ep.
  apply (steps_peek B) in Ep as (S5 & Hd5 & Hp5); [|apply S4].
  cbn in Hp5.
  destruct (ch =? 93); [eauto|].
  assert (Hlen : len c4 = len c).
  { destruct S1, S5. cbn in *. congruence. }
  destruct (array_loop_total B (Z.of_nat n) pv n Hpv Htot arr 0 0 c4 w3)
    as (b & c5 & w5 & El); [apply S5 | assumption | now left | lia | lia |].
  rewrite El. destruct b; eauto.
Qed.

Lemma object_loop_total (B F : Z) (pv : parser Z) (n : nat) :
  parser_ok B pv -> total_below B F pv ->
  forall obj first prev c w,
    ctx_ok B c w -> B <= obj -> (first = 0 \/ B <= prev) ->
    len c - pos c < Z.of_nat n -> len c - pos c < F ->
    exists b c' w', object_loop pv n obj first prev c w = Some (b, c', w').
Proof.
  intros Hpv Htot. induction n as [|n IH]; intros obj first prev c w Hc Hobj Hprev Hn HF.
  { destruct Hc as [_ Hp]. lia. }
  cbn [object_loop].
  destruct (peek w c) as [ch0 c0] eqn:Ep0.
  apply (steps_peek B) in Ep0 as (S0 & Hd0 & Hp0); [|assumption].
  destruct (negb (ch0 =? 34)); [eauto|].
  destruct (parse_string c0 w) as [[key ck] wk] eqn:Ek.
  apply (parse_string_steps B) in Ek as [Sk Rk]; [|apply S0].
  destruct (Z.eqb_spec key 0) as [|Hkne]; [eauto|].
  destruct Rk as [Rk|(Hkey & Hpk & Hdk)]; [lia|].
  destruct (consume wk ck 58) as [okc cc] eqn:Ecc.
  apply (steps_consume B) in Ecc as (Sc & Hdc & Hpc & _); [|apply Sk].
  destruct (negb okc); [eauto|].
  assert (Hlenc : len cc = len c).
  { destruct S0, Sk, Sc. congruence. }
  destruct (Htot cc wk) as (value & c1 & w1 & Epv); [apply Sc | lia |].
  rewrite Epv.
  apply Hpv in Epv as [S1 R1]; [|apply Sc].
  destruct (Z.eqb_spec value 0) as [|Hne]; [eauto|].
  destruct R1 as [R1|(He & Hp1 & Hd1)]; [lia|].
  set (m2 := if first =? 0 then set_child (set_child (mem w1) key value) obj key
             else set_next (set_child (mem w1) key value) prev key) in *.
  assert (Hm2 : same_below B (mem w1) m2).
  { subst m2. destruct (Z.eqb_spec first 0); [solve_below|].
    destruct Hprev; [contradiction|]. solve_below. }
  assert (S2 : steps B c1 w1 c1 (set_mem w1 m2))
    by (apply steps_set_mem; [apply S1 | exact Hm2]).
  destruct (peek (set_mem w1 m2) c1) as [ch c2] eqn:Ep.
  apply (steps_peek B) in Ep as (S3 & Hd3 & Hp3); [|apply S2].
  destruct (ch =? 125); [eauto|].
  destruct (consume (set_mem w1 m2) c2 44) as [ok c3] eqn:Ec.
  apply (steps_consume B) in Ec as (S4 & Hd4 & Hp4 & _); [|apply S3].
  destruct (negb ok); [eauto|].
  assert (Hlen : len c3 = len c).
  { destruct S1, S3, S4. congruence. }
  destruct (negb (Z.land (flags c3) JSON_PARSE_ALLOW_TRAILING =? 0)).
  - destruct (peek (set_mem w1 m2) c3) as [ch2 c4] eqn:Ep2.
    apply (steps_peek B) in Ep2 as (S5 & Hd5 & Hp5); [|apply S4].
    destruct (ch2 =? 125); [eauto|].
    apply IH; [apply S5 | assumption | now right | |];
      destruct S5; lia.
  - apply IH; [apply S4 | assumption | now right | |]; lia.
Qed.

Lemma parse_object_total (B : Z) (pv : parser Z) (n : nat) :
  parser_ok B pv -> total_below B (Z.of_nat n) pv ->
  total_below B (Z.of_nat (S n)) (parse_object pv n).
Proof.
  intros Hpv Htot c w Hc Hn. unfold parse_object.
  destruct (consume w c 123) as [ok c1] eqn:Ec.
  apply (steps_consume B) in Ec as (S1 & Hd1 & Hp1 & Hok); [|assumption].
  destruct ok; cbn [negb]; [|eauto]. specialize (Hok eq_refl).
  destruct ((max_depth c1 >? 0) && (depth c1 >=? max_depth c1)); [eauto|].
  assert (S2 : steps B c1 w (set_depth c1 (depth c1 + 1)) w)
    by (apply steps_set_depth, S1).
  destruct (arena_alloc_val _ w) as [[obj d] w2] eqn:Ea.
  apply (steps_alloc_val B) in Ea as (S3 & Hv & Hpost); [|apply S2].
  destruct (obj =? 0); [eauto|].
  set (w3 := set_mem w2 (val_set_type (mem w2) obj JSON_OBJECT)) in *.
  assert (S4 : steps B (set_doc (set_depth c1 (depth c1 + 1)) d) w2
                       (set_doc (set_depth c1 (depth c1 + 1)) d) w3).
  { apply steps_set_mem; [apply S3 | solve_below]. }
  destruct (peek w3 _) as [ch c4] eqn:Ep.
  apply (steps_peek B) in Ep as (S5 & Hd5 & Hp5); [|apply S4].
  cbn in Hp5.
  destruct (ch =? 125); [eauto|].
  assert (Hlen : len c4 = len c).
  { destruct S1, S5. cbn in *. congruence. }
  destruct (object_loop_total B (Z.of_nat n) pv n Hpv Htot obj 0 0 c4 w3)
    as (b & c5 & w5 & El); [apply S5 | assumption | now left | lia | lia |].
  rewrite El. destruct b; eauto.
Qed.

Lemma parse_value_fuel (B : Z) (fuel : nat) : total_below B (Z.of_nat fuel) (parse_value fuel).
Proof.
  induction fuel as [|f IH]; intros c w Hc Hn.
  { destruct Hc as [_ Hp]. lia. }
  cbn [parse_value].
  destruct (peek w c) as [ch c0] eqn:Ep.
  apply (steps_peek B) in Ep as (S0 & Hd0 & Hp0); [|assumption].
  assert (Hlen : len c0 = len c) by (destruct S0; congruence).
  destruct (ch =? 110); [destruct (parse_null c0 w) as [[? ?] ?]; eauto|].
  destruct (ch =? 116); [destruct (parse_true c0 w) as [[? ?] ?]; eauto|].
  destruct (ch =? 102); [destruct (parse_false c0 w) as [[? ?] ?]; eauto|].
  destruct (ch =? 34); [destruct (parse_string c0 w) as [[? ?] ?]; eauto|].
  destruct (ch =? 91).
  { apply (parse_array_total B (parse_value f) f (parse_value_steps B f) IH);
      [apply S0 | lia]. }
  destruct (ch =? 123).
  { apply (parse_object_total B (parse_value f) f (parse_value_steps B f) IH);
      [apply S0 | lia]. }
  destruct ((ch =? 45) || isdigit ch); [destruct (parse_number c0 w) as [[? ?] ?]; eauto|].
  destruct (ch =? 0); eauto.
Qed.

(** ** The input buffer *)

Lemma arena_destroy_mem (d : json_doc) (w : world) :
  mem (arena_destroy d w) = mem w /\
  g_last_error (arena_destroy d w) = g_last_error w.
Proof.
  unfold arena_destroy, aligned_free_impl.
  destruct (arena d =? 0); destruct (strings d =? 0); split; reflexivity.
Qed.

Lemma json_init_mem (w : world) :
  mem (json_init w) = mem w /\ brk (json_init w) = brk w /\
  g_last_error (json_init w) = g_last_error w.
Proof. unfold json_init. destruct (g_initialized w); repeat split. Qed.

(** Every run of [parse_json] returns, and leaves memory below the break of
    the call as it found it. *)
Lemma parse_json_frame (json len_ : Z) (opts : option json_parse_options) (w : world) :
  0 < brk w -> 0 <= len_ ->
  exists r w', parse_json json len_ opts w = Some (r, w') /\
               same_below (brk w) (mem w) (mem w').
Proof.
  intros Hb Hl. unfold parse_json.
  set (n := if (len_ / 4 + 1) * sizeof_json_val <? 64 * 1024 then 64 * 1024
            else (len_ / 4 + 1) * sizeof_json_val).
  assert (Hn : 0 < n) by (subst n; destruct (Z.ltb_spec ((len_ / 4 + 1) * sizeof_json_val)
                                                         (64 * 1024)); lia).
  destruct (arena_create n w) as [rd w1] eqn:Ec.
  apply arena_create_ok in Ec as (d & -> & Hd & Hm1 & _); [|assumption|assumption].
  set (c0 := mk_ctx json len_ 0 1 1 d _ _ 0).
  assert (Hc0 : ctx_ok (brk w) c0 w1) by (constructor; cbn; [assumption | lia]).
  destruct (parse_value_fuel (brk w) (S (Z.to_nat len_)) c0 w1 Hc0) as (r & c1 & w2 & Ep);
    [cbn; lia|].
  rewrite Ep.
  apply (parse_value_steps (brk w)) in Ep as [S1 _]; [|assumption].
  assert (Hm2 : same_below (brk w) (mem w) (mem w2)).
  { destruct S1. rewrite <- Hm1. assumption. }
  destruct (r =? 0).
  - eexists; eexists; split; [reflexivity|].
    now rewrite (proj1 (arena_destroy_mem _ _)).
  - match goal with |- context [if ?b then _ else _] => destruct b end.
    + eexists; eexists; split; [reflexivity|].
      now rewrite (proj1 (arena_destroy_mem _ _)).
    + eexists; eexists; split; [reflexivity | assumption].
Qed.

(** C10: parsing returns and does not mutate the input buffer, whatever the
    options (the in-situ flag included) and whether it succeeds or fails.  The
    caller's buffer is any range of [len_] bytes that was allocated before the
    call, that is, below the break of the allocator. *)
Theorem C10_input_buffer_not_mutated
    (json len_ : Z) (opts : option json_parse_options) (w : world) :
  0 < json -> 0 <= len_ -> json + len_ <= brk w ->
  exists r w',
    json_parse_opts json len_ opts w = Some (r, w') /\
    read_bytes (Z.to_nat len_) (mem w') json = read_bytes (Z.to_nat len_) (mem w) json.
Proof.
  intros Hj Hl Hb. unfold json_parse_opts.
  set (w0 := if g_initialized w then w else json_init w).
  assert (H0 : mem w0 = mem w /\ brk w0 = brk w).
  { subst w0. destruct (g_initialized w); [split; reflexivity|].
    destruct (json_init_mem w) as (? & ? & ?). split; assumption. }
  destruct H0 as [Hm0 Hb0].
  destruct ((json =? 0) || (len_ =? 0)).
  - eexists; eexists; split; [reflexivity|]. cbn. now rewrite Hm0.
  - destruct (parse_json_frame json len_ opts w0) as (r & w' & Ep & Hm); [lia|lia|].
    exists r, w'. split; [exact Ep|].
    apply read_bytes_ext. intros a Ha. rewrite <- Hm0. apply Hm. lia.
Qed.

(** The text [[1]] parsed with the in-situ flag set. *)
Lemma C10_input_buffer_witness :
  exists r w',
    json_parse_opts 4096 3 (Some (mk_parse_options JSON_PARSE_INSITU 0 0))
      (snd (place_string [91; 49; 93] fresh_world)) = Some (r, w') /\
    read_bytes 3 (mem w') 4096 = [91; 49; 93].
Proof.
  destruct (C10_input_buffer_not_mutated 4096 3
              (Some (mk_parse_options JSON_PARSE_INSITU 0 0))
              (snd (place_string [91; 49; 93] fresh_world)))
    as (r & w' & H1 & H2); [lia | lia | vm_compute; discriminate |].
  exists r, w'. split; [exact H1|].
  change (Z.to_nat 3) with 3%nat in H2. rewrite H2. vm_compute. reflexivity.
Defined.

(** ** Bits *)

Lemma land_disjoint (a b k : Z) :
  0 <= k -> a mod 2 ^ k = 0 -> 0 <= b < 2 ^ k -> Z.land a b = 0.
Proof.
  intros Hk Ha Hb. apply Z.bits_inj'. intros n Hn.
  rewrite Z.land_spec, Z.bits_0.
  destruct (Z.lt_ge_cases n k).
  - rewrite <- (Z.mod_pow2_bits_low a k n) by lia. rewrite Ha, Z.bits_0. reflexivity.
  - destruct (Z.eq_dec b 0) as [->|Hb0]; [now rewrite Z.bits_0, andb_false_r|].
    rewrite (Z.bits_above_log2 b n), andb_false_r; [reflexivity | lia |].
    apply Z.log2_lt_pow2; [lia|]. apply Z.lt_le_trans with (2 ^ k); [lia|].
    apply Z.pow_le_mono_r; lia.
Qed.

Lemma lor_disjoint (a b k : Z) :
  0 <= k -> a mod 2 ^ k = 0 -> 0 <= b < 2 ^ k -> Z.lor a b = a + b.
Proof.
  intros Hk Ha Hb. pose proof (land_disjoint a b k Hk Ha Hb) as H.
  rewrite <- Z.lxor_lor by assumption. symmetry. now apply Z.add_nocarry_lxor.
Qed.

Lemma land_15 (x : Z) : Z.land x 15 = x mod 16.
Proof. change 15 with (Z.ones 4). now rewrite Z.land_ones. Qed.

Lemma land_7 (x : Z) : Z.land x 7 = x mod 8.
Proof. change 7 with (Z.ones 3). now rewrite Z.land_ones. Qed.

Lemma land_63 (x : Z) : Z.land x 63 = x mod 64.
Proof. change 63 with (Z.ones 6). now rewrite Z.land_ones. Qed.

Lemma shiftr_div (x n : Z) : 0 <= n -> Z.shiftr x n = x / 2 ^ n.
Proof. apply Z.shiftr_div_pow2. Qed.

(** Clearing the tag of a 64-bit word. *)
Lemma land_not_tag (x : Z) :
  0 <= x < 2 ^ 64 -> Z.land x (u64 (Z.lnot JSON_TAG_MASK)) = x - x mod 16.
Proof.
  intros Hx. unfold u64, JSON_TAG_MASK.
  change (Z.lnot 15 mod 2 ^ 64) with (Z.ones 64 - 15).
  assert (E : Z.ones 64 - 15 = Z.ldiff (Z.ones 64) 15).
  { vm_compute. reflexivity. }
  rewrite E, Z.ldiff_land, Z.land_assoc, Z.land_ones, Z.mod_small by lia.
  rewrite <- Z.ldiff_land. change 15 with (Z.ones 4).
  rewrite Z.ldiff_ones_r, Z.shiftl_mul_pow2, Z.shiftr_div_pow2 by lia.
  change (2 ^ 4) with 16. pose proof (Z.div_mod x 16 ltac:(lia)). lia.
Qed.

Lemma val_get_type_set_type (m : gmap Z Z) (v t : Z) :
  0 <= t < 16 -> val_get_type (val_set_type m v t) v = t.
Proof.
  intros Ht. unfold val_get_type, val_set_type, tag_payload, set_tag_payload.
  rewrite load64_store64_eq.
  pose proof (load64_range m v) as Hr.
  rewrite land_not_tag by assumption.
  set (x := load64 m v) in *. clearbody x.
  assert (Hx : (x - x mod 16) mod 2 ^ 4 = 0).
  { change (2 ^ 4) with 16. rewrite Zminus_mod, Z.mod_mod, Z.sub_diag by lia. reflexivity. }
  rewrite (lor_disjoint _ t 4) by (try assumption; change (2 ^ 4) with 16; lia).
  unfold u64, JSON_TAG_MASK. rewrite land_15.
  pose proof (Z.mod_pos_bound x 16 ltac:(lia)).
  pose proof (Z.div_mod x 16 ltac:(lia)).
  rewrite (Z.mod_small (x - x mod 16 + t) (2 ^ 64))
    by (change (2 ^ 64) with 18446744073709551616 in *; lia).
  replace (x - x mod 16 + t) with (t + (x / 16) * 16) by lia.
  rewrite Z.mod_add by lia. apply Z.mod_small. lia.
Qed.

Lemma tag_payload_set_payload (m : gmap Z Z) (v p : Z) :
  0 <= p < 2 ^ 60 ->
  tag_payload (val_set_payload m v p) v = val_get_type m v + 16 * p.
Proof.
  intros Hp. unfold val_set_payload, tag_payload, set_tag_payload, val_get_type, tag_payload.
  rewrite load64_store64_eq. unfold JSON_TAG_MASK, JSON_PAYLOAD_SHIFT.
  rewrite land_15, Z.shiftl_mul_pow2 by lia. change (2 ^ 4) with 16.
  pose proof (Z.mod_pos_bound (load64 m v) 16 ltac:(lia)).
  assert (Hs : u64 (p * 16) = p * 16).
  { unfold u64. apply Z.mod_small. change (2 ^ 64) with (2 ^ 60 * 16). lia. }
  rewrite Hs, Z.lor_comm.
  rewrite (lor_disjoint (p * 16) _ 4);
    [| lia | change (2 ^ 4) with 16; now rewrite Z.mod_mul by lia
     | change (2 ^ 4) with 16; lia].
  unfold u64. rewrite Z.mod_small; [lia|].
  change (2 ^ 64) with (2 ^ 60 * 16). lia.
Qed.

Lemma val_get_type_set_payload (m : gmap Z Z) (v p : Z) :
  0 <= p < 2 ^ 60 -> val_get_type (val_set_payload m v p) v = val_get_type m v.
Proof.
  intros Hp. unfold val_get_type at 1. rewrite tag_payload_set_payload by assumption.
  unfold JSON_TAG_MASK. rewrite land_15.
  replace (val_get_type m v + 16 * p) with (val_get_type m v + p * 16) by lia.
  rewrite Z.mod_add by lia. apply Z.mod_small.
  unfold val_get_type, JSON_TAG_MASK. rewrite land_15. apply Z.mod_pos_bound. lia.
Qed.

Lemma val_get_payload_set_payload (m : gmap Z Z) (v p : Z) :
  0 <= p < 2 ^ 60 -> val_get_payload (val_set_payload m v p) v = p.
Proof.
  intros Hp. unfold val_get_payload. rewrite tag_payload_set_payload by assumption.
  unfold JSON_PAYLOAD_SHIFT. rewrite Z.shiftr_div_pow2 by lia. change (2 ^ 4) with 16.
  assert (0 <= val_get_type m v < 16).
  { unfold val_get_type, JSON_TAG_MASK. rewrite land_15. apply Z.mod_pos_bound. lia. }
  replace (val_get_type m v + 16 * p) with (val_get_type m v + p * 16) by lia.
  rewrite Z.div_add by lia. rewrite Z.div_small by lia. lia.
Qed.

(** ** UTF-8 and hexadecimal digits *)

Lemma lor_byte (a x k : Z) :
  0 <= k -> 0 <= a -> a mod 2 ^ k = 0 -> 0 <= x < 2 ^ k -> a + 2 ^ k <= 256 ->
  Z.lor a x mod 256 = a + x.
Proof.
  intros Hk Ha Hm Hx Hb. rewrite (lor_disjoint a x k) by assumption.
  apply Z.mod_small. lia.
Qed.

Lemma encode_utf8_spec (cp : Z) :
  0 <= cp <= 0x10FFFF -> encode_utf8 cp = utf8_encoding cp.
Proof.
  intros Hcp. unfold encode_utf8, utf8_encoding.
  rewrite !land_63, !Z.shiftr_div_pow2 by lia.
  change (2 ^ 6) with 64. change (2 ^ 12) with 4096. change (2 ^ 18) with 262144.
  pose proof (Z.div_mod cp 64 ltac:(lia)). pose proof (Z.mod_pos_bound cp 64 ltac:(lia)).
  pose proof (Z.div_mod cp 4096 ltac:(lia)). pose proof (Z.mod_pos_bound cp 4096 ltac:(lia)).
  pose proof (Z.div_mod cp 262144 ltac:(lia)).
  pose proof (Z.mod_pos_bound cp 262144 ltac:(lia)).
  pose proof (Z.mod_pos_bound (cp / 64) 64 ltac:(lia)).
  pose proof (Z.mod_pos_bound (cp / 4096) 64 ltac:(lia)).
  destruct (Z.ltb_spec cp 128); [f_equal; apply Z.mod_small; lia|].
  destruct (Z.ltb_spec cp 2048).
  { f_equal; [apply (lor_byte 192 _ 5) | f_equal; apply (lor_byte 128 _ 6)];
      try (change (2 ^ 5) with 32); try (change (2 ^ 6) with 64); try reflexivity; lia. }
  destruct (Z.ltb_spec cp 65536).
  { f_equal; [apply (lor_byte 224 _ 4) | f_equal; [apply (lor_byte 128 _ 6)
             | f_equal; apply (lor_byte 128 _ 6)]];
      try (change (2 ^ 4) with 16); try (change (2 ^ 6) with 64); try reflexivity; lia. }
  destruct (Z.leb_spec cp 1114111); [|lia].
  f_equal; [apply (lor_byte 240 _ 3) | f_equal; [apply (lor_byte 128 _ 6)
           | f_equal; [apply (lor_byte 128 _ 6) | f_equal; apply (lor_byte 128 _ 6)]]];
    try (change (2 ^ 3) with 8); try (change (2 ^ 6) with 64); try reflexivity; lia.
Qed.

Lemma utf8_encoding_are_bytes (cp : Z) :
  0 <= cp <= 0x10FFFF -> are_bytes (utf8_encoding cp).
Proof.
  intros Hcp. unfold utf8_encoding, are_bytes.
  pose proof (Z.div_mod cp 64 ltac:(lia)). pose proof (Z.mod_pos_bound cp 64 ltac:(lia)).
  pose proof (Z.div_mod cp 4096 ltac:(lia)). pose proof (Z.mod_pos_bound cp 4096 ltac:(lia)).
  pose proof (Z.div_mod cp 262144 ltac:(lia)).
  pose proof (Z.mod_pos_bound cp 262144 ltac:(lia)).
  pose proof (Z.mod_pos_bound (cp / 64) 64 ltac:(lia)).
  pose proof (Z.mod_pos_bound (cp / 4096) 64 ltac:(lia)).
  destruct (Z.ltb_spec cp 128); [repeat constructor; lia|].
  destruct (Z.ltb_spec cp 2048); [repeat constructor; lia|].
  destruct (Z.ltb_spec cp 65536); repeat constructor; lia.
Qed.

Lemma utf8_encoding_length (cp : Z) :
  length (utf8_encoding cp) =
    if cp <? 0x80 then 1%nat else if cp <? 0x800 then 2%nat
    else if cp <? 0x10000 then 3%nat else 4%nat.
Proof.
  unfold utf8_encoding.
  destruct (cp <? 128); [reflexivity|]. destruct (cp <? 2048); [reflexivity|].
  destruct (cp <? 65536); reflexivity.
Qed.

Lemma hex_value_digit (c v : Z) :
  hex_value c = Some v -> hex_digit c = v /\ 0 <= v < 16.
Proof.
  unfold hex_value, hex_digit.
  destruct ((48 <=? c) && (c <=? 57)) eqn:E1.
  { intros E. inversion E; subst. apply andb_prop in E1 as [? ?]. lia. }
  destruct ((97 <=? c) && (c <=? 102)) eqn:E2.
  { intros E. inversion E; subst. apply andb_prop in E2 as [? ?]. lia. }
  destruct ((65 <=? c) && (c <=? 70)) eqn:E3; [|discriminate].
  intros E. inversion E; subst. apply andb_prop in E3 as [? ?]. lia.
Qed.

Lemma hex_step (cp d : Z) :
  0 <= cp < 2 ^ 16 -> 0 <= d < 16 ->
  Z.lor (u32 (Z.shiftl cp 4)) (u32 d) = cp * 16 + d.
Proof.
  intros Hc Hd. rewrite Z.shiftl_mul_pow2 by lia. change (2 ^ 4) with 16.
  change (2 ^ 16) with 65536 in Hc.
  unfold u32. rewrite !Z.mod_small by (change (2 ^ 32) with 4294967296; lia).
  apply (lor_disjoint _ _ 4); [lia | | change (2 ^ 4) with 16; lia].
  change (2 ^ 4) with 16. now rewrite Z.mod_mul by lia.
Qed.

(** Four hexadecimal digits in memory, read by both passes. *)
Lemma hex_loop_spec (m : gmap Z Z) (p h1 h2 h3 h4 cp : Z) :
  read_bytes 4 m p = [h1; h2; h3; h4] -> hex4 h1 h2 h3 h4 = Some cp ->
  hex_loop 4 m p 0 = Some cp /\ hex_unchecked 4 m p 0 = cp /\ 0 <= cp < 2 ^ 16.
Proof.
  intros Hr Hh. cbn [read_bytes] in Hr. inversion Hr as [[E1 E2 E3 E4]]. clear Hr.
  unfold hex4 in Hh.
  destruct (hex_value h1) as [a|] eqn:Ha; [|discriminate].
  destruct (hex_value h2) as [b|] eqn:Hb; [|discriminate].
  destruct (hex_value h3) as [c|] eqn:Hc; [|discriminate].
  destruct (hex_value h4) as [d|] eqn:Hd; [|discriminate].
  inversion Hh; subst cp; clear Hh.
  apply hex_value_digit in Ha as [Ha Ra], Hb as [Hb Rb], Hc as [Hc Rc], Hd as [Hd Rd].
  cbn [hex_loop hex_unchecked]. rewrite E1, E2, E3, E4, Ha, Hb, Hc, Hd.
  assert (S1 : Z.lor (u32 (Z.shiftl 0 4)) (u32 a) = a).
  { rewrite hex_step by (change (2 ^ 16) with 65536; lia). lia. }
  assert (S2 : Z.lor (u32 (Z.shiftl a 4)) (u32 b) = a * 16 + b)
    by (apply hex_step; change (2 ^ 16) with 65536; lia).
  assert (S3 : Z.lor (u32 (Z.shiftl (a * 16 + b) 4)) (u32 c) = (a * 16 + b) * 16 + c)
    by (apply hex_step; change (2 ^ 16) with 65536; lia).
  assert (S4 : Z.lor (u32 (Z.shiftl ((a * 16 + b) * 16 + c) 4)) (u32 d)
               = ((a * 16 + b) * 16 + c) * 16 + d)
    by (apply hex_step; change (2 ^ 16) with 65536; lia).
  rewrite S1, S2, S3, S4.
  destruct (Z.ltb_spec a 0); [lia|]. destruct (Z.ltb_spec b 0); [lia|].
  destruct (Z.ltb_spec c 0); [lia|]. destruct (Z.ltb_spec d 0); [lia|].
  repeat split; change (2 ^ 16) with 65536; lia.
Qed.

Lemma surrogate_pair_spec (hi lo : Z) :
  is_high_surrogate hi -> is_low_surrogate lo ->
  surrogate_pair hi lo = pair_code_point hi lo /\
  0x10000 <= pair_code_point hi lo <= 0x10FFFF.
Proof.
  unfold is_high_surrogate, is_low_surrogate, surrogate_pair, pair_code_point, u32.
  intros Hh Hl. rewrite Z.shiftl_mul_pow2 by lia. change (2 ^ 10) with 1024.
  change (2 ^ 32) with 4294967296.
  rewrite (Z.mod_small (hi - 55296)) by lia.
  rewrite (Z.mod_small ((hi - 55296) * 1024)) by lia.
  rewrite (Z.mod_small (lo - 56320)) by lia.
  rewrite Z.mod_small by lia. lia.
Qed.

Lemma escape_value_spec (e b : Z) :
  escape_value e = Some b ->
  is_simple_escape e = true /\ unescape_char e = Some b /\ 0 <= b < 256 /\ e <> 117.
Proof.
  unfold escape_value, is_simple_escape, unescape_char. cbn [List.find fst snd].
  destruct (Z.eqb_spec 34 e) as [<-|]; [intros E; inversion E; repeat split; lia|].
  destruct (Z.eqb_spec 92 e) as [<-|]; [intros E; inversion E; repeat split; lia|].
  destruct (Z.eqb_spec 47 e) as [<-|]; [intros E; inversion E; repeat split; lia|].
  destruct (Z.eqb_spec 98 e) as [<-|]; [intros E; inversion E; repeat split; lia|].
  destruct (Z.eqb_spec 102 e) as [<-|]; [intros E; inversion E; repeat split; lia|].
  destruct (Z.eqb_spec 110 e) as [<-|]; [intros E; inversion E; repeat split; lia|].
  destruct (Z.eqb_spec 114 e) as [<-|]; [intros E; inversion E; repeat split; lia|].
  destruct (Z.eqb_spec 116 e) as [<-|]; [intros E; inversion E; repeat split; lia|].
  discriminate.
Qed.

(** ** The text under the cursor *)

Lemma advance_advance (c : parser_ctx) (a b : Z) :
  advance (advance c a) b = advance c (a + b).
Proof. unfold advance. cbn. f_equal; lia. Qed.

Lemma advance_0 (c : parser_ctx) : advance c 0 = c.
Proof. destruct c. unfold advance. cbn. f_equal; lia. Qed.

Lemma text_at_nil (w : world) (c : parser_ctx) : pos c <= len c -> text_at w c [].
Proof. intros H. split; [simpl; lia | reflexivity]. Qed.

Lemma text_at_head (w : world) (c : parser_ctx) (x : Z) (l : list Z) :
  text_at w c (x :: l) ->
  input_at w c (pos c) = x /\ pos c < len c /\ text_at w (advance c 1) l.
Proof.
  intros [Hl Hr]. cbn [length read_bytes] in *. injection Hr as E1 E2.
  rewrite Nat2Z.inj_succ in Hl.
  unfold input_at. split; [exact E1|]. split; [lia|]. split; cbn; [lia|].
  replace (input c + (pos c + 1)) with (input c + pos c + 1) by lia. exact E2.
Qed.

Lemma text_at_app (w : world) (c : parser_ctx) (l1 l2 : list Z) :
  text_at w c (l1 ++ l2) ->
  text_at w c l1 /\ text_at w (advance c (Z.of_nat (length l1))) l2.
Proof.
  intros [Hl Hr]. rewrite length_app, Nat2Z.inj_add in Hl.
  rewrite length_app, read_bytes_app in Hr.
  apply app_inj_1 in Hr as [H1 H2]; [|apply read_bytes_length].
  split; split; cbn; try lia; try assumption.
  etransitivity; [|exact H2]. f_equal. lia.
Qed.

(** The text is still there after a step that leaves the low memory alone. *)
Lemma text_at_steps (B : Z) (w w' : world) (c c' : parser_ctx) (l : list Z) :
  input_below B c -> same_below B (mem w) (mem w') ->
  input c' = input c -> len c' = len c -> pos c' = pos c ->
  text_at w c l -> text_at w' c' l.
Proof.
  intros [Hi Hb] Hm Ei El Ep [Hl Hr]. split; [lia|].
  rewrite Ei, Ep. etransitivity; [|exact Hr].
  apply read_bytes_ext. intros b Hb'. apply Hm. lia.
Qed.

Lemma parse_unicode_escape_spec (w : world) (c : parser_ctx) (h1 h2 h3 h4 cp : Z) :
  text_at w c [h1; h2; h3; h4] -> hex4 h1 h2 h3 h4 = Some cp ->
  parse_unicode_escape w c = Some (cp, advance c 4) /\ 0 <= cp < 2 ^ 16.
Proof.
  intros [Hl Hr] Hh. unfold parse_unicode_escape. cbn [length] in Hl.
  destruct (Z.gtb_spec (pos c + 4) (len c)); [lia|].
  destruct (hex_loop_spec _ _ _ _ _ _ _ Hr Hh) as (-> & _ & Hc). now split.
Qed.

Lemma hex_digit_value (c : Z) : 0 <= hex_digit c -> hex_value c = Some (hex_digit c).
Proof.
  unfold hex_digit, hex_value.
  destruct ((48 <=? c) && (c <=? 57)); [reflexivity|].
  destruct ((97 <=? c) && (c <=? 102)); [intros; f_equal; lia|].
  destruct ((65 <=? c) && (c <=? 70)); [intros; f_equal; lia | lia].
Qed.

(** When the checked loop succeeds, the four bytes are hexadecimal digits
    with that value. *)
Lemma hex_loop_inv (m : gmap Z Z) (p cp : Z) :
  hex_loop 4 m p 0 = Some cp ->
  hex4 (load8 m p) (load8 m (p + 1)) (load8 m (p + 1 + 1)) (load8 m (p + 1 + 1 + 1)) = Some cp.
Proof.
  intros H.
  assert (Hd : forall c, (hex_digit c <? 0) = false -> exists v, hex_value c = Some v).
  { intros c Hc. exists (hex_digit c). apply hex_digit_value. lia. }
  cbn [hex_loop] in H.
  destruct (hex_digit (load8 m p) <? 0) eqn:E1; [discriminate|].
  destruct (hex_digit (load8 m (p + 1)) <? 0) eqn:E2; [discriminate|].
  destruct (hex_digit (load8 m (p + 1 + 1)) <? 0) eqn:E3; [discriminate|].
  destruct (hex_digit (load8 m (p + 1 + 1 + 1)) <? 0) eqn:E4; [discriminate|].
  destruct (Hd _ E1) as [a Ha], (Hd _ E2) as [b Hb], (Hd _ E3) as [c Hc], (Hd _ E4) as [d Hd4].
  assert (Hh : hex4 (load8 m p) (load8 m (p + 1)) (load8 m (p + 1 + 1))
                    (load8 m (p + 1 + 1 + 1)) = Some (((a * 16 + b) * 16 + c) * 16 + d)).
  { unfold hex4. now rewrite Ha, Hb, Hc, Hd4. }
  destruct (hex_loop_spec m p _ _ _ _ _ eq_refl Hh) as (Hl & _ & _).
  cbn [hex_loop] in Hl. rewrite E1, E2, E3, E4 in Hl.
  rewrite Hl in H. inversion H; subst. exact Hh.
Qed.

Lemma high_surrogate_test (cp : Z) :
  ((0xD800 <=? cp) && (cp <=? 0xDBFF)) = true <-> is_high_surrogate cp.
Proof. unfold is_high_surrogate. rewrite andb_true_iff, Z.leb_le, Z.leb_le. tauto. Qed.

Lemma not_high_surrogate_test (cp : Z) :
  ~ is_high_surrogate cp -> ((0xD800 <=? cp) && (cp <=? 0xDBFF)) = false.
Proof.
  intros H. destruct ((55296 <=? cp) && (cp <=? 56319)) eqn:E; [|reflexivity].
  apply high_surrogate_test in E. contradiction.
Qed.

Lemma scan_unicode_single (w : world) (c : parser_ctx) (h1 h2 h3 h4 cp : Z) :
  text_at w c [h1; h2; h3; h4] -> hex4 h1 h2 h3 h4 = Some cp -> ~ is_high_surrogate cp ->
  scan_unicode w c = (Some (cp, advance c 4), advance c 4, w) /\ 0 <= cp < 2 ^ 16.
Proof.
  intros Ht Hh Hn. unfold scan_unicode.
  destruct (parse_unicode_escape_spec w c _ _ _ _ _ Ht Hh) as [-> Hr].
  now rewrite not_high_surrogate_test.
Qed.

Lemma scan_unicode_pair (w : world) (c : parser_ctx) (h1 h2 h3 h4 l1 l2 l3 l4 hi lo : Z) :
  text_at w c [h1; h2; h3; h4; 92; 117; l1; l2; l3; l4] ->
  hex4 h1 h2 h3 h4 = Some hi -> is_high_surrogate hi ->
  hex4 l1 l2 l3 l4 = Some lo -> is_low_surrogate lo ->
  scan_unicode w c = (Some (pair_code_point hi lo, advance c 10), advance c 10, w).
Proof.
  intros Ht Hh Hhi Hl Hlo. unfold scan_unicode.
  apply (text_at_app w c [h1; h2; h3; h4] [92; 117; l1; l2; l3; l4]) in Ht as [T1 T2].
  change (Z.of_nat (length [h1; h2; h3; h4])) with 4 in T2.
  destruct (parse_unicode_escape_spec w c _ _ _ _ _ T1 Hh) as [-> _].
  rewrite (proj2 (high_surrogate_test hi) Hhi).
  apply text_at_head in T2 as (E1 & Hp1 & T3).
  apply text_at_head in T3 as (E2 & Hp2 & T4).
  rewrite advance_advance in T4. change (1 + 1) with 2 in T4. cbn in E2, Hp2.
  change (pos (advance c 4) + 1) with (pos c + 4 + 1).
  unfold input_at in *. cbn [input advance pos len] in *.
  rewrite E1, E2. cbn [Z.eqb Pos.eqb negb orb].
  destruct (Z.gtb_spec (pos c + 4 + 2) (len c)); [lia|]. cbn [orb].
  destruct (parse_unicode_escape_spec w _ _ _ _ _ _ T4 Hl) as [-> _].
  rewrite !advance_advance. change (4 + 2 + 4) with 10.
  rewrite (proj1 (surrogate_pair_spec hi lo Hhi Hlo)).
  unfold is_low_surrogate in Hlo.
  destruct (Z.ltb_spec lo 56320); [lia|]. destruct (Z.gtb_spec lo 57343); [lia|].
  reflexivity.
Qed.

(** ** First pass over a well-formed token *)

Lemma measure_step_plain (k : nat) (w : world) (c : parser_ctx) (slen : Z) (esc : bool) (ch : Z) :
  pos c < len c -> input_at w c (pos c) = ch -> ch <> 34 -> ch <> 92 -> 32 <= ch ->
  measure_string (S k) w c slen esc = measure_string k w (advance c 1) (slen + 1) esc.
Proof.
  intros Hl Hc H1 H2 H3. cbn [measure_string]. rewrite Hc.
  destruct (Z.ltb_spec (pos c) (len c)); [|lia].
  destruct (Z.eqb_spec ch 34); [contradiction|].
  destruct (Z.eqb_spec ch 92); [contradiction|].
  destruct (Z.ltb_spec ch 32); [lia | reflexivity].
Qed.

Lemma measure_step_escape (k : nat) (w : world) (c : parser_ctx) (slen : Z) (esc : bool) (e : Z) :
  text_at w c [92; e] -> is_simple_escape e = true ->
  measure_string (S k) w c slen esc = measure_string k w (advance c 2) (slen + 1) true.
Proof.
  intros Ht He. apply text_at_head in Ht as (E1 & Hp1 & Ht).
  apply text_at_head in Ht as (E2 & Hp2 & _).
  cbn [measure_string]. rewrite E1.
  destruct (Z.ltb_spec (pos c) (len c)); [|lia].
  cbn [Z.eqb Pos.eqb].
  destruct (Z.geb_spec (pos (advance c 1)) (len (advance c 1))); [lia|].
  rewrite E2, He, advance_advance. reflexivity.
Qed.

Lemma measure_step_unicode (k : nat) (w : world) (c : parser_ctx) (slen : Z) (esc : bool)
    (cp : Z) (c' : parser_ctx) :
  text_at w c [92; 117] ->
  scan_unicode w (advance c 2) = (Some (cp, c'), c', w) ->
  measure_string (S k) w c slen esc =
    measure_string k w c' (slen + Z.of_nat (length (encode_utf8 cp))) true.
Proof.
  intros Ht Hs. apply text_at_head in Ht as (E1 & Hp1 & Ht).
  apply text_at_head in Ht as (E2 & Hp2 & _).
  cbn [measure_string]. rewrite E1.
  destruct (Z.ltb_spec (pos c) (len c)); [|lia].
  cbn [Z.eqb Pos.eqb].
  destruct (Z.geb_spec (pos (advance c 1)) (len (advance c 1))); [lia|].
  rewrite E2. cbn [is_simple_escape Z.eqb Pos.eqb orb].
  rewrite advance_advance. change (1 + 1) with 2. rewrite Hs. reflexivity.
Qed.

Lemma has_escape_cons (c : Z) (raw : list Z) :
  has_escape (c :: raw) = (c =? 92) || has_escape raw.
Proof. reflexivity. Qed.

Lemma text_at_take (w : world) (c : parser_ctx) (l1 l2 : list Z) :
  text_at w c (l1 ++ l2) -> text_at w c l1.
Proof. intros H. now apply text_at_app in H. Qed.

(** The loop runs through a well-formed prefix: it arrives behind it with
    the decoded length added and the escape flag updated, having spent at
    most one unit of fuel per byte. *)
Lemma measure_string_prefix (w : world) (pre bs : list Z) :
  decodes pre bs ->
  forall rest n c slen esc,
    text_at w c (pre ++ rest) -> (length pre <= n)%nat ->
    exists n', (n - length pre <= n')%nat /\
      measure_string n w c slen esc =
        measure_string n' w (advance c (Z.of_nat (length pre)))
          (slen + Z.of_nat (length bs)) (esc || has_escape pre).
Proof.
  induction 1 as [| ch raw bs Hr H34 H92 Hd IH
                  | e b raw bs He Hd IH
                  | h1 h2 h3 h4 cp raw bs Hh Hn Hd IH
                  | h1 h2 h3 h4 l1 l2 l3 l4 hi lo raw bs Hh Hhi Hl Hlo Hd IH];
    intros rest n c slen esc Ht Hlen.
  - exists n. split; [lia|]. cbn. rewrite advance_0, Z.add_0_r, orb_false_r. reflexivity.
  - cbn [app] in Ht. apply text_at_head in Ht as (E & Hp & Ht).
    cbn [length] in Hlen. destruct n as [|k]; [lia|].
    rewrite (measure_step_plain k w c slen esc ch) by (try assumption; lia).
    destruct (IH rest k (advance c 1) (slen + 1) esc Ht ltac:(lia)) as (n' & Hn' & ->).
    exists n'. split; [cbn [length]; lia|].
    rewrite advance_advance, has_escape_cons.
    destruct (Z.eqb_spec ch 92); [contradiction|]. cbn [orb length].
    f_equal; [f_equal|]; lia.
  - change (92 :: e :: raw) with ([92; e] ++ raw) in *. rewrite <- app_assoc in Ht.
    apply text_at_app in Ht as [T1 T2]. change (Z.of_nat (length [92; e])) with 2 in T2.
    destruct (escape_value_spec e b He) as (Hs & _).
    rewrite length_app in Hlen. cbn [length] in Hlen. destruct n as [|k]; [lia|].
    rewrite (measure_step_escape k w c slen esc e T1 Hs).
    destruct (IH rest k (advance c 2) (slen + 1) true T2 ltac:(cbn in Hlen; lia))
      as (n' & Hn' & ->).
    exists n'. split; [rewrite length_app; cbn [length] in *; lia|].
    rewrite advance_advance, length_app. cbn [app has_escape existsb Z.eqb Pos.eqb orb length].
    rewrite orb_true_r. f_equal; [f_equal|]; lia.
  - change (92 :: 117 :: h1 :: h2 :: h3 :: h4 :: raw)
      with ([92; 117] ++ [h1; h2; h3; h4] ++ raw) in *.
    rewrite <- !app_assoc in Ht.
    apply text_at_app in Ht as [T1 T2]. change (Z.of_nat (length [92; 117])) with 2 in T2.
    apply text_at_app in T2 as [T2 T3].
    change (Z.of_nat (length [h1; h2; h3; h4])) with 4 in T3.
    destruct (scan_unicode_single w (advance c 2) _ _ _ _ _ T2 Hh Hn) as [Hs Hcp].
    rewrite !length_app in Hlen. cbn [length] in Hlen. destruct n as [|k]; [lia|].
    rewrite (measure_step_unicode k w c slen esc cp _ T1 Hs).
    rewrite encode_utf8_spec by (change (2 ^ 16) with 65536 in Hcp; lia).
    destruct (IH rest k _ (slen + Z.of_nat (length (utf8_encoding cp))) true T3
                ltac:(cbn in Hlen; lia)) as (n' & Hn' & ->).
    exists n'. split; [rewrite !length_app; cbn [length] in *; lia|].
    rewrite !advance_advance, !length_app.
    cbn [app has_escape existsb Z.eqb Pos.eqb orb length].
    rewrite orb_true_r. f_equal; [f_equal|]; lia.
  - change (92 :: 117 :: h1 :: h2 :: h3 :: h4 :: 92 :: 117 :: l1 :: l2 :: l3 :: l4 :: raw)
      with ([92; 117] ++ [h1; h2; h3; h4; 92; 117; l1; l2; l3; l4] ++ raw) in *.
    rewrite <- !app_assoc in Ht.
    apply text_at_app in Ht as [T1 T2]. change (Z.of_nat (length [92; 117])) with 2 in T2.
    apply text_at_app in T2 as [T2 T3].
    change (Z.of_nat (length [h1; h2; h3; h4; 92; 117; l1; l2; l3; l4])) with 10 in T3.
    pose proof (scan_unicode_pair w (advance c 2) _ _ _ _ _ _ _ _ _ _ T2 Hh Hhi Hl Hlo) as Hs.
    destruct (surrogate_pair_spec hi lo Hhi Hlo) as [_ Hcp].
    rewrite !length_app in Hlen. cbn [length] in Hlen. destruct n as [|k]; [lia|].
    rewrite (measure_step_unicode k w c slen esc _ _ T1 Hs).
    rewrite encode_utf8_spec by lia.
    destruct (IH rest k _ (slen + Z.of_nat (length (utf8_encoding (pair_code_point hi lo))))
                true T3 ltac:(cbn in Hlen; lia)) as (n' & Hn' & ->).
    exists n'. split; [rewrite !length_app; cbn [length] in *; lia|].
    rewrite !advance_advance, !length_app.
    cbn [app has_escape existsb Z.eqb Pos.eqb orb length].
    rewrite orb_true_r. f_equal; [f_equal|]; lia.
Qed.

(** ** Second pass over a well-formed token *)

Lemma read_bytes_write_bytes_ne (n : nat) (m : gmap Z Z) (a d : Z) (u : list Z) :
  a + Z.of_nat n <= d \/ d + Z.of_nat (length u) <= a ->
  read_bytes n (write_bytes m d u) a = read_bytes n m a.
Proof.
  intros H. apply read_bytes_ext. intros b Hb. apply load8_write_bytes_ne. lia.
Qed.

Lemma read_bytes_store8_ne (n : nat) (m : gmap Z Z) (a d v : Z) :
  a + Z.of_nat n <= d \/ d < a ->
  read_bytes n (store8 m d v) a = read_bytes n m a.
Proof.
  intros H. apply read_bytes_ext. intros b Hb. apply load8_store8_ne. lia.
Qed.

Lemma read_bytes_split (m : gmap Z Z) (a : Z) (l1 l2 : list Z) :
  read_bytes (length (l1 ++ l2)) m a = l1 ++ l2 ->
  read_bytes (length l1) m a = l1 /\
  read_bytes (length l2) m (a + Z.of_nat (length l1)) = l2.
Proof.
  rewrite length_app, read_bytes_app. intros H.
  apply app_inj_1 in H; [exact H | apply read_bytes_length].
Qed.

(** One chunk [u] written at the destination, followed by the rest. *)
Lemma copy_chunk (m m1 m' : gmap Z Z) (p : Z) (u bs : list Z) :
  are_bytes u ->
  m1 = write_bytes m p u ->
  read_bytes (length bs) m' (p + Z.of_nat (length u)) = bs ->
  (forall a, a < p + Z.of_nat (length u) \/
             p + Z.of_nat (length u) + Z.of_nat (length bs) <= a ->
             load8 m' a = load8 m1 a) ->
  read_bytes (length (u ++ bs)) m' p = u ++ bs /\
  (forall a, a < p \/ p + Z.of_nat (length (u ++ bs)) <= a -> load8 m' a = load8 m a).
Proof.
  intros Hu -> Hr Hf. rewrite length_app. split.
  - rewrite read_bytes_app, Hr. f_equal.
    rewrite <- (read_bytes_write_bytes u m p Hu) at 2.
    apply read_bytes_ext. intros b Hb. apply Hf. lia.
  - intros a Ha. rewrite Hf by lia. apply load8_write_bytes_ne. lia.
Qed.

Ltac enter_loop :=
  match goal with
  | |- context [Z.ltb ?a ?e] => destruct (Z.ltb_spec a e); [|cbn [length] in *; lia]
  end.

Ltac src_end t :=
  match goal with
  | |- context [copy_escaped _ _ _ _ _ ?e _] => replace e with t by (cbn [length]; lia)
  end.

Lemma copy_escaped_decodes (B inp str : Z) (raw bs : list Z) :
  decodes raw bs ->
  forall n m src dst,
    read_bytes (length raw) m (inp + src) = raw ->
    inp + src + Z.of_nat (length raw) <= B -> B <= str -> 0 <= dst ->
    (length raw <= n)%nat ->
    exists m',
      copy_escaped n m inp str src (src + Z.of_nat (length raw)) dst
        = (m', dst + Z.of_nat (length bs)) /\
      read_bytes (length bs) m' (str + dst) = bs /\
      (forall a, a < str + dst \/ str + dst + Z.of_nat (length bs) <= a ->
                 load8 m' a = load8 m a).
Proof.
  induction 1 as [| ch raw bs Hr H34 H92 Hd IH
                  | e b raw bs He Hd IH
                  | h1 h2 h3 h4 cp raw bs Hh Hn Hd IH
                  | h1 h2 h3 h4 l1 l2 l3 l4 hi lo raw bs Hh Hhi Hl Hlo Hd IH];
    intros n m src dst Hrd HB Hstr Hdst Hlen.
  - exists m. cbn [length Z.of_nat]. rewrite !Z.add_0_r. split; [|split; [reflexivity | auto]].
    destruct n; cbn [copy_escaped]; [reflexivity|].
    destruct (Z.ltb_spec src src); [lia | reflexivity].
  - (* a plain byte *)
    change (ch :: raw) with ([ch] ++ raw) in *.
    apply read_bytes_split in Hrd as [R1 R2]. rewrite length_app in *.
    cbn [length Z.of_nat Pos.of_succ_nat] in *. cbn [read_bytes] in R1.
    injection R1 as R1.
    destruct n as [|k]; [lia|]. cbn [copy_escaped].
    enter_loop.
    rewrite R1. destruct (Z.eqb_spec ch 92); [contradiction|].
    destruct (IH k (store8 m (str + dst) ch) (src + 1) (dst + 1)) as (m' & E & Hb & Hf);
      try (cbn [length] in *; lia).
    { rewrite read_bytes_store8_ne by (cbn [length] in *; lia).
      replace (inp + (src + 1)) with (inp + src + 1) by lia. exact R2. }
    exists m'.
    src_end (src + 1 + Z.of_nat (length raw)).
    rewrite E. split; [f_equal; cbn [app length]; lia|].
    change (ch :: bs) with ([ch] ++ bs).
    apply (copy_chunk m (store8 m (str + dst) ch) m' (str + dst) [ch] bs).
    + repeat constructor; lia.
    + reflexivity.
    + match goal with |- read_bytes _ _ ?p = _ =>
        replace p with (str + (dst + 1)) by (cbn [length]; lia) end.
      exact Hb.
    + intros a Ha. cbn [length] in Ha. apply Hf. lia.
  - (* a single-character escape *)
    change (92 :: e :: raw) with ([92; e] ++ raw) in *.
    apply read_bytes_split in Hrd as [R1 R2]. rewrite length_app in *.
    change (Z.of_nat (length [92; e])) with 2 in *.
    cbn [length read_bytes] in R1. injection R1 as R1 R1'.
    destruct (escape_value_spec e b He) as (_ & Hu & Hbr & _).
    destruct n as [|k]; [cbn in Hlen; lia|]. cbn [copy_escaped].
    destruct (Z.ltb_spec src (src + Z.of_nat (length [92; e] + length raw)));
      [|cbn [length] in *; lia].
    rewrite R1. cbn [Z.eqb Pos.eqb].
    replace (inp + (src + 1)) with (inp + src + 1) by lia. rewrite R1', Hu.
    destruct (IH k (store8 m (str + dst) b) (src + 1 + 1) (dst + 1)) as (m' & E & Hb & Hf);
      try (cbn [length] in *; lia).
    { rewrite read_bytes_store8_ne by (cbn [length] in *; lia).
      replace (inp + (src + 1 + 1)) with (inp + src + 2) by lia. exact R2. }
    exists m'.
    src_end (src + 1 + 1 + Z.of_nat (length raw)).
    rewrite E. split; [f_equal; cbn [app length]; lia|].
    change (b :: bs) with ([b] ++ bs).
    apply (copy_chunk m (store8 m (str + dst) b) m' (str + dst) [b] bs).
    + repeat constructor; lia.
    + reflexivity.
    + match goal with |- read_bytes _ _ ?p = _ =>
        replace p with (str + (dst + 1)) by (cbn [length]; lia) end.
      exact Hb.
    + intros a Ha. cbn [length] in Ha. apply Hf. lia.
  - (* one unicode escape *)
    change (92 :: 117 :: h1 :: h2 :: h3 :: h4 :: raw)
      with ([92; 117] ++ [h1; h2; h3; h4] ++ raw) in *.
    apply read_bytes_split in Hrd as [R1 R2].
    apply read_bytes_split in R2 as [R2 R3].
    rewrite !length_app in *.
    change (Z.of_nat (length [92; 117])) with 2 in *.
    change (length [h1; h2; h3; h4]) with 4%nat in *.
    cbn [length read_bytes] in R1. injection R1 as R1 R1'.
    destruct (hex_loop_spec m _ _ _ _ _ _ R2 Hh) as (_ & Hx & Hcp).
    change (2 ^ 16) with 65536 in Hcp.
    destruct n as [|k]; [cbn in Hlen; lia|]. cbn [copy_escaped].
    destruct (Z.ltb_spec src (src + Z.of_nat (length [92; 117] + (4 + length raw))));
      [|cbn [length] in *; lia].
    rewrite R1. cbn [Z.eqb Pos.eqb].
    replace (inp + (src + 1)) with (inp + src + 1) by lia. rewrite R1'.
    cbn [unescape_char Z.eqb Pos.eqb].
    replace (inp + (src + 1 + 1)) with (inp + src + 2) by lia. rewrite Hx.
    rewrite (not_high_surrogate_test cp Hn), encode_utf8_spec by lia.
    pose proof (utf8_encoding_are_bytes cp ltac:(lia)) as Hub.
    set (u := utf8_encoding cp) in *.
    destruct (IH k (write_bytes m (str + dst) u) (src + 1 + 1 + 4)
                (dst + Z.of_nat (length u))) as (m' & E & Hb & Hf); try (cbn [length] in *; lia).
    { rewrite read_bytes_write_bytes_ne by (cbn [length] in *; lia).
      replace (inp + (src + 1 + 1 + 4)) with (inp + src + 2 + Z.of_nat 4) by lia. exact R3. }
    exists m'.
    src_end (src + 1 + 1 + 4 + Z.of_nat (length raw)).
    rewrite E. split; [f_equal; lia|].
    rewrite <- length_app.
    apply (copy_chunk m (write_bytes m (str + dst) u) m' (str + dst) u bs).
    + exact Hub.
    + reflexivity.
    + replace (str + dst + Z.of_nat (length u)) with (str + (dst + Z.of_nat (length u)))
        by lia. exact Hb.
    + intros a Ha. apply Hf. lia.
  - (* a surrogate pair *)
    change (92 :: 117 :: h1 :: h2 :: h3 :: h4 :: 92 :: 117 :: l1 :: l2 :: l3 :: l4 :: raw)
      with ([92; 117] ++ [h1; h2; h3; h4] ++ [92; 117] ++ [l1; l2; l3; l4] ++ raw) in *.
    apply read_bytes_split in Hrd as [R1 R2].
    apply read_bytes_split in R2 as [R2 R3].
    apply read_bytes_split in R3 as [_ R4].
    apply read_bytes_split in R4 as [R4 R5].
    rewrite !length_app in *.
    change (Z.of_nat (length [92; 117])) with 2 in *.
    change (length [h1; h2; h3; h4]) with 4%nat in *.
    change (length [l1; l2; l3; l4]) with 4%nat in *.
    cbn [length read_bytes] in R1. injection R1 as R1 R1'.
    destruct (hex_loop_spec m _ _ _ _ _ _ R2 Hh) as (_ & Hx & _).
    destruct (hex_loop_spec m _ _ _ _ _ _ R4 Hl) as (_ & Hx2 & _).
    destruct (surrogate_pair_spec hi lo Hhi Hlo) as [Hsp Hcp].
    destruct n as [|k]; [cbn in Hlen; lia|]. cbn [copy_escaped].
    destruct (Z.ltb_spec src
                (src + Z.of_nat (length [92; 117] + (4 + (length [92; 117] + (4 + length raw))))));
      [|cbn [length] in *; lia].
    rewrite R1. cbn [Z.eqb Pos.eqb].
    replace (inp + (src + 1)) with (inp + src + 1) by lia. rewrite R1'.
    cbn [unescape_char Z.eqb Pos.eqb].
    replace (inp + (src + 1 + 1)) with (inp + src + 2) by lia. rewrite Hx.
    rewrite (proj2 (high_surrogate_test hi) Hhi).
    replace (inp + (src + 1 + 1 + 4 + 2)) with (inp + src + 2 + Z.of_nat 4 + 2 + 0)
      by lia.
    rewrite Z.add_0_r.
    replace (inp + src + 2 + Z.of_nat 4 + 2) with (inp + src + 2 + Z.of_nat 4 + 2) in Hx2
      by lia.
    rewrite Hx2, Hsp, encode_utf8_spec by lia.
    pose proof (utf8_encoding_are_bytes (pair_code_point hi lo) ltac:(lia)) as Hub.
    set (u := utf8_encoding (pair_code_point hi lo)) in *.
    destruct (IH k (write_bytes m (str + dst) u) (src + 1 + 1 + 4 + 2 + 4)
                (dst + Z.of_nat (length u))) as (m' & E & Hb & Hf); try (cbn [length] in *; lia).
    { rewrite read_bytes_write_bytes_ne by (cbn [length] in *; lia).
      replace (inp + (src + 1 + 1 + 4 + 2 + 4))
        with (inp + src + 2 + Z.of_nat 4 + 2 + Z.of_nat 4) by lia.
      exact R5. }
    exists m'.
    src_end (src + 1 + 1 + 4 + 2 + 4 + Z.of_nat (length raw)).
    rewrite E. split; [f_equal; lia|].
    rewrite <- length_app.
    apply (copy_chunk m (write_bytes m (str + dst) u) m' (str + dst) u bs).
    + exact Hub.
    + reflexivity.
    + replace (str + dst + Z.of_nat (length u)) with (str + (dst + Z.of_nat (length u)))
        by lia. exact Hb.
    + intros a Ha. apply Hf. lia.
Qed.

(** ** What the spec's relation says about the decoded bytes *)

Lemma hex4_range (h1 h2 h3 h4 cp : Z) : hex4 h1 h2 h3 h4 = Some cp -> 0 <= cp < 65536.
Proof.
  intros H. unfold hex4 in H.
  destruct (hex_value h1) as [a|] eqn:E1; [|discriminate].
  destruct (hex_value h2) as [b|] eqn:E2; [|discriminate].
  destruct (hex_value h3) as [c|] eqn:E3; [|discriminate].
  destruct (hex_value h4) as [d|] eqn:E4; [|discriminate].
  injection H as <-.
  apply hex_value_digit in E1, E2, E3, E4. lia.
Qed.

Lemma decodes_length (raw bs : list Z) :
  decodes raw bs -> (length bs <= length raw)%nat.
Proof.
  induction 1 as [| | | h1 h2 h3 h4 cp raw bs Hh Hn Hd IH
                  | h1 h2 h3 h4 l1 l2 l3 l4 hi lo raw bs Hh Hhi Hl Hlo Hd IH];
    cbn [length]; try lia.
  - rewrite length_app, utf8_encoding_length.
    repeat match goal with |- context [?a <? ?b] => destruct (a <? b) end; lia.
  - rewrite length_app, utf8_encoding_length.
    repeat match goal with |- context [?a <? ?b] => destruct (a <? b) end; lia.
Qed.

Lemma decodes_plain (raw bs : list Z) :
  decodes raw bs -> has_escape raw = false -> bs = raw.
Proof.
  induction 1 as [| ch raw bs Hr H34 H92 Hd IH | | |]; intros He;
    try reflexivity; try discriminate He.
  rewrite has_escape_cons in He. apply orb_false_elim in He as [_ He].
  f_equal. now apply IH.
Qed.

Lemma decodes_escape (raw bs : list Z) :
  decodes raw bs -> has_escape raw = true \/ bs = raw.
Proof.
  intros H. destruct (has_escape raw) eqn:E; [now left | right].
  now apply decodes_plain.
Qed.

(** ** The two node layouts, read back *)

Lemma short_string_node (m : gmap Z Z) (val : Z) (l : list Z) :
  (length l <= 7)%nat -> are_bytes l ->
  let m' := write_bytes
              (set_tag_payload (val_set_type m val JSON_STRING_SHORT) val
                 (Z.lor JSON_STRING_SHORT (u64 (Z.shiftl (Z.of_nat (length l)) 4))))
              (val + 1) l in
  val_get_type m' val = JSON_STRING_SHORT /\
  val_short_str_len m' val = Z.of_nat (length l) /\
  read_bytes (length l) m' (val_short_str_ptr val) = l /\
  (forall a, a < val \/ val + 8 <= a -> load8 m' a = load8 m a).
Proof.
  intros Hl Hb m'.
  set (n := Z.of_nat (length l)).
  assert (Hn : 0 <= n <= 7) by (unfold n; lia).
  assert (Hw : Z.lor JSON_STRING_SHORT (u64 (Z.shiftl n 4)) = 6 + 16 * n).
  { clearbody n. unfold JSON_STRING_SHORT, u64. rewrite Z.shiftl_mul_pow2 by lia. change (2 ^ 4) with 16.
    rewrite Z.mod_small by (change (2 ^ 64) with 18446744073709551616; lia).
    rewrite Z.lor_comm.
    rewrite (lor_disjoint (n * 16) 6 4);
      [lia | lia | change (2 ^ 4) with 16; now rewrite Z.mod_mul by lia
      | change (2 ^ 4) with 16; lia]. }
  assert (Hlow : load8 m' val = 6 + 16 * n).
  { unfold m'. rewrite load8_write_bytes_ne by lia.
    rewrite <- load64_low_byte. unfold set_tag_payload.
    rewrite load64_store64_eq. fold n. rewrite Hw. clearbody n. unfold u64.
    rewrite (Z.mod_small (6 + 16 * n) (2 ^ 64))
      by (change (2 ^ 64) with 18446744073709551616; lia).
    apply Z.mod_small. lia. }
  assert (Htag : tag_payload m' val mod 256 = 6 + 16 * n).
  { unfold tag_payload. now rewrite load64_low_byte. }
  pose proof (load64_range m' val) as Hr. fold (tag_payload m' val) in Hr.
  set (x := tag_payload m' val) in *.
  pose proof (Z.div_mod x 256 ltac:(lia)) as Hx. rewrite Htag in Hx.
  assert (Hq : 0 <= x / 256) by (apply Z.div_pos; lia).
  split; [|split; [|split]].
  - unfold val_get_type, JSON_TAG_MASK, JSON_STRING_SHORT. fold x.
    rewrite land_15, Hx.
    replace (256 * (x / 256) + (6 + 16 * n)) with (6 + (16 * (x / 256) + n) * 16) by lia.
    rewrite Z.mod_add by lia. reflexivity.
  - unfold val_short_str_len. fold x. rewrite land_7, shiftr_div by lia.
    change (2 ^ 4) with 16. rewrite Hx.
    replace (256 * (x / 256) + (6 + 16 * n)) with (6 + (16 * (x / 256) + n) * 16) by lia.
    rewrite Z.div_add by lia. change (6 / 16) with 0.
    replace (0 + (16 * (x / 256) + n)) with (n + (2 * (x / 256)) * 8) by lia.
    rewrite Z.mod_add by lia. apply Z.mod_small. lia.
  - unfold val_short_str_ptr, m'. now apply read_bytes_write_bytes.
  - intros a Ha. unfold m'. rewrite load8_write_bytes_ne by lia.
    unfold set_tag_payload, val_set_type, set_tag_payload.
    rewrite !load8_store64_ne by lia. reflexivity.
Qed.

Lemma long_string_node (m : gmap Z Z) (val str slen : Z) :
  0 <= slen < 2 ^ 60 -> 0 <= str < 2 ^ 64 ->
  let m' := set_str_ptr (val_set_payload (val_set_type m val JSON_STRING_LONG) val slen)
              val str in
  val_get_type m' val = JSON_STRING_LONG /\
  val_get_payload m' val = slen /\
  str_ptr m' val = str /\
  (forall a, a < val \/ val + 24 <= a -> load8 m' a = load8 m a).
Proof.
  intros Hs Hp m'. split; [|split; [|split]].
  - unfold val_get_type, tag_payload, m', set_str_ptr.
    rewrite load64_store64_ne by lia.
    fold (tag_payload (val_set_payload (val_set_type m val JSON_STRING_LONG) val slen) val).
    fold (val_get_type (val_set_payload (val_set_type m val JSON_STRING_LONG) val slen) val).
    rewrite val_get_type_set_payload by assumption.
    apply val_get_type_set_type. unfold JSON_STRING_LONG. lia.
  - unfold val_get_payload, tag_payload, m', set_str_ptr.
    rewrite load64_store64_ne by lia.
    fold (tag_payload (val_set_payload (val_set_type m val JSON_STRING_LONG) val slen) val).
    fold (val_get_payload (val_set_payload (val_set_type m val JSON_STRING_LONG) val slen) val).
    now apply val_get_payload_set_payload.
  - unfold str_ptr, m', set_str_ptr. rewrite load64_store64_eq.
    unfold u64. apply Z.mod_small. lia.
  - intros a Ha. unfold m', set_str_ptr, val_set_payload, val_set_type, set_tag_payload.
    rewrite !load8_store64_ne by lia. reflexivity.
Qed.

Lemma short_string_accessors (m : gmap Z Z) (val : Z) (l : list Z) :
  val <> 0 -> (length l <= 7)%nat -> are_bytes l ->
  let m' := write_bytes
              (set_tag_payload (val_set_type m val JSON_STRING_SHORT) val
                 (Z.lor JSON_STRING_SHORT (u64 (Z.shiftl (Z.of_nat (length l)) 4))))
              (val + 1) l in
  val_get_type m' val = JSON_STRING_SHORT /\
  json_get_str_len m' val = Z.of_nat (length l) /\
  read_bytes (length l) m' (json_get_str m' val) = l.
Proof.
  intros Hv Hl Hb m'.
  destruct (short_string_node m val l Hl Hb) as (Ht & Hn & Hr & _). fold m' in Ht, Hn, Hr.
  unfold json_get_str_len, json_get_str.
  destruct (Z.eqb_spec val 0); [contradiction|].
  rewrite Ht. cbn [Z.eqb Pos.eqb JSON_STRING_SHORT]. auto.
Qed.

Lemma long_string_accessors (m : gmap Z Z) (val str : Z) (bs : list Z) :
  val <> 0 -> Z.of_nat (length bs) < 2 ^ 60 -> 0 <= str < 2 ^ 64 ->
  val + 24 <= str \/ str + Z.of_nat (length bs) + 1 <= val ->
  read_bytes (length bs) m str = bs ->
  let m' := set_str_ptr
              (val_set_payload
                 (val_set_type (store8 m (str + Z.of_nat (length bs)) 0) val JSON_STRING_LONG)
                 val (Z.of_nat (length bs)))
              val str in
  val_get_type m' val = JSON_STRING_LONG /\
  json_get_str_len m' val = Z.of_nat (length bs) /\
  read_bytes (length bs) m' (json_get_str m' val) = bs.
Proof.
  intros Hv Hl Hs Hap Hr m'.
  destruct (long_string_node (store8 m (str + Z.of_nat (length bs)) 0) val str
              (Z.of_nat (length bs)) ltac:(lia) Hs) as (Ht & Hn & Hp & Hf).
  fold m' in Ht, Hn, Hp, Hf.
  unfold json_get_str_len, json_get_str.
  destruct (Z.eqb_spec val 0); [contradiction|].
  rewrite Ht. cbn [Z.eqb Pos.eqb JSON_STRING_LONG JSON_STRING_SHORT].
  split; [reflexivity|]. split; [exact Hn|].
  rewrite Hp. etransitivity; [|exact Hr].
  apply read_bytes_ext. intros b Hb. rewrite Hf by lia.
  apply load8_store8_ne. lia.
Qed.

(** ** The string parser on a well-formed token *)

Lemma measure_string_quote (k : nat) (w : world) (c : parser_ctx) (slen : Z) (esc : bool) :
  pos c < len c -> input_at w c (pos c) = 34 ->
  measure_string (S k) w c slen esc = (Some (slen, esc), c, w).
Proof.
  intros Hp Hq. cbn [measure_string].
  destruct (Z.ltb_spec (pos c) (len c)); [|lia]. now rewrite Hq.
Qed.

Lemma measure_string_token (w : world) (c : parser_ctx) (raw bs : list Z) :
  decodes raw bs -> text_at w c (raw ++ [34]) ->
  measure_string (Z.to_nat (len c - pos c)) w c 0 false =
    (Some (Z.of_nat (length bs), has_escape raw), advance c (Z.of_nat (length raw)), w).
Proof.
  intros Hd Ht.
  pose proof Ht as [Hl _]. rewrite length_app in Hl. cbn [length] in Hl.
  destruct (measure_string_prefix w raw bs Hd [34] (Z.to_nat (len c - pos c)) c 0 false Ht)
    as (n' & Hn & E); [lia|].
  rewrite E. apply text_at_app in Ht as [_ Ht]. apply text_at_head in Ht as (Hq & Hp & _).
  destruct n' as [|k]; [lia|].
  cbn [orb]. rewrite Z.add_0_l. apply measure_string_quote; assumption.
Qed.

Lemma ctx_ok_advance (B : Z) (c : parser_ctx) (w : world) (n : Z) :
  ctx_ok B c w -> 0 <= n -> pos c + n <= len c -> ctx_ok B (advance c n) w.
Proof. intros [Hd Hp] Hn Hl. constructor; cbn; [assumption | lia]. Qed.

(** A well-formed token between two quotes becomes a string node: inline
    when it has no escape and at most seven bytes, in the string block
    otherwise; the accessors give back the decoded bytes and their number. *)
Lemma parse_string_spec (B : Z) (c : parser_ctx) (w : world) (raw bs : list Z) :
  ctx_ok B c w -> input_below B c -> len c < 2 ^ 60 ->
  text_at w c (34 :: raw ++ [34]) -> decodes raw bs ->
  brk (snd (parse_string c w)) < 2 ^ 64 ->
  exists val c' w',
    parse_string c w = (val, c', w') /\
    B <= val /\ pos c' = pos c + Z.of_nat (length raw) + 2 /\
    g_last_error w' = g_last_error w /\
    val_get_type (mem w') val =
      (if negb (has_escape raw) && (Z.of_nat (length bs) <=? JSON_SHORT_STR_MAX)
       then JSON_STRING_SHORT else JSON_STRING_LONG) /\
    json_get_str_len (mem w') val = Z.of_nat (length bs) /\
    read_bytes (length bs) (mem w') (json_get_str (mem w') val) = bs.
Proof.
  intros Hc Hin Hlen Ht Hd.
  pose proof (decodes_length raw bs Hd) as Hbl.
  pose proof (ok_B _ _ _ (co_doc _ _ _ Hc)) as HB0.
  pose proof (co_pos _ _ _ Hc) as Hpos.
  apply text_at_head in Ht as (Hq & Hp & Ht1).
  pose proof (measure_string_token w (advance c 1) raw bs Hd Ht1) as Em.
  pose proof Ht1 as [Hl1 Hr1]. rewrite length_app in Hl1, Hr1. cbn [length] in Hl1.
  rewrite read_bytes_app in Hr1. apply app_inj_1 in Hr1 as [Hr1 _]; [|apply read_bytes_length].
  apply text_at_app in Ht1 as [_ Htq]. apply text_at_head in Htq as (_ & Hp2 & _).
  unfold parse_string.
  destruct (Z.geb_spec (pos c) (len c)) as [|_]; [lia|].
  rewrite Hq, Z.eqb_refl. cbn [orb negb]. cbv zeta. rewrite Em.
  destruct (Z.geb_spec (pos (advance (advance c 1) (Z.of_nat (length raw))))
              (len (advance (advance c 1) (Z.of_nat (length raw))))) as [|_]; [lia|].
  assert (Hc3 : ctx_ok B (advance (advance (advance c 1) (Z.of_nat (length raw))) 1) w).
  { cbn in Hp2, Hl1. repeat apply ctx_ok_advance; cbn; try assumption; lia. }
  destruct (arena_alloc_val _ w) as [[val d1] w1] eqn:Ea.
  destruct (steps_alloc_val B _ _ _ _ _ Hc3 Ea) as (Hs1 & HBv & P1).
  destruct (Z.eqb_spec val 0) as [|Hv]; [lia|].
  assert (Hin1 : read_bytes (length raw) (mem w1) (input c + (pos c + 1)) = raw).
  { etransitivity; [|exact Hr1]. apply read_bytes_ext. intros b Hb.
    destruct Hin as [Hi0 Hi1]. cbn in Hl1. apply (av_mem _ _ _ _ _ _ P1).
    cbn [input pos advance] in Hb. lia. }
  assert (Hraw : are_bytes raw) by (rewrite <- Hr1; apply read_bytes_are_bytes).
  cbn [input pos len doc advance set_doc] in *.
  destruct (negb (has_escape raw) && (Z.of_nat (length bs) <=? JSON_SHORT_STR_MAX))
    eqn:Eshort.
  - (* the inline layout *)
    apply andb_prop in Eshort as [Ee Hshort].
    apply negb_true_iff in Ee. apply Z.leb_le in Hshort. unfold JSON_SHORT_STR_MAX in Hshort.
    pose proof (decodes_plain raw bs Hd Ee) as ->.
    intros _. eexists val, _, _. split; [reflexivity|].
    cbn [pos set_doc advance mem set_mem g_last_error].
    split; [exact HBv|]. split; [lia|]. split; [apply (av_err _ _ _ _ _ _ P1)|].
    unfold memcpy. rewrite Nat2Z.id.
    match goal with
    | |- context [read_bytes (length raw) ?m ?a] =>
        replace (read_bytes (length raw) m a) with raw
    end.
    + apply short_string_accessors; [assumption | lia | assumption].
    + symmetry. etransitivity; [|exact Hin1].
      apply read_bytes_ext. intros b Hb. destruct Hin as [Hi0 Hi1].
      unfold set_tag_payload, val_set_type, set_tag_payload.
      rewrite !load8_store64_ne by lia. reflexivity.
  - (* the string block *)
    destruct (arena_alloc_string d1 (Z.of_nat (length bs)) w1) as [[str d2] w2] eqn:Es.
    destruct (steps_alloc_string B (set_doc (advance (advance (advance c 1)
                (Z.of_nat (length raw))) 1) d1) (Z.of_nat (length bs)) w1 str d2 w2)
      as (Hs2 & HBs & P2); [apply (st_ok _ _ _ _ _ Hs1) | lia | exact Es |].
    destruct (Z.eqb_spec str 0) as [|Hstr]; [lia|].
    cbn [snd brk set_mem]. intros Hbrk.
    pose proof (doc_ok_B_le_brk _ _ _ (av_doc _ _ _ _ _ _ P1)) as HBb.
    assert (Hin2 : read_bytes (length raw) (mem w2) (input c + (pos c + 1)) = raw).
    { etransitivity; [|exact Hin1]. apply read_bytes_ext. intros b Hb.
      destruct Hin as [Hi0 Hi1]. apply (as_mem _ _ _ _ _ _ _ P2). lia. }
    match goal with
    | |- context [val_set_type ?X val JSON_STRING_LONG] =>
        assert (Hm : exists m_str,
                   X = store8 m_str (str + Z.of_nat (length bs)) 0 /\
                   read_bytes (length bs) m_str str = bs)
    end.
    { destruct (has_escape raw) eqn:Ee; cbn [negb].
      - destruct (copy_escaped_decodes B (input c) str raw bs Hd (length raw) (mem w2)
                    (pos c + 1) 0) as (m' & E & Hrb & _);
          [exact Hin2 | destruct Hin; lia | exact HBs | lia | lia |].
        match goal with
        | |- context [copy_escaped ?n ?m ?i ?s ?a ?e ?d] =>
            replace e with (a + Z.of_nat (length raw)) by lia
        end.
        match goal with
        | |- context [copy_escaped ?n _ _ _ _ _ _] => replace n with (length raw) by lia
        end.
        rewrite E, Z.add_0_l. rewrite Z.add_0_r in Hrb. now exists m'.
      - pose proof (decodes_plain raw bs Hd Ee) as ->.
        eexists. split; [reflexivity|].
        unfold memcpy. rewrite Nat2Z.id, Hin2. now apply read_bytes_write_bytes. }
    destruct Hm as (m_str & -> & Hrs).
    eexists val, _, _. split; [reflexivity|].
    cbn [pos set_doc advance mem set_mem g_last_error].
    split; [exact HBv|]. split; [lia|].
    split; [rewrite (as_err _ _ _ _ _ _ _ P2); apply (av_err _ _ _ _ _ _ P1)|].
    apply long_string_accessors; try assumption.
    + lia.
    + destruct P2 as [D2 ? ? ? ? ? ? ? ?]. destruct D2. lia.
    + destruct P1 as [D1 ? ? ? ? ? ? ? ? ? ?]. destruct P2 as [D2 ? ? ? ? ? ? ? ?].
      destruct D1, D2. destruct Hc as [[] ?].
      cbn [doc set_doc advance] in *. lia.
Qed.

(** ** Surrogates *)

Lemma decodes_app (a x : list Z) :
  decodes a x -> forall b y, decodes b y -> decodes (a ++ b) (x ++ y).
Proof.
  induction 1 as [| ch raw bs Hr H34 H92 Hd IH
                  | e v raw bs He Hd IH
                  | h1 h2 h3 h4 cp raw bs Hh Hn Hd IH
                  | h1 h2 h3 h4 l1 l2 l3 l4 hi lo raw bs Hh Hhi Hl Hlo Hd IH];
    intros b y Hb; cbn [app].
  - exact Hb.
  - apply dec_plain; auto.
  - apply dec_escape; auto.
  - rewrite <- app_assoc. apply dec_unicode; auto.
  - rewrite <- app_assoc. eapply dec_pair; eauto.
Qed.

Lemma measure_step_unicode_fail (k : nat) (w : world) (c : parser_ctx) (slen : Z)
    (esc : bool) (c' : parser_ctx) (w' : world) :
  text_at w c [92; 117] ->
  scan_unicode w (advance c 2) = (None, c', w') ->
  measure_string (S k) w c slen esc = (None, c', w').
Proof.
  intros Ht Hs. apply text_at_head in Ht as (E1 & Hp1 & Ht).
  apply text_at_head in Ht as (E2 & Hp2 & _).
  cbn [measure_string]. rewrite E1.
  destruct (Z.ltb_spec (pos c) (len c)); [|lia].
  cbn [Z.eqb Pos.eqb].
  destruct (Z.geb_spec (pos (advance c 1)) (len (advance c 1))); [lia|].
  rewrite E2. cbn [is_simple_escape Z.eqb Pos.eqb orb].
  rewrite advance_advance. change (1 + 1) with 2. rewrite Hs. reflexivity.
Qed.

(** A high surrogate that is not followed by the escape of a low one: every
    way out of the case is an error return with the code for strings. *)
Lemma scan_unicode_lone_high (w : world) (c : parser_ctx) (h1 h2 h3 h4 hi : Z)
    (rest : list Z) :
  text_at w c ([h1; h2; h3; h4] ++ rest) ->
  pos c + 4 + Z.of_nat (length rest) = len c ->
  hex4 h1 h2 h3 h4 = Some hi -> is_high_surrogate hi ->
  low_surrogate_follows rest = false ->
  exists c' w',
    scan_unicode w c = (None, c', w') /\ code (g_last_error w') = JSON_ERROR_STRING.
Proof.
  intros Ht Hend Hh Hhi Hlow. unfold scan_unicode.
  apply text_at_app in Ht as [T1 T2].
  change (Z.of_nat (length [h1; h2; h3; h4])) with 4 in T2.
  destruct (parse_unicode_escape_spec w c _ _ _ _ _ T1 Hh) as [-> _].
  rewrite (proj2 (high_surrogate_test hi) Hhi).
  match goal with |- context [if ?b then _ else _] => destruct b eqn:E end;
    [eexists; eexists; split; reflexivity|].
  apply orb_false_elim in E as [E E3]. apply orb_false_elim in E as [E1 E2].
  apply negb_false_iff, Z.eqb_eq in E2, E3.
  cbn [pos len advance] in E1.
  destruct rest as [|a [|b rest]]; cbn [length] in Hend; try lia.
  apply text_at_head in T2 as (Ea & _ & T2). apply text_at_head in T2 as (Eb & _ & T2).
  rewrite advance_advance in T2. change (1 + 1) with 2 in T2.
  unfold input_at in Ea, Eb, E2, E3. cbn [input pos advance] in Ea, Eb, E2, E3.
  rewrite E2 in Ea. rewrite E3 in Eb. subst a b.
  destruct (parse_unicode_escape w (advance (advance c 4) 2)) as [[lo c6]|] eqn:Ep;
    [|eexists; eexists; split; reflexivity].
  unfold parse_unicode_escape in Ep.
  destruct (Z.gtb_spec (pos (advance (advance c 4) 2) + 4) (len (advance (advance c 4) 2)))
    as [|Hfit]; [discriminate|].
  destruct (hex_loop 4 (mem w) _ 0) as [cp|] eqn:Eh; [|discriminate].
  injection Ep as -> <-.
  apply hex_loop_inv in Eh.
  cbn [pos len advance] in Hfit.
  destruct rest as [|l1 [|l2 [|l3 [|l4 rest]]]]; cbn [length] in Hend; try lia.
  destruct T2 as [_ R]. cbn [length read_bytes] in R.
  injection R as R1 R2 R3 R4 _.
  cbn [input pos advance] in Eh, R1, R2, R3, R4. rewrite R1, R2, R3, R4 in Eh.
  cbn [low_surrogate_follows Z.eqb Pos.eqb andb] in Hlow. rewrite Eh in Hlow.
  assert (Hout : (lo <? 56320) || (lo >? 57343) = true).
  { apply andb_false_iff in Hlow as [H|H].
    - apply Z.leb_gt in H. apply orb_true_iff. left. now apply Z.ltb_lt.
    - apply Z.leb_gt in H. apply orb_true_iff. right. apply Z.gtb_lt. lia. }
  rewrite Hout. eexists; eexists; split; reflexivity.
Qed.

Lemma parse_string_lone_high (w : world) (c : parser_ctx) (pre bs : list Z)
    (h1 h2 h3 h4 hi : Z) (rest : list Z) :
  text_at w c (34 :: pre ++ [92; 117; h1; h2; h3; h4] ++ rest) ->
  pos c + Z.of_nat (length (34 :: pre ++ [92; 117; h1; h2; h3; h4] ++ rest)) = len c ->
  decodes pre bs -> hex4 h1 h2 h3 h4 = Some hi -> is_high_surrogate hi ->
  low_surrogate_follows rest = false ->
  fst (fst (parse_string c w)) = 0 /\
  code (g_last_error (snd (parse_string c w))) = JSON_ERROR_STRING.
Proof.
  intros Ht Hend Hd Hh Hhi Hlow.
  cbn [length] in Hend. rewrite !length_app in Hend. cbn [length] in Hend.
  apply text_at_head in Ht as (Hq & Hp & Ht1).
  destruct (measure_string_prefix w pre bs Hd _ (Z.to_nat (len (advance c 1) - pos (advance c 1)))
              (advance c 1) 0 false Ht1) as (n' & Hn & E); [cbn; lia|].
  apply text_at_app in Ht1 as [_ T2].
  apply (text_at_app _ _ [92; 117] ([h1; h2; h3; h4] ++ rest)) in T2 as [T2 T3].
  change (Z.of_nat (length [92; 117])) with 2 in T3.
  destruct (scan_unicode_lone_high w _ h1 h2 h3 h4 hi rest T3) as (c' & w' & Es & Ec);
    [cbn; lia | assumption | assumption | assumption |].
  destruct n' as [|k]; [cbn in Hn; lia|].
  rewrite (measure_step_unicode_fail k w _ _ _ c' w' T2 Es) in E.
  unfold parse_string.
  destruct (Z.geb_spec (pos c) (len c)) as [|_]; [lia|].
  rewrite Hq, Z.eqb_refl. cbn [orb negb]. cbv zeta. rewrite E.
  split; [reflexivity | exact Ec].
Qed.

(** ** String layouts *)

(** C6: every string token should be readable through the string accessors,
    whichever layout it got.  In the object with the one member abcdefgh : 1
    the key has eight bytes and gets the long layout; its bytes are copied to the string block, but
    linking the value ([key->child = value]) overwrites the pointer word of
    the key node, which is the same union member.  After the parse the key
    accessor returns the address of the value node, whose first eight bytes
    are the tag word of the integer 1, and the lookup of the key in the
    object returns [NULL]. *)
Theorem C6_long_key_loses_its_bytes :
  match parse_text ([123; 34] ++ bytes_of_string "abcdefgh" ++ [34; 58; 49; 125]) None with
  | Some (Some d, w) =>
      let key := json_obj_first (mem w) (root d) in
      val_get_type (mem w) key = JSON_STRING_LONG /\
      json_obj_key_len (mem w) key = 8 /\
      read_bytes 8 (mem w) (strings d) = bytes_of_string "abcdefgh" /\
      json_obj_key (mem w) key = child (mem w) key /\
      json_obj_key (mem w) key <> strings d /\
      read_bytes 8 (mem w) (json_obj_key (mem w) key) = [20; 0; 0; 0; 0; 0; 0; 0] /\
      json_obj_getn 2 (mem w) (root d) (strings d) 8 = Some 0
  | _ => False
  end.
Proof. vm_compute. repeat split; try reflexivity. discriminate. Qed.

(** ** Surrogate pairs *)

(** C7: inside a string token, behind a well-formed prefix [pre], stands the
    escape of a high surrogate [hi].  (1) If the bytes that follow it up to
    the end of the input do not start with the escape of a low surrogate, the
    parse of the token fails with the error code for strings.  (2) If the
    escape of a low surrogate [lo] follows, and the token goes on with a
    well-formed [post] and the closing quote, the token parses, and the pair
    contributes the four bytes of the UTF-8 encoding of
    U+10000 + ((hi - D800) << 10) + (lo - DC00) between the bytes of [pre] and
    those of [post].  (3) The text of the escapes D83D and DE00 between
    quotes parses to the four bytes of the UTF-8 encoding of U+1F600. *)
Theorem C7_surrogate_pairs
    (B : Z) (c : parser_ctx) (w : world) (pre bs1 : list Z) (h1 h2 h3 h4 hi : Z) :
  ctx_ok B c w -> input_below B c -> len c < 2 ^ 60 ->
  decodes pre bs1 -> hex4 h1 h2 h3 h4 = Some hi -> is_high_surrogate hi ->
  (forall rest,
     text_at w c (34 :: pre ++ [92; 117; h1; h2; h3; h4] ++ rest) ->
     pos c + Z.of_nat (length (34 :: pre ++ [92; 117; h1; h2; h3; h4] ++ rest)) = len c ->
     low_surrogate_follows rest = false ->
     fst (fst (parse_string c w)) = 0 /\
     code (g_last_error (snd (parse_string c w))) = JSON_ERROR_STRING) /\
  (forall l1 l2 l3 l4 lo post bs2,
     hex4 l1 l2 l3 l4 = Some lo -> is_low_surrogate lo -> decodes post bs2 ->
     text_at w c (34 :: pre ++ [92; 117; h1; h2; h3; h4; 92; 117; l1; l2; l3; l4]
                     ++ post ++ [34]) ->
     brk (snd (parse_string c w)) < 2 ^ 64 ->
     let cp := 0x10000 + Z.shiftl (hi - 0xD800) 10 + (lo - 0xDC00) in
     exists val c' w',
       parse_string c w = (val, c', w') /\ val <> 0 /\
       length (utf8_encoding cp) = 4%nat /\
       json_get_str_len (mem w') val = Z.of_nat (length bs1) + 4 + Z.of_nat (length bs2) /\
       read_bytes (length (bs1 ++ utf8_encoding cp ++ bs2)) (mem w')
         (json_get_str (mem w') val) = bs1 ++ utf8_encoding cp ++ bs2) /\
  match parse_text [34; 92; 117; 68; 56; 51; 68; 92; 117; 68; 69; 48; 48; 34] None with
  | Some (Some d, w') =>
      json_get_str_len (mem w') (root d) = 4 /\
      read_bytes 4 (mem w') (json_get_str (mem w') (root d)) = utf8_encoding 0x1F600
  | _ => False
  end.
Proof.
  intros Hc Hin Hlen Hd Hh Hhi. split; [|split].
  - intros rest Ht Hend Hlow.
    exact (parse_string_lone_high w c pre bs1 h1 h2 h3 h4 hi rest Ht Hend Hd Hh Hhi Hlow).
  - intros l1 l2 l3 l4 lo post bs2 Hl Hlo Hp Ht Hbrk cp.
    assert (Ecp : cp = pair_code_point hi lo).
    { unfold cp, pair_code_point. rewrite Z.shiftl_mul_pow2 by lia. reflexivity. }
    assert (Hlen4 : length (utf8_encoding cp) = 4%nat).
    { rewrite utf8_encoding_length, Ecp. unfold pair_code_point.
      unfold is_high_surrogate, is_low_surrogate in *.
      repeat match goal with |- context [?a <? ?b] => destruct (Z.ltb_spec a b) end;
        try reflexivity; lia. }
    assert (Hraw : decodes
              (pre ++ [92; 117; h1; h2; h3; h4; 92; 117; l1; l2; l3; l4] ++ post)
              (bs1 ++ utf8_encoding cp ++ bs2)).
    { apply decodes_app; [assumption|]. rewrite Ecp.
      apply (dec_pair h1 h2 h3 h4 l1 l2 l3 l4 hi lo post bs2); assumption. }
    rewrite !app_assoc in Ht. rewrite <- (app_assoc pre) in Ht.
    destruct (parse_string_spec B c w _ _ Hc Hin Hlen Ht Hraw Hbrk)
      as (val & c' & w' & E & HBv & _ & _ & _ & El & Er).
    exists val, c', w'. split; [exact E|].
    pose proof (ok_B _ _ _ (co_doc _ _ _ Hc)).
    split; [lia|]. split; [exact Hlen4|]. split; [|exact Er].
    rewrite El, !length_app, Hlen4. lia.
  - vm_compute. split; reflexivity.
Qed.

(** The pair D83D DE00 between quotes, in the state in which the parser
    meets it. *)
Lemma C7_surrogate_pairs_witness :
  let text := [34; 92; 117; 68; 56; 51; 68; 92; 117; 68; 69; 48; 48; 34] in
  let c := fst (token_start text) in
  let w := snd (token_start text) in
  exists val c' w',
    parse_string c w = (val, c', w') /\ val <> 0 /\
    json_get_str_len (mem w') val = 4 /\
    read_bytes 4 (mem w') (json_get_str (mem w') val) = [240; 159; 152; 128].
Proof.
  intros text c w.
  assert (Hc : ctx_ok 4111 c w).
  { constructor; [constructor|]; vm_compute; try reflexivity;
      try (split; discriminate); try discriminate; left; discriminate. }
  assert (Hin : input_below 4111 c) by (split; vm_compute; [reflexivity | discriminate]).
  assert (Hlen : len c < 2 ^ 60) by (vm_compute; reflexivity).
  assert (Hhi : is_high_surrogate 0xD83D) by (unfold is_high_surrogate; lia).
  destruct (C7_surrogate_pairs 4111 c w [] [] 68 56 51 68 0xD83D Hc Hin Hlen dec_nil
              eq_refl Hhi) as (_ & Hpair & _).
  destruct (Hpair 68 69 48 48 0xDE00 [] [] eq_refl) as (val & c' & w' & E & Hv & _ & El & Er).
  - unfold is_low_surrogate. lia.
  - exact dec_nil.
  - split; vm_compute; [discriminate | reflexivity].
  - vm_compute. reflexivity.
  - exists val, c', w'. split; [exact E|]. split; [exact Hv|]. split; [exact El | exact Er].
Defined.

(** * The depth limit *)

(** ** The rest of the input *)

Lemma remaining_text_at (w : world) (c : parser_ctx) (l : list Z) :
  remaining w c l -> text_at w c l.
Proof. intros [Hl Hr]. split; [lia | exact Hr]. Qed.

Lemma remaining_prefix (w : world) (c : parser_ctx) (l1 l2 : list Z) :
  remaining w c (l1 ++ l2) -> text_at w c l1.
Proof. intros H. apply remaining_text_at in H. now apply text_at_take in H. Qed.

(** Behind a prefix, in a context and a world that kept the input. *)
Lemma remaining_at (w w' : world) (c c' : parser_ctx) (l1 l2 : list Z) :
  remaining w c (l1 ++ l2) ->
  input c' = input c -> len c' = len c -> pos c' = pos c + Z.of_nat (length l1) ->
  0 <= pos c ->
  (forall a, input c <= a < input c + len c -> load8 (mem w') a = load8 (mem w) a) ->
  remaining w' c' l2.
Proof.
  intros [Hl Hr] Ei El Ep Hp Hm. rewrite length_app, Nat2Z.inj_add in Hl.
  rewrite length_app, read_bytes_app in Hr.
  apply app_inj_1 in Hr as [_ H2]; [|apply read_bytes_length].
  split; [lia|]. rewrite Ei, Ep. etransitivity; [|exact H2].
  replace (input c + (pos c + Z.of_nat (length l1)))
    with (input c + pos c + Z.of_nat (length l1)) by lia.
  apply read_bytes_ext. intros b Hb. apply Hm. lia.
Qed.

Lemma remaining_moves (w : world) (c c' : parser_ctx) (l1 l2 : list Z) :
  remaining w c (l1 ++ l2) -> moves c c' -> pos c' = pos c + Z.of_nat (length l1) ->
  0 <= pos c -> remaining w c' l2.
Proof.
  intros H Hm Hp H0. destruct Hm.
  apply (remaining_at w w c c' l1 l2); auto.
Qed.

Lemma remaining_steps (B : Z) (w w' : world) (c c' : parser_ctx) (l1 l2 : list Z) :
  remaining w c (l1 ++ l2) -> input_below B c -> steps B c w c' w' ->
  pos c' = pos c + Z.of_nat (length l1) -> 0 <= pos c -> remaining w' c' l2.
Proof.
  intros H [Hi Hb] Hs Hp H0. destruct Hs.
  apply (remaining_at w w' c c' l1 l2); auto.
  intros a Ha. apply st_mem0. lia.
Qed.

Lemma remaining_steps2 (B : Z) (w w' : world) (c c' : parser_ctx) (l1 l2 l3 : list Z) :
  remaining w c (l1 ++ l2 ++ l3) -> input_below B c -> steps B c w c' w' ->
  pos c' = pos c + Z.of_nat (length l1) + Z.of_nat (length l2) -> 0 <= pos c ->
  remaining w' c' l3.
Proof.
  intros H Hin Hs Hp H0. rewrite app_assoc in H.
  apply (remaining_steps B w w' c c' _ _ H Hin Hs); [|assumption].
  rewrite length_app. lia.
Qed.

Lemma remaining_head (w : world) (c : parser_ctx) (b : Z) (l : list Z) :
  remaining w c (b :: l) -> pos c < len c /\ input_at w c (pos c) = b.
Proof.
  intros H. apply remaining_text_at, text_at_head in H as (E & Hp & _). auto.
Qed.

Lemma remaining_nil (w : world) (c : parser_ctx) : remaining w c [] -> pos c = len c.
Proof. intros [H _]. cbn in H. lia. Qed.

Lemma input_below_same (B : Z) (c c' : parser_ctx) :
  input_below B c -> input c' = input c -> len c' = len c -> input_below B c'.
Proof. intros [H1 H2] Ei El. split; rewrite ?Ei, ?El; assumption. Qed.

Lemma input_below_steps (B : Z) (c c' : parser_ctx) (w w' : world) :
  input_below B c -> steps B c w c' w' -> input_below B c'.
Proof. intros H []. now apply (input_below_same B c). Qed.

(** ** Whitespace *)

Lemma skip_ws_loop_spec (w : world) (ws : list Z) :
  is_ws ws ->
  forall n c rest,
    remaining w c (ws ++ rest) ->
    match rest with [] => True | b :: _ => is_ws_byte b = false end ->
    (length ws <= n)%nat ->
    pos (skip_ws_loop n w c) = pos c + Z.of_nat (length ws).
Proof.
  induction 1 as [|b ws Hb Hws IH]; intros n c rest Hr Hrest Hn.
  - cbn [app length Z.of_nat] in *. rewrite Z.add_0_r.
    destruct n as [|k]; cbn [skip_ws_loop]; [reflexivity|].
    destruct (Z.ltb_spec (pos c) (len c)) as [Hlt|]; [|reflexivity].
    destruct rest as [|b rest]; [apply remaining_nil in Hr; lia|].
    apply remaining_head in Hr as [_ ->].
    unfold is_ws_byte in Hrest.
    apply orb_false_elim in Hrest as [Hrest H13].
    apply orb_false_elim in Hrest as [Hrest H10].
    apply orb_false_elim in Hrest as [H32 H9].
    rewrite H32, H9, H13, H10. reflexivity.
  - destruct n as [|k]; [cbn in Hn; lia|]. cbn [skip_ws_loop].
    pose proof Hr as Hr0. cbn [app] in Hr. apply remaining_head in Hr as [Hlt Eb].
    destruct (Z.ltb_spec (pos c) (len c)); [|lia]. rewrite Eb.
    assert (H0 : 0 <= pos c \/ pos c < 0) by lia.
    assert (Hstep : forall c1, input c1 = input c -> len c1 = len c -> pos c1 = pos c + 1 ->
              pos (skip_ws_loop k w c1) = pos c + Z.of_nat (length (b :: ws))).
    { intros c1 Ei El Ep.
      rewrite (IH k c1 rest); [cbn [length]; lia | | assumption | cbn [length] in Hn; lia].
      destruct Hr0 as [Hl0 Hr0]. cbn [app length read_bytes] in Hl0, Hr0.
      injection Hr0 as _ Hr0. split; [rewrite El, Ep; lia|].
      rewrite Ei, Ep. etransitivity; [|exact Hr0]. f_equal. lia. }
    destruct ((b =? 32) || (b =? 9) || (b =? 13)) eqn:E1.
    + apply Hstep; reflexivity.
    + destruct (Z.eqb_spec b 10) as [->|Hne]; [apply Hstep; reflexivity|].
      exfalso. unfold is_ws_byte in Hb.
      apply orb_false_elim in E1 as [E1 H13]. apply orb_false_elim in E1 as [H32 H9].
      rewrite H32, H9, H13 in Hb. cbn [orb] in Hb.
      rewrite orb_false_r in Hb. apply Z.eqb_eq in Hb. contradiction.
Qed.

Lemma skip_ws_spec (w : world) (c : parser_ctx) (ws rest : list Z) :
  is_ws ws -> remaining w c (ws ++ rest) ->
  match rest with [] => True | b :: _ => is_ws_byte b = false end ->
  moves c (skip_ws w c) /\ pos (skip_ws w c) = pos c + Z.of_nat (length ws).
Proof.
  intros Hws Hr Hrest. split; [apply skip_ws_moves|].
  unfold skip_ws. apply (skip_ws_loop_spec w ws Hws _ c rest Hr Hrest).
  destruct Hr as [Hl _]. rewrite length_app in Hl. lia.
Qed.

Lemma peek_spec (w : world) (c : parser_ctx) (ws : list Z) (b : Z) (rest : list Z) :
  is_ws ws -> is_ws_byte b = false -> 0 <= pos c ->
  remaining w c (ws ++ b :: rest) ->
  exists c', peek w c = (b, c') /\ moves c c' /\ pos c' = pos c + Z.of_nat (length ws) /\
             remaining w c' (b :: rest).
Proof.
  intros Hws Hb H0 Hr.
  destruct (skip_ws_spec w c ws (b :: rest) Hws Hr Hb) as [Hm Hp].
  pose proof (remaining_moves w c _ ws (b :: rest) Hr Hm Hp H0) as Hr'.
  pose proof (remaining_head _ _ _ _ Hr') as [Hlt Eb].
  exists (skip_ws w c). unfold peek.
  destruct (Z.geb_spec (pos (skip_ws w c)) (len (skip_ws w c))); [lia|].
  rewrite Eb. auto.
Qed.

Lemma consume_spec (w : world) (c : parser_ctx) (ws : list Z) (b : Z) (rest : list Z) :
  is_ws ws -> is_ws_byte b = false -> 0 <= pos c ->
  remaining w c (ws ++ b :: rest) ->
  exists c', consume w c b = (true, c') /\ moves c c' /\
             pos c' = pos c + Z.of_nat (length ws) + 1 /\ remaining w c' rest.
Proof.
  intros Hws Hb H0 Hr.
  destruct (skip_ws_spec w c ws (b :: rest) Hws Hr Hb) as [Hm Hp].
  pose proof (remaining_moves w c _ ws (b :: rest) Hr Hm Hp H0) as Hr'.
  pose proof (remaining_head _ _ _ _ Hr') as [Hlt Eb].
  exists (advance (skip_ws w c) 1). unfold consume.
  destruct (Z.ltb_spec (pos (skip_ws w c)) (len (skip_ws w c))); [|lia].
  rewrite Eb, Z.eqb_refl. cbn [andb].
  assert (Hm' : moves c (advance (skip_ws w c) 1)).
  { apply (moves_trans _ (skip_ws w c)); [assumption | apply moves_advance; lia]. }
  split; [reflexivity|]. split; [exact Hm'|]. split; [cbn; lia|].
  apply (remaining_moves w c _ (ws ++ [b]) rest); auto.
  - now rewrite <- app_assoc.
  - rewrite length_app. cbn. lia.
Qed.

(** ** First bytes *)

Lemma int_part_head (ip : list Z) :
  int_part ip -> exists b t, ip = b :: t /\ 48 <= b <= 57 /\ all_digits t.
Proof.
  intros [|d ds Hd Hds].
  - exists 48, []. repeat split; try lia. constructor.
  - exists d, ds. repeat split; try lia. exact Hds.
Qed.

Lemma number_text_head (t : list Z) :
  number_text t -> exists b t', t = b :: t' /\ ((b =? 45) || isdigit b) = true.
Proof.
  intros [sgn ip fp ep Hs Hi _ _ _].
  destruct (int_part_head ip Hi) as (b & t' & -> & Hb & _).
  destruct Hs as [->| ->]; cbn [app].
  - eexists; eexists; split; [reflexivity|].
    unfold isdigit. apply orb_true_iff. right. apply andb_true_iff. split; apply Z.leb_le; lia.
  - eexists; eexists; split; [reflexivity|]. reflexivity.
Qed.

Lemma value_text_head (d : nat) (v : list Z) :
  value_text d v -> exists b t, v = b :: t /\ is_value_start b = true.
Proof.
  intros [| | | t Ht | | | | |]; try (eexists; eexists; split; [reflexivity|reflexivity]).
  destruct (number_text_head t Ht) as (b & t' & -> & Hb).
  exists b, t'. split; [reflexivity|]. unfold is_value_start.
  apply orb_true_iff in Hb as [Hb|Hb]; rewrite Hb; now rewrite ?orb_true_r.
Qed.

Lemma elements_text_head (d : nat) (items : list Z) :
  elements_text d items -> exists b t, items = b :: t /\ is_value_start b = true.
Proof.
  intros [d0 v ws2 Hv _ | d1 v ws2 ws1 d2 rest Hv _ _ _];
    destruct (value_text_head _ _ Hv) as (b & t & -> & Hb);
    eexists; eexists; (split; [reflexivity | exact Hb]).
Qed.

Lemma members_text_head (d : nat) (members : list Z) :
  members_text d members -> exists t, members = 34 :: t.
Proof. intros []; eexists; reflexivity. Qed.

Lemma value_start_facts (b : Z) :
  is_value_start b = true ->
  is_ws_byte b = false /\ b <> 93 /\ b <> 125 /\ b <> 44 /\ b <> 0.
Proof.
  unfold is_value_start, isdigit, is_ws_byte. intros H.
  rewrite !orb_true_iff, andb_true_iff, !Z.eqb_eq, !Z.leb_le in H.
  rewrite !orb_false_iff, !Z.eqb_neq. lia.
Qed.

Lemma is_ws_app (l1 l2 : list Z) : is_ws l1 -> is_ws l2 -> is_ws (l1 ++ l2).
Proof. apply Forall_app_2. Qed.

Lemma is_ws_nil : is_ws [].
Proof. constructor. Qed.

(** Whitespace and then a byte that is none: the first byte of the two. *)
Lemma ws_then (ws : list Z) (b : Z) (rest : list Z) :
  is_ws ws -> exists x t, ws ++ b :: rest = x :: t /\ (is_ws_byte x = true \/ x = b).
Proof.
  intros [|x ws' Hx _]; cbn [app]; eexists; eexists; (split; [reflexivity|]); auto.
Qed.

(** ** Leaves *)

Lemma parse_literal_ok (B : Z) (word : list Z) (tag : Z) (msg : string)
    (c : parser_ctx) (w : world) (rest : list Z) :
  ctx_ok B c w -> remaining w c (word ++ rest) ->
  exists r c' w',
    parse_literal word tag msg c w = (r, c', w') /\ r <> 0 /\
    pos c' = pos c + Z.of_nat (length word).
Proof.
  intros Hc Hr. apply remaining_prefix in Hr as [Hl Hr].
  pose proof (ok_B _ _ _ (co_doc _ _ _ Hc)) as HB0.
  pose proof (co_pos _ _ _ Hc) as Hpos.
  unfold parse_literal. rewrite Hr.
  destruct (Z.leb_spec (pos c + Z.of_nat (length word)) (len c)); [|lia].
  unfold bytes_eqb. rewrite bool_decide_eq_true_2 by reflexivity. cbn [andb].
  assert (Hc1 : ctx_ok B (advance c (Z.of_nat (length word))) w)
    by (apply ctx_ok_advance; [assumption | lia | lia]).
  destruct (arena_alloc_val _ w) as [[val d1] w1] eqn:Ea.
  destruct (steps_alloc_val B _ _ _ _ _ Hc1 Ea) as (_ & HBv & _).
  destruct (Z.eqb_spec val 0); [lia|].
  eexists; eexists; eexists. split; [reflexivity|]. split; [assumption | reflexivity].
Qed.

Lemma parse_string_ok (B : Z) (c : parser_ctx) (w : world) (raw bs rest : list Z) :
  ctx_ok B c w -> decodes raw bs -> remaining w c ((34 :: raw ++ [34]) ++ rest) ->
  exists r c' w',
    parse_string c w = (r, c', w') /\ r <> 0 /\
    pos c' = pos c + Z.of_nat (length (34 :: raw ++ [34])).
Proof.
  intros Hc Hd Hr. apply remaining_prefix in Hr as Ht.
  pose proof (ok_B _ _ _ (co_doc _ _ _ Hc)) as HB0.
  pose proof (co_pos _ _ _ Hc) as Hpos.
  apply text_at_head in Ht as (Hq & Hp & Ht1).
  pose proof (measure_string_token w (advance c 1) raw bs Hd Ht1) as Em.
  pose proof Ht1 as [Hl1 _]. rewrite length_app in Hl1. cbn [length] in Hl1.
  apply text_at_app in Ht1 as [_ Htq]. apply text_at_head in Htq as (_ & Hp2 & _).
  unfold parse_string.
  destruct (Z.geb_spec (pos c) (len c)) as [|_]; [lia|].
  rewrite Hq, Z.eqb_refl. cbn [orb negb]. cbv zeta. rewrite Em.
  destruct (Z.geb_spec (pos (advance (advance c 1) (Z.of_nat (length raw))))
              (len (advance (advance c 1) (Z.of_nat (length raw))))) as [|_]; [lia|].
  assert (Hc3 : ctx_ok B (advance (advance (advance c 1) (Z.of_nat (length raw))) 1) w).
  { cbn in Hp2, Hl1. repeat apply ctx_ok_advance; cbn; try assumption; lia. }
  destruct (arena_alloc_val _ w) as [[val d1] w1] eqn:Ea.
  destruct (steps_alloc_val B _ _ _ _ _ Hc3 Ea) as (Hs1 & HBv & P1).
  destruct (Z.eqb_spec val 0) as [|Hv]; [lia|].
  assert (Hpos' : forall d, pos (set_doc (advance (advance (advance c 1)
                      (Z.of_nat (length raw))) 1) d)
                    = pos c + Z.of_nat (length (34 :: raw ++ [34]))).
  { intros d. cbn [pos set_doc advance length]. rewrite length_app. cbn [length]. lia. }
  destruct (negb (has_escape raw) && (Z.of_nat (length bs) <=? JSON_SHORT_STR_MAX)).
  - eexists; eexists; eexists. split; [reflexivity|]. split; [assumption | apply Hpos'].
  - destruct (arena_alloc_string _ (Z.of_nat (length bs)) w1) as [[str d2] w2] eqn:Es.
    destruct (steps_alloc_string B _ _ _ _ _ _ (st_ok _ _ _ _ _ Hs1)
                (Nat2Z.is_nonneg (length bs)) Es)
      as (_ & HBs & _).
    destruct (Z.eqb_spec str 0) as [|Hstr]; [lia|].
    eexists; eexists; eexists. split; [reflexivity|]. split; [assumption|].
    cbn [pos set_doc]. apply Hpos'.
Qed.

(** ** Numbers *)

Section NumberScan.

Variables (m : gmap Z Z) (start remaining_ : Z).

Lemma window_nil (i : Z) : window m start remaining_ i [] -> i = remaining_.
Proof. intros [H _]. cbn in H. lia. Qed.

Lemma window_head (i b : Z) (l : list Z) :
  window m start remaining_ i (b :: l) ->
  i < remaining_ /\ load8 m (start + i) = b /\ window m start remaining_ (i + 1) l.
Proof.
  intros [Hl Hr]. cbn [length read_bytes] in *. injection Hr as E1 E2.
  split; [lia|]. split; [exact E1|]. split; [lia|].
  etransitivity; [|exact E2]. f_equal. lia.
Qed.

Lemma window_app (i : Z) (l1 l2 : list Z) :
  window m start remaining_ i (l1 ++ l2) ->
  window m start remaining_ (i + Z.of_nat (length l1)) l2.
Proof.
  intros [Hl Hr]. rewrite length_app in Hl, Hr. rewrite read_bytes_app in Hr.
  apply app_inj_1 in Hr as [_ H2]; [|apply read_bytes_length].
  split; [lia|]. etransitivity; [|exact H2]. f_equal. lia.
Qed.

(** The test [i < remaining && P(start[i])] at the head of a window. *)
Lemma window_test (i : Z) (l : list Z) (f : Z -> bool) :
  window m start remaining_ i l ->
  ((i <? remaining_) && f (load8 m (start + i))) =
    match l with [] => false | b :: _ => f b end.
Proof.
  intros H. destruct l as [|b l].
  - apply window_nil in H. subst i. now rewrite Z.ltb_irrefl.
  - apply window_head in H as (Hlt & -> & _).
    destruct (Z.ltb_spec i remaining_); [reflexivity | lia].
Qed.

(** The test [i >= remaining || !isdigit(start[i])]. *)
Lemma window_digit (i d : Z) (l : list Z) :
  window m start remaining_ i (d :: l) -> 48 <= d <= 57 ->
  ((i >=? remaining_) || negb (isdigit (load8 m (start + i)))) = false.
Proof.
  intros H Hd. apply window_head in H as (Hlt & -> & _).
  destruct (Z.geb_spec i remaining_); [lia|].
  unfold isdigit. destruct (Z.leb_spec 48 d); [|lia]. destruct (Z.leb_spec d 57); [|lia].
  reflexivity.
Qed.

Lemma isdigit_true (d : Z) : 48 <= d <= 57 -> isdigit d = true.
Proof.
  intros H. unfold isdigit. destruct (Z.leb_spec 48 d); [|lia].
  destruct (Z.leb_spec d 57); [reflexivity | lia].
Qed.

Lemma skip_digits_spec (ds : list Z) :
  all_digits ds ->
  forall n i rest,
    window m start remaining_ i (ds ++ rest) ->
    next_is (fun b => isdigit b = false) rest ->
    (length ds <= n)%nat ->
    skip_digits n m start remaining_ i = i + Z.of_nat (length ds).
Proof.
  induction 1 as [|d ds Hd Hds IH]; intros n i rest Hw Hrest Hn.
  - cbn [app length Z.of_nat] in *. rewrite Z.add_0_r.
    destruct n as [|k]; cbn [skip_digits]; [reflexivity|].
    rewrite (window_test i rest isdigit Hw).
    destruct rest as [|b rest]; [reflexivity|]. cbn in Hrest. now rewrite Hrest.
  - destruct n as [|k]; [cbn in Hn; lia|]. cbn [skip_digits].
    cbn [app] in Hw. rewrite (window_test i _ isdigit Hw), (isdigit_true d Hd).
    apply window_head in Hw as (_ & _ & Hw).
    rewrite (IH k (i + 1) rest Hw Hrest) by (cbn in Hn; lia).
    cbn [length]. lia.
Qed.

Lemma number_fraction_spec (fp rest : list Z) (i : Z) :
  frac_part fp -> window m start remaining_ i (fp ++ rest) -> 0 <= i ->
  next_is (fun b => isdigit b = false /\ b <> 46) rest ->
  number_fraction m start remaining_ i =
    Some (match fp with [] => false | _ => true end, i + Z.of_nat (length fp)).
Proof.
  intros Hf Hw Hi Hrest. unfold number_fraction.
  rewrite (window_test i _ (fun b => b =? 46) Hw).
  destruct Hf as [|d ds Hd Hds]; cbn [app length Z.of_nat].
  - rewrite Z.add_0_r. destruct rest as [|b rest]; [reflexivity|].
    destruct Hrest as [_ H46]. apply Z.eqb_neq in H46. now rewrite H46.
  - cbn [Z.eqb Pos.eqb]. cbn [app] in Hw.
    apply window_head in Hw as (_ & _ & Hw).
    rewrite (window_digit _ d _ Hw Hd).
    change (d :: ds ++ rest) with ((d :: ds) ++ rest) in Hw.
    rewrite (skip_digits_spec (d :: ds) ltac:(constructor; assumption) _ _ rest Hw).
    + f_equal. f_equal. cbn [length]. lia.
    + destruct rest; [exact I | apply Hrest].
    + destruct Hw as [Hl _]. rewrite length_app in Hl. lia.
Qed.

Lemma number_exponent_spec (ep rest : list Z) (i : Z) (fl : bool) :
  exp_part ep -> window m start remaining_ i (ep ++ rest) -> 0 <= i ->
  next_is ends_number rest ->
  number_exponent m start remaining_ fl i =
    Some (match ep with [] => fl | _ => true end, i + Z.of_nat (length ep)).
Proof.
  intros He Hw Hi Hrest. unfold number_exponent.
  rewrite (window_test i _ (fun b => (b =? 101) || (b =? 69)) Hw).
  destruct He as [|e sgn d ds He Hs Hd Hds]; cbn [app length Z.of_nat].
  - rewrite Z.add_0_r. destruct rest as [|b rest]; [reflexivity|].
    destruct Hrest as (_ & _ & H101 & H69). apply Z.eqb_neq in H101, H69.
    now rewrite H101, H69.
  - assert (Ee : (e =? 101) || (e =? 69) = true).
    { destruct He as [-> | ->]; reflexivity. }
    rewrite Ee. cbn [app] in Hw. apply window_head in Hw as (_ & _ & Hw).
    rewrite <- app_assoc in Hw. cbn [app] in Hw.
    rewrite (window_test (i + 1) _ (fun b => (b =? 43) || (b =? 45)) Hw).
    assert (Hsign : (match sgn ++ d :: ds ++ rest with
                     | [] => false | b :: _ => (b =? 43) || (b =? 45) end)
                    = match sgn with [] => false | _ => true end).
    { destruct Hs as [-> | [-> | ->]]; cbn [app]; try reflexivity.
      destruct (Z.eqb_spec d 43); [lia|]. destruct (Z.eqb_spec d 45); [lia|]. reflexivity. }
    rewrite Hsign.
    assert (Hw' : window m start remaining_ (i + 1 + Z.of_nat (length sgn))
                    ((d :: ds) ++ rest)) by (apply window_app; exact Hw).
    assert (Ei : (if match sgn with [] => false | _ => true end then i + 1 + 1 else i + 1)
                 = i + 1 + Z.of_nat (length sgn)).
    { destruct Hs as [-> | [-> | ->]]; cbn [length Z.of_nat Pos.of_succ_nat]; lia. }
    rewrite Ei. cbn [app] in Hw'.
    rewrite (window_digit _ d _ Hw' Hd).
    rewrite (skip_digits_spec (d :: ds) ltac:(constructor; assumption) _ _ rest Hw').
    + f_equal. f_equal. rewrite length_app. cbn [length]. lia.
    + destruct rest; [exact I | apply Hrest].
    + destruct Hw' as [Hl _]. cbn [length] in Hl |- *. rewrite length_app in Hl. lia.
Qed.

End NumberScan.

Lemma delimiter_ends_number (rest : list Z) : follows rest -> next_is ends_number rest.
Proof.
  intros Hd. destruct rest as [|b rest]; [exact I|].
  cbn [follows next_is] in Hd |- *. unfold is_delimiter, is_ws_byte in Hd. unfold ends_number, isdigit.
  rewrite !orb_true_iff, !Z.eqb_eq in Hd.
  rewrite andb_false_iff, !Z.leb_gt. lia.
Qed.

Lemma exp_part_next (ep rest : list Z) :
  exp_part ep -> next_is ends_number rest ->
  next_is (fun b => isdigit b = false /\ b <> 46) (ep ++ rest).
Proof.
  intros He Hn. destruct He as [|e sgn d ds He _ _ _].
  - destruct rest; [exact I|]. destruct Hn as (H1 & H2 & _). split; assumption.
  - cbn [app next_is]. unfold isdigit. rewrite andb_false_iff, !Z.leb_gt. lia.
Qed.

Lemma frac_part_next (fp rest : list Z) :
  frac_part fp -> next_is (fun b => isdigit b = false /\ b <> 46) rest ->
  next_is (fun b => isdigit b = false) (fp ++ rest).
Proof.
  intros Hf Hn. destruct Hf as [|d ds _ _]; [|reflexivity].
  destruct rest; [exact I | apply Hn].
Qed.

Lemma delimiter_not_number (b : Z) : is_delimiter b = true -> is_number_byte b = false.
Proof.
  unfold is_delimiter, is_ws_byte, is_number_byte, isdigit.
  rewrite !orb_true_iff, !Z.eqb_eq. intros H.
  rewrite !orb_false_iff, andb_false_iff, !Z.leb_gt, !Z.eqb_neq. lia.
Qed.

Lemma number_token_bytes (sgn ip fp ep : list Z) :
  sgn = [] \/ sgn = [45] -> int_part ip -> frac_part fp -> exp_part ep ->
  Forall (fun b => is_number_byte b = true) (sgn ++ ip ++ fp ++ ep).
Proof.
  assert (Hd : forall d, 48 <= d <= 57 -> is_number_byte d = true).
  { intros d H. unfold is_number_byte, isdigit.
    destruct (Z.leb_spec 48 d); [|lia]. destruct (Z.leb_spec d 57); [reflexivity | lia]. }
  assert (Hds : forall ds, all_digits ds -> Forall (fun b => is_number_byte b = true) ds).
  { intros ds H. induction H as [|d ds H _ IH]; constructor; [now apply Hd | exact IH]. }
  intros Hs Hi Hf He. repeat (apply Forall_app; split).
  - destruct Hs as [-> | ->]; repeat constructor.
  - destruct Hi as [|d ds H1 H2]; [repeat constructor|].
    constructor; [apply Hd; lia | now apply Hds].
  - destruct Hf as [|d ds H1 H2]; [constructor|].
    constructor; [reflexivity|]. constructor; [now apply Hd | now apply Hds].
  - destruct He as [|e sg d ds H1 H2 H3 H4]; [constructor|].
    constructor; [destruct H1 as [-> | ->]; reflexivity|].
    apply Forall_app. split.
    + destruct H2 as [-> | [-> | ->]]; repeat constructor.
    + constructor; [now apply Hd | now apply Hds].
Qed.

(** The bytes the conversions look at are the token, when the byte behind
    it cannot continue a number or the allocated memory ends there. *)
Lemma number_chars_token (token : list Z) :
  forall n m p,
    Forall (fun b => is_number_byte b = true) token ->
    read_bytes (length token) m p = token ->
    (length token = n \/
     (length token < n)%nat /\ is_number_byte (load8 m (p + Z.of_nat (length token))) = false) ->
    number_chars n m p = token.
Proof.
  induction token as [|b t IH]; intros n m p Hb Hrd Hn.
  - destruct n as [|k]; [reflexivity|]. cbn [number_chars].
    destruct Hn as [Hn | [_ Hn]]; [discriminate Hn|].
    cbn [length] in Hn. change (Z.of_nat 0) with 0 in Hn. rewrite Z.add_0_r in Hn.
    now rewrite Hn.
  - cbn [length read_bytes] in Hrd. injection Hrd as Hb0 Ht.
    inversion Hb as [|? ? Hb1 Hb2]; subst.
    destruct n as [|k]; [destruct Hn as [Hn | [Hn _]]; cbn [length] in Hn; lia|].
    cbn [number_chars]. rewrite Hb1. f_equal. apply IH; [exact Hb2 | exact Ht |].
    destruct Hn as [Hn | [Hn1 Hn2]]; [left; cbn [length] in Hn; lia|].
    right. split; [cbn [length] in Hn1; lia|].
    replace (p + 1 + Z.of_nat (length t))
      with (p + Z.of_nat (length (load8 m p :: t))) by (cbn [length]; lia).
    exact Hn2.
Qed.

(** The scanner of [parse_number] on a number token: it finds the end of
    the token, and what is left is the conversion of the token and the node.
    A token that ends the input needs the byte behind the input to stop the
    conversion. *)
Lemma parse_number_scan (B : Z) (c : parser_ctx) (w : world) (sgn ip fp ep rest : list Z) :
  ctx_ok B c w -> input_below B c ->
  sgn = [] \/ sgn = [45] -> int_part ip -> frac_part fp -> exp_part ep ->
  follows rest -> remaining w c ((sgn ++ ip ++ fp ++ ep) ++ rest) ->
  (rest = [] -> terminated B w c) ->
  exists val d1 w1,
    arena_alloc_val (doc c) w = (val, d1, w1) /\
    alloc_val_post B (doc c) w val d1 w1 /\ B <= val /\
    parse_number c w =
      (let token := sgn ++ ip ++ fp ++ ep in
       let i := Z.of_nat (length token) in
       let c1 := set_doc c d1 in
       if match ep with [] => match fp with [] => false | _ => true end | _ => true end then
         let '(dv, erange) := strtod token in
         if erange
         then (0, c1, ctx_error w1 c1 JSON_ERROR_NUMBER "Number out of range"%string)
         else
           let m := val_set_type (mem w1) val JSON_FLOAT in
           (val, advance c1 i, set_mem w1 (set_float_val m val dv))
       else
         let '(ll, erange) := strtoll token in
         if erange then
           let '(dv, _) := strtod token in
           let m := val_set_type (mem w1) val JSON_FLOAT in
           (val, advance c1 i, set_mem w1 (set_float_val m val dv))
         else
           let m := val_set_type (mem w1) val JSON_INT in
           let m := val_set_payload m val (Z.land (u64 ll) 0x0FFFFFFFFFFFFFFF) in
           (val, advance c1 i, set_mem w1 m)).
Proof.
  intros Hc Hin Hs Hi Hfp Hep Hf Hr Hterm.
  pose proof (ok_B _ _ _ (co_doc _ _ _ Hc)) as HB0.
  pose proof (co_pos _ _ _ Hc) as Hpos.
  pose proof Hf as Hdelim.
  apply delimiter_ends_number in Hf.
  destruct (arena_alloc_val (doc c) w) as [[val d1] w1] eqn:Ea.
  destruct (steps_alloc_val B _ _ _ _ _ Hc Ea) as (_ & HBv & P1).
  exists val, d1, w1. split; [reflexivity|]. split; [exact P1|]. split; [exact HBv|].
  assert (Hw0 : window (mem w) (input c + pos c) (len c - pos c) 0
                  (sgn ++ ip ++ fp ++ ep ++ rest)).
  { destruct Hr as [Hl Hr]. rewrite <- !app_assoc in Hl, Hr.
    split; [lia|]. now rewrite Z.add_0_r. }
  destruct (int_part_head ip Hi) as (d0 & ds0 & Eip & Hd0 & Hds0).
  unfold parse_number. cbv zeta.
  set (m := mem w) in *. set (start := input c + pos c) in *.
  set (rem := len c - pos c) in *.
  (* the sign *)
  assert (A1 : (if (0 <? rem) && (load8 m (start + 0) =? 45) then 0 + 1 else 0)
               = Z.of_nat (length sgn)).
  { rewrite (window_test m start rem 0 _ (fun b => b =? 45) Hw0).
    destruct Hs as [-> | ->]; [|reflexivity]. rewrite Eip. cbn [app length Z.of_nat].
    destruct (Z.eqb_spec d0 45); [lia | reflexivity]. }
  rewrite A1.
  pose proof (window_app m start rem 0 sgn _ Hw0) as Hw1. rewrite Z.add_0_l in Hw1.
  set (i1 := Z.of_nat (length sgn)) in *.
  assert (Hi1 : 0 <= i1) by (unfold i1; lia).
  rewrite Eip in Hw1. cbn [app] in Hw1.
  rewrite (window_digit m start rem i1 d0 _ Hw1 Hd0).
  pose proof (exp_part_next ep rest Hep Hf) as Hn_ep.
  pose proof (frac_part_next fp (ep ++ rest) Hfp Hn_ep) as Hn_fp.
  (* the leading zero *)
  assert (A3 : (load8 m (start + i1) =? 48) && (i1 + 1 <? rem) &&
               isdigit (load8 m (start + (i1 + 1))) = false).
  { pose proof (window_head m start rem i1 _ _ Hw1) as (_ & E0 & Hw2).
    rewrite <- andb_assoc, (window_test m start rem (i1 + 1) _ isdigit Hw2), E0.
    rewrite Eip in Hi. inversion Hi as [|d ds Hd Hds]; subst.
    - cbn [app]. destruct (fp ++ ep ++ rest); [reflexivity|]. cbn in Hn_fp. now rewrite Hn_fp.
    - match goal with
      | |- context [?x =? 48] => destruct (Z.eqb_spec x 48); [lia | reflexivity]
      end. }
  rewrite A3.
  (* the digits *)
  assert (A4 : skip_digits (Z.to_nat (rem - i1)) m start rem i1 = i1 + Z.of_nat (length ip)).
  { rewrite Eip.
    apply (skip_digits_spec m start rem (d0 :: ds0) ltac:(constructor; assumption)
             _ _ (fp ++ ep ++ rest) Hw1 Hn_fp).
    destruct Hw1 as [Hl _]. cbn [length] in Hl |- *. rewrite length_app in Hl. lia. }
  rewrite A4.
  change (d0 :: ds0 ++ fp ++ ep ++ rest) with ((d0 :: ds0) ++ fp ++ ep ++ rest) in Hw1.
  rewrite <- Eip in Hw1.
  pose proof (window_app m start rem i1 ip _ Hw1) as Hw3.
  rewrite (number_fraction_spec m start rem fp (ep ++ rest) _ Hfp Hw3 ltac:(lia) Hn_ep).
  pose proof (window_app m start rem _ fp _ Hw3) as Hw4.
  rewrite (number_exponent_spec m start rem ep rest _ _ Hep Hw4 ltac:(lia) Hf).
  assert (Ei4 : i1 + Z.of_nat (length ip) + Z.of_nat (length fp) + Z.of_nat (length ep)
                = Z.of_nat (length (sgn ++ ip ++ fp ++ ep))).
  { unfold i1. rewrite !length_app. lia. }
  rewrite Ei4, Ea.
  destruct (Z.eqb_spec val 0) as [|Hv]; [lia|].
  assert (Etok : read_bytes (length (sgn ++ ip ++ fp ++ ep)) (mem w1) start
                 = sgn ++ ip ++ fp ++ ep).
  { destruct Hr as [Hl Hr]. rewrite length_app in Hl, Hr. rewrite read_bytes_app in Hr.
    apply app_inj_1 in Hr as [Hr _]; [|apply read_bytes_length].
    etransitivity; [|exact Hr]. apply read_bytes_ext. intros b Hb.
    apply (av_mem _ _ _ _ _ _ P1). destruct Hin. unfold start in Hb. lia. }
  assert (Echars : number_chars (Z.to_nat (brk w1 - start)) (mem w1) start
                   = sgn ++ ip ++ fp ++ ep).
  { pose proof (co_doc _ _ _ Hc) as Hdoc. pose proof (av_brk _ _ _ _ _ _ P1) as Hbrk.
    assert (HBb : B <= brk w) by (destruct Hdoc; lia).
    destruct Hin as [Hin0 Hin1]. destruct Hr as [Hl Hr]. rewrite length_app in Hl.
    apply number_chars_token; [now apply number_token_bytes | exact Etok |].
    right. unfold start.
    destruct rest as [|b rest].
    - destruct (Hterm eq_refl) as [Ht1 Ht2]. cbn [length] in Hl.
      split; [lia|].
      replace (input c + pos c + Z.of_nat (length (sgn ++ ip ++ fp ++ ep)))
        with (input c + len c) by lia.
      rewrite (av_mem _ _ _ _ _ _ P1) by lia. exact Ht2.
    - rewrite length_app, read_bytes_app in Hr.
      apply app_inj_1 in Hr as [_ Hr]; [|apply read_bytes_length].
      cbn [length read_bytes] in Hr. injection Hr as Hb _.
      cbn [length] in Hl. split; [lia|]. rewrite (av_mem _ _ _ _ _ _ P1) by lia.
      rewrite Hb. apply delimiter_not_number. exact Hdelim. }
  rewrite Echars. reflexivity.
Qed.

Lemma parse_number_ok (B : Z) (c : parser_ctx) (w : world) (t rest : list Z) :
  ctx_ok B c w -> input_below B c -> number_text t -> follows rest ->
  remaining w c (t ++ rest) -> (rest = [] -> terminated B w c) ->
  exists r c' w',
    parse_number c w = (r, c', w') /\ r <> 0 /\ pos c' = pos c + Z.of_nat (length t).
Proof.
  intros Hc Hin Ht Hf Hr Hterm.
  pose proof (ok_B _ _ _ (co_doc _ _ _ Hc)) as HB0.
  destruct Ht as [sgn ip fp ep Hs Hi Hfp Hep Hrange].
  destruct (parse_number_scan B c w sgn ip fp ep rest Hc Hin Hs Hi Hfp Hep Hf Hr Hterm)
    as (val & d1 & w1 & _ & _ & HBv & E).
  assert (Hv : val <> 0) by lia.
  rewrite E. cbv zeta.
  set (fl := match ep with [] => match fp with [] => false | _ => true end | _ => true end).
  assert (Hfl : fl = true -> fp ++ ep <> []).
  { unfold fl. intros E' H. apply app_eq_nil in H as [-> ->]. discriminate. }
  clearbody fl.
  destruct fl.
  - specialize (Hrange (Hfl eq_refl)).
    destruct (strtod (sgn ++ ip ++ fp ++ ep)) as [dv er]. cbn in Hrange. subst er.
    eexists; eexists; eexists. split; [reflexivity|]. split; [assumption | reflexivity].
  - destruct (strtoll (sgn ++ ip ++ fp ++ ep)) as [ll [|]].
    + destruct (strtod (sgn ++ ip ++ fp ++ ep)) as [dv er].
      eexists; eexists; eexists. split; [reflexivity|]. split; [assumption | reflexivity].
    + eexists; eexists; eexists. split; [reflexivity|]. split; [assumption | reflexivity].
Qed.

(** ** Containers *)

Lemma within_limit_max (D k : Z) (d1 d2 : nat) :
  within_limit D k (Nat.max d1 d2) <-> within_limit D k d1 /\ within_limit D k d2.
Proof. unfold within_limit. rewrite Nat2Z.inj_max. lia. Qed.

Lemma within_limit_cases (D k : Z) (d : nat) :
  within_limit D k d \/ ~ within_limit D k d.
Proof. unfold within_limit. lia. Qed.

Lemma follows_ws (ws : list Z) (b : Z) (rest : list Z) :
  is_ws ws -> is_delimiter b = true -> follows (ws ++ b :: rest).
Proof.
  intros [|x ws' Hx _] Hb; cbn [app follows]; [exact Hb|].
  unfold is_delimiter. now rewrite Hx.
Qed.

(** Arithmetic on the lengths of concatenations. *)
Ltac len_lia :=
  repeat (progress (cbn [length] in *; rewrite ?length_app in * ));
  lia.

Ltac list_eq :=
  repeat first [rewrite <- app_assoc | rewrite <- app_comm_cons | rewrite app_nil_l];
  reflexivity.

(** [H : remaining w c l] with [l] rewritten to [l']. *)
Ltac reshape H l' :=
  match type of H with
  | remaining ?w ?c ?l => replace l with l' in H by list_eq
  end.

Lemma app_cons_ends (ws : list Z) (b : Z) (rest : list Z) (P : Prop) :
  ws ++ b :: rest = [] -> P.
Proof. intros H. destruct ws; discriminate H. Qed.

(** The byte behind the input stays what it is while the parser steps. *)
Lemma terminated_steps (B : Z) (c : parser_ctx) (w : world) (c' : parser_ctx) (w' : world) :
  steps B c w c' w' -> terminated B w c -> terminated B w' c'.
Proof.
  intros [_ Ei El _ _ _ Hm] [T1 T2]. unfold terminated. rewrite Ei, El.
  split; [exact T1|]. now rewrite (Hm _ T1).
Qed.

Lemma array_loop_text (B : Z) (pv : parser Z) (F : Z) :
  parser_ok B pv -> parses_values pv F ->
  forall d items, elements_text d items ->
  forall n c w arr first prev ws rest,
    ctx_ok B c w -> input_below B c -> B <= arr -> (first = 0 \/ B <= prev) ->
    is_ws ws -> remaining w c (ws ++ items ++ 93 :: rest) ->
    len c - pos c < F -> (length items < n)%nat ->
    (max_depth c <= 0 \/ depth c <= max_depth c) ->
    exists b c' w',
      array_loop pv n arr first prev c w = Some (b, c', w') /\
      (within_limit (max_depth c) (depth c) d ->
         b = true /\
         pos c' = pos c + Z.of_nat (length ws) + Z.of_nat (length items) + 1) /\
      (~ within_limit (max_depth c) (depth c) d ->
         b = false /\ code (g_last_error w') = JSON_ERROR_DEPTH).
Proof.
  intros Hok Hpv d items He.
  induction He as [d v ws2 Hv Hws2 | d1 v ws2 ws1 d2 items Hv Hws2 Hws1 He IH];
    intros n c w arr first prev ws rest Hc Hin Harr Hprev Hws Hr HF Hn Hdep;
    (destruct n as [|n]; [lia|]); cbn [array_loop];
    pose proof (co_pos _ _ _ Hc) as Hpos.
  - (* the last element *)
    rewrite <- app_assoc in Hr.
    destruct (Hpv B c w ws d v (ws2 ++ 93 :: rest) Hc Hin Hws Hv
                (follows_ws ws2 93 rest Hws2 eq_refl) Hr HF Hdep (app_cons_ends _ _ _ _))
      as (r & c1 & w1 & Epv & Hyes & Hno).
    rewrite Epv. pose proof (Hok c w r c1 w1 Hc Epv) as [S1 R1].
    destruct (within_limit_cases (max_depth c) (depth c) d) as [Hlim|Hlim].
    + destruct (Hyes Hlim) as [Hr0 Hp1].
      destruct (Z.eqb_spec r 0) as [|_]; [contradiction|].
      destruct R1 as [|(HBr & _ & Hd1)]; [contradiction|].
      set (m2 := if first =? 0 then set_child (mem w1) arr r else set_next (mem w1) prev r).
      assert (Hm2 : same_below B (mem w1) m2).
      { subst m2. destruct (Z.eqb_spec first 0); [solve_below|].
        destruct Hprev; [contradiction|]. solve_below. }
      assert (S2 : steps B c w c1 (set_mem w1 m2)).
      { eapply steps_trans; [exact S1 | apply steps_set_mem; [apply S1 | exact Hm2]]. }
      assert (Hr1 : remaining (set_mem w1 m2) c1 (ws2 ++ 93 :: rest)).
      { apply (remaining_steps2 B w _ c c1 ws v _ Hr Hin S2); lia. }
      destruct (peek_spec _ c1 ws2 93 rest Hws2 eq_refl ltac:(lia) Hr1)
        as (c2 & Ep & M2 & Hp2 & Hr2).
      rewrite Ep. cbn [Z.eqb Pos.eqb].
      destruct (consume_spec _ c2 [] 93 rest is_ws_nil eq_refl ltac:(lia) Hr2)
        as (c3 & Ec & M3 & Hp3 & Hr3).
      rewrite Ec. cbn [snd].
      eexists; eexists; eexists. split; [reflexivity|]. split; [|intros; contradiction].
      intros _. split; [reflexivity|]. rewrite length_app. cbn [length] in Hp3. lia.
    + destruct (Hno Hlim) as [-> Hcode]. cbn [Z.eqb].
      eexists; eexists; eexists. split; [reflexivity|]. split; [intros; contradiction|].
      intros _. split; [reflexivity | exact Hcode].
  - (* an element and a comma *)
    reshape Hr (ws ++ v ++ ws2 ++ 44 :: ws1 ++ items ++ 93 :: rest).
    destruct (Hpv B c w ws d1 v (ws2 ++ 44 :: ws1 ++ items ++ 93 :: rest) Hc Hin Hws Hv
                (follows_ws ws2 44 _ Hws2 eq_refl) Hr HF Hdep (app_cons_ends _ _ _ _))
      as (r & c1 & w1 & Epv & Hyes & Hno).
    rewrite Epv. pose proof (Hok c w r c1 w1 Hc Epv) as [S1 R1].
    destruct (within_limit_cases (max_depth c) (depth c) d1) as [Hlim|Hlim].
    + destruct (Hyes Hlim) as [Hr0 Hp1].
      destruct (Z.eqb_spec r 0) as [|_]; [contradiction|].
      destruct R1 as [|(HBr & _ & Hd1)]; [contradiction|].
      set (m2 := if first =? 0 then set_child (mem w1) arr r else set_next (mem w1) prev r).
      assert (Hm2 : same_below B (mem w1) m2).
      { subst m2. destruct (Z.eqb_spec first 0); [solve_below|].
        destruct Hprev; [contradiction|]. solve_below. }
      assert (S2 : steps B c w c1 (set_mem w1 m2)).
      { eapply steps_trans; [exact S1 | apply steps_set_mem; [apply S1 | exact Hm2]]. }
      assert (Hr1 : remaining (set_mem w1 m2) c1
                      (ws2 ++ 44 :: ws1 ++ items ++ 93 :: rest)).
      { apply (remaining_steps2 B w _ c c1 ws v _ Hr Hin S2); lia. }
      destruct (peek_spec _ c1 ws2 44 _ Hws2 eq_refl ltac:(lia) Hr1)
        as (c2 & Ep & M2 & Hp2 & Hr2).
      rewrite Ep. cbn [Z.eqb Pos.eqb].
      destruct (consume_spec _ c2 [] 44 _ is_ws_nil eq_refl ltac:(lia) Hr2)
        as (c3 & Ec & M3 & Hp3 & Hr3).
      rewrite Ec. cbn [negb]. cbn [length] in Hp3.
      assert (S3 : steps B c w c3 (set_mem w1 m2)).
      { eapply steps_trans; [exact S2|]. apply steps_moves; [apply S2|].
        eapply moves_trans; eassumption. }
      assert (Hd3 : depth c3 = depth c).
      { destruct M2, M3. congruence. }
      assert (Hmd3 : max_depth c3 = max_depth c) by (destruct S3; assumption).
      assert (Hl3 : len c3 = len c) by (destruct S3; assumption).
      assert (Hrec : forall c4 ws',
                is_ws ws' -> moves c3 c4 ->
                remaining (set_mem w1 m2) c4 (ws' ++ items ++ 93 :: rest) ->
                pos c4 + Z.of_nat (length ws') = pos c3 + Z.of_nat (length ws1) ->
                exists b c' w',
                  array_loop pv n arr (if first =? 0 then r else first) r c4 (set_mem w1 m2)
                    = Some (b, c', w') /\
                  (within_limit (max_depth c) (depth c) (Nat.max d1 d2) ->
                   b = true /\
                   pos c' = pos c + Z.of_nat (length ws) +
                            Z.of_nat (length (v ++ ws2 ++ 44 :: ws1 ++ items)) + 1) /\
                  (~ within_limit (max_depth c) (depth c) (Nat.max d1 d2) ->
                   b = false /\ code (g_last_error w') = JSON_ERROR_DEPTH)).
      { intros c4 ws' Hws' M4 Hr4 Hp4.
        assert (S4 : steps B c w c4 (set_mem w1 m2)).
        { eapply steps_trans; [exact S3|]. apply steps_moves; [apply S3 | exact M4]. }
        destruct M4.
        destruct (IH n c4 (set_mem w1 m2) arr (if first =? 0 then r else first) r ws' rest)
          as (b & c' & w' & El & Hy & Hn'); try assumption.
        - apply S4.
        - apply (input_below_steps B c c4 w _ Hin S4).
        - now right.
        - lia.
        - rewrite !length_app in Hn. cbn [length] in Hn. rewrite !length_app in Hn. lia.
        - rewrite mv_max_depth0, mv_depth0, Hmd3, Hd3. exact Hdep.
        - rewrite mv_max_depth0, mv_depth0, Hmd3, Hd3 in Hy, Hn'.
          exists b, c', w'. split; [exact El|]. rewrite within_limit_max. split.
          + intros [_ H2]. destruct (Hy H2) as [-> Hp']. split; [reflexivity|].
            rewrite !length_app. cbn [length]. rewrite !length_app. lia.
          + intros H. apply Hn'. tauto. }
      destruct (negb (Z.land (flags c3) JSON_PARSE_ALLOW_TRAILING =? 0)).
      * destruct (elements_text_head _ _ He) as (b0 & t0 & Eit & Hb0).
        destruct (value_start_facts b0 Hb0) as (Hnws & H93 & _).
        rewrite Eit in Hr3. cbn [app] in Hr3.
        destruct (peek_spec _ c3 ws1 b0 _ Hws1 Hnws ltac:(lia) Hr3)
          as (c4 & Ep4 & M4 & Hp4 & Hr4).
        rewrite Ep4. destruct (Z.eqb_spec b0 93); [contradiction|].
        apply (Hrec c4 []); [apply is_ws_nil | exact M4 | | cbn [length]; lia].
        cbn [app]. rewrite Eit. exact Hr4.
      * apply (Hrec c3 ws1); [assumption | apply moves_refl | exact Hr3 | lia].
    + destruct (Hno Hlim) as [-> Hcode]. cbn [Z.eqb].
      eexists; eexists; eexists. split; [reflexivity|].
      rewrite within_limit_max. split; [tauto|].
      intros _. split; [reflexivity | exact Hcode].
Qed.

(** The part of an iteration of the object loop that the two shapes of a
    member share: the key, the colon and the value. *)
Lemma object_member_text (B : Z) (pv : parser Z) (F : Z) :
  parser_ok B pv -> parses_values pv F ->
  forall c w ws raw bs ws2 ws3 d v rest,
    ctx_ok B c w -> input_below B c -> is_ws ws -> decodes raw bs -> is_ws ws2 ->
    is_ws ws3 -> value_text d v -> follows rest ->
    remaining w c (ws ++ (34 :: raw ++ [34]) ++ ws2 ++ 58 :: ws3 ++ v ++ rest) ->
    len c - pos c < F ->
    (max_depth c <= 0 \/ depth c <= max_depth c) ->
    (rest = [] -> number_text v -> terminated B w c) ->
    exists c0 key c1 w1 c2 value c3 w3,
      peek w c = (34, c0) /\ parse_string c0 w = (key, c1, w1) /\ B <= key /\ key <> 0 /\
      consume w1 c1 58 = (true, c2) /\ pv c2 w1 = Some (value, c3, w3) /\
      steps B c w c3 w3 /\
      (within_limit (max_depth c) (depth c) d ->
         B <= value /\ value <> 0 /\ depth c3 = depth c /\
         pos c3 = pos c + Z.of_nat (length ws) + Z.of_nat (length (34 :: raw ++ [34])) +
                  Z.of_nat (length ws2) + 1 + Z.of_nat (length ws3) + Z.of_nat (length v)) /\
      (~ within_limit (max_depth c) (depth c) d ->
         value = 0 /\ code (g_last_error w3) = JSON_ERROR_DEPTH).
Proof.
  intros Hok Hpv c w ws raw bs ws2 ws3 d v rest Hc Hin Hws Hd Hws2 Hws3 Hv Hf Hr HF Hdep Hne.
  pose proof (co_pos _ _ _ Hc) as Hpos.
  pose proof (ok_B _ _ _ (co_doc _ _ _ Hc)) as HB0.
  pose proof Hr as Hr'. rewrite <- app_comm_cons in Hr'.
  destruct (peek_spec w c ws 34 _ Hws eq_refl ltac:(lia) Hr') as (c0 & Ep & M0 & Hp0 & Hr0).
  rewrite app_comm_cons in Hr0.
  assert (S0 : steps B c w c0 w) by (apply steps_moves; assumption).
  destruct (parse_string_ok B c0 w raw bs _ ltac:(apply S0) Hd Hr0)
    as (key & c1 & w1 & Es & Hkey & Hp1).
  destruct (parse_string_steps B c0 w key c1 w1 ltac:(apply S0) Es) as [S1 R1].
  destruct R1 as [|(HBk & _ & Hd1)]; [contradiction|].
  assert (S1' : steps B c w c1 w1) by (eapply steps_trans; eassumption).
  assert (Hr1 : remaining w1 c1 (ws2 ++ 58 :: ws3 ++ v ++ rest)).
  { apply (remaining_steps2 B w _ c c1 ws (34 :: raw ++ [34]) _ Hr Hin S1'); lia. }
  destruct (consume_spec w1 c1 ws2 58 _ Hws2 eq_refl ltac:(lia) Hr1)
    as (c2 & Ec & M2 & Hp2 & Hr2).
  assert (S2 : steps B c w c2 w1).
  { eapply steps_trans; [exact S1' | apply steps_moves; [apply S1' | exact M2]]. }
  assert (E2 : max_depth c2 = max_depth c /\ depth c2 = depth c /\ len c2 = len c).
  { destruct S2, M0, M2. repeat split; congruence. }
  destruct E2 as (Emd & Edp & Eln).
  destruct (Hpv B c2 w1 ws3 d v rest ltac:(apply S2) (input_below_steps B c c2 w w1 Hin S2)
              Hws3 Hv Hf Hr2 ltac:(lia) ltac:(rewrite Emd, Edp; exact Hdep)
              (fun E Hnum => terminated_steps B c w c2 w1 S2 (Hne E Hnum)))
    as (value & c3 & w3 & Epv & Hyes & Hno).
  rewrite Emd, Edp in Hyes, Hno.
  pose proof (Hok c2 w1 value c3 w3 ltac:(apply S2) Epv) as [S3 R3].
  exists c0, key, c1, w1, c2, value, c3, w3.
  repeat (split; [assumption|]).
  split; [eapply steps_trans; eassumption|]. split.
  - intros Hlim. destruct (Hyes Hlim) as [Hv0 Hp3].
    destruct R3 as [|(HBv & _ & Hd3)]; [contradiction|].
    repeat (split; [assumption|]). split; [congruence | lia].
  - exact Hno.
Qed.

Lemma object_loop_text (B : Z) (pv : parser Z) (F : Z) :
  parser_ok B pv -> parses_values pv F ->
  forall d members, members_text d members ->
  forall n c w obj first prev ws rest,
    ctx_ok B c w -> input_below B c -> B <= obj -> (first = 0 \/ B <= prev) ->
    is_ws ws -> remaining w c (ws ++ members ++ 125 :: rest) ->
    len c - pos c < F -> (length members < n)%nat ->
    (max_depth c <= 0 \/ depth c <= max_depth c) ->
    exists b c' w',
      object_loop pv n obj first prev c w = Some (b, c', w') /\
      (within_limit (max_depth c) (depth c) d ->
         b = true /\
         pos c' = pos c + Z.of_nat (length ws) + Z.of_nat (length members) + 1) /\
      (~ within_limit (max_depth c) (depth c) d ->
         b = false /\ code (g_last_error w') = JSON_ERROR_DEPTH).
Proof.
  intros Hok Hpv d members He.
  induction He as [raw bs ws2 ws3 d v ws4 Hd Hws2 Hws3 Hv Hws4
                  | raw bs ws2 ws3 d1 v ws4 ws1 d2 members Hd Hws2 Hws3 Hv Hws4 Hws1 He IH];
    intros n c w obj first prev ws rest Hc Hin Hobj Hprev Hws Hr HF Hn Hdep;
    (destruct n as [|n]; [lia|]); cbn [object_loop];
    pose proof (co_pos _ _ _ Hc) as Hpos.
  - (* the last member *)
    reshape Hr (ws ++ (34 :: raw ++ [34]) ++ ws2 ++ 58 :: ws3 ++ v ++ ws4 ++ 125 :: rest).
    destruct (object_member_text B pv F Hok Hpv c w ws raw bs ws2 ws3 d v (ws4 ++ 125 :: rest)
                Hc Hin Hws Hd Hws2 Hws3 Hv (follows_ws ws4 125 rest Hws4 eq_refl) Hr HF Hdep
                (app_cons_ends _ _ _ _))
      as (c0 & key & c1 & w1 & c2 & value & c3 & w3 &
          Ep & Es & HBk & Hkey & Ec & Epv & S3 & Hyes & Hno).
    rewrite Ep. cbn [Z.eqb Pos.eqb negb]. rewrite Es.
    destruct (Z.eqb_spec key 0) as [|_]; [contradiction|].
    rewrite Ec. cbn [negb]. rewrite Epv.
    destruct (within_limit_cases (max_depth c) (depth c) d) as [Hlim|Hlim].
    + destruct (Hyes Hlim) as (HBv & Hv0 & Hd3 & Hp3).
      destruct (Z.eqb_spec value 0) as [|_]; [contradiction|].
      set (m2 := if first =? 0 then set_child (set_child (mem w3) key value) obj key
                 else set_next (set_child (mem w3) key value) prev key).
      assert (Hm2 : same_below B (mem w3) m2).
      { subst m2. destruct (Z.eqb_spec first 0); [solve_below|].
        destruct Hprev; [contradiction|]. solve_below. }
      assert (S4 : steps B c w c3 (set_mem w3 m2)).
      { eapply steps_trans; [exact S3 | apply steps_set_mem; [apply S3 | exact Hm2]]. }
      assert (Hr3 : remaining (set_mem w3 m2) c3 (ws4 ++ 125 :: rest)).
      { reshape Hr ((ws ++ (34 :: raw ++ [34]) ++ ws2 ++ 58 :: ws3 ++ v) ++ ws4 ++ 125 :: rest).
        apply (remaining_steps B w _ c c3 _ _ Hr Hin S4); [|lia]. clear Hr. len_lia. }
      destruct (peek_spec _ c3 ws4 125 rest Hws4 eq_refl ltac:(lia) Hr3)
        as (c4 & Ep4 & M4 & Hp4 & Hr4).
      rewrite Ep4. cbn [Z.eqb Pos.eqb].
      destruct (consume_spec _ c4 [] 125 rest is_ws_nil eq_refl ltac:(lia) Hr4)
        as (c5 & Ec5 & M5 & Hp5 & Hr5).
      rewrite Ec5. cbn [snd].
      eexists; eexists; eexists. split; [reflexivity|]. split; [|intros; contradiction].
      intros _. split; [reflexivity|]. clear Hr Hr3 Hr4 Hr5. len_lia.
    + destruct (Hno Hlim) as [-> Hcode]. cbn [Z.eqb].
      eexists; eexists; eexists. split; [reflexivity|]. split; [intros; contradiction|].
      intros _. split; [reflexivity | exact Hcode].
  - (* a member and a comma *)
    reshape Hr (ws ++ (34 :: raw ++ [34]) ++ ws2 ++ 58 :: ws3 ++ v ++
                  ws4 ++ 44 :: ws1 ++ members ++ 125 :: rest).
    destruct (object_member_text B pv F Hok Hpv c w ws raw bs ws2 ws3 d1 v
                (ws4 ++ 44 :: ws1 ++ members ++ 125 :: rest)
                Hc Hin Hws Hd Hws2 Hws3 Hv (follows_ws ws4 44 _ Hws4 eq_refl) Hr HF Hdep
                (app_cons_ends _ _ _ _))
      as (c0 & key & c1 & w1 & c2 & value & c3 & w3 &
          Ep & Es & HBk & Hkey & Ec & Epv & S3 & Hyes & Hno).
    rewrite Ep. cbn [Z.eqb Pos.eqb negb]. rewrite Es.
    destruct (Z.eqb_spec key 0) as [|_]; [contradiction|].
    rewrite Ec. cbn [negb]. rewrite Epv.
    destruct (within_limit_cases (max_depth c) (depth c) d1) as [Hlim|Hlim].
    + destruct (Hyes Hlim) as (HBv & Hv0 & Hd3 & Hp3).
      destruct (Z.eqb_spec value 0) as [|_]; [contradiction|].
      set (m2 := if first =? 0 then set_child (set_child (mem w3) key value) obj key
                 else set_next (set_child (mem w3) key value) prev key).
      assert (Hm2 : same_below B (mem w3) m2).
      { subst m2. destruct (Z.eqb_spec first 0); [solve_below|].
        destruct Hprev; [contradiction|]. solve_below. }
      assert (S4 : steps B c w c3 (set_mem w3 m2)).
      { eapply steps_trans; [exact S3 | apply steps_set_mem; [apply S3 | exact Hm2]]. }
      assert (Hr3 : remaining (set_mem w3 m2) c3
                      (ws4 ++ 44 :: ws1 ++ members ++ 125 :: rest)).
      { reshape Hr ((ws ++ (34 :: raw ++ [34]) ++ ws2 ++ 58 :: ws3 ++ v) ++
                      ws4 ++ 44 :: ws1 ++ members ++ 125 :: rest).
        apply (remaining_steps B w _ c c3 _ _ Hr Hin S4); [|lia]. clear Hr. len_lia. }
      destruct (peek_spec _ c3 ws4 44 _ Hws4 eq_refl ltac:(lia) Hr3)
        as (c4 & Ep4 & M4 & Hp4 & Hr4).
      rewrite Ep4. cbn [Z.eqb Pos.eqb].
      destruct (consume_spec _ c4 [] 44 _ is_ws_nil eq_refl ltac:(lia) Hr4)
        as (c5 & Ec5 & M5 & Hp5 & Hr5).
      rewrite Ec5. cbn [negb]. cbn [length] in Hp5.
      assert (S5 : steps B c w c5 (set_mem w3 m2)).
      { eapply steps_trans; [exact S4|]. apply steps_moves; [apply S4|].
        eapply moves_trans; eassumption. }
      assert (Hd5 : depth c5 = depth c).
      { destruct M4, M5. congruence. }
      assert (Hmd5 : max_depth c5 = max_depth c) by (destruct S5; assumption).
      assert (Hl5 : len c5 = len c) by (destruct S5; assumption).
      assert (Hrec : forall c6 ws',
                is_ws ws' -> moves c5 c6 ->
                remaining (set_mem w3 m2) c6 (ws' ++ members ++ 125 :: rest) ->
                pos c6 + Z.of_nat (length ws') = pos c5 + Z.of_nat (length ws1) ->
                exists b c' w',
                  object_loop pv n obj (if first =? 0 then key else first) key c6
                    (set_mem w3 m2) = Some (b, c', w') /\
                  (within_limit (max_depth c) (depth c) (Nat.max d1 d2) ->
                   b = true /\
                   pos c' = pos c + Z.of_nat (length ws) +
                            Z.of_nat (length ((34 :: raw ++ [34]) ++ ws2 ++ 58 :: ws3 ++ v ++
                                              ws4 ++ 44 :: ws1 ++ members)) + 1) /\
                  (~ within_limit (max_depth c) (depth c) (Nat.max d1 d2) ->
                   b = false /\ code (g_last_error w') = JSON_ERROR_DEPTH)).
      { intros c6 ws' Hws' M6 Hr6 Hp6.
        assert (S6 : steps B c w c6 (set_mem w3 m2)).
        { eapply steps_trans; [exact S5|]. apply steps_moves; [apply S5 | exact M6]. }
        destruct M6.
        destruct (IH n c6 (set_mem w3 m2) obj (if first =? 0 then key else first) key ws' rest)
          as (b & c' & w' & El & Hy & Hn'); try assumption.
        - apply S6.
        - apply (input_below_steps B c c6 w _ Hin S6).
        - now right.
        - lia.
        - clear - Hn. len_lia.
        - rewrite mv_max_depth0, mv_depth0, Hmd5, Hd5. exact Hdep.
        - rewrite mv_max_depth0, mv_depth0, Hmd5, Hd5 in Hy, Hn'.
          exists b, c', w'. split; [exact El|]. rewrite within_limit_max. split.
          + intros [_ H2]. destruct (Hy H2) as [-> Hp']. split; [reflexivity|].
            clear - Hp' Hp6 Hp5 Hp4 Hp3. len_lia.
          + intros H. apply Hn'. tauto. }
      destruct (negb (Z.land (flags c5) JSON_PARSE_ALLOW_TRAILING =? 0)).
      * destruct (members_text_head _ _ He) as (t0 & Eit).
        rewrite Eit in Hr5. cbn [app] in Hr5.
        destruct (peek_spec _ c5 ws1 34 _ Hws1 eq_refl ltac:(lia) Hr5)
          as (c6 & Ep6 & M6 & Hp6 & Hr6).
        rewrite Ep6. cbn [Z.eqb Pos.eqb].
        apply (Hrec c6 []); [apply is_ws_nil | exact M6 | | cbn [length]; lia].
        cbn [app]. rewrite Eit. exact Hr6.
      * apply (Hrec c5 ws1); [assumption | apply moves_refl | exact Hr5 | lia].
    + destruct (Hno Hlim) as [-> Hcode]. cbn [Z.eqb].
      eexists; eexists; eexists. split; [reflexivity|].
      rewrite within_limit_max. split; [tauto|].
      intros _. split; [reflexivity | exact Hcode].
Qed.

(** The common entry of the two container parsers, up to the first look into
    the brackets: the bracket is consumed, the depth is checked and raised,
    the node is allocated and tagged. *)
Lemma container_entry (B : Z) (c : parser_ctx) (w : world) (open tag : Z) (body : list Z) :
  ctx_ok B c w -> input_below B c -> is_ws_byte open = false -> 0 <= tag < 16 ->
  remaining w c (open :: body) ->
  exists c1, consume w c open = (true, c1) /\
    max_depth c1 = max_depth c /\ depth c1 = depth c /\
    (((max_depth c1 >? 0) && (depth c1 >=? max_depth c1)) = true ->
       forall d, ~ within_limit (max_depth c) (depth c) (S d)) /\
    (((max_depth c1 >? 0) && (depth c1 >=? max_depth c1)) = false ->
       (forall d, within_limit (max_depth c) (depth c + 1) d <->
                  within_limit (max_depth c) (depth c) (S d)) /\
       (max_depth c <= 0 \/ depth c + 1 <= max_depth c) /\
       forall node d1 w1,
         arena_alloc_val (doc (set_depth c1 (depth c1 + 1))) w = (node, d1, w1) ->
         let c3 := set_doc (set_depth c1 (depth c1 + 1)) d1 in
         let w2 := set_mem w1 (val_set_type (mem w1) node tag) in
         B <= node /\ node <> 0 /\ steps B c w c3 w2 /\ depth c3 = depth c + 1 /\
         pos c3 = pos c + 1 /\ remaining w2 c3 body).
Proof.
  intros Hc Hin Hopen Htag Hr.
  pose proof (co_pos _ _ _ Hc) as Hpos.
  pose proof (ok_B _ _ _ (co_doc _ _ _ Hc)) as HB0.
  destruct (consume_spec w c [] open body is_ws_nil Hopen ltac:(lia) Hr)
    as (c1 & Ec & M1 & Hp1 & Hr1).
  cbn [length] in Hp1.
  exists c1. split; [exact Ec|].
  pose proof M1 as [_ _ _ Emd _ Edp _ _].
  split; [exact Emd|]. split; [exact Edp|]. split.
  - intros Hchk d. rewrite Emd, Edp in Hchk. apply andb_prop in Hchk as [H1 H2].
    apply Z.gtb_lt in H1. apply Z.geb_le in H2. unfold within_limit. lia.
  - intros Hchk. rewrite Emd, Edp in Hchk.
    assert (Hroom : max_depth c <= 0 \/ depth c + 1 <= max_depth c).
    { apply andb_false_iff in Hchk as [H|H].
      - left. destruct (Z.gtb_spec (max_depth c) 0); [discriminate | lia].
      - right. destruct (Z.geb_spec (depth c) (max_depth c)); [discriminate | lia]. }
    split; [intros d; unfold within_limit; lia|]. split; [exact Hroom|].
    intros node d1 w1 Ea c3 w2.
    assert (S1 : steps B c w c1 w) by (apply steps_moves; assumption).
    assert (S2 : steps B c w (set_depth c1 (depth c1 + 1)) w).
    { eapply steps_trans; [exact S1 | apply steps_set_depth, S1]. }
    destruct (steps_alloc_val B _ _ _ _ _ ltac:(apply S2) Ea) as (S3 & HBn & P3).
    assert (S4 : steps B c w c3 w2).
    { eapply steps_trans; [exact S2|]. eapply steps_trans; [exact S3|].
      apply steps_set_mem; [apply S3|]. apply val_set_type_below. exact HBn. }
    split; [exact HBn|]. split; [lia|]. split; [exact S4|].
    split; [cbn; lia|]. split; [cbn; lia|].
    apply (remaining_steps B w w2 c c3 [open] body Hr Hin S4); [cbn; lia | lia].
Qed.

Lemma parse_array_empty_text (B : Z) (pv : parser Z) (n : nat)
    (c : parser_ctx) (w : world) (ws rest : list Z) :
  ctx_ok B c w -> input_below B c -> is_ws ws ->
  remaining w c ((91 :: ws ++ [93]) ++ rest) ->
  exists r c' w',
    parse_array pv n c w = Some (r, c', w') /\
    (within_limit (max_depth c) (depth c) 1 ->
       r <> 0 /\ pos c' = pos c + Z.of_nat (length (91 :: ws ++ [93]))) /\
    (~ within_limit (max_depth c) (depth c) 1 ->
       r = 0 /\ code (g_last_error w') = JSON_ERROR_DEPTH).
Proof.
  intros Hc Hin Hws Hr.
  reshape Hr (91 :: ws ++ 93 :: rest).
  destruct (container_entry B c w 91 JSON_ARRAY _ Hc Hin eq_refl ltac:(unfold JSON_ARRAY; lia) Hr)
    as (c1 & Ec & Emd & Edp & Hfull & Hroom).
  unfold parse_array. rewrite Ec. cbn [negb].
  destruct ((max_depth c1 >? 0) && (depth c1 >=? max_depth c1)) eqn:Echk.
  - eexists; eexists; eexists. split; [reflexivity|].
    split; [intros H; exfalso; exact (Hfull eq_refl 0%nat H)|].
    intros _. split; reflexivity.
  - destruct (Hroom eq_refl) as (Hiff & _ & Hnode).
    destruct (arena_alloc_val _ w) as [[arr d1] w1] eqn:Ea.
    destruct (Hnode arr d1 w1 eq_refl) as (HBa & Ha0 & S3 & Hd3 & Hp3 & Hr3).
    destruct (Z.eqb_spec arr 0) as [|_]; [contradiction|].
    pose proof (co_pos _ _ _ Hc) as Hpos.
    set (c3 := set_doc (set_depth c1 (depth c1 + 1)) d1) in *.
    set (w2 := set_mem w1 (val_set_type (mem w1) arr JSON_ARRAY)) in *.
    destruct (peek_spec w2 c3 ws 93 rest Hws eq_refl ltac:(lia) Hr3)
      as (c4 & Ep & M4 & Hp4 & Hr4).
    rewrite Ep. cbn [Z.eqb Pos.eqb].
    destruct (consume_spec _ c4 [] 93 rest is_ws_nil eq_refl ltac:(lia) Hr4)
      as (c5 & Ec5 & M5 & Hp5 & Hr5).
    rewrite Ec5. cbn [snd].
    eexists; eexists; eexists. split; [reflexivity|]. split.
    + intros _. split; [assumption|]. cbn [pos set_depth]. clear - Hp3 Hp4 Hp5. len_lia.
    + intros H. exfalso. apply H. apply Hiff. unfold within_limit. lia.
Qed.

Lemma parse_array_text (B : Z) (pv : parser Z) (F : Z) (n : nat)
    (c : parser_ctx) (w : world) (ws : list Z) (d : nat) (items rest : list Z) :
  parser_ok B pv -> parses_values pv F ->
  ctx_ok B c w -> input_below B c -> is_ws ws -> elements_text d items ->
  remaining w c ((91 :: ws ++ items ++ [93]) ++ rest) ->
  len c - pos c <= F -> (length items < n)%nat ->
  exists r c' w',
    parse_array pv n c w = Some (r, c', w') /\
    (within_limit (max_depth c) (depth c) (S d) ->
       r <> 0 /\ pos c' = pos c + Z.of_nat (length (91 :: ws ++ items ++ [93]))) /\
    (~ within_limit (max_depth c) (depth c) (S d) ->
       r = 0 /\ code (g_last_error w') = JSON_ERROR_DEPTH).
Proof.
  intros Hok Hpv Hc Hin Hws He Hr HF Hn.
  reshape Hr (91 :: ws ++ items ++ 93 :: rest).
  destruct (container_entry B c w 91 JSON_ARRAY _ Hc Hin eq_refl ltac:(unfold JSON_ARRAY; lia) Hr)
    as (c1 & Ec & Emd & Edp & Hfull & Hroom).
  unfold parse_array. rewrite Ec. cbn [negb].
  destruct ((max_depth c1 >? 0) && (depth c1 >=? max_depth c1)) eqn:Echk.
  - eexists; eexists; eexists. split; [reflexivity|].
    split; [intros H; exfalso; exact (Hfull eq_refl d H)|].
    intros _. split; reflexivity.
  - destruct (Hroom eq_refl) as (Hiff & Hdep1 & Hnode).
    destruct (arena_alloc_val _ w) as [[arr d1] w1] eqn:Ea.
    destruct (Hnode arr d1 w1 eq_refl) as (HBa & Ha0 & S3 & Hd3 & Hp3 & Hr3).
    destruct (Z.eqb_spec arr 0) as [|_]; [contradiction|].
    destruct (elements_text_head _ _ He) as (b0 & t0 & Eit & Hb0).
    destruct (value_start_facts b0 Hb0) as (Hnws & H93 & _).
    pose proof (co_pos _ _ _ Hc) as Hpos.
    set (c3 := set_doc (set_depth c1 (depth c1 + 1)) d1) in *.
    set (w2 := set_mem w1 (val_set_type (mem w1) arr JSON_ARRAY)) in *.
    pose proof Hr3 as Hr3'. rewrite Eit in Hr3'. cbn [app] in Hr3'.
    destruct (peek_spec w2 c3 ws b0 _ Hws Hnws ltac:(lia) Hr3')
      as (c4 & Ep & M4 & Hp4 & Hr4).
    rewrite Ep. destruct (Z.eqb_spec b0 93) as [|_]; [contradiction|].
    assert (S4 : steps B c w c4 w2).
    { eapply steps_trans; [exact S3 | apply steps_moves; [apply S3 | exact M4]]. }
    assert (E4 : max_depth c4 = max_depth c /\ depth c4 = depth c + 1 /\ len c4 = len c).
    { destruct S4, M4. repeat split; congruence. }
    destruct E4 as (Emd4 & Edp4 & Eln4).
    destruct (array_loop_text B pv F Hok Hpv d items He n c4 w2 arr 0 0 [] rest)
      as (b & c' & w' & El & Hyes & Hno).
    + apply S4.
    + apply (input_below_steps B c c4 w w2 Hin S4).
    + exact HBa.
    + now left.
    + apply is_ws_nil.
    + cbn [app]. rewrite Eit. exact Hr4.
    + lia.
    + exact Hn.
    + rewrite Emd4, Edp4. exact Hdep1.
    + rewrite Emd4, Edp4 in Hyes, Hno. rewrite El.
      destruct (within_limit_cases (max_depth c) (depth c) (S d)) as [Hlim|Hlim].
      * destruct (Hyes (proj2 (Hiff d) Hlim)) as [-> Hp'].
        eexists; eexists; eexists. split; [reflexivity|]. split; [|intros; contradiction].
        intros _. split; [assumption|]. cbn [pos set_depth length] in Hp' |- *.
        clear - Hp' Hp4 Hp3. len_lia.
      * assert (Hlim' : ~ within_limit (max_depth c) (depth c + 1) d).
        { intros H. apply Hlim. now apply Hiff. }
        destruct (Hno Hlim') as [-> Hcode].
        eexists; eexists; eexists. split; [reflexivity|]. split; [intros; contradiction|].
        intros _. split; [reflexivity | exact Hcode].
Qed.

Lemma parse_object_empty_text (B : Z) (pv : parser Z) (n : nat)
    (c : parser_ctx) (w : world) (ws rest : list Z) :
  ctx_ok B c w -> input_below B c -> is_ws ws ->
  remaining w c ((123 :: ws ++ [125]) ++ rest) ->
  exists r c' w',
    parse_object pv n c w = Some (r, c', w') /\
    (within_limit (max_depth c) (depth c) 1 ->
       r <> 0 /\ pos c' = pos c + Z.of_nat (length (123 :: ws ++ [125]))) /\
    (~ within_limit (max_depth c) (depth c) 1 ->
       r = 0 /\ code (g_last_error w') = JSON_ERROR_DEPTH).
Proof.
  intros Hc Hin Hws Hr.
  reshape Hr (123 :: ws ++ 125 :: rest).
  destruct (container_entry B c w 123 JSON_OBJECT _ Hc Hin eq_refl ltac:(unfold JSON_OBJECT; lia) Hr)
    as (c1 & Ec & Emd & Edp & Hfull & Hroom).
  unfold parse_object. rewrite Ec. cbn [negb].
  destruct ((max_depth c1 >? 0) && (depth c1 >=? max_depth c1)) eqn:Echk.
  - eexists; eexists; eexists. split; [reflexivity|].
    split; [intros H; exfalso; exact (Hfull eq_refl 0%nat H)|].
    intros _. split; reflexivity.
  - destruct (Hroom eq_refl) as (Hiff & _ & Hnode).
    destruct (arena_alloc_val _ w) as [[obj d1] w1] eqn:Ea.
    destruct (Hnode obj d1 w1 eq_refl) as (HBa & Ha0 & S3 & Hd3 & Hp3 & Hr3).
    destruct (Z.eqb_spec obj 0) as [|_]; [contradiction|].
    pose proof (co_pos _ _ _ Hc) as Hpos.
    set (c3 := set_doc (set_depth c1 (depth c1 + 1)) d1) in *.
    set (w2 := set_mem w1 (val_set_type (mem w1) obj JSON_OBJECT)) in *.
    destruct (peek_spec w2 c3 ws 125 rest Hws eq_refl ltac:(lia) Hr3)
      as (c4 & Ep & M4 & Hp4 & Hr4).
    rewrite Ep. cbn [Z.eqb Pos.eqb].
    destruct (consume_spec _ c4 [] 125 rest is_ws_nil eq_refl ltac:(lia) Hr4)
      as (c5 & Ec5 & M5 & Hp5 & Hr5).
    rewrite Ec5. cbn [snd].
    eexists; eexists; eexists. split; [reflexivity|]. split.
    + intros _. split; [assumption|]. cbn [pos set_depth]. clear - Hp3 Hp4 Hp5. len_lia.
    + intros H. exfalso. apply H. apply Hiff. unfold within_limit. lia.
Qed.

Lemma parse_object_text (B : Z) (pv : parser Z) (F : Z) (n : nat)
    (c : parser_ctx) (w : world) (ws : list Z) (d : nat) (items rest : list Z) :
  parser_ok B pv -> parses_values pv F ->
  ctx_ok B c w -> input_below B c -> is_ws ws -> members_text d items ->
  remaining w c ((123 :: ws ++ items ++ [125]) ++ rest) ->
  len c - pos c <= F -> (length items < n)%nat ->
  exists r c' w',
    parse_object pv n c w = Some (r, c', w') /\
    (within_limit (max_depth c) (depth c) (S d) ->
       r <> 0 /\ pos c' = pos c + Z.of_nat (length (123 :: ws ++ items ++ [125]))) /\
    (~ within_limit (max_depth c) (depth c) (S d) ->
       r = 0 /\ code (g_last_error w') = JSON_ERROR_DEPTH).
Proof.
  intros Hok Hpv Hc Hin Hws He Hr HF Hn.
  reshape Hr (123 :: ws ++ items ++ 125 :: rest).
  destruct (container_entry B c w 123 JSON_OBJECT _ Hc Hin eq_refl ltac:(unfold JSON_OBJECT; lia) Hr)
    as (c1 & Ec & Emd & Edp & Hfull & Hroom).
  unfold parse_object. rewrite Ec. cbn [negb].
  destruct ((max_depth c1 >? 0) && (depth c1 >=? max_depth c1)) eqn:Echk.
  - eexists; eexists; eexists. split; [reflexivity|].
    split; [intros H; exfalso; exact (Hfull eq_refl d H)|].
    intros _. split; reflexivity.
  - destruct (Hroom eq_refl) as (Hiff & Hdep1 & Hnode).
    destruct (arena_alloc_val _ w) as [[obj d1] w1] eqn:Ea.
    destruct (Hnode obj d1 w1 eq_refl) as (HBa & Ha0 & S3 & Hd3 & Hp3 & Hr3).
    destruct (Z.eqb_spec obj 0) as [|_]; [contradiction|].
    destruct (members_text_head _ _ He) as (t0 & Eit).
    pose proof (co_pos _ _ _ Hc) as Hpos.
    set (c3 := set_doc (set_depth c1 (depth c1 + 1)) d1) in *.
    set (w2 := set_mem w1 (val_set_type (mem w1) obj JSON_OBJECT)) in *.
    pose proof Hr3 as Hr3'. rewrite Eit in Hr3'. cbn [app] in Hr3'.
    destruct (peek_spec w2 c3 ws 34 _ Hws eq_refl ltac:(lia) Hr3')
      as (c4 & Ep & M4 & Hp4 & Hr4).
    rewrite Ep. cbn [Z.eqb Pos.eqb].
    assert (S4 : steps B c w c4 w2).
    { eapply steps_trans; [exact S3 | apply steps_moves; [apply S3 | exact M4]]. }
    assert (E4 : max_depth c4 = max_depth c /\ depth c4 = depth c + 1 /\ len c4 = len c).
    { destruct S4, M4. repeat split; congruence. }
    destruct E4 as (Emd4 & Edp4 & Eln4).
    destruct (object_loop_text B pv F Hok Hpv d items He n c4 w2 obj 0 0 [] rest)
      as (b & c' & w' & El & Hyes & Hno).
    + apply S4.
    + apply (input_below_steps B c c4 w w2 Hin S4).
    + exact HBa.
    + now left.
    + apply is_ws_nil.
    + cbn [app]. rewrite Eit. exact Hr4.
    + lia.
    + exact Hn.
    + rewrite Emd4, Edp4. exact Hdep1.
    + rewrite Emd4, Edp4 in Hyes, Hno. rewrite El.
      destruct (within_limit_cases (max_depth c) (depth c) (S d)) as [Hlim|Hlim].
      * destruct (Hyes (proj2 (Hiff d) Hlim)) as [-> Hp'].
        eexists; eexists; eexists. split; [reflexivity|]. split; [|intros; contradiction].
        intros _. split; [assumption|]. cbn [pos set_depth length] in Hp' |- *.
        clear - Hp' Hp4 Hp3. len_lia.
      * assert (Hlim' : ~ within_limit (max_depth c) (depth c + 1) d).
        { intros H. apply Hlim. now apply Hiff. }
        destruct (Hno Hlim') as [-> Hcode].
        eexists; eexists; eexists. split; [reflexivity|]. split; [intros; contradiction|].
        intros _. split; [reflexivity | exact Hcode].
Qed.

(** ** Values *)

Lemma number_start_dispatch (b : Z) :
  ((b =? 45) || isdigit b) = true ->
  (b =? 110) = false /\ (b =? 116) = false /\ (b =? 102) = false /\ (b =? 34) = false /\
  (b =? 91) = false /\ (b =? 123) = false.
Proof.
  unfold isdigit. rewrite orb_true_iff, andb_true_iff, Z.eqb_eq, !Z.leb_le.
  intros H. rewrite !Z.eqb_neq. lia.
Qed.

Lemma parse_value_text (fuel : nat) : parses_values (parse_value fuel) (Z.of_nat fuel).
Proof.
  induction fuel as [|f IH];
    intros B c w ws d v rest Hc Hin Hws Hv Hf Hr HF Hdep Hterm;
    pose proof (co_pos _ _ _ Hc) as Hpos.
  { destruct Hr as [Hl _]. lia. }
  cbn [parse_value].
  assert (Hpeek : forall b t, v = b :: t -> is_ws_byte b = false ->
            exists c0, peek w c = (b, c0) /\ moves c c0 /\
                       pos c0 = pos c + Z.of_nat (length ws) /\
                       remaining w c0 (v ++ rest) /\ ctx_ok B c0 w /\ input_below B c0 /\
                       max_depth c0 = max_depth c /\ depth c0 = depth c /\ len c0 = len c).
  { intros b t Ev Hb. subst v. cbn [app] in Hr.
    destruct (peek_spec w c ws b _ Hws Hb ltac:(lia) Hr) as (c0 & Ep & M0 & Hp0 & Hr0).
    exists c0. repeat (split; [assumption|]).
    assert (S0 : steps B c w c0 w) by (apply steps_moves; assumption).
    split; [apply S0|]. split; [apply (input_below_steps B c c0 w w Hin S0)|].
    destruct M0. auto. }
  assert (Hleaf : within_limit (max_depth c) (depth c) 0).
  { unfold within_limit. lia. }
  assert (Hdone : forall (g : parser_ctx -> world -> Z * parser_ctx * world) c0 n,
            pos c0 = pos c + Z.of_nat (length ws) ->
            (exists r c' w', g c0 w = (r, c', w') /\ r <> 0 /\ pos c' = pos c0 + Z.of_nat n) ->
            n = length v ->
            exists r c' w',
              Some (g c0 w) = Some (r, c', w') /\
              (within_limit (max_depth c) (depth c) 0 ->
                 r <> 0 /\ pos c' = pos c + Z.of_nat (length ws) + Z.of_nat (length v)) /\
              (~ within_limit (max_depth c) (depth c) 0 ->
                 r = 0 /\ code (g_last_error w') = JSON_ERROR_DEPTH)).
  { intros g c0 n Hp0 (r & c' & w' & E & Hr0 & Hp') ->.
    exists r, c', w'. rewrite E. split; [reflexivity|].
    split; [intros _; split; [assumption | lia] | intros H; contradiction]. }
  destruct Hv as [| | | t Ht | raw bs Hd | ws0 Hws0 | ws0 d items Hws0 He
                  | ws0 Hws0 | ws0 d items Hws0 He].
  - (* null *)
    destruct (Hpeek _ _ eq_refl eq_refl) as (c0 & Ep & M0 & Hp0 & Hr0 & Hc0 & _).
    rewrite Ep. cbn [Z.eqb Pos.eqb].
    apply (Hdone parse_null c0 4%nat Hp0); [|reflexivity].
    apply (parse_literal_ok B _ _ _ c0 w rest Hc0 Hr0).
  - (* true *)
    destruct (Hpeek _ _ eq_refl eq_refl) as (c0 & Ep & M0 & Hp0 & Hr0 & Hc0 & _).
    rewrite Ep. cbn [Z.eqb Pos.eqb].
    apply (Hdone parse_true c0 4%nat Hp0); [|reflexivity].
    apply (parse_literal_ok B _ _ _ c0 w rest Hc0 Hr0).
  - (* false *)
    destruct (Hpeek _ _ eq_refl eq_refl) as (c0 & Ep & M0 & Hp0 & Hr0 & Hc0 & _).
    rewrite Ep. cbn [Z.eqb Pos.eqb].
    apply (Hdone parse_false c0 5%nat Hp0); [|reflexivity].
    apply (parse_literal_ok B _ _ _ c0 w rest Hc0 Hr0).
  - (* a number *)
    destruct (number_text_head t Ht) as (b0 & t0 & Et & Hb0).
    destruct (number_start_dispatch b0 Hb0) as (E1 & E2 & E3 & E4 & E5 & E6).
    assert (Hnws : is_ws_byte b0 = false).
    { apply value_start_facts. unfold is_value_start.
      apply orb_true_iff in Hb0 as [H|H]; rewrite H; now rewrite ?orb_true_r. }
    destruct (Hpeek _ _ Et Hnws) as (c0 & Ep & M0 & Hp0 & Hr0 & Hc0 & Hin0 & _).
    rewrite Ep, E1, E2, E3, E4, E5, E6, Hb0.
    apply (Hdone parse_number c0 (length t) Hp0); [|reflexivity].
    apply (parse_number_ok B c0 w t rest Hc0 Hin0 Ht Hf Hr0).
    intros E. destruct (Hterm E Ht) as [T1 T2]. destruct M0 as [Mi Ml _ _ _ _ _ _].
    unfold terminated. rewrite Mi, Ml. split; assumption.
  - (* a string *)
    destruct (Hpeek _ _ eq_refl eq_refl) as (c0 & Ep & M0 & Hp0 & Hr0 & Hc0 & _).
    rewrite Ep. cbn [Z.eqb Pos.eqb].
    apply (Hdone parse_string c0 (length (34 :: raw ++ [34])) Hp0); [|reflexivity].
    apply (parse_string_ok B c0 w raw bs rest Hc0 Hd Hr0).
  - (* an empty array *)
    destruct (Hpeek _ _ eq_refl eq_refl)
      as (c0 & Ep & M0 & Hp0 & Hr0 & Hc0 & Hin0 & Emd & Edp & Eln).
    rewrite Ep. cbn [Z.eqb Pos.eqb].
    destruct (parse_array_empty_text B (parse_value f) f c0 w ws0 rest Hc0 Hin0 Hws0 Hr0)
      as (r & c' & w' & E & Hyes & Hno).
    rewrite Emd, Edp in Hyes, Hno.
    exists r, c', w'. split; [exact E|]. split; [|exact Hno].
    intros H. destruct (Hyes H) as [H1 H2]. split; [exact H1 | lia].
  - (* an array *)
    destruct (Hpeek _ _ eq_refl eq_refl)
      as (c0 & Ep & M0 & Hp0 & Hr0 & Hc0 & Hin0 & Emd & Edp & Eln).
    rewrite Ep. cbn [Z.eqb Pos.eqb].
    destruct (parse_array_text B (parse_value f) (Z.of_nat f) f c0 w ws0 d items rest
                (parse_value_steps B f) IH Hc0 Hin0 Hws0 He Hr0)
      as (r & c' & w' & E & Hyes & Hno).
    + lia.
    + destruct Hr0 as [Hl0 _]. clear - Hl0 HF Hp0 Eln Hpos. len_lia.
    + rewrite Emd, Edp in Hyes, Hno.
      exists r, c', w'. split; [exact E|]. split; [|exact Hno].
      intros H. destruct (Hyes H) as [H1 H2]. split; [exact H1 | lia].
  - (* an empty object *)
    destruct (Hpeek _ _ eq_refl eq_refl)
      as (c0 & Ep & M0 & Hp0 & Hr0 & Hc0 & Hin0 & Emd & Edp & Eln).
    rewrite Ep. cbn [Z.eqb Pos.eqb].
    destruct (parse_object_empty_text B (parse_value f) f c0 w ws0 rest Hc0 Hin0 Hws0 Hr0)
      as (r & c' & w' & E & Hyes & Hno).
    rewrite Emd, Edp in Hyes, Hno.
    exists r, c', w'. split; [exact E|]. split; [|exact Hno].
    intros H. destruct (Hyes H) as [H1 H2]. split; [exact H1 | lia].
  - (* an object *)
    destruct (Hpeek _ _ eq_refl eq_refl)
      as (c0 & Ep & M0 & Hp0 & Hr0 & Hc0 & Hin0 & Emd & Edp & Eln).
    rewrite Ep. cbn [Z.eqb Pos.eqb].
    destruct (parse_object_text B (parse_value f) (Z.of_nat f) f c0 w ws0 d items rest
                (parse_value_steps B f) IH Hc0 Hin0 Hws0 He Hr0)
      as (r & c' & w' & E & Hyes & Hno).
    + lia.
    + destruct Hr0 as [Hl0 _]. clear - Hl0 HF Hp0 Eln Hpos. len_lia.
    + rewrite Emd, Edp in Hyes, Hno.
      exists r, c', w'. split; [exact E|]. split; [|exact Hno].
      intros H. destruct (Hyes H) as [H1 H2]. split; [exact H1 | lia].
Qed.

(** ** Documents *)

Lemma follows_is_ws (ws : list Z) : is_ws ws -> follows ws.
Proof.
  intros [|b ws' Hb _]; [exact I|]. cbn [follows]. unfold is_delimiter. now rewrite Hb.
Qed.

Lemma last_behind (l1 l2 : list Z) (b : Z) :
  l2 <> [] -> List.last (l1 ++ l2) b = List.last l2 b.
Proof.
  intros H. induction l1 as [|a l1 IH]; [reflexivity|].
  cbn [app]. rewrite <- IH. cbn [List.last].
  destruct (l1 ++ l2) eqn:E; [|reflexivity].
  apply app_eq_nil in E as [_ E]. contradiction.
Qed.

Lemma number_text_last (t : list Z) : number_text t -> is_number_byte (List.last t 0) = true.
Proof.
  intros Ht. destruct (number_text_head t Ht) as (b0 & t0 & Et & _).
  destruct Ht as [sgn ip fp ep Hs Hi Hfp Hep _].
  pose proof (number_token_bytes sgn ip fp ep Hs Hi Hfp Hep) as Hall.
  rewrite List.Forall_forall in Hall. apply Hall.
  rewrite Et. destruct (exists_last (l := b0 :: t0) ltac:(discriminate)) as (l' & a & E).
  rewrite E, last_last. apply in_or_app. right. left. reflexivity.
Qed.

(** A text that ends in a number ends in a byte of a number. *)
Lemma number_ends_text (ws1 v : list Z) :
  number_text v -> is_number_byte (List.last (ws1 ++ v ++ []) 0) = true.
Proof.
  intros Hv. rewrite app_nil_r, last_behind; [now apply number_text_last|].
  destruct (number_text_head v Hv) as (b0 & t0 & -> & _). discriminate.
Qed.

(** [parse_json] on the text of a document: a document when the nesting fits
    the limit, [NULL] and the depth error when it does not.  When the text
    ends in a byte of a number, the byte behind the input is allocated and
    is not one. *)
Lemma parse_json_text (json : Z) (opts : option json_parse_options) (w : world)
    (d : nat) (text : list Z) :
  0 < json -> json + Z.of_nat (length text) <= brk w ->
  read_bytes (length text) (mem w) json = text -> document_text d text ->
  (is_number_byte (List.last text 0) = true -> ends_input json (Z.of_nat (length text)) w) ->
  let max_depth := match opts with Some o => opt_max_depth o | None => 0 end in
  exists r w',
    parse_json json (Z.of_nat (length text)) opts w = Some (r, w') /\
    (within_limit max_depth 0 d -> r <> None) /\
    (~ within_limit max_depth 0 d -> r = None /\ code (g_last_error w') = JSON_ERROR_DEPTH).
Proof.
  intros Hj Hb Hrd (ws1 & v & ws2 & Hws1 & Hv & Hws2 & Et) Hend maxd. unfold parse_json.
  set (len_ := Z.of_nat (length text)).
  set (n := if (len_ / 4 + 1) * sizeof_json_val <? 64 * 1024 then 64 * 1024
            else (len_ / 4 + 1) * sizeof_json_val).
  assert (Hn : 0 < n) by (subst n; destruct (Z.ltb_spec ((len_ / 4 + 1) * sizeof_json_val)
                                                         (64 * 1024)); lia).
  destruct (arena_create n w) as [rd w1] eqn:Ec.
  apply arena_create_ok in Ec as (d0 & -> & Hd0 & Hm1 & _); [|lia|assumption].
  set (c0 := mk_ctx json len_ 0 1 1 d0 _ _ 0).
  assert (Hc0 : ctx_ok (brk w) c0 w1) by (constructor; cbn; [assumption | lia]).
  assert (Hin0 : input_below (brk w) c0) by (split; cbn; lia).
  assert (Hr0 : remaining w1 c0 (ws1 ++ v ++ ws2)).
  { rewrite <- Et. split; [cbn; lia|]. cbn [input pos c0]. now rewrite Z.add_0_r, Hm1. }
  assert (Hterm : ws2 = [] -> number_text v -> terminated (brk w) w1 c0).
  { intros -> Hnum. rewrite Et in Hend. destruct (Hend (number_ends_text ws1 v Hnum)) as [T1 T2].
    rewrite <- Et in T1, T2. fold len_ in T1, T2.
    split; cbn [input len c0]; [exact T1 | now rewrite Hm1]. }
  destruct (parse_value_text (S (Z.to_nat len_)) (brk w) c0 w1 ws1 d v ws2 Hc0 Hin0 Hws1 Hv
              (follows_is_ws ws2 Hws2) Hr0)
    as (r & c1 & w2 & Ep & Hyes & Hno); [cbn; lia | cbn; lia | exact Hterm |].
  rewrite Ep. cbn [max_depth depth c0] in Hyes, Hno. fold maxd in Hyes, Hno.
  pose proof (parse_value_steps (brk w) _ c0 w1 r c1 w2 Hc0 Ep) as [S1 _].
  destruct (within_limit_cases maxd 0 d) as [Hlim|Hlim].
  - destruct (Hyes Hlim) as [Hr1 Hp1]. destruct (Z.eqb_spec r 0) as [|_]; [contradiction|].
    set (d1 := mk_doc _ _ _ _ _ _ r _ _).
    assert (S2 : steps (brk w) c0 w1 (set_doc c1 d1) w2).
    { destruct S1 as [[Hdoc Hps] ? ? ? ? ? ?]. constructor; cbn; try assumption.
      constructor; cbn; [|assumption]. destruct Hdoc. constructor; assumption. }
    assert (Hr2 : remaining w2 (set_doc c1 d1) (ws2 ++ [])).
    { rewrite app_nil_r.
      apply (remaining_steps2 (brk w) w1 w2 c0 _ ws1 v ws2 Hr0 Hin0 S2);
        [cbn [pos set_doc]; exact Hp1 | cbn; lia]. }
    destruct (skip_ws_spec w2 _ ws2 [] Hws2 Hr2 I) as [_ Hp2].
    destruct Hr2 as [Hl2 _]. rewrite length_app in Hl2. cbn [length] in Hl2.
    destruct (Z.ltb_spec (pos (skip_ws w2 (set_doc c1 d1))) (len (skip_ws w2 (set_doc c1 d1))))
      as [Hlt|_].
    + pose proof (skip_ws_moves w2 (set_doc c1 d1)) as []. lia.
    + eexists; eexists. split; [reflexivity|]. split; [discriminate | intros; contradiction].
  - destruct (Hno Hlim) as [-> Hcode]. cbn [Z.eqb].
    eexists; eexists. split; [reflexivity|]. split; [intros; contradiction|].
    intros _. split; [reflexivity|].
    now rewrite (proj2 (arena_destroy_mem _ _)).
Qed.



(** ** Integers beyond 60 bits *)

(** C1: an integer literal outside the signed 60-bit range should become a
    Float.  The literal 2^59 = 576460752303423488 has no fraction and no
    exponent and lies outside [-2^59, 2^59 - 1], yet the parser stores it as
    an Int whose 60-bit payload reads back as -2^59. *)
Theorem C1_int_2_pow_59_is_truncated :
  match parse_text (bytes_of_string "576460752303423488") None with
  | Some (Some d, w) =>
      json_is_int (mem w) (root d) = true /\
      json_is_float (mem w) (root d) = false /\
      json_get_int (mem w) (root d) = - 2 ^ 59
  | _ => False
  end.
Proof. vm_compute. repeat split; reflexivity. Qed.

(** ** Arena growth *)

(** C2: node references should survive arena growth.  The array of 2730
    ones has 2731 nodes; the arena of 65536 bytes holds 2730.  The parse is
    accepted, the arena has moved, and the root stored in the document is the
    address of the array node in the released block, outside the arena the
    document now owns. *)
Theorem C2_root_dangles_after_growth :
  match parse_text (array_of_ones 2730) None with
  | Some (Some d, w) =>
      in_live_block w (root d) = false /\
      (root d <? arena d) = true /\
      in_live_block w (arena d) = true /\
      in_live_block w (child (mem w) (arena d)) = false
  | _ => False
  end.
Proof. vm_compute. repeat split; reflexivity. Qed.

(** ** Kernels *)

(** C3: a SIMD variant should return what the scalar reference returns.  On
    seventeen bytes whose last one is a bracket, the scalar kernel reports 17
    bytes and bit 16, the NEON kernel 16 bytes and an empty mask; on a lone
    minus sign the scalar integer kernel consumes one byte and the NEON one
    none. *)
Theorem C3_neon_differs_from_scalar :
  find_structural_scalar (repeat 97 16 ++ [91]) 17 = (17, 2 ^ 16) /\
  find_structural_neon (repeat 97 16 ++ [91]) 17 = (16, 0) /\
  parse_int_scalar [45] 1 = (0, 1) /\
  parse_int_neon [45] 1 = (0, 0).
Proof. repeat split; vm_compute; reflexivity. Qed.

(** ** Round trip *)

(** C4: parse, stringify, parse should give a value equal to the first parse.
    The literal 10^309 overflows [strtoll] and then [strtod]; the fallback
    stores the infinity without looking at [errno], the serializer prints it
    as null, and the second parse yields Null, which [json_equals] tells
    apart from the Float. *)
Theorem C4_round_trip_fails_on_huge_integer :
  round_trip 10 (power_of_ten_text 309) = Some (Some false).
Proof. vm_compute; reflexivity. Qed.

(** ** Accessors *)

Lemma count_siblings_spec (m : gmap Z Z) (l : list Z) :
  forall p acc, siblings m p l ->
    count_siblings (S (length l)) m p acc = Some (acc + Z.of_nat (length l)).
Proof.
  induction l as [|x t IH]; intros p acc H.
  - simpl in H. subst p. simpl. f_equal. lia.
  - destruct H as (-> & Hx & Ht).
    change (count_siblings (S (length (x :: t))) m x acc)
      with (if x =? 0 then Some acc else count_siblings (S (length t)) m (next m x) (acc + 1)).
    destruct (Z.eqb_spec x 0) as [|_]; [contradiction|].
    rewrite (IH _ _ Ht). f_equal. simpl length. lia.
Qed.


Lemma arr_get_loop_past_end (m : gmap Z Z) (l : list Z) :
  forall n p i index, siblings m p l ->
    i + Z.of_nat (length l) <= index -> (length l <= n)%nat ->
    arr_get_loop n m p i index = 0.
Proof.
  induction l as [|x t IH]; intros n p i index H Hi Hn.
  - simpl in H. subst p. destruct n; reflexivity.
  - destruct H as (-> & Hx & Ht). simpl length in *.
    destruct n as [|n]; [lia|]. simpl.
    destruct (Z.eqb_spec x 0) as [|_]; [contradiction|].
    destruct (Z.ltb_spec i index); [|lia]. simpl.
    apply (IH n); [exact Ht| lia | lia].
Qed.




(** ** Equality *)

(** C9: [json_equals] answers true on identical references, the NULL
    reference included, and false when exactly one side is NULL. *)
Theorem C9_json_equals_reflexive_null_edge (fuel : nat) (m : gmap Z Z) (v w : Z) :
  json_equals (S fuel) m v v = Some true /\
  json_equals (S fuel) m 0 0 = Some true /\
  (w <> 0 -> json_equals (S fuel) m 0 w = Some false /\
             json_equals (S fuel) m w 0 = Some false).
Proof.
  split; [|split].
  - simpl. now rewrite Z.eqb_refl.
  - reflexivity.
  - intros Hw. destruct w as [|p|p]; [contradiction| |]; split; reflexivity.
Qed.

Lemma C9_json_equals_witness :
  json_equals 1 ∅ 64 64 = Some true /\
  json_equals 1 ∅ 0 64 = Some false /\
  json_equals 1 ∅ 64 0 = Some false.
Proof.
  destruct (C9_json_equals_reflexive_null_edge 0 ∅ 64 64) as (H1 & _ & H2).
  split; [exact H1|]. apply H2. discriminate.
Defined.

(** * Kernels *)

(** ** [scan_string] *)

Lemma first_stop_unique (str : list Z) (len_ i r1 r2 : Z) :
  first_stop str len_ i r1 -> first_stop str len_ i r2 -> r1 = r2.
Proof.
  intros (H1 & N1 & S1) (H2 & N2 & S2).
  destruct (Z.lt_trichotomy r1 r2) as [H|[H|H]]; [|assumption|].
  - rewrite N2 in S1 by lia. specialize (S1 ltac:(lia)). discriminate.
  - rewrite N1 in S2 by lia. specialize (S2 ltac:(lia)). discriminate.
Qed.

Lemma scan_from_spec (str : list Z) (len_ : Z) (n : nat) :
  forall i, i <= len_ -> len_ - i <= Z.of_nat n ->
    first_stop str len_ i (scan_from n str len_ i).
Proof.
  induction n as [|n IH]; intros i Hi Hn; cbn [scan_from].
  - assert (i = len_) by lia. subst i. repeat split; intros; lia.
  - destruct (Z.ltb_spec i len_) as [Hlt|Hge].
    + destruct (is_stop_byte (byte_at str i)) eqn:Es.
      * repeat split; try lia. intros _. exact Es.
      * destruct (IH (i + 1)) as (H1 & N1 & S1); [lia | lia |].
        repeat split; try lia; [|exact S1].
        intros j Hj. destruct (Z.eq_dec j i) as [->|]; [exact Es | apply N1; lia].
    + assert (i = len_) by lia. subst i. repeat split; intros; lia.
Qed.

(** X1: [scan_string_scalar] returns the index of the first byte of the slice
    that is a quote, a backslash or a control byte below 0x20, and the length
    of the slice when it has no such byte: no byte before the returned index is
    one of these, and the byte at a returned index inside the slice is one. *)
Theorem scan_string_scalar_first_stop (str : list Z) (len_ : Z) :
  0 <= len_ ->
  let r := scan_string_scalar str len_ in
  0 <= r <= len_ /\
  (forall j, 0 <= j < r ->
     byte_at str j <> 34 /\ byte_at str j <> 92 /\ 0x20 <= byte_at str j) /\
  (r < len_ -> byte_at str r = 34 \/ byte_at str r = 92 \/ byte_at str r < 0x20).
Proof.
  intros Hl r.
  destruct (scan_from_spec str len_ (Z.to_nat len_) 0) as (H1 & N1 & S1); [lia | lia |].
  fold (scan_string_scalar str len_) in H1, N1, S1. fold r in H1, N1, S1.
  split; [exact H1|]. split.
  - intros j Hj. specialize (N1 j Hj). unfold is_stop_byte in N1.
    rewrite !orb_false_iff, !Z.eqb_neq, Z.ltb_ge in N1. lia.
  - intros Hr. specialize (S1 Hr). unfold is_stop_byte in S1.
    rewrite !orb_true_iff, !Z.eqb_eq, Z.ltb_lt in S1. lia.
Qed.

Lemma scan_string_scalar_first_stop_witness :
  let r := scan_string_scalar [104; 105; 34; 120] 4 in
  0 <= r <= 4 /\
  (forall j, 0 <= j < r ->
     byte_at [104; 105; 34; 120] j <> 34 /\ byte_at [104; 105; 34; 120] j <> 92 /\
     0x20 <= byte_at [104; 105; 34; 120] j) /\
  (r < 4 -> byte_at [104; 105; 34; 120] r = 34 \/ byte_at [104; 105; 34; 120] r = 92 \/
            byte_at [104; 105; 34; 120] r < 0x20).
Proof. apply (scan_string_scalar_first_stop [104; 105; 34; 120] 4). lia. Defined.

(** *** The NEON variant *)

Lemma stop_lane (x : Z) :
  Z.lor (Z.lor (if x =? 34 then 0xFF else 0) (if x =? 92 then 0xFF else 0))
        (if x <? 0x20 then 0xFF else 0)
  = if is_stop_byte x then 0xFF else 0.
Proof. unfold is_stop_byte. destruct (x =? 34), (x =? 92), (x <? 32); reflexivity. Qed.

Lemma chunk_match_lanes (str : list Z) (p : Z) :
  chunk_match str p =
    lanes (map (fun i => is_stop_byte (byte_at str (p + Z.of_nat i))) (seq 0 16)).
Proof.
  unfold chunk_match, vld1q_u8, vceqq_u8, vcltq_u8, vorrq_u8, vdupq_n_u8, lanes.
  cbn [seq map repeat zip_with]. rewrite !stop_lane. reflexivity.
Qed.

(** The two byte loops over the halves of the match vector find the first
    lane that is set. *)
Lemma first_set_byte_lanes (b0 b1 b2 b3 b4 b5 b6 b7 : bool) :
  let x := le_value (lanes [b0; b1; b2; b3; b4; b5; b6; b7]) in
  (if negb (x =? 0) then first_set_byte 8 x 0 else None)
  = first_true [b0; b1; b2; b3; b4; b5; b6; b7] 0.
Proof.
  destruct b0, b1, b2, b3, b4, b5, b6, b7; vm_compute; reflexivity.
Qed.

Ltac stop_free j :=
  repeat match goal with
         | H : is_stop_byte (byte_at ?s ?a) = false
           |- is_stop_byte (byte_at ?s j) = false =>
             destruct (Z.eq_dec j a) as [->|]; [exact H|]; clear H
         end;
  exfalso; lia.

Ltac stop_found :=
  repeat split;
  [ lia | lia | intros j Hj; stop_free j
  | intros _;
    match goal with
    | E : is_stop_byte (byte_at ?s ?a) = true |- is_stop_byte (byte_at ?s ?b) = true =>
        replace b with a by lia; exact E
    end ].

Ltac half_lanes :=
  match goal with
  | |- context [le_value [if ?a0 then _ else _; if ?a1 then _ else _;
                          if ?a2 then _ else _; if ?a3 then _ else _;
                          if ?a4 then _ else _; if ?a5 then _ else _;
                          if ?a6 then _ else _; if ?a7 then _ else _]] =>
      let H := fresh "H" in
      pose proof (first_set_byte_lanes a0 a1 a2 a3 a4 a5 a6 a7) as H;
      cbv zeta in H; unfold lanes in H; cbn [map] in H; rewrite H; clear H
  end.

Lemma scan_chunks_spec (str : list Z) (len_ : Z) (n : nat) :
  forall p, 0 <= p <= len_ -> first_stop str len_ p (scan_chunks n str len_ p).
Proof.
  induction n as [|n IH]; intros p Hp; cbn [scan_chunks].
  - apply scan_from_spec; lia.
  - destruct (Z.leb_spec (p + 16) len_) as [Hfit|_]; [|apply scan_from_spec; lia].
    cbv zeta. rewrite chunk_match_lanes. cbn [seq map]. unfold vgetq_lane_u64.
    cbn [Nat.mul Nat.add firstn skipn lanes map].
    half_lanes. half_lanes.
    cbn [first_true Z.of_nat Pos.of_succ_nat Pos.succ].
    repeat match goal with
           | |- context [if is_stop_byte (byte_at str ?a) then _ else _] =>
               let E := fresh "E" in
               destruct (is_stop_byte (byte_at str a)) eqn:E; [stop_found|]
           end.
    destruct (IH (p + 16)) as (H1 & N1 & S1); [lia|].
    repeat split; [lia | lia | | exact S1].
    intros j Hj. destruct (Z_lt_le_dec j (p + 16)); [stop_free j | apply N1; lia].
Qed.

(** X2: the NEON variant of [scan_string], which tests sixteen bytes at a
    time and finishes byte by byte, returns what the scalar one returns, on
    every slice. *)
Theorem scan_string_neon_agrees (str : list Z) (len_ : Z) :
  0 <= len_ -> scan_string_neon str len_ = scan_string_scalar str len_.
Proof.
  intros Hl. apply (first_stop_unique str len_ 0).
  - unfold scan_string_neon. destruct (Z.eqb_spec len_ 0) as [->|_].
    + repeat split; intros; lia.
    + apply scan_chunks_spec. lia.
  - apply scan_from_spec; lia.
Qed.

Lemma scan_string_neon_agrees_witness :
  scan_string_neon (repeat 97 20 ++ [92; 110; 34]) 23
  = scan_string_scalar (repeat 97 20 ++ [92; 110; 34]) 23.
Proof. apply (scan_string_neon_agrees (repeat 97 20 ++ [92; 110; 34]) 23). lia. Defined.

(** ** [find_structural] *)

Lemma bit_of (i j : Z) :
  0 <= i < 64 -> 0 <= j -> Z.testbit (u64 (Z.shiftl 1 i)) j = (j =? i).
Proof.
  intros Hi Hj. unfold u64. rewrite Z.shiftl_1_l.
  rewrite Z.mod_small by (split; [apply Z.pow_nonneg; lia | apply Z.pow_lt_mono_r; lia]).
  rewrite Z.pow2_bits_eqb by lia. apply Z.eqb_sym.
Qed.

Lemma structural_from_bits (str : list Z) (count : Z) (n : nat) :
  forall i m, 0 <= i -> count <= 64 -> count - i <= Z.of_nat n ->
    forall j, 0 <= j ->
      Z.testbit (structural_from n str count i m) j =
        if j <? i then Z.testbit m j
        else Z.testbit m j || ((j <? count) && is_structural (byte_at str j)).
Proof.
  induction n as [|n IH]; intros i m Hi Hc Hn j Hj; cbn [structural_from].
  - destruct (Z.ltb_spec j i); [reflexivity|].
    destruct (Z.ltb_spec j count); [lia|]. now rewrite orb_false_r.
  - destruct (Z.ltb_spec i count) as [Hlt|Hge].
    + rewrite IH by lia.
      destruct (Z.ltb_spec j (i + 1)); destruct (Z.ltb_spec j i); try lia.
      * destruct (is_structural (byte_at str i)); [|reflexivity].
        rewrite Z.lor_spec, bit_of by lia. destruct (Z.eqb_spec j i); [lia|].
        now rewrite orb_false_r.
      * assert (j = i) by lia. subst j.
        destruct (Z.ltb_spec i count); [|lia]. cbn [andb].
        destruct (is_structural (byte_at str i)); [|now rewrite orb_false_r].
        rewrite Z.lor_spec, bit_of by lia. now rewrite Z.eqb_refl, !orb_true_r.
      * destruct (is_structural (byte_at str i)); [|reflexivity].
        rewrite Z.lor_spec, bit_of by lia. destruct (Z.eqb_spec j i); [lia|].
        now rewrite orb_false_r.
    + destruct (Z.ltb_spec j i); [reflexivity|].
      destruct (Z.ltb_spec j count); [lia|]. now rewrite orb_false_r.
Qed.

(** X3: the scalar [find_structural] looks at the first [min(len, 64)] bytes and
    sets bit [j] of the mask exactly when byte [j] is a brace, a bracket, a
    colon, a comma or a quote; the NEON variant looks at the first [min(len, 16)]
    bytes, so that its mask is the low sixteen bits of the scalar one. *)
Theorem find_structural_masks (str : list Z) (len_ : Z) :
  0 <= len_ ->
  let scalar := find_structural_scalar str len_ in
  let neon := find_structural_neon str len_ in
  fst scalar = Z.min len_ 64 /\
  (forall j, 0 <= j ->
     Z.testbit (snd scalar) j = (j <? Z.min len_ 64) && is_structural (byte_at str j)) /\
  fst neon = Z.min len_ 16 /\
  snd neon = snd scalar mod 2 ^ 16 /\
  (len_ <= 16 -> neon = scalar).
Proof.
  intros Hl scalar neon.
  assert (Hs : fst scalar = Z.min len_ 64 /\
               forall j, 0 <= j ->
                 Z.testbit (snd scalar) j =
                   (j <? Z.min len_ 64) && is_structural (byte_at str j)).
  { unfold scalar, find_structural_scalar. cbn [fst snd].
    assert (E : (if len_ <? 64 then len_ else 64) = Z.min len_ 64)
      by (destruct (Z.ltb_spec len_ 64); lia).
    rewrite E. split; [reflexivity|]. intros j Hj.
    rewrite structural_from_bits by lia.
    destruct (Z.ltb_spec j 0); [lia|]. now rewrite Z.bits_0. }
  assert (Hn : fst neon = Z.min len_ 16 /\
               forall j, 0 <= j ->
                 Z.testbit (snd neon) j =
                   (j <? Z.min len_ 16) && is_structural (byte_at str j)).
  { unfold neon, find_structural_neon. destruct (Z.eqb_spec len_ 0) as [->|Hne].
    - cbn [fst snd]. split; [reflexivity|]. intros j Hj. rewrite Z.bits_0.
      destruct (Z.ltb_spec j (Z.min 0 16)); [lia | reflexivity].
    - cbn [fst snd].
      assert (E : (if len_ <? 16 then len_ else 16) = Z.min len_ 16)
        by (destruct (Z.ltb_spec len_ 16); lia).
      rewrite E. split; [reflexivity|]. intros j Hj.
      rewrite structural_from_bits by lia.
      destruct (Z.ltb_spec j 0); [lia|]. now rewrite Z.bits_0. }
  destruct Hs as [Hs1 Hs2], Hn as [Hn1 Hn2].
  assert (Hlow : snd neon = snd scalar mod 2 ^ 16).
  { apply Z.bits_inj'. intros j Hj. rewrite Hn2 by assumption.
    destruct (Z.ltb_spec j 16).
    - rewrite Z.mod_pow2_bits_low, Hs2 by lia.
      destruct (Z.ltb_spec j (Z.min len_ 16)), (Z.ltb_spec j (Z.min len_ 64));
        try lia; reflexivity.
    - rewrite Z.mod_pow2_bits_high by lia.
      destruct (Z.ltb_spec j (Z.min len_ 16)); [lia | reflexivity]. }
  repeat (split; [assumption|]).
  intros H16. destruct scalar as [c1 m1], neon as [c2 m2]. cbn [fst snd] in *.
  f_equal; [lia|]. apply Z.bits_inj'. intros j Hj. rewrite Hn2, Hs2 by assumption.
  replace (Z.min len_ 16) with (Z.min len_ 64) by lia. reflexivity.
Qed.

Lemma find_structural_masks_witness :
  let scalar := find_structural_scalar [123; 34; 97; 34; 58; 49; 125] 7 in
  let neon := find_structural_neon [123; 34; 97; 34; 58; 49; 125] 7 in
  fst scalar = Z.min 7 64 /\
  (forall j, 0 <= j ->
     Z.testbit (snd scalar) j =
       (j <? Z.min 7 64) && is_structural (byte_at [123; 34; 97; 34; 58; 49; 125] j)) /\
  fst neon = Z.min 7 16 /\
  snd neon = snd scalar mod 2 ^ 16 /\
  (7 <= 16 -> neon = scalar).
Proof. apply (find_structural_masks [123; 34; 97; 34; 58; 49; 125] 7). lia. Defined.

(** ** [parse_int] *)

Lemma byte_at_middle (pre : list Z) (x : Z) (t : list Z) :
  byte_at (pre ++ x :: t) (Z.of_nat (length pre)) = x.
Proof. unfold byte_at. rewrite Nat2Z.id. apply nth_middle. Qed.

Lemma digit_test (d : Z) : 48 <= d <= 57 -> ((48 <=? d) && (d <=? 57)) = true.
Proof. intros H. apply andb_true_iff. split; apply Z.leb_le; lia. Qed.

(** The test of the digit loops at the end of the digits. *)
Lemma digit_test_end (pre rest : list Z) :
  next_is (fun b => isdigit b = false) rest ->
  ((Z.of_nat (length pre) <? Z.of_nat (length (pre ++ rest))) &&
   (48 <=? byte_at (pre ++ rest) (Z.of_nat (length pre))) &&
   (byte_at (pre ++ rest) (Z.of_nat (length pre)) <=? 57)) = false.
Proof.
  intros Hn. destruct rest as [|b rest].
  - rewrite app_nil_r, Z.ltb_irrefl. reflexivity.
  - rewrite byte_at_middle. cbn in Hn. unfold isdigit in Hn.
    rewrite <- andb_assoc, Hn. apply andb_false_r.
Qed.

Lemma digits_from_spec (ds : list Z) :
  all_digits ds ->
  forall n pre rest acc,
    next_is (fun b => isdigit b = false) rest -> (length ds <= n)%nat ->
    digits_from n (pre ++ ds ++ rest) (Z.of_nat (length (pre ++ ds ++ rest)))
      (Z.of_nat (length pre)) acc
    = (fold_left int64_step ds acc, Z.of_nat (length pre) + Z.of_nat (length ds)).
Proof.
  induction 1 as [|d ds Hd Hds IH]; intros n pre rest acc Hrest Hn.
  - cbn [app length fold_left Z.of_nat]. rewrite Z.add_0_r.
    destruct n as [|n]; cbn [digits_from]; [reflexivity|].
    now rewrite digit_test_end.
  - destruct n as [|n]; [cbn in Hn; lia|]. cbn [digits_from].
    cbn [app]. rewrite byte_at_middle, length_app. cbn [length].
    destruct (Z.ltb_spec (Z.of_nat (length pre))
                (Z.of_nat (length pre + S (length (ds ++ rest))))); [|lia].
    cbn [andb]. rewrite (digit_test d Hd).
    specialize (IH n (pre ++ [d]) rest (int64_step acc d) Hrest ltac:(cbn in Hn; lia)).
    rewrite <- !app_assoc in IH. cbn [app] in IH.
    rewrite !length_app in IH. cbn [length] in IH.
    replace (Z.of_nat (length pre) + 1) with (Z.of_nat (length pre + 1)) by lia.
    rewrite IH. cbn [fold_left]. f_equal. lia.
Qed.

Lemma count_digits_spec (ds : list Z) :
  all_digits ds ->
  forall n sgn seen rest,
    next_is (fun b => isdigit b = false) rest -> (length ds <= n)%nat ->
    (length seen + length ds <= 19)%nat ->
    count_digits n (sgn ++ seen ++ ds ++ rest)
      (Z.of_nat (length (sgn ++ seen ++ ds ++ rest)))
      (Z.of_nat (length sgn)) (Z.of_nat (length seen))
    = Z.of_nat (length seen) + Z.of_nat (length ds).
Proof.
  induction 1 as [|d ds Hd Hds IH]; intros n sgn seen rest Hrest Hn H19.
  - cbn [app length Z.of_nat]. rewrite Z.add_0_r.
    destruct n as [|n]; cbn [count_digits]; [reflexivity|].
    replace (Z.of_nat (length sgn) + Z.of_nat (length seen))
      with (Z.of_nat (length (sgn ++ seen))) by (rewrite length_app; lia).
    rewrite (app_assoc sgn seen rest). now rewrite digit_test_end.
  - destruct n as [|n]; [cbn in Hn; lia|]. cbn [count_digits].
    replace (Z.of_nat (length sgn) + Z.of_nat (length seen))
      with (Z.of_nat (length (sgn ++ seen))) by (rewrite length_app; lia).
    rewrite (app_assoc sgn seen). cbn [app]. rewrite byte_at_middle.
    destruct (Z.ltb_spec (Z.of_nat (length (sgn ++ seen)))
                (Z.of_nat (length ((sgn ++ seen) ++ d :: ds ++ rest))));
      [|rewrite !length_app in *; cbn [length] in *; lia].
    cbn [andb]. rewrite (digit_test d Hd). cbv zeta.
    destruct (Z.geb_spec (Z.of_nat (length seen) + 1) 19) as [Hfull|Hmore].
    + cbn [length] in H19 |- *. assert (length ds = 0%nat) by lia. lia.
    + specialize (IH n sgn (seen ++ [d]) rest Hrest ltac:(cbn in Hn; lia)
                   ltac:(rewrite length_app; cbn [length] in *; lia)).
      rewrite <- !app_assoc in IH |- *. cbn [app] in IH.
      replace (length (seen ++ [d])) with (length seen + 1)%nat in IH
        by (rewrite length_app; reflexivity).
      replace (Z.of_nat (length seen) + 1) with (Z.of_nat (length seen + 1)) by lia.
      rewrite IH. cbn [length]. lia.
Qed.

Lemma accumulate_digits_spec (ds : list Z) :
  forall sgn seen rest acc,
    accumulate_digits (length ds) (sgn ++ seen ++ ds ++ rest) (Z.of_nat (length sgn))
      (Z.of_nat (length seen)) acc
    = fold_left int64_step ds acc.
Proof.
  induction ds as [|d ds IH]; intros sgn seen rest acc; cbn [length accumulate_digits fold_left];
    [reflexivity|].
  replace (Z.of_nat (length sgn) + Z.of_nat (length seen))
    with (Z.of_nat (length (sgn ++ seen))) by (rewrite length_app; lia).
  rewrite (app_assoc sgn seen). cbn [app]. rewrite byte_at_middle.
  specialize (IH sgn (seen ++ [d]) rest (int64_step acc d)).
  rewrite <- !app_assoc in IH |- *. cbn [app] in IH.
  replace (length (seen ++ [d])) with (length seen + 1)%nat in IH
    by (rewrite length_app; reflexivity).
  replace (Z.of_nat (length seen) + 1) with (Z.of_nat (length seen + 1)) by lia.
  exact IH.
Qed.

Lemma wrapped_value_exact (ds : list Z) :
  all_digits ds -> decimal_value ds < 2 ^ 63 -> wrapped_value ds = decimal_value ds.
Proof.
  unfold wrapped_value, decimal_value. intros Hds.
  assert (Hgen : forall a, 0 <= a ->
            a <= fold_left (fun a d => a * 10 + (d - 48)) ds a /\
            (fold_left (fun a d => a * 10 + (d - 48)) ds a < 2 ^ 63 ->
             fold_left int64_step ds a = fold_left (fun a d => a * 10 + (d - 48)) ds a)).
  { induction Hds as [|d ds Hd Hds IH]; intros a Ha; cbn [fold_left].
    - split; [lia | reflexivity].
    - destruct (IH (a * 10 + (d - 48)) ltac:(lia)) as [Hle Heq]. split; [lia|].
      intros Hlt. rewrite <- (Heq Hlt). f_equal.
      unfold int64_step, s64, u64.
      change (2 ^ 63) with 9223372036854775808 in *.
      change (2 ^ 64) with 18446744073709551616.
      rewrite Z.mod_small by lia.
      destruct (Z.ltb_spec (a * 10 + (d - 48)) 9223372036854775808); [reflexivity | lia]. }
  apply (Hgen 0). lia.
Qed.

Lemma negate_in_range (v : Z) : 0 <= v < 2 ^ 63 -> s64 (u64 (- v)) = - v.
Proof.
  intros Hv. unfold s64, u64.
  change (2 ^ 63) with 9223372036854775808 in *.
  change (2 ^ 64) with 18446744073709551616.
  destruct (Z.eq_dec v 0) as [->|Hnz]; [reflexivity|].
  replace (- v) with (18446744073709551616 - v + (-1) * 18446744073709551616) by lia.
  rewrite Z.mod_add by lia. rewrite Z.mod_small by lia.
  destruct (Z.ltb_spec (18446744073709551616 - v) 9223372036854775808); lia.
Qed.

Lemma decimal_value_nonneg (ds : list Z) : all_digits ds -> 0 <= decimal_value ds.
Proof.
  unfold decimal_value. intros Hds.
  assert (Hgen : forall a, 0 <= a -> 0 <= fold_left (fun a d => a * 10 + (d - 48)) ds a).
  { induction Hds as [|d ds Hd Hds IH]; intros a Ha; cbn [fold_left]; [exact Ha|].
    apply IH. lia. }
  apply (Hgen 0). lia.
Qed.

(** The sign test of both kernels on a text that starts with its sign. *)
Lemma sign_test (sgn ds rest : list Z) :
  sgn = [] \/ sgn = [45] ->
  (sgn = [] -> next_is (fun b => b <> 45) (ds ++ rest)) ->
  sgn ++ ds ++ rest <> [] ->
  (byte_at (sgn ++ ds ++ rest) 0 =? 45) = match sgn with [] => false | _ :: _ => true end.
Proof.
  intros [->| ->] Hfirst Hne; [|reflexivity].
  specialize (Hfirst eq_refl). cbn [app] in *.
  destruct (ds ++ rest) as [|b l]; [congruence|].
  cbn in Hfirst. unfold byte_at. cbn. now apply Z.eqb_neq.
Qed.

Lemma parse_int_scalar_wrapped (sgn ds rest : list Z) :
  sgn = [] \/ sgn = [45] -> all_digits ds ->
  next_is (fun b => isdigit b = false) rest ->
  (sgn = [] -> next_is (fun b => b <> 45) (ds ++ rest)) ->
  parse_int_scalar (sgn ++ ds ++ rest) (Z.of_nat (length (sgn ++ ds ++ rest)))
  = (match sgn with [] => wrapped_value ds | _ :: _ => s64 (u64 (- wrapped_value ds)) end,
     Z.of_nat (length sgn) + Z.of_nat (length ds)).
Proof.
  intros Hsgn Hds Hrest Hfirst. unfold parse_int_scalar.
  destruct (decide (sgn ++ ds ++ rest = [])) as [Hnil|Hne].
  - apply app_eq_nil in Hnil as [-> Hnil]. apply app_eq_nil in Hnil as [-> ->].
    reflexivity.
  - rewrite (sign_test sgn ds rest Hsgn Hfirst Hne).
    destruct (Z.ltb_spec 0 (Z.of_nat (length (sgn ++ ds ++ rest)))) as [_|Hlen];
      [|destruct (sgn ++ ds ++ rest); [congruence | cbn [length] in Hlen; lia]].
    destruct Hsgn as [->| ->]; cbn [andb].
    + pose proof (digits_from_spec ds Hds
                    (Z.to_nat (Z.of_nat (length ([] ++ ds ++ rest)) - 0)) [] rest 0 Hrest) as E.
      change (Z.of_nat (length (@nil Z))) with 0 in E.
      rewrite E by (cbn [app]; rewrite length_app; lia). reflexivity.
    + pose proof (digits_from_spec ds Hds
                    (Z.to_nat (Z.of_nat (length ([45] ++ ds ++ rest)) - 1)) [45] rest 0 Hrest) as E.
      change (Z.of_nat (length [45])) with 1 in E.
      rewrite E by (cbn [app length]; rewrite length_app; lia). reflexivity.
Qed.

(** X4: on a text made of an optional minus sign, decimal digits and a rest
    that does not go on with a digit, [parse_int_scalar] returns the signed
    decimal value of the digits and the number of bytes of the sign and the
    digits, provided the value is below 2^63. *)
Theorem parse_int_scalar_value (sgn ds rest : list Z) :
  sgn = [] \/ sgn = [45] -> all_digits ds ->
  next_is (fun b => isdigit b = false) rest ->
  (sgn = [] -> next_is (fun b => b <> 45) (ds ++ rest)) ->
  decimal_value ds < 2 ^ 63 ->
  parse_int_scalar (sgn ++ ds ++ rest) (Z.of_nat (length (sgn ++ ds ++ rest)))
  = (match sgn with [] => decimal_value ds | _ :: _ => - decimal_value ds end,
     Z.of_nat (length (sgn ++ ds))).
Proof.
  intros Hsgn Hds Hrest Hfirst Hsmall.
  rewrite (parse_int_scalar_wrapped sgn ds rest Hsgn Hds Hrest Hfirst).
  rewrite (wrapped_value_exact ds Hds Hsmall), length_app, Nat2Z.inj_add.
  f_equal. destruct sgn; [reflexivity|].
  apply negate_in_range. split; [now apply decimal_value_nonneg | exact Hsmall].
Qed.

Lemma parse_int_scalar_value_witness :
  parse_int_scalar ([45] ++ [49; 50; 51] ++ [44; 52])
    (Z.of_nat (length ([45] ++ [49; 50; 51] ++ [44; 52]))) = (-123, 4).
Proof.
  apply (parse_int_scalar_value [45] [49; 50; 51] [44; 52]).
  - right. reflexivity.
  - repeat constructor; lia.
  - reflexivity.
  - intros H. discriminate H.
  - vm_compute. reflexivity.
Defined.

(** X5: on such a text with one to nineteen digits whose value is below
    2^63, [parse_int_neon] returns the value and the consumed count of
    [parse_int_scalar]. Without a digit it reports nothing consumed, also
    after a minus sign, where the scalar kernel reports the sign. *)
Theorem parse_int_neon_agrees (sgn ds rest : list Z) :
  sgn = [] \/ sgn = [45] -> all_digits ds ->
  next_is (fun b => isdigit b = false) rest ->
  (sgn = [] -> next_is (fun b => b <> 45) (ds ++ rest)) ->
  (length ds <= 19)%nat ->
  decimal_value ds < 2 ^ 63 ->
  let str := sgn ++ ds ++ rest in
  let len_ := Z.of_nat (length str) in
  (ds <> [] -> parse_int_neon str len_ = parse_int_scalar str len_) /\
  (ds = [] -> parse_int_neon str len_ = (0, 0) /\
              parse_int_scalar str len_ = (0, Z.of_nat (length sgn))).
Proof.
  intros Hsgn Hds Hrest Hfirst H19 Hsmall str len_.
  assert (Hscalar := parse_int_scalar_wrapped sgn ds rest Hsgn Hds Hrest Hfirst).
  fold str in Hscalar. fold len_ in Hscalar.
  assert (Hcount : str <> [] ->
            count_digits 19 str len_ (if byte_at str 0 =? 45 then 1 else 0) 0
            = Z.of_nat (length ds)).
  { intros Hne. unfold str in *. rewrite (sign_test sgn ds rest Hsgn Hfirst Hne).
    pose proof (count_digits_spec ds Hds 19 sgn [] rest Hrest H19 ltac:(cbn; lia)) as E.
    cbn [app length] in E. change (Z.of_nat 0) with 0 in E.
    destruct Hsgn as [->| ->]; exact E. }
  split.
  - intros Hds'. rewrite Hscalar. unfold parse_int_neon.
    assert (Hne : str <> []).
    { unfold str. destruct sgn; [|discriminate]. destruct ds; [congruence | discriminate]. }
    destruct (Z.eqb_spec len_ 0) as [Hz|_];
      [unfold len_ in Hz; destruct str; [congruence | cbn [length] in Hz; lia]|].
    cbv zeta. rewrite (Hcount Hne).
    destruct (Z.eqb_spec (Z.of_nat (length ds)) 0) as [Hz|_];
      [destruct ds; [congruence | cbn [length] in Hz; lia]|].
    rewrite Nat2Z.id. unfold str. rewrite (sign_test sgn ds rest Hsgn Hfirst Hne).
    pose proof (accumulate_digits_spec ds sgn [] rest 0) as E.
    destruct Hsgn as [->| ->]; cbn [app length] in E |- *;
      change (Z.of_nat 0) with 0 in E; change (Z.of_nat 1) with 1 in E;
      rewrite E; reflexivity.
  - intros ->. split.
    + unfold parse_int_neon.
      destruct (Z.eqb_spec len_ 0) as [|Hz]; [reflexivity|].
      assert (Hne : str <> []) by (intros E; unfold len_ in Hz; rewrite E in Hz; now apply Hz).
      cbv zeta. rewrite (Hcount Hne). reflexivity.
    + rewrite Hscalar. destruct sgn; reflexivity.
Qed.

Lemma parse_int_neon_agrees_witness :
  parse_int_neon ([45] ++ [49; 50; 51] ++ [44; 52])
    (Z.of_nat (length ([45] ++ [49; 50; 51] ++ [44; 52])))
  = parse_int_scalar ([45] ++ [49; 50; 51] ++ [44; 52])
      (Z.of_nat (length ([45] ++ [49; 50; 51] ++ [44; 52]))).
Proof.
  apply (parse_int_neon_agrees [45] [49; 50; 51] [44; 52]).
  - right. reflexivity.
  - repeat constructor; lia.
  - reflexivity.
  - intros H. discriminate H.
  - cbn [length]. lia.
  - vm_compute. reflexivity.
  - intros H. discriminate H.
Defined.

(** * Strings *)

(** ** [encode_utf8] *)

(** X6: for a code point up to 0x10FFFF, [encode_utf8] writes the shortest
    UTF-8 sequence of one to four bytes, and reading that sequence by its lead
    and continuation bytes gives the code point back. *)
Theorem encode_utf8_round_trip (cp : Z) :
  0 <= cp <= 0x10FFFF ->
  utf8_decode (encode_utf8 cp) = Some cp /\
  Z.of_nat (length (encode_utf8 cp)) =
    (if cp <? 0x80 then 1 else if cp <? 0x800 then 2 else if cp <? 0x10000 then 3 else 4).
Proof.
  intros Hcp. rewrite (encode_utf8_spec cp Hcp). unfold utf8_encoding.
  pose proof (Z.div_mod cp 64 ltac:(lia)). pose proof (Z.mod_pos_bound cp 64 ltac:(lia)).
  pose proof (Z.div_mod (cp / 64) 64 ltac:(lia)).
  pose proof (Z.mod_pos_bound (cp / 64) 64 ltac:(lia)).
  pose proof (Z.div_mod (cp / 4096) 64 ltac:(lia)).
  pose proof (Z.mod_pos_bound (cp / 4096) 64 ltac:(lia)).
  assert (E1 : cp / 4096 = cp / 64 / 64) by (rewrite Z.div_div by lia; reflexivity).
  assert (E2 : cp / 262144 = cp / 4096 / 64) by (rewrite Z.div_div by lia; reflexivity).
  destruct (Z.ltb_spec cp 128).
  { split; [|reflexivity]. unfold utf8_decode.
    destruct (Z.leb_spec 0 cp); [|lia]. destruct (Z.ltb_spec cp 128); [reflexivity | lia]. }
  destruct (Z.ltb_spec cp 2048).
  { split; [|reflexivity]. unfold utf8_decode, is_continuation.
    repeat match goal with
           | |- context [?a <=? ?b] => destruct (Z.leb_spec a b); [|lia]
           | |- context [?a <? ?b] => destruct (Z.ltb_spec a b); [|lia]
           end.
    cbn [andb]. f_equal. lia. }
  destruct (Z.ltb_spec cp 65536).
  { split; [|reflexivity]. unfold utf8_decode, is_continuation.
    repeat match goal with
           | |- context [?a <=? ?b] => destruct (Z.leb_spec a b); [|lia]
           | |- context [?a <? ?b] => destruct (Z.ltb_spec a b); [|lia]
           end.
    cbn [andb]. f_equal. lia. }
  split; [|reflexivity]. unfold utf8_decode, is_continuation.
  repeat match goal with
         | |- context [?a <=? ?b] => destruct (Z.leb_spec a b); [|lia]
         | |- context [?a <? ?b] => destruct (Z.ltb_spec a b); [|lia]
         end.
  cbn [andb]. f_equal. lia.
Qed.

Lemma encode_utf8_round_trip_witness :
  utf8_decode (encode_utf8 0x20AC) = Some 0x20AC /\
  Z.of_nat (length (encode_utf8 0x20AC)) =
    (if 0x20AC <? 0x80 then 1 else if 0x20AC <? 0x800 then 2
     else if 0x20AC <? 0x10000 then 3 else 4).
Proof. apply (encode_utf8_round_trip 0x20AC). lia. Defined.

(** ** [parse_string] *)

(** X7: a well-formed token between two quotes becomes a string node, inline
    when the token has no escape and stands for at most seven bytes and in the
    string block otherwise; the cursor ends behind the closing quote, no error
    is recorded, and [json_get_str] and [json_get_str_len] give back the
    decoded bytes and their number. *)
Theorem parse_string_token (B : Z) (c : parser_ctx) (w : world) (raw bs : list Z) :
  ctx_ok B c w -> input_below B c -> len c < 2 ^ 60 ->
  text_at w c (34 :: raw ++ [34]) -> decodes raw bs ->
  brk (snd (parse_string c w)) < 2 ^ 64 ->
  exists val c' w',
    parse_string c w = (val, c', w') /\
    val <> 0 /\ pos c' = pos c + Z.of_nat (length raw) + 2 /\
    g_last_error w' = g_last_error w /\
    val_get_type (mem w') val =
      (if negb (has_escape raw) && (Z.of_nat (length bs) <=? JSON_SHORT_STR_MAX)
       then JSON_STRING_SHORT else JSON_STRING_LONG) /\
    json_get_str_len (mem w') val = Z.of_nat (length bs) /\
    read_bytes (length bs) (mem w') (json_get_str (mem w') val) = bs.
Proof.
  intros Hc Hin Hlen Ht Hd Hbrk.
  destruct (parse_string_spec B c w raw bs Hc Hin Hlen Ht Hd Hbrk)
    as (val & c' & w' & E & Hv & Hp & He & Hty & Hl & Hr).
  exists val, c', w'. split; [exact E|].
  split; [|repeat (split; [assumption|]); assumption].
  destruct Hin as [Hi Hb], Ht as [Hlt _], Hc as [_ Hpos]. cbn [length] in Hlt. lia.
Qed.

Lemma parse_string_token_witness :
  let text := [34; 104; 92; 110; 105; 34] in
  let c := fst (token_start text) in
  let w := snd (token_start text) in
  exists val c' w',
    parse_string c w = (val, c', w') /\
    val <> 0 /\ pos c' = pos c + Z.of_nat (length [104; 92; 110; 105]) + 2 /\
    g_last_error w' = g_last_error w /\
    val_get_type (mem w') val =
      (if negb (has_escape [104; 92; 110; 105]) &&
          (Z.of_nat (length [104; 10; 105]) <=? JSON_SHORT_STR_MAX)
       then JSON_STRING_SHORT else JSON_STRING_LONG) /\
    json_get_str_len (mem w') val = Z.of_nat (length [104; 10; 105]) /\
    read_bytes (length [104; 10; 105]) (mem w') (json_get_str (mem w') val) = [104; 10; 105].
Proof.
  intros text c w.
  apply (parse_string_token (input c + len c) c w [104; 92; 110; 105] [104; 10; 105]).
  - constructor; [constructor|]; vm_compute; try reflexivity;
      try (split; discriminate); try discriminate; left; discriminate.
  - split; vm_compute; [reflexivity | discriminate].
  - vm_compute. reflexivity.
  - split; vm_compute; [discriminate | reflexivity].
  - apply dec_plain; [lia | lia | lia |]. apply (dec_escape 110 10); [reflexivity|].
    apply dec_plain; [lia | lia | lia |]. exact dec_nil.
  - vm_compute. reflexivity.
Defined.

Lemma escape_value_none (e : Z) : escape_value e = None -> is_simple_escape e = false.
Proof.
  unfold escape_value, is_simple_escape. cbn [List.find fst snd].
  destruct (Z.eqb_spec 34 e) as [<-|]; [discriminate|].
  destruct (Z.eqb_spec 92 e) as [<-|]; [discriminate|].
  destruct (Z.eqb_spec 47 e) as [<-|]; [discriminate|].
  destruct (Z.eqb_spec 98 e) as [<-|]; [discriminate|].
  destruct (Z.eqb_spec 102 e) as [<-|]; [discriminate|].
  destruct (Z.eqb_spec 110 e) as [<-|]; [discriminate|].
  destruct (Z.eqb_spec 114 e) as [<-|]; [discriminate|].
  destruct (Z.eqb_spec 116 e) as [<-|]; [discriminate|].
  intros _.
  repeat match goal with
         | |- context [e =? ?k] => destruct (Z.eqb_spec e k); [congruence|]
         end.
  reflexivity.
Qed.

(** The first pass stops with an error, or at the end of the input, on a
    malformed tail that reaches the end of the input. *)
Lemma measure_string_bad_tail (w : world) (c : parser_ctx) (tail : list Z) (n : nat)
    (slen : Z) (esc : bool) :
  bad_tail tail -> text_at w c tail -> pos c + Z.of_nat (length tail) = len c ->
  (length tail <= n)%nat ->
  (exists c' w', measure_string n w c slen esc = (None, c', w') /\
                 code (g_last_error w') = JSON_ERROR_STRING) \/
  (exists r c', measure_string n w c slen esc = (Some r, c', w) /\ pos c' >= len c').
Proof.
  intros Hbad Ht Hend Hn.
  destruct Hbad as [|b rest Hb| |e rest He Hu|hs Hs|h1 h2 h3 h4 rest Hh].
  - right. cbn [length] in Hend. exists (slen, esc), c.
    destruct n as [|k]; cbn [measure_string].
    + split; [reflexivity | lia].
    + destruct (Z.ltb_spec (pos c) (len c)); [lia|]. split; [reflexivity | lia].
  - left. destruct n as [|k]; [cbn in Hn; lia|].
    apply text_at_head in Ht as (E & Hp & _). cbn [measure_string]. rewrite E.
    destruct (Z.ltb_spec (pos c) (len c)); [|lia].
    destruct (Z.eqb_spec b 34); [lia|]. destruct (Z.eqb_spec b 92); [lia|].
    destruct (Z.ltb_spec b 32); [|lia].
    eexists _, _. split; reflexivity.
  - left. destruct n as [|k]; [cbn in Hn; lia|].
    apply text_at_head in Ht as (E & Hp & _). cbn [length] in Hend.
    cbn [measure_string]. rewrite E.
    destruct (Z.ltb_spec (pos c) (len c)); [|lia]. cbn [Z.eqb Pos.eqb].
    destruct (Z.geb_spec (pos (advance c 1)) (len (advance c 1))) as [|Hlt];
      [|cbn in Hlt; lia].
    eexists _, _. split; reflexivity.
  - left. destruct n as [|k]; [cbn in Hn; lia|].
    apply text_at_head in Ht as (E1 & Hp1 & Ht). apply text_at_head in Ht as (E2 & Hp2 & _).
    cbn [measure_string]. rewrite E1.
    destruct (Z.ltb_spec (pos c) (len c)); [|lia]. cbn [Z.eqb Pos.eqb].
    destruct (Z.geb_spec (pos (advance c 1)) (len (advance c 1))); [lia|].
    rewrite E2, (escape_value_none e He).
    destruct (Z.eqb_spec e 117); [congruence|].
    eexists _, _. split; reflexivity.
  - left. destruct n as [|k]; [cbn in Hn; lia|].
    apply (text_at_app _ _ [92; 117] hs) in Ht as [Ht _].
    cbn [length] in Hend.
    assert (Es : exists c' w', scan_unicode w (advance c 2) = (None, c', w') /\
                               code (g_last_error w') = JSON_ERROR_STRING).
    { unfold scan_unicode, parse_unicode_escape.
      destruct (Z.gtb_spec (pos (advance c 2) + 4) (len (advance c 2))) as [|Hle];
        [|cbn in Hle; lia].
      eexists _, _. split; reflexivity. }
    destruct Es as (c' & w' & Es & Ec).
    exists c', w'. split; [|exact Ec].
    apply (measure_step_unicode_fail k w c slen esc c' w' Ht Es).
  - left. destruct n as [|k]; [cbn in Hn; lia|].
    apply (text_at_app _ _ [92; 117] (h1 :: h2 :: h3 :: h4 :: rest)) in Ht as [Ht Ht4].
    change (Z.of_nat (length [92; 117])) with 2 in Ht4.
    apply (text_at_take _ _ [h1; h2; h3; h4] rest) in Ht4.
    assert (Es : exists c' w', scan_unicode w (advance c 2) = (None, c', w') /\
                               code (g_last_error w') = JSON_ERROR_STRING).
    { unfold scan_unicode, parse_unicode_escape.
      destruct Ht4 as [Hl4 Hr4]. cbn [length] in Hl4.
      destruct (Z.gtb_spec (pos (advance c 2) + 4) (len (advance c 2))); [lia|].
      destruct (hex_loop 4 (mem w) (input (advance c 2) + pos (advance c 2)) 0) as [cp|] eqn:El.
      - apply hex_loop_inv in El. cbn [length read_bytes] in Hr4.
        injection Hr4 as R1 R2 R3 R4. cbn [advance input pos] in El. congruence.
      - eexists _, _. split; reflexivity. }
    destruct Es as (c' & w' & Es & Ec).
    exists c', w'. split; [|exact Ec].
    apply (measure_step_unicode_fail k w c slen esc c' w' Ht Es).
Qed.

(** X8: a string token is rejected with [JSON_ERROR_STRING] and a [NULL]
    result when, behind a well-formed part, the input ends before the closing
    quote, or goes on with a control byte, with a backslash at the end of the
    input or before a byte that is no escape letter, or with a [\u] that is not
    followed by four hexadecimal digits. *)
Theorem parse_string_rejects (w : world) (c : parser_ctx) (pre bs tail : list Z) :
  text_at w c (34 :: pre ++ tail) ->
  pos c + Z.of_nat (length (34 :: pre ++ tail)) = len c ->
  decodes pre bs -> bad_tail tail ->
  fst (fst (parse_string c w)) = 0 /\
  code (g_last_error (snd (parse_string c w))) = JSON_ERROR_STRING.
Proof.
  intros Ht Hend Hd Hbad.
  cbn [length] in Hend. rewrite length_app in Hend.
  apply text_at_head in Ht as (Hq & Hp & Ht1).
  destruct (measure_string_prefix w pre bs Hd _ (Z.to_nat (len (advance c 1) - pos (advance c 1)))
              (advance c 1) 0 false Ht1) as (n' & Hn & E); [cbn; lia|].
  apply text_at_app in Ht1 as [_ T2].
  unfold parse_string.
  destruct (Z.geb_spec (pos c) (len c)) as [|_]; [lia|].
  rewrite Hq, Z.eqb_refl. cbn [orb negb]. cbv zeta. rewrite E.
  destruct (measure_string_bad_tail w _ tail n' (0 + Z.of_nat (length bs))
              (false || has_escape pre) Hbad T2)
    as [(c' & w' & -> & Ec) | (r & c' & -> & Hp')].
  - cbn. lia.
  - cbn in Hn |- *. lia.
  - split; [reflexivity | exact Ec].
  - destruct r as [slen esc].
    destruct (Z.geb_spec (pos c') (len c')); [|lia]. split; reflexivity.
Qed.

Lemma parse_string_rejects_witness :
  let text := [34; 104; 105; 92; 120] in
  let c := fst (token_start text) in
  let w := snd (token_start text) in
  fst (fst (parse_string c w)) = 0 /\
  code (g_last_error (snd (parse_string c w))) = JSON_ERROR_STRING.
Proof.
  intros text c w. apply (parse_string_rejects w c [104; 105] [104; 105] [92; 120]).
  - split; vm_compute; [discriminate | reflexivity].
  - vm_compute. reflexivity.
  - apply dec_plain; [lia | lia | lia |]. apply dec_plain; [lia | lia | lia |]. exact dec_nil.
  - apply bad_escape; [reflexivity | lia].
Defined.

(** * The serializer *)

(** ** The string buffer *)

Lemma load8_memcpy_in (m : gmap Z Z) (dst src n i : Z) :
  0 <= i < n -> load8 (memcpy m dst src n) (dst + i) = load8 m (src + i).
Proof.
  intros Hi. unfold memcpy.
  replace (dst + i) with (dst + Z.of_nat (Z.to_nat i)) by lia.
  rewrite load8_write_bytes_in by (rewrite read_bytes_length; lia).
  rewrite read_bytes_nth by lia. rewrite Z2Nat.id by lia.
  apply Z.mod_small, load8_range.
Qed.

Lemma load8_memcpy_ne (m : gmap Z Z) (dst src n a : Z) :
  a < dst \/ dst + Z.max 0 n <= a -> load8 (memcpy m dst src n) a = load8 m a.
Proof.
  intros Ha. unfold memcpy. apply load8_write_bytes_ne.
  rewrite read_bytes_length. lia.
Qed.

Lemma strbuf_step_refl (sb : strbuf) (w : world) : strbuf_ok sb w -> strbuf_step sb w sb w.
Proof. intros H. constructor; auto; lia. Qed.

Lemma strbuf_step_trans (sb1 sb2 sb3 : strbuf) (w1 w2 w3 : world) :
  strbuf_step sb1 w1 sb2 w2 -> strbuf_step sb2 w2 sb3 w3 -> strbuf_step sb1 w1 sb3 w3.
Proof.
  intros [O1 B1 F1 U1 E1] [O2 B2 F2 U2 E2]. constructor.
  - exact O2.
  - lia.
  - intros a Ha Hn. rewrite F2; [apply F1; assumption | lia |].
    intros Hin. destruct (U1 a Hin); [contradiction | lia].
  - intros a Hin. destruct (U2 a Hin) as [Hin2|]; [|right; lia].
    destruct (U1 a Hin2); [now left | now right].
  - congruence.
Qed.

(** [strbuf_append] succeeds on a buffer in use and puts the bytes behind
    the content, after a move to a larger block when they do not fit. *)
Lemma strbuf_append_spec (bytes : list Z) (sb : strbuf) (w : world) :
  strbuf_ok sb w -> are_bytes bytes ->
  exists sb' w',
    strbuf_append bytes sb w = (true, sb', w') /\
    strbuf_step sb w sb' w' /\
    content sb' w' = content sb w ++ bytes.
Proof.
  intros [Hd Hl Hc Hlive Hbrk] Hb. unfold strbuf_append, strbuf_grow.
  set (n := Z.of_nat (length bytes)).
  assert (Hn : 0 <= n) by (unfold n; lia).
  destruct (Z.leb_spec (sb_len sb + n) (cap sb)) as [Hfit|Hbig].
  - cbn [negb]. eexists _, _. split; [reflexivity|]. split.
    + constructor; cbn [brk mem set_mem g_last_error].
      * constructor; cbn; try assumption; lia.
      * lia.
      * intros a Ha Hout. apply load8_write_bytes_ne. unfold in_buf in Hout. fold n. lia.
      * intros a Ha. now left.
      * reflexivity.
    + unfold content. cbn [sb_len data mem set_mem].
      replace (Z.to_nat (sb_len sb + n)) with (Z.to_nat (sb_len sb) + length bytes)%nat
        by (unfold n; lia).
      rewrite read_bytes_app. f_equal.
      * apply read_bytes_write_bytes_ne. lia.
      * rewrite Z2Nat.id by lia. now apply read_bytes_write_bytes.
  - unfold realloc. rewrite Hlive. cbn [default from_option id]. unfold id.
    set (new_cap := grow_size (Z.to_nat (sb_len sb + n)) (cap sb * 2) (sb_len sb + n)).
    destruct (grow_size_reaches (sb_len sb + n) (Z.to_nat (sb_len sb + n)) (cap sb * 2))
      as [Hreach Hdouble]; [lia | lia |]. fold new_cap in Hreach, Hdouble.
    destruct (malloc new_cap w) as [q w1] eqn:Em.
    destruct (malloc_at_spec 16 new_cap w q w1 ltac:(lia) Em) as (Hq & Hb1 & Hm1 & He1).
    assert (Hlive1 : live w1 = <[q := new_cap]> (live w)).
    { unfold malloc, malloc_at in Em. inversion Em. reflexivity. }
    destruct (Z.eqb_spec q 0) as [|_]; [lia|]. cbn [negb].
    rewrite Z.min_l by lia. cbn [data sb_len cap mem set_mem free].
    eexists _, _. split; [reflexivity|]. split.
    + constructor; cbn [brk mem set_mem g_last_error free].
      * constructor; cbn; try lia.
        rewrite Hlive1, lookup_delete_ne by lia. apply lookup_insert_eq.
      * lia.
      * intros a Ha Hout. rewrite load8_write_bytes_ne by (fold n; lia).
        rewrite load8_memcpy_ne by lia. now rewrite Hm1.
      * intros a Ha. right. unfold in_buf in Ha. cbn in Ha. lia.
      * exact He1.
    + unfold content. cbn [sb_len data mem set_mem free].
      replace (Z.to_nat (sb_len sb + n)) with (Z.to_nat (sb_len sb) + length bytes)%nat
        by (unfold n; lia).
      rewrite read_bytes_app. f_equal.
      * rewrite read_bytes_write_bytes_ne by lia.
        apply read_bytes_ext_at. intros i Hi.
        rewrite load8_memcpy_in by lia. now rewrite Hm1.
      * rewrite Z2Nat.id by lia. now apply read_bytes_write_bytes.
Qed.

(** ** [stringify_string] *)

Lemma hex_digits_range (i : Z) : 0 <= hex_digits i < 256.
Proof.
  unfold hex_digits.
  destruct (Nat.lt_ge_cases (Z.to_nat i) 16) as [Hlt|Hge].
  - assert (HF : Forall (fun b => 0 <= b < 256) (bytes_of_string "0123456789abcdef"))
      by (vm_compute; repeat constructor; discriminate).
    apply (proj1 (List.Forall_forall _ _) HF), nth_In. exact Hlt.
  - rewrite nth_overflow by exact Hge. lia.
Qed.

Lemma escape_byte_are_bytes (b : Z) : 0 <= b < 256 -> are_bytes (escape_byte b).
Proof.
  intros Hb. unfold escape_byte.
  repeat match goal with
         | |- context [if ?c then _ else _] =>
             destruct c; [repeat constructor; try lia; apply hex_digits_range|]
         end.
  repeat constructor; lia.
Qed.

Lemma stringify_string_loop_spec (str : Z) (n : nat) :
  forall i sb w,
    strbuf_ok sb w ->
    (forall a, str + i <= a < str + i + Z.of_nat n -> a < brk w /\ ~ in_buf sb a) ->
    exists sb' w',
      stringify_string_loop n str i sb w = (true, sb', w') /\
      strbuf_step sb w sb' w' /\
      content sb' w' =
        content sb w ++ concat (map escape_byte (read_bytes n (mem w) (str + i))).
Proof.
  induction n as [|n IH]; intros i sb w Hok Hsrc.
  - exists sb, w. cbn [stringify_string_loop read_bytes map concat].
    rewrite app_nil_r. split; [reflexivity|]. split; [now apply strbuf_step_refl | reflexivity].
  - cbn [stringify_string_loop read_bytes map concat].
    destruct (strbuf_append_spec (escape_byte (load8 (mem w) (str + i))) sb w Hok)
      as (sb1 & w1 & E1 & S1 & C1);
      [apply escape_byte_are_bytes, load8_range|].
    rewrite E1. cbn [and_then].
    destruct (IH (i + 1) sb1 w1 (ss_ok _ _ _ _ S1)) as (sb2 & w2 & E2 & S2 & C2).
    { intros a Ha. destruct (Hsrc a ltac:(lia)) as [Hb Hout].
      pose proof (ss_brk _ _ _ _ S1). split; [lia|].
      intros Hin. destruct (ss_buf _ _ _ _ S1 a Hin); [contradiction | lia]. }
    exists sb2, w2. split; [exact E2|]. split; [exact (strbuf_step_trans _ _ _ _ _ _ S1 S2)|].
    rewrite C2, C1, <- app_assoc. do 2 f_equal.
    replace (str + (i + 1)) with (str + i + 1) by lia. f_equal. f_equal.
    apply read_bytes_ext. intros b Hb.
    destruct (Hsrc b ltac:(lia)) as [Hlt Hout]. now apply (ss_frame _ _ _ _ S1).
Qed.

Lemma stringify_string_spec (str slen : Z) (sb : strbuf) (w : world) :
  strbuf_ok sb w -> 0 <= slen ->
  (forall a, str <= a < str + slen -> a < brk w /\ ~ in_buf sb a) ->
  exists sb' w',
    stringify_string str slen sb w = (true, sb', w') /\
    strbuf_step sb w sb' w' /\
    content sb' w' = content sb w ++ escaped (read_bytes (Z.to_nat slen) (mem w) str).
Proof.
  intros Hok Hlen Hsrc. unfold stringify_string, strbuf_append_char.
  destruct (strbuf_append_spec [34] sb w Hok) as (sb1 & w1 & E1 & S1 & C1);
    [repeat constructor; lia|].
  rewrite E1. cbn [and_then].
  destruct (stringify_string_loop_spec str (Z.to_nat slen) 0 sb1 w1 (ss_ok _ _ _ _ S1))
    as (sb2 & w2 & E2 & S2 & C2).
  { intros a Ha. destruct (Hsrc a ltac:(lia)) as [Hb Hout].
    pose proof (ss_brk _ _ _ _ S1). split; [lia|].
    intros Hin. destruct (ss_buf _ _ _ _ S1 a Hin); [contradiction | lia]. }
  rewrite E2. cbn [and_then].
  destruct (strbuf_append_spec [34] sb2 w2 (ss_ok _ _ _ _ S2)) as (sb3 & w3 & E3 & S3 & C3);
    [repeat constructor; lia|].
  exists sb3, w3. split; [exact E3|]. split.
  - exact (strbuf_step_trans _ _ _ _ _ _ S1 (strbuf_step_trans _ _ _ _ _ _ S2 S3)).
  - rewrite C3, C2, C1. unfold escaped. rewrite Z.add_0_r, <- !app_assoc. cbn [app].
    do 2 f_equal.
    replace (read_bytes (Z.to_nat slen) (mem w1) str)
      with (read_bytes (Z.to_nat slen) (mem w) str); [reflexivity|].
    symmetry. apply read_bytes_ext. intros b Hb.
    destruct (Hsrc b ltac:(lia)) as [Hlt Hout]. now apply (ss_frame _ _ _ _ S1).
Qed.

(** X9: on a buffer in use, [stringify_string] succeeds and appends a quote,
    for every byte of the string what [escape_byte] gives, and a quote; the
    buffer may move to a larger block, and every byte allocated before the
    call outside the old block of the buffer is left as it was. *)
Theorem stringify_string_writes (str slen : Z) (sb : strbuf) (w : world) :
  strbuf_ok sb w -> 0 <= slen ->
  (forall a, str <= a < str + slen -> a < brk w /\ ~ in_buf sb a) ->
  exists sb' w',
    stringify_string str slen sb w = (true, sb', w') /\
    strbuf_step sb w sb' w' /\
    content sb' w' = content sb w ++ escaped (read_bytes (Z.to_nat slen) (mem w) str).
Proof. exact (stringify_string_spec str slen sb w). Qed.

Lemma stringify_string_writes_witness :
  let pw := place_string [104; 10] fresh_world in
  let sw := strbuf_init 256 (snd pw) in
  let sb := default (mk_strbuf 0 0 0) (fst sw) in
  let w := snd sw in
  exists sb' w',
    stringify_string (fst pw) 2 sb w = (true, sb', w') /\
    strbuf_step sb w sb' w' /\
    content sb' w' = content sb w ++ escaped (read_bytes (Z.to_nat 2) (mem w) (fst pw)).
Proof.
  intros pw sw sb w.
  assert (Hp : fst pw = 4096) by (vm_compute; reflexivity).
  assert (Hd : data sb = 4112) by (vm_compute; reflexivity).
  assert (Hc : cap sb = 256) by (vm_compute; reflexivity).
  assert (Hb : brk w = 4368) by (vm_compute; reflexivity).
  apply (stringify_string_writes (fst pw) 2 sb w).
  - constructor; try (rewrite ?Hd, ?Hc, ?Hb; lia).
    + split; vm_compute; discriminate.
    + vm_compute. reflexivity.
  - lia.
  - intros a Ha. unfold in_buf. rewrite Hp in Ha. rewrite Hd, Hc, Hb. lia.
Defined.

(** ** What the serializer escapes, the parser unescapes *)

Lemma escape_control_hex (b : Z) :
  0 <= b < 32 ->
  hex4 48 48 (hex_digits (Z.land (Z.shiftr b 4) 0xF)) (hex_digits (Z.land b 0xF)) = Some b.
Proof.
  intros Hb. destruct b as [|p|p]; [reflexivity | | lia].
  do 5 (try (destruct p as [p|p|]; try lia)); reflexivity.
Qed.

Lemma escape_byte_decodes (b : Z) (raw bs : list Z) :
  0 <= b < 256 -> decodes raw bs -> decodes (escape_byte b ++ raw) (b :: bs).
Proof.
  intros Hb Hd. unfold escape_byte.
  destruct (Z.eqb_spec b 34) as [->|]; [now apply (dec_escape 34 34)|].
  destruct (Z.eqb_spec b 92) as [->|]; [now apply (dec_escape 92 92)|].
  destruct (Z.eqb_spec b 8) as [->|]; [now apply (dec_escape 98 8)|].
  destruct (Z.eqb_spec b 12) as [->|]; [now apply (dec_escape 102 12)|].
  destruct (Z.eqb_spec b 10) as [->|]; [now apply (dec_escape 110 10)|].
  destruct (Z.eqb_spec b 13) as [->|]; [now apply (dec_escape 114 13)|].
  destruct (Z.eqb_spec b 9) as [->|]; [now apply (dec_escape 116 9)|].
  destruct (Z.ltb_spec b 32) as [Hlow|Hhigh].
  - cbn [app].
    replace (b :: bs) with (utf8_encoding b ++ bs).
    + apply dec_unicode; [apply escape_control_hex; lia | unfold is_high_surrogate; lia
                         | exact Hd].
    + unfold utf8_encoding. destruct (Z.ltb_spec b 128); [reflexivity | lia].
  - cbn [app]. apply dec_plain; [lia | assumption | assumption | exact Hd].
Qed.

Lemma escaped_decodes (bs : list Z) :
  are_bytes bs -> decodes (concat (map escape_byte bs)) bs.
Proof.
  induction 1 as [|b bs Hb Hbs IH]; cbn [map concat]; [exact dec_nil|].
  now apply escape_byte_decodes.
Qed.

(** X10: the text [stringify_string] writes for a string, a quote, what
    [escape_byte] gives for each byte and a quote, is read by [parse_string]
    as a string node that holds the same bytes, with the cursor behind the
    text. *)
Theorem escaped_string_parses_back (B : Z) (c : parser_ctx) (w : world) (bs : list Z) :
  ctx_ok B c w -> input_below B c -> len c < 2 ^ 60 ->
  are_bytes bs -> text_at w c (escaped bs) ->
  brk (snd (parse_string c w)) < 2 ^ 64 ->
  exists val c' w',
    parse_string c w = (val, c', w') /\
    val <> 0 /\ pos c' = pos c + Z.of_nat (length (escaped bs)) /\
    json_get_str_len (mem w') val = Z.of_nat (length bs) /\
    read_bytes (length bs) (mem w') (json_get_str (mem w') val) = bs.
Proof.
  intros Hc Hin Hlen Hbs Ht Hbrk. unfold escaped in *.
  destruct (parse_string_spec B c w _ bs Hc Hin Hlen Ht (escaped_decodes bs Hbs) Hbrk)
    as (val & c' & w' & E & Hv & Hp & _ & _ & Hl & Hr).
  exists val, c', w'. split; [exact E|]. split.
  - destruct Hin as [Hi Hb], Ht as [Hlt _], Hc as [_ Hpos]. lia.
  - split; [|split; assumption].
    rewrite Hp. cbn [length]. rewrite length_app. cbn [length]. lia.
Qed.

Lemma escaped_string_parses_back_witness :
  let bs := [104; 34; 10; 1] in
  let c := fst (token_start (escaped bs)) in
  let w := snd (token_start (escaped bs)) in
  exists val c' w',
    parse_string c w = (val, c', w') /\
    val <> 0 /\ pos c' = pos c + Z.of_nat (length (escaped bs)) /\
    json_get_str_len (mem w') val = Z.of_nat (length bs) /\
    read_bytes (length bs) (mem w') (json_get_str (mem w') val) = bs.
Proof.
  intros bs c w. apply (escaped_string_parses_back (input c + len c) c w bs).
  - constructor; [constructor|]; vm_compute; try reflexivity;
      try (split; discriminate); try discriminate; left; discriminate.
  - split; vm_compute; [reflexivity | discriminate].
  - vm_compute. reflexivity.
  - repeat constructor; lia.
  - split; vm_compute; [discriminate | reflexivity].
  - vm_compute. reflexivity.
Defined.

(** * Numbers *)

(** ** Integers *)

Lemma digits_value_all (ds : list Z) :
  all_digits ds ->
  forall acc, digits_value ds acc = (fold_left (fun a d => a * 10 + (d - 48)) ds acc, []).
Proof.
  induction 1 as [|d ds Hd Hds IH]; intros acc; cbn [digits_value fold_left]; [reflexivity|].
  rewrite (isdigit_true d Hd). apply IH.
Qed.

Lemma int_part_digits (ip : list Z) :
  int_part ip -> all_digits ip /\ exists d ds, ip = d :: ds /\ 48 <= d <= 57.
Proof.
  intros [|d ds Hd Hds].
  - split; [repeat constructor; lia|]. exists 48, []. split; [reflexivity | lia].
  - split; [constructor; [lia | assumption]|]. exists d, ds. split; [reflexivity | lia].
Qed.

(** [strtoll] on the text of an integer that fits [long long]. *)
Lemma strtoll_int (sgn ip : list Z) :
  sgn = [] \/ sgn = [45] -> int_part ip ->
  let v := match sgn with [] => decimal_value ip | _ :: _ => - decimal_value ip end in
  - 2 ^ 63 <= v < 2 ^ 63 ->
  strtoll (sgn ++ ip) = (v, false).
Proof.
  intros Hs Hi v Hv. destruct (int_part_digits ip Hi) as (Hds & d & ds & E & Hd).
  unfold strtoll.
  assert (Estrip : strip_minus (sgn ++ ip) = (match sgn with [] => false | _ :: _ => true end, ip)).
  { destruct Hs as [-> | ->]; [|reflexivity]. rewrite E. cbn [app strip_minus].
    destruct (Z.eqb_spec d 45); [lia | reflexivity]. }
  rewrite Estrip, (digits_value_all ip Hds 0). fold (decimal_value ip).
  unfold LLONG_MAX, LLONG_MIN.
  destruct Hs as [-> | ->]; cbn zeta in v; fold v.
  - destruct (Z.gtb_spec v (2 ^ 63 - 1)); [lia|].
    destruct (Z.ltb_spec v (- 2 ^ 63)); [lia | reflexivity].
  - destruct (Z.gtb_spec v (2 ^ 63 - 1)); [lia|].
    destruct (Z.ltb_spec v (- 2 ^ 63)); [lia | reflexivity].
Qed.

(** The 60-bit payload of an Int node, written by [parse_number] and read by
    [json_get_int] with its sign extension. *)
Lemma int_node_reads_back (m : gmap Z Z) (val v : Z) :
  val <> 0 -> - 2 ^ 63 <= v < 2 ^ 63 ->
  let m' := val_set_payload (val_set_type m val JSON_INT) val
              (Z.land (u64 v) 0x0FFFFFFFFFFFFFFF) in
  json_is_int m' val = true /\
  json_get_int m' val = (v + 2 ^ 59) mod 2 ^ 60 - 2 ^ 59.
Proof.
  intros Hval Hv m'.
  set (p := Z.land (u64 v) 0x0FFFFFFFFFFFFFFF).
  assert (Ep : p = v mod 2 ^ 60).
  { unfold p, u64. change 0x0FFFFFFFFFFFFFFF with (Z.ones 60).
    rewrite Z.land_ones by lia. apply Z.mod_mod_divide.
    exists (2 ^ 4). reflexivity. }
  assert (Hp : 0 <= p < 2 ^ 60) by (rewrite Ep; apply Z.mod_pos_bound; lia).
  assert (Hty : val_get_type m' val = JSON_INT).
  { unfold m'. fold p. rewrite val_get_type_set_payload by exact Hp.
    apply val_get_type_set_type. unfold JSON_INT. lia. }
  assert (Hpay : val_get_payload m' val = p).
  { unfold m'. fold p. now apply val_get_payload_set_payload. }
  split.
  - unfold json_is_int. rewrite Hty, Z.eqb_refl.
    destruct (Z.eqb_spec val 0); [contradiction | reflexivity].
  - unfold json_get_int. rewrite Hty, Z.eqb_refl, Hpay.
    destruct (Z.eqb_spec val 0); [contradiction|].
    change (Z.shiftl 1 59) with (2 ^ 59).
    pose proof (Z.div_mod v (2 ^ 60) ltac:(lia)) as D1.
    pose proof (Z.mod_pos_bound v (2 ^ 60) ltac:(lia)) as B1.
    pose proof (Z.div_mod (v + 2 ^ 59) (2 ^ 60) ltac:(lia)) as D2.
    pose proof (Z.mod_pos_bound (v + 2 ^ 59) (2 ^ 60) ltac:(lia)) as B2.
    rewrite <- Ep in D1, B1.
    destruct (Z.lt_ge_cases p (2 ^ 59)) as [Hlow|Hhigh].
    + rewrite Z.land_comm, (land_disjoint (2 ^ 59) p 59) by (try reflexivity; lia).
      cbn [Z.eqb negb]. unfold s64.
      change (2 ^ 59) with 576460752303423488 in *.
      change (2 ^ 60) with 1152921504606846976 in *.
      change (2 ^ 63) with 9223372036854775808 in *.
      destruct (Z.ltb_spec p 9223372036854775808); lia.
    + assert (El : Z.land p (2 ^ 59) = 2 ^ 59).
      { replace p with (Z.lor (2 ^ 59) (p - 2 ^ 59))
          by (rewrite (lor_disjoint (2 ^ 59) (p - 2 ^ 59) 59);
              [lia | lia | reflexivity |
               change (2 ^ 59) with 576460752303423488 in *;
               change (2 ^ 60) with 1152921504606846976 in *; lia]).
        rewrite Z.land_lor_distr_l, Z.land_diag.
        rewrite (Z.land_comm (p - 2 ^ 59)), (land_disjoint (2 ^ 59) (p - 2 ^ 59) 59);
          [reflexivity | lia | reflexivity |
           change (2 ^ 59) with 576460752303423488 in *;
           change (2 ^ 60) with 1152921504606846976 in *; lia]. }
      rewrite El. cbn [Z.eqb negb Z.pow Z.pow_pos Pos.iter Z.mul Pos.mul].
      rewrite Z.lor_comm, (lor_disjoint 0xF000000000000000 p 60)
        by (try reflexivity; lia).
      unfold s64.
      change (2 ^ 59) with 576460752303423488 in *.
      change (2 ^ 60) with 1152921504606846976 in *.
      change (2 ^ 63) with 9223372036854775808 in *.
      change (2 ^ 64) with 18446744073709551616 in *.
      change (negb (576460752303423488 =? 0)) with true. cbv iota.
      destruct (Z.ltb_spec (17293822569102704640 + p) 9223372036854775808); lia.
Qed.

(** X11: on the text of an integer without fraction or exponent whose value
    fits 64 bits, [parse_number] makes an Int node and stands behind the
    digits; [json_get_int] reads the value reduced modulo 2^60 into the signed
    60-bit range, hence the value itself when it lies between -2^59 and
    2^59 - 1.  The digits are followed by a delimiter within the input, or
    they end the input and the byte behind the input is allocated and cannot
    continue a number: [strtoll] gets no length and stops only there. *)
Theorem parse_number_int (B : Z) (c : parser_ctx) (w : world) (sgn ip rest : list Z) :
  ctx_ok B c w -> input_below B c ->
  sgn = [] \/ sgn = [45] -> int_part ip -> follows rest ->
  remaining w c ((sgn ++ ip) ++ rest) ->
  (rest = [] -> terminated B w c) ->
  let v := match sgn with [] => decimal_value ip | _ :: _ => - decimal_value ip end in
  - 2 ^ 63 <= v < 2 ^ 63 ->
  exists val c' w',
    parse_number c w = (val, c', w') /\
    val <> 0 /\ pos c' = pos c + Z.of_nat (length (sgn ++ ip)) /\
    json_is_int (mem w') val = true /\
    json_get_int (mem w') val = (v + 2 ^ 59) mod 2 ^ 60 - 2 ^ 59 /\
    (- 2 ^ 59 <= v < 2 ^ 59 -> json_get_int (mem w') val = v).
Proof.
  intros Hc Hin Hs Hi Hf Hr Hterm v Hv.
  pose proof (ok_B _ _ _ (co_doc _ _ _ Hc)) as HB0.
  assert (Hr' : remaining w c ((sgn ++ ip ++ [] ++ []) ++ rest))
    by (cbn [app]; rewrite app_nil_r; exact Hr).
  destruct (parse_number_scan B c w sgn ip [] [] rest Hc Hin Hs Hi fp_none ep_none Hf Hr'
              Hterm)
    as (val & d1 & w1 & _ & _ & HBv & E).
  assert (Hval : val <> 0) by lia.
  rewrite E. cbv zeta. cbn [app]. rewrite app_nil_r.
  rewrite (strtoll_int sgn ip Hs Hi Hv). fold v.
  destruct (int_node_reads_back (mem w1) val v Hval Hv) as [Hint Hget].
  eexists _, _, _. split; [reflexivity|]. cbn [mem set_mem pos advance set_doc].
  split; [exact Hval|]. split; [reflexivity|]. split; [exact Hint|]. split; [exact Hget|].
  intros Hsmall. rewrite Hget.
  change (2 ^ 59) with 576460752303423488 in *.
  change (2 ^ 60) with 1152921504606846976.
  rewrite Z.mod_small by lia. lia.
Qed.

Lemma parse_number_int_witness :
  let text := [45; 52; 50] in
  let c := fst (token_start text) in
  let w := snd (token_start text) in
  exists val c' w',
    parse_number c w = (val, c', w') /\
    val <> 0 /\ pos c' = pos c + Z.of_nat (length ([45] ++ [52; 50])) /\
    json_is_int (mem w') val = true /\
    json_get_int (mem w') val = (- decimal_value [52; 50] + 2 ^ 59) mod 2 ^ 60 - 2 ^ 59 /\
    (- 2 ^ 59 <= - decimal_value [52; 50] < 2 ^ 59 ->
     json_get_int (mem w') val = - decimal_value [52; 50]).
Proof.
  intros text c w.
  apply (parse_number_int (input c + len c + 1) c w [45] [52; 50] []).
  - constructor; [constructor|]; vm_compute; try reflexivity;
      try (split; discriminate); try discriminate; left; discriminate.
  - split; vm_compute; [reflexivity | discriminate].
  - right. reflexivity.
  - apply ip_digits; [lia | repeat constructor; lia].
  - exact I.
  - split; vm_compute; reflexivity.
  - intros _. split; vm_compute; reflexivity.
  - vm_compute. split; [discriminate | reflexivity].
Defined.

(** ** Malformed numbers *)

Section NumberStops.

Variables (m : gmap Z Z) (start remaining_ : Z).

(** The test [i >= remaining || !isdigit(start[i])] where no digit stands. *)
Lemma window_no_digit (i : Z) (l : list Z) :
  window m start remaining_ i l -> next_is (fun b => isdigit b = false) l ->
  ((i >=? remaining_) || negb (isdigit (load8 m (start + i)))) = true.
Proof.
  intros Hw Hn. destruct l as [|b l].
  - apply window_nil in Hw. subst i.
    destruct (Z.geb_spec remaining_ remaining_); [reflexivity | lia].
  - apply window_head in Hw as (_ & -> & _). cbn in Hn. rewrite Hn. apply orb_true_r.
Qed.

(** The test of the sign at the head of the text. *)
Lemma window_sign (sgn l : list Z) :
  sgn = [] \/ sgn = [45] -> (sgn = [] -> next_is (fun b => b <> 45) l) ->
  window m start remaining_ 0 (sgn ++ l) ->
  (if (0 <? remaining_) && (load8 m (start + 0) =? 45) then 0 + 1 else 0)
  = Z.of_nat (length sgn).
Proof.
  intros Hs Hl Hw. rewrite (window_test m start remaining_ 0 _ (fun b => b =? 45) Hw).
  destruct Hs as [-> | ->]; [|reflexivity]. specialize (Hl eq_refl). cbn [app length Z.of_nat].
  destruct l as [|b l]; [reflexivity|]. cbn in Hl.
  destruct (Z.eqb_spec b 45); [contradiction | reflexivity].
Qed.

End NumberStops.

Lemma int_part_not_minus (ip l : list Z) :
  int_part ip -> next_is (fun b => b <> 45) (ip ++ l).
Proof. intros [|d ds Hd _]; cbn; lia. Qed.

(** [parse_number] behind the sign and the digits of the integer part: the
    two error returns that are left. *)
Lemma parse_number_after_int (c : parser_ctx) (w : world) (sgn ip tail : list Z) :
  sgn = [] \/ sgn = [45] -> int_part ip ->
  next_is (fun b => isdigit b = false) tail ->
  remaining w c (sgn ++ ip ++ tail) ->
  let m := mem w in
  let start := input c + pos c in
  let rem := len c - pos c in
  let i := Z.of_nat (length sgn) + Z.of_nat (length ip) in
  (number_fraction m start rem i = None ->
   parse_number c w =
     (0, c, ctx_error w c JSON_ERROR_NUMBER "Expected digit after decimal point"%string)) /\
  (forall fl i', number_fraction m start rem i = Some (fl, i') ->
     number_exponent m start rem fl i' = None ->
     parse_number c w =
       (0, c, ctx_error w c JSON_ERROR_NUMBER "Expected digit in exponent"%string)).
Proof.
  intros Hs Hi Htail Hr m start rem i.
  assert (Hw0 : window m start rem 0 (sgn ++ ip ++ tail)).
  { destruct Hr as [Hl Hr]. split; [unfold rem; lia|]. now rewrite Z.add_0_r. }
  destruct (int_part_head ip Hi) as (d0 & ds0 & Eip & Hd0 & Hds0).
  unfold parse_number. cbv zeta.
  fold m. fold start. fold rem.
  rewrite (window_sign m start rem sgn (ip ++ tail) Hs
             (fun _ => int_part_not_minus ip tail Hi) Hw0).
  pose proof (window_app m start rem 0 sgn _ Hw0) as Hw1. rewrite Z.add_0_l in Hw1.
  set (i1 := Z.of_nat (length sgn)) in *.
  rewrite Eip in Hw1. cbn [app] in Hw1.
  rewrite (window_digit m start rem i1 d0 _ Hw1 Hd0).
  assert (A3 : (load8 m (start + i1) =? 48) && (i1 + 1 <? rem) &&
               isdigit (load8 m (start + (i1 + 1))) = false).
  { pose proof (window_head m start rem i1 _ _ Hw1) as (_ & E0 & Hw2).
    rewrite <- andb_assoc, (window_test m start rem (i1 + 1) _ isdigit Hw2), E0.
    rewrite Eip in Hi. inversion Hi as [|d ds Hd Hds]; subst.
    - cbn [app]. destruct tail; [reflexivity|]. cbn in Htail. now rewrite Htail.
    - match goal with
      | |- context [?x =? 48] => destruct (Z.eqb_spec x 48); [lia | reflexivity]
      end. }
  rewrite A3.
  assert (A4 : skip_digits (Z.to_nat (rem - i1)) m start rem i1 = i1 + Z.of_nat (length ip)).
  { rewrite Eip.
    apply (skip_digits_spec m start rem (d0 :: ds0) ltac:(constructor; assumption)
             _ _ tail Hw1 Htail).
    destruct Hw1 as [Hl _]. cbn [length] in Hl |- *. rewrite length_app in Hl. lia. }
  rewrite A4. fold i.
  split.
  - intros ->. reflexivity.
  - intros fl i' -> ->. reflexivity.
Qed.

(** X12: [parse_number] returns [NULL] and records [JSON_ERROR_NUMBER] at the
    start of the token when no digit follows the optional sign, when a zero
    is followed by another digit, when no digit follows the decimal point,
    and when no digit follows the exponent letter and its optional sign. *)
Theorem parse_number_rejects (c : parser_ctx) (w : world) (l : list Z) :
  remaining w c l -> bad_number l ->
  fst (fst (parse_number c w)) = 0 /\
  code (g_last_error (snd (parse_number c w))) = JSON_ERROR_NUMBER /\
  position (g_last_error (snd (parse_number c w))) = pos c.
Proof.
  intros Hr Hbad.
  set (m := mem w). set (start := input c + pos c). set (rem := len c - pos c).
  assert (Hw0 : window m start rem 0 l).
  { destruct Hr as [Hl Hr]. split; [unfold rem; lia|]. unfold start. now rewrite Z.add_0_r. }
  destruct Hbad as [sgn rest Hs Hn H45 | sgn d rest Hs Hd | sgn ip rest Hs Hi Hn
                   | sgn ip fp e es rest Hs Hi Hfp He Hes Hn Hsign].
  - unfold parse_number. cbv zeta. fold m. fold start. fold rem.
    rewrite (window_sign m start rem sgn rest Hs H45 Hw0).
    pose proof (window_app m start rem 0 sgn _ Hw0) as Hw1. rewrite Z.add_0_l in Hw1.
    rewrite (window_no_digit m start rem _ rest Hw1 Hn). repeat split.
  - unfold parse_number. cbv zeta. fold m. fold start. fold rem.
    rewrite (window_sign m start rem sgn (48 :: d :: rest) Hs (fun _ => ltac:(cbn; lia)) Hw0).
    pose proof (window_app m start rem 0 sgn _ Hw0) as Hw1. rewrite Z.add_0_l in Hw1.
    rewrite (window_digit m start rem _ 48 _ Hw1 ltac:(lia)).
    apply window_head in Hw1 as (_ & E0 & Hw2).
    rewrite <- andb_assoc, (window_test m start rem _ _ isdigit Hw2), E0.
    rewrite (isdigit_true d Hd). repeat split.
  - destruct (parse_number_after_int c w sgn ip (46 :: rest) Hs Hi eq_refl Hr) as [H _].
    rewrite H; [repeat split|]. fold m. fold start. fold rem.
    rewrite app_assoc in Hw0.
    pose proof (window_app m start rem 0 (sgn ++ ip) _ Hw0) as Hw1.
    rewrite Z.add_0_l, length_app, Nat2Z.inj_add in Hw1.
    unfold number_fraction.
    rewrite (window_test m start rem _ _ (fun b => b =? 46) Hw1). cbn [Z.eqb Pos.eqb].
    apply window_head in Hw1 as (_ & _ & Hw2).
    now rewrite (window_no_digit m start rem _ rest Hw2 Hn).
  - assert (Hne : next_is (fun b => isdigit b = false /\ b <> 46) (e :: es ++ rest)).
    { cbn. unfold isdigit. destruct He as [-> | ->]; split; (reflexivity || lia). }
    destruct (parse_number_after_int c w sgn ip (fp ++ e :: es ++ rest) Hs Hi
                (frac_part_next fp _ Hfp Hne) Hr) as [_ H].
    fold m in H. fold start in H. fold rem in H.
    rewrite (app_assoc sgn ip) in Hw0.
    pose proof (window_app m start rem 0 (sgn ++ ip) _ Hw0) as Hw1.
    rewrite Z.add_0_l, length_app, Nat2Z.inj_add in Hw1.
    pose proof (number_fraction_spec m start rem fp (e :: es ++ rest) _ Hfp Hw1
                  ltac:(lia) Hne) as Ef.
    rewrite (H _ _ Ef); [repeat split|].
    pose proof (window_app m start rem _ fp _ Hw1) as Hw2.
    unfold number_exponent.
    rewrite (window_test m start rem _ _ (fun b => (b =? 101) || (b =? 69)) Hw2).
    assert (Ee : (e =? 101) || (e =? 69) = true) by (destruct He as [-> | ->]; reflexivity).
    rewrite Ee. apply window_head in Hw2 as (_ & _ & Hw3).
    rewrite (window_test m start rem _ _ (fun b => (b =? 43) || (b =? 45)) Hw3).
    pose proof (window_app m start rem _ es _ Hw3) as Hw4.
    destruct Hes as [-> | [-> | ->]]; cbn [app length] in *;
      change (Z.of_nat 0) with 0 in *; change (Z.of_nat 1) with 1 in *.
    + rewrite Z.add_0_r in Hw4.
      assert (Eno : match rest with [] => false | b :: _ => (b =? 43) || (b =? 45) end = false).
      { destruct rest as [|b rest]; [reflexivity|]. destruct (Hsign eq_refl) as [H43 H45].
        apply Z.eqb_neq in H43, H45. now rewrite H43, H45. }
      rewrite Eno. now rewrite (window_no_digit m start rem _ rest Hw4 Hn).
    + cbn [Z.eqb Pos.eqb orb]. now rewrite (window_no_digit m start rem _ rest Hw4 Hn).
    + cbn [Z.eqb Pos.eqb orb]. now rewrite (window_no_digit m start rem _ rest Hw4 Hn).
Qed.

Lemma parse_number_rejects_witness :
  let text := [49; 46; 120] in
  let c := fst (token_start text) in
  let w := snd (token_start text) in
  fst (fst (parse_number c w)) = 0 /\
  code (g_last_error (snd (parse_number c w))) = JSON_ERROR_NUMBER /\
  position (g_last_error (snd (parse_number c w))) = pos c.
Proof.
  intros text c w. apply (parse_number_rejects c w [49; 46; 120]).
  - split; vm_compute; reflexivity.
  - apply (bn_fraction [] [49] [120]); [now left | | reflexivity].
    apply ip_digits; [lia | constructor].
Defined.

(** * The cursor and the entry points *)

(** ** [skip_ws] *)

Lemma remaining_next (w : world) (c c1 : parser_ctx) (b : Z) (l : list Z) :
  remaining w c (b :: l) ->
  input c1 = input c -> len c1 = len c -> pos c1 = pos c + 1 ->
  remaining w c1 l.
Proof.
  intros [Hl Hr] Ei El Ep. cbn [length read_bytes] in Hl, Hr. injection Hr as _ Hr.
  split; [rewrite El, Ep; lia|]. rewrite Ei, Ep. etransitivity; [|exact Hr]. f_equal. lia.
Qed.

Lemma newlines_cons (b : Z) (l : list Z) :
  newlines (b :: l) = (if b =? 10 then 1 else 0) + newlines l.
Proof.
  unfold newlines. cbn [count_occ].
  destruct (Z.eq_dec b 10) as [->|Hne]; [cbn [Z.eqb Pos.eqb]; lia|].
  destruct (Z.eqb_spec b 10); [contradiction | lia].
Qed.

(** One turn of the loop on a whitespace byte. *)
Lemma skip_ws_loop_step (k : nat) (w : world) (c : parser_ctx) (b : Z) (l : list Z) :
  is_ws_byte b = true -> remaining w c (b :: l) ->
  skip_ws_loop (S k) w c =
    skip_ws_loop k w (if b =? 10 then advance_line c else advance c 1).
Proof.
  intros Hb Hr. apply remaining_head in Hr as [Hlt Eb].
  cbn [skip_ws_loop]. destruct (Z.ltb_spec (pos c) (len c)); [|lia]. rewrite Eb.
  unfold is_ws_byte in Hb.
  destruct (Z.eqb_spec b 10) as [->|Hne]; [reflexivity|].
  destruct (Z.eqb_spec b 32); [reflexivity|]. destruct (Z.eqb_spec b 9); [reflexivity|].
  destruct (Z.eqb_spec b 13); [reflexivity|]. discriminate Hb.
Qed.

Lemma skip_ws_loop_stop (n : nat) (w : world) (c : parser_ctx) (rest : list Z) :
  remaining w c rest -> next_is (fun b => is_ws_byte b = false) rest ->
  skip_ws_loop n w c = c.
Proof.
  intros Hr Hn. destruct n as [|k]; cbn [skip_ws_loop]; [reflexivity|].
  destruct (Z.ltb_spec (pos c) (len c)) as [Hlt|]; [|reflexivity].
  destruct rest as [|b rest]; [apply remaining_nil in Hr; lia|].
  apply remaining_head in Hr as [_ ->]. cbn in Hn. unfold is_ws_byte in Hn.
  apply orb_false_elim in Hn as [Hn H13]. apply orb_false_elim in Hn as [Hn H10].
  apply orb_false_elim in Hn as [H32 H9]. now rewrite H32, H9, H13, H10.
Qed.

Lemma skip_ws_loop_tracks (w : world) (ws : list Z) :
  is_ws ws ->
  forall n c rest,
    remaining w c (ws ++ rest) -> next_is (fun b => is_ws_byte b = false) rest ->
    (length ws <= n)%nat ->
    let c' := skip_ws_loop n w c in
    pos c' = pos c + Z.of_nat (length ws) /\
    line c' = line c + newlines ws /\
    (one_line ws -> col c' = col c + Z.of_nat (length ws)) /\
    (forall pre suf, ws = pre ++ 10 :: suf -> one_line suf ->
       col c' = 1 + Z.of_nat (length suf)).
Proof.
  induction 1 as [|b ws Hb Hws IH]; intros n c rest Hr Hrest Hn.
  - cbn [app] in Hr. rewrite (skip_ws_loop_stop n w c rest Hr Hrest). cbn.
    split; [lia|]. split; [unfold newlines; cbn; lia|]. split; [intros _; lia|].
    intros [|x pre] suf E; discriminate E.
  - destruct n as [|k]; [cbn in Hn; lia|]. cbn [app] in Hr.
    rewrite (skip_ws_loop_step k w c b _ Hb Hr). cbv zeta.
    set (c1 := if b =? 10 then advance_line c else advance c 1).
    assert (Hr1 : remaining w c1 (ws ++ rest)).
    { apply (remaining_next w c c1 b _ Hr); unfold c1; destruct (b =? 10); reflexivity. }
    destruct (IH k c1 rest Hr1 Hrest ltac:(cbn in Hn; lia)) as (Hp & Hl & Hca & Hcb).
    assert (Ep1 : pos c1 = pos c + 1) by (unfold c1; destruct (b =? 10); reflexivity).
    rewrite newlines_cons. cbn [length]. split; [lia|]. split; [|split].
    + rewrite Hl. unfold c1. destruct (b =? 10); cbn; lia.
    + intros Hone. inversion Hone as [|? ? Hb10 Hone']; subst.
      rewrite (Hca Hone'). unfold c1. destruct (Z.eqb_spec b 10); [contradiction|]. cbn. lia.
    + intros [|x pre] suf E Hone.
      * cbn [app] in E. injection E as -> ->. rewrite (Hca Hone). reflexivity.
      * cbn [app] in E. injection E as -> ->. exact (Hcb pre suf eq_refl Hone).
Qed.

(** X13: over the whitespace under the cursor [skip_ws] moves the position
    by its length and adds its line feeds to the line; the column grows by
    the length when there is no line feed, and is one more than the number of
    bytes behind the last line feed otherwise.  The other fields of the
    context are left alone. *)
Theorem skip_ws_tracks (w : world) (c : parser_ctx) (ws rest : list Z) :
  is_ws ws -> remaining w c (ws ++ rest) ->
  next_is (fun b => is_ws_byte b = false) rest ->
  let c' := skip_ws w c in
  pos c' = pos c + Z.of_nat (length ws) /\
  line c' = line c + newlines ws /\
  (one_line ws -> col c' = col c + Z.of_nat (length ws)) /\
  (forall pre suf, ws = pre ++ 10 :: suf -> one_line suf ->
     col c' = 1 + Z.of_nat (length suf)) /\
  moves c c'.
Proof.
  intros Hws Hr Hrest c'.
  destruct (skip_ws_loop_tracks w ws Hws (Z.to_nat (len c - pos c)) c rest Hr Hrest)
    as (Hp & Hl & Hca & Hcb).
  { destruct Hr as [Hlen _]. rewrite length_app in Hlen. lia. }
  repeat (split; [assumption|]). apply skip_ws_moves.
Qed.

Lemma skip_ws_tracks_witness :
  let text := [32; 10; 9; 32; 49] in
  let c := fst (token_start text) in
  let w := snd (token_start text) in
  let c' := skip_ws w c in
  pos c' = pos c + Z.of_nat (length [32; 10; 9; 32]) /\
  line c' = line c + newlines [32; 10; 9; 32] /\
  (one_line [32; 10; 9; 32] -> col c' = col c + Z.of_nat (length [32; 10; 9; 32])) /\
  (forall pre suf, [32; 10; 9; 32] = pre ++ 10 :: suf -> one_line suf ->
     col c' = 1 + Z.of_nat (length suf)) /\
  moves c c'.
Proof.
  intros text c w. apply (skip_ws_tracks w c [32; 10; 9; 32] [49]).
  - repeat constructor.
  - split; vm_compute; reflexivity.
  - reflexivity.
Defined.

(** ** [json_parse_opts] *)

Lemma json_init_brk (w : world) :
  brk (if g_initialized w then w else json_init w) = brk w /\
  mem (if g_initialized w then w else json_init w) = mem w.
Proof. unfold json_init. destruct (g_initialized w); split; reflexivity. Qed.

(** [parse_value] where no value starts. *)
Lemma parse_value_no_start (f : nat) (w : world) (c : parser_ctx) (ws rest : list Z) :
  is_ws ws -> remaining w c (ws ++ rest) -> 0 <= pos c ->
  next_is (fun b => is_ws_byte b = false /\ is_value_start b = false) rest ->
  exists msg,
    parse_value (S f) c w =
      Some (0, skip_ws w c, ctx_error w (skip_ws w c) JSON_ERROR_SYNTAX msg).
Proof.
  intros Hws Hr H0 Hrest.
  assert (Hrest' : next_is (fun b => is_ws_byte b = false) rest)
    by (destruct rest; [exact I | apply Hrest]).
  destruct (skip_ws_tracks w c ws rest Hws Hr Hrest') as (Hp & _ & _ & _ & Hm).
  cbn [parse_value]. unfold peek.
  destruct rest as [|b rest].
  - rewrite app_nil_r in Hr. destruct Hr as [Hl _]. destruct Hm.
    destruct (Z.geb_spec (pos (skip_ws w c)) (len (skip_ws w c))); [|lia].
    cbn. eexists. reflexivity.
  - pose proof (remaining_moves w c _ ws (b :: rest) Hr Hm Hp H0) as Hr'.
    apply remaining_head in Hr' as [Hlt Eb].
    destruct (Z.geb_spec (pos (skip_ws w c)) (len (skip_ws w c))); [lia|].
    rewrite Eb. destruct Hrest as [_ Hv]. unfold is_value_start in Hv.
    repeat (apply orb_false_elim in Hv as [Hv ?]).
    repeat match goal with H : (_ =? _) = false |- _ => rewrite H; clear H end.
    match goal with H : isdigit b = false |- _ => rewrite H end.
    cbn [orb]. destruct (b =? 0); eexists; reflexivity.
Qed.

(** X14: an input that is empty, that holds only whitespace, or whose first
    byte behind the leading whitespace cannot start a value is rejected:
    [json_parse_opts] returns [NULL] and records [JSON_ERROR_SYNTAX] with the
    offset of that place, its line and, on the first line, its column. *)
Theorem json_parse_rejects_start (json : Z) (opts : option json_parse_options) (w : world)
    (ws rest : list Z) :
  0 < json -> json + Z.of_nat (length (ws ++ rest)) <= brk w ->
  read_bytes (length (ws ++ rest)) (mem w) json = ws ++ rest ->
  is_ws ws ->
  next_is (fun b => is_ws_byte b = false /\ is_value_start b = false) rest ->
  exists w',
    json_parse_opts json (Z.of_nat (length (ws ++ rest))) opts w = Some (None, w') /\
    code (g_last_error w') = JSON_ERROR_SYNTAX /\
    position (g_last_error w') = Z.of_nat (length ws) /\
    err_line (g_last_error w') = 1 + newlines ws /\
    (one_line ws -> column (g_last_error w') = 1 + Z.of_nat (length ws)).
Proof.
  intros Hj Hb Hrd Hws Hrest. unfold json_parse_opts.
  destruct (json_init_brk w) as [Hb0 Hm0].
  set (w0 := if g_initialized w then w else json_init w) in *.
  destruct (Z.eqb_spec json 0) as [|_]; [lia|]. cbn [orb].
  set (len_ := Z.of_nat (length (ws ++ rest))) in *.
  destruct (Z.eqb_spec len_ 0) as [Hz|Hnz].
  - assert (E : ws = []).
    { destruct ws; [reflexivity|]. unfold len_ in Hz. cbn [app length] in Hz. lia. }
    subst ws. eexists. split; [reflexivity|]. cbn.
    repeat split.
  - unfold parse_json.
    set (n := if (len_ / 4 + 1) * sizeof_json_val <? 64 * 1024 then 64 * 1024
              else (len_ / 4 + 1) * sizeof_json_val).
    assert (Hn : 0 < n) by (subst n; destruct (Z.ltb_spec ((len_ / 4 + 1) * sizeof_json_val)
                                                           (64 * 1024)); lia).
    destruct (arena_create n w0) as [rd w1] eqn:Ec.
    apply arena_create_ok in Ec as (d0 & -> & Hd0 & Hm1 & _); [|lia|assumption].
    set (c0 := mk_ctx json len_ 0 1 1 d0 _ _ 0).
    assert (Hr0 : remaining w1 c0 (ws ++ rest)).
    { split; [cbn; lia|]. cbn [input pos c0]. now rewrite Z.add_0_r, Hm1, Hm0. }
    assert (Hrest' : next_is (fun b => is_ws_byte b = false) rest)
      by (destruct rest; [exact I | apply Hrest]).
    destruct (parse_value_no_start (Z.to_nat len_) w1 c0 ws rest Hws Hr0 ltac:(cbn; lia) Hrest)
      as (msg & ->).
    cbn [Z.eqb]. eexists. split; [reflexivity|].
    rewrite (proj2 (arena_destroy_mem _ _)).
    destruct (skip_ws_tracks w1 c0 ws rest Hws Hr0 Hrest') as (Hp & Hl & Hca & _ & _).
    cbn [ctx_error set_error g_last_error code position err_line column].
    split; [reflexivity|]. split; [rewrite Hp; reflexivity|].
    split; [rewrite Hl; reflexivity|]. intros Hone. rewrite (Hca Hone). reflexivity.
Qed.

Lemma json_parse_rejects_start_witness :
  let text := [32; 32; 93] in
  let pw := place_string text fresh_world in
  exists w',
    json_parse_opts (fst pw) (Z.of_nat (length ([32; 32] ++ [93]))) None (snd pw)
      = Some (None, w') /\
    code (g_last_error w') = JSON_ERROR_SYNTAX /\
    position (g_last_error w') = Z.of_nat (length [32; 32]) /\
    err_line (g_last_error w') = 1 + newlines [32; 32] /\
    (one_line [32; 32] -> column (g_last_error w') = 1 + Z.of_nat (length [32; 32])).
Proof.
  intros text pw. apply (json_parse_rejects_start (fst pw) None (snd pw) [32; 32] [93]).
  - vm_compute. reflexivity.
  - vm_compute. discriminate.
  - vm_compute. reflexivity.
  - repeat constructor.
  - split; reflexivity.
Defined.

(** X15: a JSON value within the depth limit that is followed, behind
    optional whitespace, by one more byte is rejected: [json_parse_opts]
    returns [NULL] and records [JSON_ERROR_SYNTAX] at the offset of that
    byte.  The byte stands behind whitespace, or is a comma or a closing
    bracket or brace.  The text is short enough for one node per byte to
    fit the first arena of 64 KiB (2730 bytes at most): every node is
    allocated for a token of at least one byte, so [arena_grow], which
    releases the block the nodes built so far live in, is never called
    (lemma [parse_value_keeps_arena]). *)
Theorem json_parse_rejects_trailing (json : Z) (opts : option json_parse_options)
    (w : world) (d : nat) (ws1 v ws2 : list Z) (b : Z) (rest : list Z) :
  let text := ws1 ++ v ++ ws2 ++ b :: rest in
  let max_depth := match opts with Some o => opt_max_depth o | None => 0 end in
  0 < json -> json + Z.of_nat (length text) <= brk w ->
  read_bytes (length text) (mem w) json = text ->
  is_ws ws1 -> value_text d v -> within_limit max_depth 0 d ->
  is_ws ws2 -> is_ws_byte b = false -> ws2 <> [] \/ is_delimiter b = true ->
  Z.of_nat (length text) * sizeof_json_val <= 64 * 1024 ->
  exists w',
    json_parse_opts json (Z.of_nat (length text)) opts w = Some (None, w') /\
    code (g_last_error w') = JSON_ERROR_SYNTAX /\
    position (g_last_error w') = Z.of_nat (length (ws1 ++ v ++ ws2)).
Proof.
  intros text maxd Hj Hb Hrd Hws1 Hv Hlim Hws2 Hnb Hsep _. unfold json_parse_opts.
  destruct (json_init_brk w) as [Hb0 Hm0].
  set (w0 := if g_initialized w then w else json_init w) in *.
  destruct (Z.eqb_spec json 0) as [|_]; [lia|]. cbn [orb].
  set (len_ := Z.of_nat (length text)) in *.
  assert (Hlen : 0 < len_) by (unfold len_, text; rewrite !length_app; cbn [length]; lia).
  destruct (Z.eqb_spec len_ 0) as [|_]; [lia|].
  unfold parse_json.
  set (n := if (len_ / 4 + 1) * sizeof_json_val <? 64 * 1024 then 64 * 1024
            else (len_ / 4 + 1) * sizeof_json_val).
  assert (Hn : 0 < n) by (subst n; destruct (Z.ltb_spec ((len_ / 4 + 1) * sizeof_json_val)
                                                         (64 * 1024)); lia).
  destruct (arena_create n w0) as [rd w1] eqn:Ec.
  apply arena_create_ok in Ec as (d0 & -> & Hd0 & Hm1 & _); [|lia|assumption].
  set (c0 := mk_ctx json len_ 0 1 1 d0 _ _ 0).
  assert (Hc0 : ctx_ok (brk w) c0 w1)
    by (constructor; cbn; [rewrite <- Hb0; assumption | lia]).
  assert (Hin0 : input_below (brk w) c0) by (split; cbn; lia).
  assert (Hr0 : remaining w1 c0 (ws1 ++ v ++ ws2 ++ b :: rest)).
  { split; [reflexivity|]. cbn [input pos c0]. rewrite Z.add_0_r, Hm1, Hm0. exact Hrd. }
  assert (Hf : follows (ws2 ++ b :: rest)).
  { destruct Hsep as [Hne|Hd]; [|now apply follows_ws].
    destruct Hws2 as [|x ws2' Hx _]; [contradiction|].
    cbn [app follows]. unfold is_delimiter. now rewrite Hx. }
  destruct (parse_value_text (S (Z.to_nat len_)) (brk w) c0 w1 ws1 d v _ Hc0 Hin0 Hws1 Hv
              Hf Hr0)
    as (r & c1 & w2 & Ep & Hyes & _); [cbn; lia | cbn; lia | exact (app_cons_ends _ _ _ _) |].
  rewrite Ep. cbn [max_depth depth c0] in Hyes. fold maxd in Hyes.
  pose proof (parse_value_steps (brk w) _ c0 w1 r c1 w2 Hc0 Ep) as [S1 _].
  destruct (Hyes Hlim) as [Hr1 Hp1]. destruct (Z.eqb_spec r 0) as [|_]; [contradiction|].
  set (d1 := mk_doc _ _ _ _ _ _ r _ _).
  assert (S2 : steps (brk w) c0 w1 (set_doc c1 d1) w2).
  { destruct S1 as [[Hdoc Hps] ? ? ? ? ? ?]. constructor; cbn; try assumption.
    constructor; cbn; [|assumption]. destruct Hdoc. constructor; assumption. }
  assert (Hr2 : remaining w2 (set_doc c1 d1) (ws2 ++ b :: rest)).
  { apply (remaining_steps2 (brk w) w1 w2 c0 _ ws1 v _ Hr0 Hin0 S2);
      [cbn [pos set_doc]; exact Hp1 | cbn; lia]. }
  destruct (skip_ws_tracks w2 _ ws2 (b :: rest) Hws2 Hr2 Hnb) as (Hp2 & _ & _ & _ & Hm2).
  destruct Hr2 as [Hl2 _]. rewrite length_app in Hl2. cbn [length] in Hl2.
  destruct Hm2 as [_ Hlen2 _ _ _ _ _].
  destruct (Z.ltb_spec (pos (skip_ws w2 (set_doc c1 d1))) (len (skip_ws w2 (set_doc c1 d1))))
    as [_|Hge]; [|lia].
  eexists. split; [reflexivity|].
  rewrite (proj2 (arena_destroy_mem _ _)).
  cbn [ctx_error set_error g_last_error code position]. split; [reflexivity|].
  rewrite Hp2. cbn [pos set_doc]. rewrite Hp1. cbn [pos c0].
  rewrite !length_app. lia.
Qed.

Lemma json_parse_rejects_trailing_witness :
  let text := [91; 93] ++ [32] ++ 49 :: [] in
  let pw := place_string text fresh_world in
  exists w',
    json_parse_opts (fst pw) (Z.of_nat (length ([] ++ [91; 93] ++ [32] ++ 49 :: []))) None
      (snd pw) = Some (None, w') /\
    code (g_last_error w') = JSON_ERROR_SYNTAX /\
    position (g_last_error w') = Z.of_nat (length ([] ++ [91; 93] ++ [32])).
Proof.
  intros text pw.
  apply (json_parse_rejects_trailing (fst pw) None (snd pw) 1 [] [91; 93] [32] 49 []).
  - vm_compute. reflexivity.
  - vm_compute. discriminate.
  - vm_compute. reflexivity.
  - constructor.
  - apply (vt_empty_array []). constructor.
  - left. cbn. lia.
  - repeat constructor.
  - reflexivity.
  - left. discriminate.
  - vm_compute. discriminate.
Defined.

(** * Accessors on containers *)

Lemma siblings_nth (m : gmap Z Z) (l : list Z) :
  forall p, siblings m p l ->
    forall i, (i < length l)%nat ->
      nth i l 0 <> 0 /\ next m (nth i l 0) = nth (S i) l 0.
Proof.
  induction l as [|x t IH]; intros p H i Hi; [cbn in Hi; lia|].
  destruct H as (-> & Hx & Ht). destruct i as [|i].
  - split; [exact Hx|]. cbn [nth]. destruct t as [|y t']; [exact Ht | apply Ht].
  - cbn [nth length] in *. apply (IH _ Ht). lia.
Qed.

Lemma siblings_head (m : gmap Z Z) (l : list Z) (p : Z) : siblings m p l -> p = nth 0 l 0.
Proof. destruct l as [|x t]; [intros ->; reflexivity | intros (-> & _); reflexivity]. Qed.

Lemma arr_get_loop_nth (m : gmap Z Z) (l : list Z) :
  forall n p i index, siblings m p l ->
    i <= index < i + Z.of_nat (length l) -> index - i <= Z.of_nat n ->
    arr_get_loop n m p i index = nth (Z.to_nat (index - i)) l 0.
Proof.
  induction l as [|x t IH]; intros n p i index H Hi Hn; [cbn in Hi; lia|].
  destruct H as (-> & Hx & Ht). cbn [length] in Hi.
  destruct (Z.eq_dec i index) as [->|Hne].
  - rewrite Z.sub_diag. cbn [Z.to_nat nth].
    destruct n as [|n]; cbn [arr_get_loop]; [reflexivity|].
    rewrite Z.ltb_irrefl, andb_false_r. reflexivity.
  - destruct n as [|n]; [lia|]. cbn [arr_get_loop].
    destruct (Z.eqb_spec x 0) as [|_]; [contradiction|].
    destruct (Z.ltb_spec i index); [|lia]. cbn [negb andb].
    rewrite (IH n _ (i + 1) index Ht) by lia.
    replace (Z.to_nat (index - i)) with (S (Z.to_nat (index - (i + 1)))) by lia.
    reflexivity.
Qed.

(** X16: on an array node whose children form a sibling list,
    [json_arr_size] is the number of children, [json_arr_get] at an index
    below the size is the child at that place of the list and not [NULL],
    index zero is [json_arr_first], and the next index is reached by
    [json_arr_next], also at and behind the end, where both give [NULL]. *)
Theorem json_arr_get_nth (m : gmap Z Z) (arr : Z) (l : list Z) :
  arr <> 0 -> val_get_type m arr = JSON_ARRAY -> siblings m (child m arr) l ->
  json_arr_size (S (length l)) m arr = Some (Z.of_nat (length l)) /\
  (forall i, (i < length l)%nat ->
     json_arr_get m arr (Z.of_nat i) = nth i l 0 /\ json_arr_get m arr (Z.of_nat i) <> 0) /\
  json_arr_get m arr 0 = json_arr_first m arr /\
  (forall index, 0 <= index ->
     json_arr_get m arr (index + 1) = json_arr_next m (json_arr_get m arr index)).
Proof.
  intros Harr Hty Hl.
  assert (Eget : forall index, json_arr_get m arr index
                   = arr_get_loop (Z.to_nat index) m (child m arr) 0 index).
  { intros index. unfold json_arr_get. rewrite Hty, Z.eqb_refl.
    destruct (Z.eqb_spec arr 0); [contradiction | reflexivity]. }
  assert (Hin : forall i, (i < length l)%nat -> json_arr_get m arr (Z.of_nat i) = nth i l 0).
  { intros i Hi. rewrite Eget, (arr_get_loop_nth m l _ _ 0 _ Hl) by lia.
    f_equal. lia. }
  assert (Hout : forall index, Z.of_nat (length l) <= index -> json_arr_get m arr index = 0).
  { intros index Hi. rewrite Eget. apply (arr_get_loop_past_end m l); [exact Hl | lia | lia]. }
  split; [|split; [|split]].
  - unfold json_arr_size. rewrite Hty, Z.eqb_refl.
    destruct (Z.eqb_spec arr 0); [contradiction|]. cbn [negb orb].
    rewrite (count_siblings_spec m l _ 0 Hl). reflexivity.
  - intros i Hi. rewrite (Hin i Hi). split; [reflexivity|].
    apply (siblings_nth m l _ Hl i Hi).
  - rewrite Eget. cbn [Z.to_nat arr_get_loop]. unfold json_arr_first.
    rewrite Hty, Z.eqb_refl. destruct (Z.eqb_spec arr 0); [contradiction | reflexivity].
  - intros index H0. unfold json_arr_next.
    destruct (Z.lt_ge_cases index (Z.of_nat (length l))) as [Hlt|Hge].
    + assert (Ei : index = Z.of_nat (Z.to_nat index)) by lia.
      set (i := Z.to_nat index) in *. clearbody i. subst index.
      rewrite (Hin i) by lia.
      destruct (siblings_nth m l _ Hl i ltac:(lia)) as [Hnz Hnext].
      destruct (Z.eqb_spec (nth i l 0) 0); [contradiction|].
      rewrite Hnext.
      destruct (Z.lt_ge_cases (Z.of_nat i + 1) (Z.of_nat (length l))) as [Hlt'|Hge'].
      * replace (Z.of_nat i + 1) with (Z.of_nat (S i)) by lia.
        apply Hin. lia.
      * rewrite (Hout (Z.of_nat i + 1)) by lia. symmetry. apply nth_overflow. lia.
    + rewrite (Hout index Hge), (Hout (index + 1)) by lia. reflexivity.
Qed.

(** An array node at 64 with two Int children at 128 and 152. *)
Lemma json_arr_get_nth_witness :
  let m := val_set_type
             (set_next (val_set_type (set_child (val_set_type ∅ 64 JSON_ARRAY) 64 128)
                          128 JSON_INT) 128 152)
             152 JSON_INT in
  json_arr_size (S (length [128; 152])) m 64 = Some (Z.of_nat (length [128; 152])) /\
  (forall i, (i < length [128; 152])%nat ->
     json_arr_get m 64 (Z.of_nat i) = nth i [128; 152] 0 /\
     json_arr_get m 64 (Z.of_nat i) <> 0) /\
  json_arr_get m 64 0 = json_arr_first m 64 /\
  (forall index, 0 <= index ->
     json_arr_get m 64 (index + 1) = json_arr_next m (json_arr_get m 64 index)).
Proof.
  intros m. apply (json_arr_get_nth m 64 [128; 152]).
  - discriminate.
  - vm_compute. reflexivity.
  - vm_compute. repeat split; discriminate.
Defined.

Lemma obj_getn_loop_first (m : gmap Z Z) (key key_len : Z) (pre : list Z) (k : Z) (post : list Z) :
  forall n p, siblings m p (pre ++ k :: post) ->
    (forall k', In k' pre -> ~ key_matches m k' key key_len) ->
    key_matches m k key key_len -> (length pre < n)%nat ->
    obj_getn_loop n m p key key_len = Some (child m k).
Proof.
  induction pre as [|x t IH]; intros n p H Hno Hk Hn.
  - destruct H as (-> & Hx & _). destruct n as [|n]; [lia|]. cbn [obj_getn_loop].
    destruct (Z.eqb_spec k 0) as [|_]; [contradiction|].
    destruct Hk as (Hlen & Hptr & Hbytes).
    rewrite Hlen, Z.eqb_refl. destruct (Z.eqb_spec (json_get_str m k) 0); [contradiction|].
    unfold memcmp_eq, bytes_eqb. rewrite Hbytes, bool_decide_eq_true_2; reflexivity.
  - destruct H as (-> & Hx & Ht). destruct n as [|n]; [cbn in Hn; lia|].
    cbn [obj_getn_loop].
    destruct (Z.eqb_spec x 0) as [|_]; [contradiction|].
    destruct ((json_get_str_len m x =? key_len) &&
              (negb (json_get_str m x =? 0) &&
               memcmp_eq m (json_get_str m x) key key_len)) eqn:E.
    + exfalso. apply (Hno x (or_introl eq_refl)).
      apply andb_prop in E as [E1 E2]. apply andb_prop in E2 as [E2 E3].
      unfold key_matches. repeat split.
      * now apply Z.eqb_eq.
      * apply negb_true_iff, Z.eqb_neq in E2. exact E2.
      * unfold memcmp_eq, bytes_eqb in E3. now apply bool_decide_eq_true in E3.
    + apply (IH n _ Ht); [|exact Hk | cbn in Hn; lia].
      intros k' Hk'. apply Hno. now right.
Qed.

(** X17: on an object node whose key nodes form a sibling list,
    [json_obj_getn] returns the value of the first key node that carries the
    key, whatever stands behind it, and [json_obj_size] is the number of key
    nodes. *)
Theorem json_obj_getn_first (m : gmap Z Z) (n : nat) (obj key key_len : Z) (pre : list Z) (k : Z)
    (post : list Z) :
  obj <> 0 -> key <> 0 -> val_get_type m obj = JSON_OBJECT ->
  siblings m (child m obj) (pre ++ k :: post) ->
  (forall k', In k' pre -> ~ key_matches m k' key key_len) ->
  key_matches m k key key_len -> (length pre < n)%nat ->
  json_obj_getn n m obj key key_len = Some (child m k) /\
  json_obj_size (S (length (pre ++ k :: post))) m obj
    = Some (Z.of_nat (length (pre ++ k :: post))).
Proof.
  intros Hobj Hkey Hty Hl Hno Hk Hn. split.
  - unfold json_obj_getn. rewrite Hty, Z.eqb_refl.
    destruct (Z.eqb_spec obj 0); [contradiction|].
    destruct (Z.eqb_spec key 0); [contradiction|]. cbn [negb orb].
    now apply (obj_getn_loop_first m key key_len pre k post).
  - unfold json_obj_size. rewrite Hty, Z.eqb_refl.
    destruct (Z.eqb_spec obj 0); [contradiction|]. cbn [negb orb].
    rewrite (count_siblings_spec m _ _ 0 Hl). reflexivity.
Qed.

(** An object node at 64 with the key node [a] at 128 and its value at 152. *)
Lemma json_obj_getn_first_witness :
  let m := write_bytes
             (val_set_type
                (set_child
                   (set_tag_payload (set_child (val_set_type ∅ 64 JSON_OBJECT) 64 128) 128
                      (Z.lor JSON_STRING_SHORT (Z.shiftl 1 4)))
                   128 152)
                152 JSON_TRUE)
             129 [97] in
  let key := 200 in
  let m := store8 m key 97 in
  json_obj_getn 1 m 64 key 1 = Some (child m 128) /\
  json_obj_size (S (length ([] ++ 128 :: []))) m 64
    = Some (Z.of_nat (length ([] ++ 128 :: []))).
Proof.
  intros m0 key m. apply (json_obj_getn_first m 1 64 key 1 [] 128 []).
  - discriminate.
  - discriminate.
  - vm_compute. reflexivity.
  - vm_compute. repeat split; discriminate.
  - intros k' [].
  - vm_compute. repeat split; discriminate.
  - cbn. lia.
Defined.

(** * The arena *)

(** [align_up] in [size_t] wraps: the size 2^64 - 1 is aligned to 0. *)
Lemma align_up_size_t_wraps : align_up_size_t (2 ^ 64 - 1) 64 = 0.
Proof. vm_compute. reflexivity. Qed.

(** X18: for an alignment that is a power of two, and a size that leaves
    room for one more alignment below 2^64, [align_up], computed in the 64
    bits of [size_t], does not wrap: it returns a multiple of the alignment
    that is not below the size and less than one alignment above it, that
    is, the least such multiple, and it is what the same expression gives
    over the unbounded integers of the arena model. *)
Theorem align_up_power_of_two (size k : Z) :
  0 <= k < 64 -> 0 <= size -> size + 2 ^ k <= 2 ^ 64 ->
  align_up_size_t size (2 ^ k) mod 2 ^ k = 0 /\
  size <= align_up_size_t size (2 ^ k) < size + 2 ^ k /\
  align_up_size_t size (2 ^ k) = align_up size (2 ^ k).
Proof.
  intros Hk Hs Hfit.
  assert (Hpow : 0 < 2 ^ k) by (apply Z.pow_pos_nonneg; lia).
  assert (E : align_up_size_t size (2 ^ k) = align_up size (2 ^ k)).
  { unfold align_up_size_t, align_up, u64.
    rewrite (Z.mod_small (size + 2 ^ k - 1)) by lia.
    rewrite <- (Z.land_ones (Z.lnot (2 ^ k - 1)) 64) by lia.
    rewrite (Z.land_comm (Z.lnot (2 ^ k - 1))), Z.land_assoc.
    rewrite (Z.land_ones (size + 2 ^ k - 1) 64) by lia.
    rewrite (Z.mod_small (size + 2 ^ k - 1)) by lia. reflexivity. }
  rewrite E. unfold align_up.
  replace (2 ^ k - 1) with (Z.ones k) by (rewrite Z.ones_equiv; lia).
  rewrite <- Z.ldiff_land, Z.ldiff_ones_r by lia.
  rewrite Z.shiftl_mul_pow2, Z.shiftr_div_pow2 by lia.
  pose proof (Z.div_mod (size + 2 ^ k - 1) (2 ^ k) ltac:(lia)) as D.
  pose proof (Z.mod_pos_bound (size + 2 ^ k - 1) (2 ^ k) Hpow) as M.
  split; [apply Z.mod_mul; lia|]. split; [lia | reflexivity].
Qed.

Lemma align_up_power_of_two_witness :
  align_up_size_t 100 (2 ^ 6) mod 2 ^ 6 = 0 /\
  100 <= align_up_size_t 100 (2 ^ 6) < 100 + 2 ^ 6 /\
  align_up_size_t 100 (2 ^ 6) = align_up 100 (2 ^ 6).
Proof. apply (align_up_power_of_two 100 6); lia. Defined.

(** ** [arena_alloc_val] *)

Lemma memset_zero (m : gmap Z Z) (v n b : Z) :
  v <= b < v + n -> load8 (memset m v 0 n) b = 0.
Proof.
  intros Hb. unfold memset.
  replace b with (v + Z.of_nat (Z.to_nat (b - v))) by lia.
  rewrite load8_write_bytes_in by (rewrite repeat_length; lia).
  rewrite nth_repeat. reflexivity.
Qed.

Lemma memset_other (m : gmap Z Z) (v n b : Z) :
  b < v \/ v + Z.max 0 n <= b -> load8 (memset m v 0 n) b = load8 m b.
Proof.
  intros Hb. unfold memset. apply load8_write_bytes_ne. rewrite repeat_length. lia.
Qed.

(** [arena_grow] moves the nodes in use to a new block behind everything
    allocated so far and releases the old one. *)
Lemma arena_grow_moves (B : Z) (d : json_doc) (w : world) (ok : bool) (d' : json_doc)
    (w' : world) :
  doc_ok B d w -> arena_grow d sizeof_json_val w = (ok, d', w') ->
  brk w <= arena d' /\ live w' !! arena d = None /\
  (forall o, 0 <= o < arena_used d ->
     load8 (mem w') (arena d' + o) = load8 (mem w) (arena d + o)) /\
  root d' = root d /\ value_count d' = value_count d.
Proof.
  intros Hd H. destruct Hd. unfold arena_grow in H.
  destruct (grow_size_from_double (arena_size d) (arena_used d) sizeof_json_val)
    as [Hg Hg0]; [lia | unfold sizeof_json_val; lia |].
  set (ns := grow_size _ _ _) in *.
  unfold aligned_alloc_impl, aligned_alloc, ARENA_ALIGNMENT in H.
  destruct (malloc_at 64 (align_up (align_up ns 64) 64) w) as [p w1] eqn:Em.
  pose proof Em as Em'. unfold malloc_at in Em'. injection Em' as Ep Ew1.
  apply malloc_at_spec in Em as (Hp & Hbrk & Hmem & Herr); [|lia].
  destruct (Z.eqb_spec p 0) as [Hp0|Hp0]; [lia|].
  inversion H; subst ok d' w'; clear H.
  cbn [arena arena_used root value_count mem set_mem aligned_free_impl free live].
  split; [exact Hp|]. split; [apply lookup_delete_eq|]. split; [|split; reflexivity].
  intros o Ho. rewrite load8_memcpy_in by lia. now rewrite Hmem.
Qed.

(** X19: [arena_alloc_val] hands out the 24 zeroed bytes behind the nodes in
    use and counts the node.  When the arena has room it stays where it is;
    when it is full it moves to a new block behind everything allocated so
    far and the old block is released.  In both cases the nodes allocated
    before keep their bytes at their offsets in the arena. *)
Theorem arena_alloc_val_spec (B : Z) (d : json_doc) (w : world) (val : Z) (d' : json_doc)
    (w' : world) :
  doc_ok B d w -> arena_alloc_val d w = (val, d', w') ->
  val = arena d' + arena_used d /\ val <> 0 /\
  arena_used d' = arena_used d + 24 /\ arena_used d' <= arena_size d' /\
  value_count d' = value_count d + 1 /\ root d' = root d /\
  (forall b, val <= b < val + 24 -> load8 (mem w') b = 0) /\
  (forall o, 0 <= o < arena_used d ->
     load8 (mem w') (arena d' + o) = load8 (mem w) (arena d + o)) /\
  (arena_used d + 24 <= arena_size d -> arena d' = arena d /\ brk w' = brk w) /\
  (arena_size d < arena_used d + 24 -> brk w <= arena d' /\ live w' !! arena d = None).
Proof.
  intros Hd H.
  pose proof (arena_alloc_val_ok B d w val d' w' Hd H) as P.
  pose proof (av_doc _ _ _ _ _ _ P) as Hd'.
  split; [exact (av_val _ _ _ _ _ _ P)|].
  split; [rewrite (av_val _ _ _ _ _ _ P); destruct Hd, Hd'; lia|].
  split; [exact (av_used _ _ _ _ _ _ P)|].
  split; [destruct Hd'; lia|].
  unfold arena_alloc_val in H. unfold sizeof_json_val in *.
  destruct (Z.gtb_spec (arena_used d + 24) (arena_size d)) as [Hfull|Hroom].
  - destruct (arena_grow d 24 w) as [[ok d1] w1] eqn:Eg.
    destruct (arena_grow_moves B d w ok d1 w1 Hd Eg) as (Hmv & Hfree & Hcopy & Hroot & Hcnt).
    apply (arena_grow_ok B) in Eg as (-> & Hd1 & _ & Hu & _); [|exact Hd].
    cbn [negb] in H. inversion H; subst val d' w'; clear H.
    cbn [arena arena_used root value_count mem set_mem live brk].
    split; [lia|]. split; [exact Hroot|].
    split; [intros b Hb; apply memset_zero; lia|].
    split; [|split; [intros; lia | intros _; split; assumption]].
    intros o Ho. rewrite memset_other by lia. now apply Hcopy.
  - cbn [negb] in H. inversion H; subst val d' w'; clear H.
    cbn [arena arena_used root value_count mem set_mem live brk].
    split; [reflexivity|]. split; [reflexivity|].
    split; [intros b Hb; apply memset_zero; lia|].
    split; [|split; [intros _; split; reflexivity | intros; lia]].
    intros o Ho. apply memset_other. lia.
Qed.

Lemma arena_alloc_val_spec_witness :
  let dw := arena_create 64 fresh_world in
  let d := default (mk_doc 0 0 0 0 0 0 0 0 0) (fst dw) in
  let w := snd dw in
  let r := arena_alloc_val d w in
  let val := fst (fst r) in
  let d' := snd (fst r) in
  let w' := snd r in
  val = arena d' + arena_used d /\ val <> 0 /\
  arena_used d' = arena_used d + 24 /\ arena_used d' <= arena_size d' /\
  value_count d' = value_count d + 1 /\ root d' = root d /\
  (forall b, val <= b < val + 24 -> load8 (mem w') b = 0) /\
  (forall o, 0 <= o < arena_used d ->
     load8 (mem w') (arena d' + o) = load8 (mem w) (arena d + o)) /\
  (arena_used d + 24 <= arena_size d -> arena d' = arena d /\ brk w' = brk w) /\
  (arena_size d < arena_used d + 24 -> brk w <= arena d' /\ live w' !! arena d = None).
Proof.
  intros dw d w r val d' w'.
  apply (arena_alloc_val_spec 4096 d w val d' w').
  - constructor; vm_compute; try reflexivity; try discriminate;
      try (split; discriminate). left. discriminate.
  - reflexivity.
Defined.

(** ** [arena_alloc_string] *)

(** [strings_grow] with the [realloc] of the model, which moves the block. *)
Lemma strings_grow_moves (B : Z) (d : json_doc) (needed : Z) (w : world) (ok : bool)
    (d' : json_doc) (w' : world) :
  doc_ok B d w -> 0 <= needed -> live w !! strings d = Some (strings_size d) ->
  strings_grow d needed w = (ok, d', w') ->
  brk w <= strings d' /\ strings_size d * 2 <= strings_size d' /\
  live w' !! strings d' = Some (strings_size d') /\
  (forall o, 0 <= o < strings_size d ->
     load8 (mem w') (strings d' + o) = load8 (mem w) (strings d + o)).
Proof.
  intros Hd Hn Hlive H. destruct Hd. unfold strings_grow in H.
  destruct (grow_size_from_double (strings_size d) (strings_used d) needed)
    as [Hg Hg0]; [lia | lia |].
  destruct (grow_size_reaches (strings_used d + needed) (Z.to_nat (strings_used d + needed))
              (strings_size d * ARENA_GROWTH_FACTOR)) as [_ Hdouble];
    [unfold ARENA_GROWTH_FACTOR; lia | unfold ARENA_GROWTH_FACTOR; lia |].
  set (ns := grow_size _ _ _) in *. unfold ARENA_GROWTH_FACTOR in Hdouble.
  unfold realloc, malloc in H. rewrite Hlive in H. cbn [default from_option id] in H.
  unfold id in H.
  destruct (malloc_at 16 ns w) as [p w1] eqn:Em.
  pose proof Em as Em'. unfold malloc_at in Em'. injection Em' as Ep Ew1.
  apply malloc_at_spec in Em as (Hp & Hbrk & Hmem & Herr); [|lia].
  destruct (Z.eqb_spec p 0) as [Hp0|Hp0]; [lia|].
  inversion H; subst ok d' w'; clear H.
  cbn [strings strings_size mem set_mem free live].
  split; [exact Hp|]. split; [lia|]. split.
  - rewrite lookup_delete_ne by lia. rewrite <- Ew1. cbn [live]. rewrite Ep.
    apply lookup_insert_eq.
  - intros o Ho. rewrite Z.min_l by lia. rewrite load8_memcpy_in by lia. now rewrite Hmem.
Qed.

(** X20: [arena_alloc_string] hands out the [len + 1] bytes behind the
    strings in use.  When the block has room nothing else changes; when it is
    full [realloc] makes the block at least twice as large, where it is or
    at a new address behind everything allocated so far.  In both cases the
    strings stored before keep their bytes at their offsets in the block,
    the block is live with its size, and the memory allocated before the
    call, the former string block apart, is left as it was. *)
Theorem arena_alloc_string_spec (B : Z) (d : json_doc) (slen : Z) (w : world) (str : Z)
    (d' : json_doc) (w' : world) :
  doc_ok B d w -> 0 <= slen -> live w !! strings d = Some (strings_size d) ->
  arena_alloc_string d slen w = (str, d', w') ->
  str = strings d' + strings_used d /\ str <> 0 /\
  strings_used d' = strings_used d + slen + 1 /\ strings_used d' <= strings_size d' /\
  live w' !! strings d' = Some (strings_size d') /\
  (forall o, 0 <= o < strings_used d ->
     load8 (mem w') (strings d' + o) = load8 (mem w) (strings d + o)) /\
  (forall a, a < brk w -> ~ (strings d <= a < strings d + strings_size d) ->
     load8 (mem w') a = load8 (mem w) a) /\
  (strings_used d + slen + 1 <= strings_size d -> strings d' = strings d /\ w' = w) /\
  (strings_size d < strings_used d + slen + 1 ->
   (strings d' = strings d \/ brk w <= strings d') /\
   strings_size d * 2 <= strings_size d').
Proof.
  intros Hd Hn Hlive H.
  pose proof (arena_alloc_string_ok B d slen w str d' w' Hd Hn H) as P.
  pose proof (as_doc _ _ _ _ _ _ _ P) as Hd'.
  split; [exact (as_str _ _ _ _ _ _ _ P)|].
  split; [rewrite (as_str _ _ _ _ _ _ _ P); destruct Hd, Hd'; lia|].
  split; [exact (as_used _ _ _ _ _ _ _ P)|].
  split; [destruct Hd'; lia|].
  unfold arena_alloc_string in H.
  destruct (Z.gtb_spec (strings_used d + (slen + 1)) (strings_size d)) as [Hfull|Hroom].
  - destruct (strings_grow d (slen + 1) w) as [[ok d1] w1] eqn:Eg.
    destruct (strings_grow_moves B d (slen + 1) w ok d1 w1 Hd ltac:(lia) Hlive Eg)
      as (Hmv & Hdbl & Hreg & Hcopy).
    apply (strings_grow_ok B) in Eg as (-> & Hd1 & Hsame & Hu & _); [|exact Hd|lia].
    cbn [negb] in H. inversion H; subst str d' w'; clear H.
    cbn [strings strings_size strings_used].
    split; [exact Hreg|].
    split; [intros o Ho; apply Hcopy; destruct Hd; lia|].
    split; [intros a Ha _; now apply Hsame|].
    split; [intros; lia | intros _; split; [right; exact Hmv | exact Hdbl]].
  - cbn [negb] in H. inversion H; subst str d' w'; clear H.
    cbn [strings strings_size strings_used].
    split; [exact Hlive|]. split; [reflexivity|]. split; [reflexivity|].
    split; [intros _; split; reflexivity | intros; lia].
Qed.

Lemma arena_alloc_string_spec_witness :
  let dw := arena_create 64 fresh_world in
  let d := default (mk_doc 0 0 0 0 0 0 0 0 0) (fst dw) in
  let w := snd dw in
  let r := arena_alloc_string d 20000 w in
  let str := fst (fst r) in
  let d' := snd (fst r) in
  let w' := snd r in
  str = strings d' + strings_used d /\ str <> 0 /\
  strings_used d' = strings_used d + 20000 + 1 /\ strings_used d' <= strings_size d' /\
  live w' !! strings d' = Some (strings_size d') /\
  (forall o, 0 <= o < strings_used d ->
     load8 (mem w') (strings d' + o) = load8 (mem w) (strings d + o)) /\
  (forall a, a < brk w -> ~ (strings d <= a < strings d + strings_size d) ->
     load8 (mem w') a = load8 (mem w) a) /\
  (strings_used d + 20000 + 1 <= strings_size d -> strings d' = strings d /\ w' = w) /\
  (strings_size d < strings_used d + 20000 + 1 ->
   (strings d' = strings d \/ brk w <= strings d') /\
   strings_size d * 2 <= strings_size d').
Proof.
  intros dw d w r str d' w'.
  apply (arena_alloc_string_spec 4096 d 20000 w str d' w').
  - constructor; vm_compute; try reflexivity; try discriminate;
      try (split; discriminate). left. discriminate.
  - lia.
  - vm_compute. reflexivity.
  - reflexivity.
Defined.

(** * Literals *)

Lemma parse_literal_node (B : Z) (word : list Z) (tag : Z) (msg : string)
    (c : parser_ctx) (w : world) (rest : list Z) :
  ctx_ok B c w -> 0 <= tag < 16 -> remaining w c (word ++ rest) ->
  exists val c' w',
    parse_literal word tag msg c w = (val, c', w') /\ val <> 0 /\
    pos c' = pos c + Z.of_nat (length word) /\
    val_get_type (mem w') val = tag /\
    g_last_error w' = g_last_error w.
Proof.
  intros Hc Htag Hr. apply remaining_prefix in Hr as [Hl Hr].
  pose proof (ok_B _ _ _ (co_doc _ _ _ Hc)) as HB0.
  pose proof (co_pos _ _ _ Hc) as Hpos.
  unfold parse_literal. rewrite Hr.
  destruct (Z.leb_spec (pos c + Z.of_nat (length word)) (len c)); [|lia].
  unfold bytes_eqb. rewrite bool_decide_eq_true_2 by reflexivity. cbn [andb].
  assert (Hc1 : ctx_ok B (advance c (Z.of_nat (length word))) w)
    by (apply ctx_ok_advance; [assumption | lia | lia]).
  destruct (arena_alloc_val _ w) as [[val d1] w1] eqn:Ea.
  destruct (steps_alloc_val B _ _ _ _ _ Hc1 Ea) as (_ & HBv & P).
  destruct (Z.eqb_spec val 0); [lia|].
  eexists _, _, _. split; [reflexivity|]. split; [assumption|]. split; [reflexivity|].
  cbn [mem set_mem g_last_error]. split; [now apply val_get_type_set_type|].
  exact (av_err _ _ _ _ _ _ P).
Qed.

Lemma parse_literal_rejects (word : list Z) (tag : Z) (msg : string)
    (c : parser_ctx) (w : world) (l : list Z) :
  remaining w c l -> (forall rest, l <> word ++ rest) ->
  parse_literal word tag msg c w = (0, c, ctx_error w c JSON_ERROR_SYNTAX msg).
Proof.
  intros [Hl Hr] Hno. unfold parse_literal.
  destruct (Z.leb_spec (pos c + Z.of_nat (length word)) (len c)) as [Hfit|]; [|reflexivity].
  unfold bytes_eqb. rewrite bool_decide_eq_false_2; [reflexivity|].
  intros E. apply (Hno (skipn (length word) l)).
  rewrite <- (firstn_skipn (length word) l) at 1. f_equal.
  rewrite <- E, <- Hr.
  replace (length l) with (length word + (length l - length word))%nat by lia.
  rewrite read_bytes_app, firstn_app, read_bytes_length, Nat.sub_diag.
  cbn [firstn]. rewrite app_nil_r. apply firstn_all2. rewrite read_bytes_length. lia.
Qed.

(** X21: on an input that goes on with the keyword, [parse_null],
    [parse_true] and [parse_false] return a node of that type behind which
    the cursor stands, and the predicates and [json_get_bool] tell the three
    apart; on any other input each of them returns [NULL] and records
    [JSON_ERROR_SYNTAX] at the cursor. *)
Theorem parse_keywords (B : Z) (c : parser_ctx) (w : world) (l : list Z) :
  ctx_ok B c w -> remaining w c l ->
  (forall rest, l = [110; 117; 108; 108] ++ rest ->
     exists val c' w',
       parse_null c w = (val, c', w') /\ val <> 0 /\ pos c' = pos c + 4 /\
       json_is_null (mem w') val = true /\ json_is_bool (mem w') val = false /\
       json_get_bool (mem w') val = false) /\
  (forall rest, l = [116; 114; 117; 101] ++ rest ->
     exists val c' w',
       parse_true c w = (val, c', w') /\ val <> 0 /\ pos c' = pos c + 4 /\
       json_is_true (mem w') val = true /\ json_is_bool (mem w') val = true /\
       json_get_bool (mem w') val = true /\ json_is_null (mem w') val = false) /\
  (forall rest, l = [102; 97; 108; 115; 101] ++ rest ->
     exists val c' w',
       parse_false c w = (val, c', w') /\ val <> 0 /\ pos c' = pos c + 5 /\
       json_is_false (mem w') val = true /\ json_is_bool (mem w') val = true /\
       json_get_bool (mem w') val = false /\ json_is_null (mem w') val = false) /\
  ((forall rest, l <> [110; 117; 108; 108] ++ rest) ->
     fst (fst (parse_null c w)) = 0 /\
     code (g_last_error (snd (parse_null c w))) = JSON_ERROR_SYNTAX /\
     position (g_last_error (snd (parse_null c w))) = pos c) /\
  ((forall rest, l <> [116; 114; 117; 101] ++ rest) ->
     fst (fst (parse_true c w)) = 0 /\
     code (g_last_error (snd (parse_true c w))) = JSON_ERROR_SYNTAX /\
     position (g_last_error (snd (parse_true c w))) = pos c) /\
  ((forall rest, l <> [102; 97; 108; 115; 101] ++ rest) ->
     fst (fst (parse_false c w)) = 0 /\
     code (g_last_error (snd (parse_false c w))) = JSON_ERROR_SYNTAX /\
     position (g_last_error (snd (parse_false c w))) = pos c).
Proof.
  intros Hc Hr.
  assert (Hnode : forall word tag msg rest, 0 <= tag < 16 -> l = word ++ rest ->
            exists val c' w',
              parse_literal word tag msg c w = (val, c', w') /\ val <> 0 /\
              pos c' = pos c + Z.of_nat (length word) /\
              (val =? 0) = false /\ val_get_type (mem w') val = tag).
  { intros word tag msg rest Ht ->.
    destruct (parse_literal_node B word tag msg c w rest Hc Ht Hr)
      as (val & c' & w' & E & Hv & Hp & Hty & _).
    exists val, c', w'. repeat (split; [assumption|]). split; [|assumption].
    now apply Z.eqb_neq. }
  split; [|split; [|split; [|split; [|split]]]].
  - intros rest E.
    destruct (Hnode _ JSON_NULL "Expected 'null'"%string rest ltac:(unfold JSON_NULL; lia) E)
      as (val & c' & w' & Ep & Hv & Hp & Hz & Hty).
    exists val, c', w'. split; [exact Ep|]. split; [exact Hv|]. split; [exact Hp|].
    unfold json_is_null, json_is_bool, json_get_bool. rewrite Hz, Hty. repeat split.
  - intros rest E.
    destruct (Hnode _ JSON_TRUE "Expected 'true'"%string rest ltac:(unfold JSON_TRUE; lia) E)
      as (val & c' & w' & Ep & Hv & Hp & Hz & Hty).
    exists val, c', w'. split; [exact Ep|]. split; [exact Hv|]. split; [exact Hp|].
    unfold json_is_true, json_is_null, json_is_bool, json_get_bool. rewrite Hz, Hty.
    repeat split.
  - intros rest E.
    destruct (Hnode _ JSON_FALSE "Expected 'false'"%string rest ltac:(unfold JSON_FALSE; lia) E)
      as (val & c' & w' & Ep & Hv & Hp & Hz & Hty).
    exists val, c', w'. split; [exact Ep|]. split; [exact Hv|]. split; [exact Hp|].
    unfold json_is_false, json_is_null, json_is_bool, json_get_bool. rewrite Hz, Hty.
    repeat split.
  - intros Hno. unfold parse_null. rewrite (parse_literal_rejects _ _ _ c w l Hr Hno).
    repeat split.
  - intros Hno. unfold parse_true. rewrite (parse_literal_rejects _ _ _ c w l Hr Hno).
    repeat split.
  - intros Hno. unfold parse_false. rewrite (parse_literal_rejects _ _ _ c w l Hr Hno).
    repeat split.
Qed.

Lemma parse_keywords_witness :
  let text := [116; 114; 117; 101; 44] in
  let c := fst (token_start text) in
  let w := snd (token_start text) in
  exists val c' w',
    parse_true c w = (val, c', w') /\ val <> 0 /\ pos c' = pos c + 4 /\
    json_is_true (mem w') val = true /\ json_is_bool (mem w') val = true /\
    json_get_bool (mem w') val = true /\ json_is_null (mem w') val = false.
Proof.
  intros text c w.
  assert (Hc : ctx_ok (input c + len c) c w).
  { constructor; [constructor|]; vm_compute; try reflexivity;
      try (split; discriminate); try discriminate; left; discriminate. }
  assert (Hr : remaining w c text) by (split; vm_compute; reflexivity).
  destruct (parse_keywords (input c + len c) c w text Hc Hr) as (_ & Ht & _).
  exact (Ht [44] eq_refl).
Defined.

(** * Malformed containers *)










(** ** Objects *)






(** * The serializer on trees *)

Scheme repr_ind3 := Induction for repr Sort Prop
  with repr_list_ind3 := Induction for repr_list Sort Prop
  with repr_members_ind3 := Induction for repr_members Sort Prop.

Combined Scheme repr_mutind from repr_ind3, repr_list_ind3, repr_members_ind3.

(** ** Trees in a memory that changes elsewhere *)

Lemma agree_refl (A : Z -> Prop) (m : gmap Z Z) : agree A m m.
Proof. intros a _. reflexivity. Qed.

Lemma agree_trans (A : Z -> Prop) (m1 m2 m3 : gmap Z Z) :
  agree A m1 m2 -> agree A m2 m3 -> agree A m1 m3.
Proof. intros H1 H2 a Ha. rewrite (H2 a Ha). now apply H1. Qed.

Lemma node_agree (A : Z -> Prop) (m m' : gmap Z Z) (p : Z) :
  agree A m m' -> node_in A p ->
  tag_payload m' p = tag_payload m p /\ next m' p = next m p /\ child m' p = child m p.
Proof.
  intros Ha [_ Hp]. unfold tag_payload, next, child.
  repeat split; apply load64_ext; intros b Hb; apply Ha, Hp; lia.
Qed.

Lemma node_type_agree (A : Z -> Prop) (m m' : gmap Z Z) (p : Z) :
  agree A m m' -> node_in A p -> val_get_type m' p = val_get_type m p.
Proof.
  intros Ha Hp. unfold val_get_type. now rewrite (proj1 (node_agree A m m' p Ha Hp)).
Qed.

Lemma node_values_agree (A : Z -> Prop) (m m' : gmap Z Z) (p : Z) :
  agree A m m' -> node_in A p ->
  json_get_int m' p = json_get_int m p /\ float_val m' p = float_val m p /\
  json_get_str m' p = json_get_str m p /\ json_get_str_len m' p = json_get_str_len m p.
Proof.
  intros Ha Hp. destruct (node_agree A m m' p Ha Hp) as (Et & En & Ec).
  pose proof (node_type_agree A m m' p Ha Hp) as Ety.
  assert (Ef : float_val m' p = float_val m p) by exact Ec.
  assert (Es : str_ptr m' p = str_ptr m p) by exact Ec.
  unfold json_get_int, json_get_str, json_get_str_len, val_get_payload, val_short_str_len.
  rewrite Ety, Et, Ef, Es. repeat split.
Qed.

Lemma string_node_agree (A : Z -> Prop) (m m' : gmap Z Z) (p : Z) (bs : list Z) :
  agree A m m' -> node_in A p -> string_node A m p bs -> string_node A m' p bs.
Proof.
  intros Ha Hp (Hty & Hlen & Hrd & Hin & Hnz).
  destruct (node_values_agree A m m' p Ha Hp) as (_ & _ & Es & El).
  pose proof (node_type_agree A m m' p Ha Hp) as Ety.
  unfold string_node. rewrite Ety, Es, El.
  split; [exact Hty|]. split; [exact Hlen|]. split; [|split; assumption].
  etransitivity; [|exact Hrd].
  apply read_bytes_ext. intros b Hb. apply Ha, Hin. lia.
Qed.

Lemma repr_node_in (A : Z -> Prop) (m : gmap Z Z) (p : Z) (v : jval) :
  repr A m p v -> node_in A p.
Proof. intros []; assumption. Qed.

Lemma repr_list_nodes (A : Z -> Prop) (m : gmap Z Z) (l : list Z) (vs : list jval) :
  repr_list A m l vs -> Forall (node_in A) l.
Proof.
  induction 1 as [|p l v vs Hp _ IH]; constructor; [|exact IH].
  exact (repr_node_in A m p v Hp).
Qed.

Lemma repr_members_nodes (A : Z -> Prop) (m : gmap Z Z) (l : list Z)
    (ms : list (list Z * jval)) :
  repr_members A m l ms -> Forall (node_in A) l.
Proof. induction 1; constructor; assumption. Qed.

Lemma siblings_agree (A : Z -> Prop) (m m' : gmap Z Z) (l : list Z) :
  agree A m m' -> Forall (node_in A) l ->
  forall p, siblings m p l -> siblings m' p l.
Proof.
  intros Ha. induction 1 as [|x l Hx _ IH]; intros p H; [exact H|].
  destruct H as (-> & Hnz & Hn). cbn [siblings]. repeat split; [assumption|].
  rewrite (proj1 (proj2 (node_agree A m m' x Ha Hx))). now apply IH.
Qed.

Lemma repr_agree (A : Z -> Prop) (m m' : gmap Z Z) :
  agree A m m' ->
  (forall p v, repr A m p v -> repr A m' p v) /\
  (forall l vs, repr_list A m l vs -> repr_list A m' l vs) /\
  (forall l ms, repr_members A m l ms -> repr_members A m' l ms).
Proof.
  intros Ha.
  apply (repr_mutind A m
           (fun p v _ => repr A m' p v)
           (fun l vs _ => repr_list A m' l vs)
           (fun l ms _ => repr_members A m' l ms)).
  - intros p Hp Hty. apply repr_null; [exact Hp|].
    now rewrite (node_type_agree A m m' p Ha Hp).
  - intros p Hp Hty. apply repr_true; [exact Hp|].
    now rewrite (node_type_agree A m m' p Ha Hp).
  - intros p Hp Hty. apply repr_false; [exact Hp|].
    now rewrite (node_type_agree A m m' p Ha Hp).
  - intros p z Hp Hty Hz. apply repr_int; [exact Hp | |].
    + now rewrite (node_type_agree A m m' p Ha Hp).
    + now rewrite (proj1 (node_values_agree A m m' p Ha Hp)).
  - intros p d Hp Hty Hd. apply repr_float; [exact Hp | |].
    + now rewrite (node_type_agree A m m' p Ha Hp).
    + now rewrite (proj1 (proj2 (node_values_agree A m m' p Ha Hp))).
  - intros p bs Hp Hs. apply repr_string; [exact Hp|].
    now apply (string_node_agree A m m').
  - intros p l vs Hp Hty Hsib Hl IH. apply (repr_array A m' p l vs); [exact Hp | | |exact IH].
    + now rewrite (node_type_agree A m m' p Ha Hp).
    + rewrite (proj2 (proj2 (node_agree A m m' p Ha Hp))).
      apply (siblings_agree A m m' l Ha (repr_list_nodes A m l vs Hl)). exact Hsib.
  - intros p l ms Hp Hty Hsib Hl IH. apply (repr_object A m' p l ms); [exact Hp | | |exact IH].
    + now rewrite (node_type_agree A m m' p Ha Hp).
    + rewrite (proj2 (proj2 (node_agree A m m' p Ha Hp))).
      apply (siblings_agree A m m' l Ha (repr_members_nodes A m l ms Hl)). exact Hsib.
  - constructor.
  - intros p l v vs _ IHv _ IHl. now constructor.
  - constructor.
  - intros k l bs v ms Hk Hs _ IHv _ IHl. constructor; [exact Hk | | | exact IHl].
    + now apply (string_node_agree A m m').
    + rewrite (proj2 (proj2 (node_agree A m m' k Ha Hk))). exact IHv.
Qed.

(** ** The buffer beside a tree *)

Lemma apart_step (A : Z -> Prop) (sb sb' : strbuf) (w w' : world) :
  apart A sb w -> strbuf_step sb w sb' w' -> apart A sb' w' /\ agree A (mem w) (mem w').
Proof.
  intros [Hok HA] [O B F U E]. split; [split; [exact O|]|].
  - intros a Ha. destruct (HA a Ha) as [Hlt Hout]. split; [lia|].
    intros Hin. destruct (U a Hin); [contradiction | lia].
  - intros a Ha. destruct (HA a Ha) as [Hlt Hout]. now apply F.
Qed.

(** An append beside a tree. *)
Lemma append_apart (A : Z -> Prop) (bytes : list Z) (sb : strbuf) (w : world) :
  apart A sb w -> are_bytes bytes ->
  exists sb' w',
    strbuf_append bytes sb w = (true, sb', w') /\ strbuf_step sb w sb' w' /\
    content sb' w' = content sb w ++ bytes.
Proof. intros [Hok _] Hb. now apply strbuf_append_spec. Qed.

(** ** The conversions give text *)

Lemma is_text_are_bytes (l : list Z) : is_text l -> are_bytes l.
Proof.
  intros H. unfold are_bytes. induction H as [|b l Hb _ IH]; constructor; [lia | exact IH].
Qed.

Lemma dec_digits_is_text (n : nat) :
  forall v acc, 0 <= v -> is_text acc -> is_text (dec_digits n v acc).
Proof.
  induction n as [|k IH]; intros v acc Hv Hacc; cbn [dec_digits]; [exact Hacc|].
  destruct (v <? 10) eqn:E.
  - apply Z.ltb_lt in E. constructor; [lia | exact Hacc].
  - apply IH.
    + apply Z.div_pos; lia.
    + constructor; [|exact Hacc]. pose proof (Z.mod_pos_bound v 10). lia.
Qed.

Lemma fmt_unsigned_is_text (v : Z) : 0 <= v -> is_text (fmt_unsigned v).
Proof. intros Hv. apply dec_digits_is_text; [exact Hv | constructor]. Qed.

Lemma fmt_lld_is_text (v : Z) : is_text (fmt_lld v).
Proof.
  unfold fmt_lld. destruct (v <? 0) eqn:E.
  - apply Z.ltb_lt in E. constructor; [lia|]. apply fmt_unsigned_is_text. lia.
  - apply Z.ltb_ge in E. now apply fmt_unsigned_is_text.
Qed.

Lemma round_div_nonneg (n d : Z) : 0 <= n -> 0 <= d -> 0 <= round_div n d.
Proof.
  intros Hn Hd. unfold round_div.
  pose proof (Z_div_nonneg_nonneg n d Hn Hd).
  destruct (_ || _); lia.
Qed.

Lemma strip_zeros_rev_is_text (l : list Z) : is_text l -> is_text (strip_zeros_rev l).
Proof.
  induction 1 as [|c t Hc Ht IH]; cbn [strip_zeros_rev]; [constructor|].
  destruct (c =? 48); [exact IH | now constructor].
Qed.

Lemma with_fraction_is_text (i f : list Z) :
  is_text i -> is_text f -> is_text (with_fraction i f).
Proof.
  intros Hi Hf. unfold with_fraction.
  assert (Hs : is_text (strip_trailing_zeros f)).
  { unfold strip_trailing_zeros, is_text.
    apply Forall_rev, strip_zeros_rev_is_text, Forall_rev, Hf. }
  destruct (strip_trailing_zeros f) as [|c t]; [exact Hi|].
  apply Forall_app. split; [exact Hi|]. constructor; [lia | exact Hs].
Qed.

Lemma dbl_parts_nonneg (d : Z) : 0 <= dbl_num d /\ 0 <= dbl_den d.
Proof.
  assert (Hf : 0 <= dbl_frac d).
  { unfold dbl_frac. apply Z.land_nonneg. right. lia. }
  assert (Hm : 0 <= dbl_mant d).
  { unfold dbl_mant. destruct (_ =? 0); lia. }
  unfold dbl_num, dbl_den. destruct (0 <=? dbl_scale d) eqn:E.
  - apply Z.leb_le in E. split; [|lia].
    apply Z.mul_nonneg_nonneg; [exact Hm|]. apply Z.pow_nonneg. lia.
  - split; [exact Hm|]. apply Z.pow_nonneg. lia.
Qed.

Lemma fmt_17g_is_text (d : Z) : is_text (fmt_17g d).
Proof.
  destruct (dbl_parts_nonneg d) as [Hn Hd].
  assert (Hsign : is_text (if dbl_neg d then [45] else [])).
  { destruct (dbl_neg d); repeat constructor; lia. }
  unfold fmt_17g. destruct (dbl_mant d =? 0).
  { apply Forall_app. split; [exact Hsign|]. repeat constructor; lia. }
  set (x0 := floor_log10 (dbl_num d) (dbl_den d)).
  set (digits0 := if 0 <=? 16 - x0 then _ else _).
  assert (H0 : 0 <= digits0).
  { unfold digits0. destruct (0 <=? 16 - x0).
    - apply round_div_nonneg; [|exact Hd].
      apply Z.mul_nonneg_nonneg; [exact Hn|]. apply Z.pow_nonneg. lia.
    - apply round_div_nonneg; [exact Hn|].
      apply Z.mul_nonneg_nonneg; [exact Hd|]. apply Z.pow_nonneg. lia. }
  set (x := if digits0 =? 10 ^ 17 then x0 + 1 else x0).
  set (digits := if digits0 =? 10 ^ 17 then 10 ^ 16 else digits0).
  assert (H1 : 0 <= digits).
  { unfold digits. destruct (digits0 =? 10 ^ 17); [|exact H0]. apply Z.pow_nonneg. lia. }
  pose proof (fmt_unsigned_is_text digits H1) as Hds.
  destruct ((x <? -4) || (x >=? 17)).
  - apply Forall_app. split; [exact Hsign|]. apply Forall_app. split.
    + apply with_fraction_is_text; [now apply Forall_take | now apply Forall_drop].
    + constructor; [lia|]. constructor; [destruct (x <? 0); lia|].
      assert (He : is_text (fmt_unsigned (Z.abs x))) by (apply fmt_unsigned_is_text; lia).
      destruct (Z.abs x <? 10); [constructor; [lia | exact He] | exact He].
  - destruct (0 <=? x).
    + apply Forall_app. split; [exact Hsign|].
      apply with_fraction_is_text; [now apply Forall_take | now apply Forall_drop].
    + apply Forall_app. split; [exact Hsign|].
      apply with_fraction_is_text; [repeat constructor; lia|].
      apply Forall_app. split; [|exact Hds].
      apply List.Forall_forall. intros b Hb. apply repeat_spec in Hb. lia.
Qed.

(** ** The loops over the children *)

Lemma children_text_join (close : Z) (texts : list (list Z)) :
  children_text close true texts = join texts ++ [close] /\
  children_text close false texts =
    match texts with [] => [close] | _ :: _ => 44 :: join texts ++ [close] end.
Proof.
  induction texts as [|x t [IH1 IH2]]; [split; reflexivity|].
  cbn [children_text]. rewrite IH2.
  destruct t as [|y t]; cbn [join app]; rewrite <- ?app_assoc; cbn [app];
    split; reflexivity.
Qed.

Lemma list_sum_bound (l : list nat) (x : nat) : In x l -> (x <= list_sum l)%nat.
Proof.
  induction l as [|y l IH]; intros H; [destruct H|].
  simpl. destruct H as [->|H]; [lia|]. specialize (IH H). lia.
Qed.

Lemma list_sum_length (l : list nat) :
  Forall (fun x => (1 <= x)%nat) l -> (length l <= list_sum l)%nat.
Proof. induction 1; simpl; lia. Qed.

Lemma jsize_pos (v : jval) : (1 <= jsize v)%nat.
Proof. destruct v; cbn [jsize]; lia. Qed.

Lemma repr_list_length (A : Z -> Prop) (m : gmap Z Z) (l : list Z) (vs : list jval) :
  repr_list A m l vs -> length l = length vs.
Proof. induction 1; cbn [length]; congruence. Qed.

Lemma repr_members_length (A : Z -> Prop) (m : gmap Z Z) (l : list Z)
    (ms : list (list Z * jval)) :
  repr_members A m l ms -> length l = length ms.
Proof. induction 1; cbn [length]; congruence. Qed.

Lemma layout_children_plain (close : Z) (texts : list (list Z)) :
  forall first, layout_children close [] [] first texts = children_text close first texts.
Proof.
  induction texts as [|x t IH]; intros first; cbn [layout_children children_text].
  - destruct first; reflexivity.
  - rewrite IH. destruct first; reflexivity.
Qed.

Lemma indent_text_plain (opts : option json_stringify_options) (dep : Z) :
  is_pretty opts = false -> indent_text opts dep = [].
Proof.
  unfold is_pretty, indent_text. destruct opts as [o|]; [|reflexivity].
  destruct (_ =? 0); [reflexivity | discriminate].
Qed.

(** Without the pretty flag the text is the compact one. *)
Lemma layout_plain (A : Z -> Prop) (m : gmap Z Z) (opts : option json_stringify_options) :
  is_pretty opts = false ->
  (forall p v, repr A m p v -> forall dep, layout opts v dep = render v) /\
  (forall l vs, repr_list A m l vs ->
     forall dep, map (fun x => layout opts x dep) vs = map render vs) /\
  (forall l ms, repr_members A m l ms ->
     forall dep,
       map (fun kv => escaped (fst kv) ++ colon_text opts ++ layout opts (snd kv) dep) ms
       = map (fun kv => escaped (fst kv) ++ 58 :: render (snd kv)) ms).
Proof.
  intros Hplain.
  apply (repr_mutind A m
           (fun p v _ => forall dep, layout opts v dep = render v)
           (fun l vs _ => forall dep, map (fun x => layout opts x dep) vs = map render vs)
           (fun l ms _ => forall dep,
              map (fun kv => escaped (fst kv) ++ colon_text opts ++ layout opts (snd kv) dep) ms
              = map (fun kv => escaped (fst kv) ++ 58 :: render (snd kv)) ms));
    try reflexivity.
  - intros p l vs _ _ _ _ IH dep. cbn [layout render].
    rewrite !indent_text_plain, IH, layout_children_plain by exact Hplain.
    now rewrite (proj1 (children_text_join 93 _)).
  - intros p l ms _ _ _ _ IH dep. cbn [layout render].
    rewrite !indent_text_plain, IH, layout_children_plain by exact Hplain.
    now rewrite (proj1 (children_text_join 125 _)).
  - intros p l v vs _ IHv _ IHl dep. cbn [map]. now rewrite IHv, IHl.
  - intros k l bs v ms _ _ _ IHv _ IHl dep. cbn [map fst snd].
    rewrite IHv, IHl. unfold colon_text. rewrite Hplain. reflexivity.
Qed.

Section Children.

Variable A : Z -> Prop.
Variable opts : option json_stringify_options.
Variable sv : Z -> Z -> serializer.
Variable bound : nat.

Hypothesis Hnl : newline_ok opts.

Hypothesis Hsv : forall v p dep sb w,
  repr A (mem w) p v -> apart A sb w -> (jsize v < bound)%nat ->
  exists sb' w',
    sv p dep sb w = Some (true, sb', w') /\ strbuf_step sb w sb' w' /\
    content sb' w' = content sb w ++ layout opts v dep.

Lemma append_spaces_spec (n : nat) :
  forall sb w, apart A sb w ->
    exists sb' w',
      append_spaces n sb w = (true, sb', w') /\ strbuf_step sb w sb' w' /\
      content sb' w' = content sb w ++ repeat 32 n.
Proof.
  induction n as [|k IH]; intros sb w Hap; cbn [append_spaces repeat].
  - exists sb, w. split; [reflexivity|]. split; [apply strbuf_step_refl, Hap|].
    now rewrite app_nil_r.
  - destruct (append_apart A [32] sb w Hap) as (sb1 & w1 & E1 & S1 & C1);
      [repeat constructor; lia|].
    unfold strbuf_append_char. rewrite E1. cbn [and_then].
    destruct (apart_step A sb sb1 w w1 Hap S1) as [Hap1 _].
    destruct (IH sb1 w1 Hap1) as (sb2 & w2 & E2 & S2 & C2).
    exists sb2, w2. split; [exact E2|]. split; [exact (strbuf_step_trans _ _ _ _ _ _ S1 S2)|].
    rewrite C2, C1, <- app_assoc. reflexivity.
Qed.

Lemma indent_levels_spec (levels per : nat) :
  forall sb w, apart A sb w ->
    exists sb' w',
      indent_levels levels per sb w = (true, sb', w') /\ strbuf_step sb w sb' w' /\
      content sb' w' = content sb w ++ repeat 32 (levels * per).
Proof.
  induction levels as [|k IH]; intros sb w Hap; cbn [indent_levels].
  - exists sb, w. split; [reflexivity|]. split; [apply strbuf_step_refl, Hap|].
    now rewrite app_nil_r.
  - destruct (append_spaces_spec per sb w Hap) as (sb1 & w1 & E1 & S1 & C1).
    rewrite E1. cbn [and_then].
    destruct (apart_step A sb sb1 w w1 Hap S1) as [Hap1 _].
    destruct (IH sb1 w1 Hap1) as (sb2 & w2 & E2 & S2 & C2).
    exists sb2, w2. split; [exact E2|]. split; [exact (strbuf_step_trans _ _ _ _ _ _ S1 S2)|].
    rewrite C2, C1, <- app_assoc. f_equal.
    change (S k * per)%nat with (per + k * per)%nat. now rewrite repeat_app.
Qed.

Lemma indent_spec (dep : Z) (sb : strbuf) (w : world) :
  apart A sb w ->
  exists sb' w',
    when_pretty opts (stringify_indent opts dep) sb w = (true, sb', w') /\
    strbuf_step sb w sb' w' /\
    content sb' w' = content sb w ++ indent_text opts dep.
Proof.
  intros Hap.
  assert (Hsame : exists sb' w', (true, sb, w) = (true, sb', w') /\
            strbuf_step sb w sb' w' /\ content sb' w' = content sb w ++ []).
  { exists sb, w. split; [reflexivity|]. split; [apply strbuf_step_refl, Hap|].
    now rewrite app_nil_r. }
  unfold when_pretty, is_pretty, stringify_indent, indent_text, newline_ok in *.
  destruct opts as [o|]; [|exact Hsame].
  destruct (Z.land (sopt_flags o) JSON_STRINGIFY_PRETTY =? 0); cbn [negb]; [exact Hsame|].
  set (nl := match newline o with Some s => s | None => [10] end).
  assert (Hb : are_bytes nl).
  { unfold nl. destruct (newline o); [exact Hnl | repeat constructor; lia]. }
  destruct (append_apart A nl sb w Hap Hb) as (sb1 & w1 & E1 & S1 & C1).
  rewrite E1. cbn [and_then].
  destruct (apart_step A sb sb1 w w1 Hap S1) as [Hap1 _].
  destruct (indent_levels_spec (Z.to_nat dep) (Z.to_nat (indent o)) sb1 w1 Hap1)
    as (sb2 & w2 & E2 & S2 & C2).
  exists sb2, w2. split; [exact E2|]. split; [exact (strbuf_step_trans _ _ _ _ _ _ S1 S2)|].
  rewrite C2, C1, <- app_assoc. reflexivity.
Qed.

Lemma comma_spec (first : bool) (sb : strbuf) (w : world) :
  apart A sb w ->
  exists sb' w',
    (if first then (true, sb, w) else strbuf_append_char 44 sb w) = (true, sb', w') /\
    strbuf_step sb w sb' w' /\
    content sb' w' = content sb w ++ (if first then [] else [44]).
Proof.
  intros Hap. destruct first.
  - exists sb, w. split; [reflexivity|]. split; [apply strbuf_step_refl, Hap|].
    now rewrite app_nil_r.
  - apply (append_apart A [44] sb w Hap). repeat constructor; lia.
Qed.

Lemma separator_spec (first : bool) (dep : Z) (sb : strbuf) (w : world) :
  apart A sb w ->
  exists sb' w',
    and_then (if first then (true, sb, w) else strbuf_append_char 44 sb w)
             (when_pretty opts (stringify_indent opts dep)) = (true, sb', w') /\
    strbuf_step sb w sb' w' /\
    content sb' w' = content sb w ++ (if first then [] else [44]) ++ indent_text opts dep.
Proof.
  intros Hap. destruct (comma_spec first sb w Hap) as (sb1 & w1 & E1 & S1 & C1).
  rewrite E1. cbn [and_then].
  destruct (apart_step A sb sb1 w w1 Hap S1) as [Hap1 _].
  destruct (indent_spec dep sb1 w1 Hap1) as (sb2 & w2 & E2 & S2 & C2).
  exists sb2, w2. split; [exact E2|]. split; [exact (strbuf_step_trans _ _ _ _ _ _ S1 S2)|].
  rewrite C2, C1, <- app_assoc. reflexivity.
Qed.

Lemma close_spec (close : Z) (first : bool) (dep : Z) (sb : strbuf) (w : world) :
  0 <= close < 256 -> apart A sb w ->
  exists sb' w',
    and_then (if first then (true, sb, w)
              else when_pretty opts (stringify_indent opts dep) sb w)
             (strbuf_append_char close) = (true, sb', w') /\
    strbuf_step sb w sb' w' /\
    content sb' w' = content sb w ++ (if first then [] else indent_text opts dep) ++ [close].
Proof.
  intros Hc Hap.
  assert (H1 : exists sb1 w1,
    (if first then (true, sb, w) else when_pretty opts (stringify_indent opts dep) sb w)
      = (true, sb1, w1) /\
    strbuf_step sb w sb1 w1 /\
    content sb1 w1 = content sb w ++ (if first then [] else indent_text opts dep)).
  { destruct first; [|now apply indent_spec].
    exists sb, w. split; [reflexivity|]. split; [apply strbuf_step_refl, Hap|].
    now rewrite app_nil_r. }
  destruct H1 as (sb1 & w1 & E1 & S1 & C1). rewrite E1. cbn [and_then].
  destruct (apart_step A sb sb1 w w1 Hap S1) as [Hap1 _].
  destruct (append_apart A [close] sb1 w1 Hap1) as (sb2 & w2 & E2 & S2 & C2);
    [repeat constructor; lia|].
  exists sb2, w2. split; [exact E2|]. split; [exact (strbuf_step_trans _ _ _ _ _ _ S1 S2)|].
  rewrite C2, C1, <- app_assoc. reflexivity.
Qed.

Lemma colon_spec (sb : strbuf) (w : world) :
  apart A sb w ->
  exists sb' w',
    and_then (strbuf_append_char 58 sb w) (when_pretty opts (strbuf_append_char 32))
      = (true, sb', w') /\
    strbuf_step sb w sb' w' /\
    content sb' w' = content sb w ++ colon_text opts.
Proof.
  intros Hap.
  destruct (append_apart A [58] sb w Hap) as (sb1 & w1 & E1 & S1 & C1);
    [repeat constructor; lia|].
  unfold strbuf_append_char at 1. rewrite E1. cbn [and_then].
  unfold when_pretty, colon_text. destruct (is_pretty opts).
  - destruct (apart_step A sb sb1 w w1 Hap S1) as [Hap1 _].
    destruct (append_apart A [32] sb1 w1 Hap1) as (sb2 & w2 & E2 & S2 & C2);
      [repeat constructor; lia|].
    exists sb2, w2. split; [exact E2|]. split; [exact (strbuf_step_trans _ _ _ _ _ _ S1 S2)|].
    rewrite C2, C1, <- app_assoc. reflexivity.
  - exists sb1, w1. split; [reflexivity|]. split; assumption.
Qed.

Lemma stringify_array_loop_spec (vs : list jval) :
  forall l n dep elem first sb w,
    repr_list A (mem w) l vs -> siblings (mem w) elem l -> apart A sb w ->
    Forall (fun v => (jsize v < bound)%nat) vs -> (length vs < n)%nat ->
    exists sb' w',
      stringify_array_loop sv n opts dep elem first sb w = Some (true, sb', w') /\
      strbuf_step sb w sb' w' /\
      content sb' w' =
        content sb w ++
        layout_children 93 (indent_text opts (dep + 1)) (indent_text opts dep) first
          (map (fun x => layout opts x (dep + 1)) vs).
Proof.
  induction vs as [|v vs IH]; intros l n dep elem first sb w Hl Hsib Hap Hsz Hn;
    inversion Hl as [|p l' v' vs' Hp Hl' E1 E2]; subst;
    (destruct n as [|k]; [cbn [length] in Hn; lia|]); cbn [stringify_array_loop].
  - cbn [siblings] in Hsib. subst elem. cbn [Z.eqb map layout_children].
    destruct (close_spec 93 first dep sb w ltac:(lia) Hap) as (sb1 & w1 & E1 & S1 & C1).
    exists sb1, w1. rewrite E1. split; [reflexivity|]. split; assumption.
  - destruct Hsib as (-> & Hnz & Hnext).
    destruct (Z.eqb_spec p 0) as [|_]; [contradiction|].
    destruct (separator_spec first (dep + 1) sb w Hap) as (sb1 & w1 & E1 & S1 & C1).
    rewrite E1. cbn [and_then_opt].
    destruct (apart_step A sb sb1 w w1 Hap S1) as [Hap1 Ha1].
    destruct (repr_agree A (mem w) (mem w1) Ha1) as (R1 & RL1 & _).
    inversion Hsz as [|? ? Hv Hvs]; subst.
    destruct (Hsv v p (dep + 1) sb1 w1 (R1 _ _ Hp) Hap1 Hv) as (sb2 & w2 & E2 & S2 & C2).
    rewrite E2. cbn [and_then_opt].
    destruct (apart_step A sb1 sb2 w1 w2 Hap1 S2) as [Hap2 Ha2].
    pose proof (agree_trans A _ _ _ Ha1 Ha2) as Ha.
    destruct (repr_agree A (mem w) (mem w2) Ha) as (_ & RL2 & _).
    pose proof (repr_node_in A (mem w) p v Hp) as Hnode.
    destruct (IH l' k dep (next (mem w2) p) false sb2 w2) as (sb3 & w3 & E3 & S3 & C3).
    + now apply RL2.
    + rewrite (proj1 (proj2 (node_agree A (mem w) (mem w2) p Ha Hnode))).
      apply (siblings_agree A (mem w) (mem w2) l' Ha (repr_list_nodes A _ _ _ Hl')).
      exact Hnext.
    + exact Hap2.
    + exact Hvs.
    + cbn [length] in Hn. lia.
    + exists sb3, w3. split; [exact E3|]. split.
      * exact (strbuf_step_trans _ _ _ _ _ _ S1 (strbuf_step_trans _ _ _ _ _ _ S2 S3)).
      * rewrite C3, C2, C1. cbn [map layout_children]. rewrite <- !app_assoc. reflexivity.
Qed.

Lemma stringify_object_loop_spec (ms : list (list Z * jval)) :
  forall l n dep key first sb w,
    repr_members A (mem w) l ms -> siblings (mem w) key l -> apart A sb w ->
    Forall (fun kv => (jsize (snd kv) < bound)%nat) ms -> (length ms < n)%nat ->
    exists sb' w',
      stringify_object_loop sv n opts dep key first sb w = Some (true, sb', w') /\
      strbuf_step sb w sb' w' /\
      content sb' w' =
        content sb w ++
        layout_children 125 (indent_text opts (dep + 1)) (indent_text opts dep) first
          (map (fun kv => escaped (fst kv) ++ colon_text opts
                            ++ layout opts (snd kv) (dep + 1)) ms).
Proof.
  induction ms as [|[bs v] ms IH]; intros l n dep key first sb w Hl Hsib Hap Hsz Hn;
    inversion Hl as [|k0 l' bs' v' ms' Hk Hs Hp Hl' E1 E2]; subst;
    (destruct n as [|k]; [cbn [length] in Hn; lia|]); cbn [stringify_object_loop].
  - cbn [siblings] in Hsib. subst key. cbn [Z.eqb map layout_children].
    destruct (close_spec 125 first dep sb w ltac:(lia) Hap) as (sb1 & w1 & E1 & S1 & C1).
    exists sb1, w1. rewrite E1. split; [reflexivity|]. split; assumption.
  - destruct Hsib as (-> & Hnz & Hnext).
    destruct (Z.eqb_spec k0 0) as [|_]; [contradiction|].
    (* the comma *)
    destruct (comma_spec first sb w Hap) as (sb1 & w1 & E1 & S1 & C1).
    rewrite E1. cbn [and_then].
    destruct (apart_step A sb sb1 w w1 Hap S1) as [Hap1 Ha1].
    (* the indentation *)
    destruct (indent_spec (dep + 1) sb1 w1 Hap1) as (sb1' & w1' & E1' & S1' & C1').
    rewrite E1'. cbn [and_then].
    destruct (apart_step A sb1 sb1' w1 w1' Hap1 S1') as [Hap1' Ha1'].
    pose proof (agree_trans A _ _ _ Ha1 Ha1') as Ha01.
    (* the key *)
    pose proof (string_node_agree A _ _ k0 bs Ha01 Hk Hs) as (Hty1 & Hlen1 & Hrd1 & Hin1 & _).
    destruct (stringify_string_spec (json_get_str (mem w1') k0)
                (json_get_str_len (mem w1') k0) sb1' w1' (proj1 Hap1'))
      as (sb2 & w2 & E2 & S2 & C2).
    { lia. }
    { intros a Ha. apply (proj2 Hap1'), Hin1. lia. }
    rewrite E2. cbn [and_then].
    destruct (apart_step A sb1' sb2 w1' w2 Hap1' S2) as [Hap2 Ha2].
    (* the colon *)
    destruct (colon_spec sb2 w2 Hap2) as (sb3 & w3 & E3 & S3 & C3).
    rewrite E3. cbn [and_then_opt].
    destruct (apart_step A sb2 sb3 w2 w3 Hap2 S3) as [Hap3 Ha3].
    pose proof (agree_trans A _ _ _ Ha01 (agree_trans A _ _ _ Ha2 Ha3)) as Ha03.
    destruct (repr_agree A (mem w) (mem w3) Ha03) as (R3 & _ & _).
    (* the value *)
    inversion Hsz as [|? ? Hv Hvs]; subst. cbn [snd] in Hv.
    destruct (node_agree A (mem w) (mem w3) k0 Ha03 Hk) as (_ & En3 & Ec3).
    destruct (Hsv v (child (mem w3) k0) (dep + 1) sb3 w3) as (sb4 & w4 & E4 & S4 & C4).
    { rewrite Ec3. now apply R3. }
    { exact Hap3. }
    { exact Hv. }
    rewrite E4. cbn [and_then_opt].
    destruct (apart_step A sb3 sb4 w3 w4 Hap3 S4) as [Hap4 Ha4].
    pose proof (agree_trans A _ _ _ Ha03 Ha4) as Ha04.
    destruct (repr_agree A (mem w) (mem w4) Ha04) as (_ & _ & RM4).
    destruct (IH l' k dep (next (mem w4) k0) false sb4 w4) as (sb5 & w5 & E5 & S5 & C5).
    + now apply RM4.
    + rewrite (proj1 (proj2 (node_agree A (mem w) (mem w4) k0 Ha04 Hk))).
      apply (siblings_agree A (mem w) (mem w4) l' Ha04 (repr_members_nodes A _ _ _ Hl')).
      exact Hnext.
    + exact Hap4.
    + exact Hvs.
    + cbn [length] in Hn. lia.
    + exists sb5, w5. split; [exact E5|]. split.
      * exact (strbuf_step_trans _ _ _ _ _ _ S1
                (strbuf_step_trans _ _ _ _ _ _ S1'
                  (strbuf_step_trans _ _ _ _ _ _ S2
                    (strbuf_step_trans _ _ _ _ _ _ S3
                      (strbuf_step_trans _ _ _ _ _ _ S4 S5))))).
      * rewrite C5, C4, C3, C2, C1', C1. cbn [map layout_children fst snd].
        rewrite Hlen1, Nat2Z.id, Hrd1. rewrite <- !app_assoc. reflexivity.
Qed.

End Children.

(** ** The serializer of a value *)

Lemma append_apart_some (A : Z -> Prop) (bytes : list Z) (sb : strbuf) (w : world) :
  apart A sb w -> are_bytes bytes ->
  exists sb' w',
    Some (strbuf_append bytes sb w) = Some (true, sb', w') /\ strbuf_step sb w sb' w' /\
    content sb' w' = content sb w ++ bytes.
Proof.
  intros Hap Hb. destruct (append_apart A bytes sb w Hap Hb) as (sb1 & w1 & E1 & S1 & C1).
  exists sb1, w1. rewrite E1. split; [reflexivity|]. split; assumption.
Qed.

Lemma stringify_value_impl_layout (A : Z -> Prop) (opts : option json_stringify_options)
    (fuel : nat) :
  newline_ok opts ->
  forall v p dep sb w,
    repr A (mem w) p v -> apart A sb w -> (jsize v < fuel)%nat ->
    exists sb' w',
      stringify_value_impl fuel opts p dep sb w = Some (true, sb', w') /\
      strbuf_step sb w sb' w' /\
      content sb' w' = content sb w ++ layout opts v dep.
Proof.
  intros Hnl. induction fuel as [|f IH]; intros v p dep sb w Hr Hap Hsz; [lia|].
  pose proof (repr_node_in A _ p v Hr) as Hnode.
  cbn [stringify_value_impl].
  destruct (Z.eqb_spec p 0) as [E0|_]; [destruct Hnode; contradiction|].
  inversion Hr as [? _ Hty | ? _ Hty | ? _ Hty | ? z _ Hty Hz | ? d _ Hty Hd | ? bs _ Hs
                   | ? l vs _ Hty Hsib Hl | ? l ms _ Hty Hsib Hl]; subst.
  - rewrite Hty. cbn [Z.eqb JSON_NULL]. apply (append_apart_some A); [exact Hap|].
    vm_compute. repeat constructor; discriminate.
  - rewrite Hty. cbn [Z.eqb JSON_NULL JSON_FALSE JSON_TRUE Pos.eqb].
    apply (append_apart_some A); [exact Hap|].
    vm_compute. repeat constructor; discriminate.
  - rewrite Hty. cbn [Z.eqb JSON_NULL JSON_FALSE JSON_TRUE Pos.eqb].
    apply (append_apart_some A); [exact Hap|].
    vm_compute. repeat constructor; discriminate.
  - rewrite Hty. cbn [Z.eqb JSON_NULL JSON_FALSE JSON_TRUE JSON_INT Pos.eqb orb].
    unfold stringify_number. rewrite Hty. cbn [Z.eqb JSON_INT Pos.eqb layout render].
    apply (append_apart_some A); [exact Hap | apply is_text_are_bytes, fmt_lld_is_text].
  - rewrite Hty. cbn [Z.eqb JSON_NULL JSON_FALSE JSON_TRUE JSON_INT JSON_FLOAT Pos.eqb orb].
    unfold stringify_number. rewrite Hty. cbn [Z.eqb JSON_INT JSON_FLOAT Pos.eqb layout render].
    apply (append_apart_some A); [exact Hap|].
    destruct (isnan _); [vm_compute; repeat constructor; discriminate|].
    destruct (isinf _); [vm_compute; repeat constructor; discriminate|].
    apply is_text_are_bytes, fmt_17g_is_text.
  - destruct Hs as (Hty & Hlen & Hrd & Hin & Hnz).
    assert (Et : (val_get_type (mem w) p =? JSON_NULL) = false /\
                 (val_get_type (mem w) p =? JSON_FALSE) = false /\
                 (val_get_type (mem w) p =? JSON_TRUE) = false /\
                 ((val_get_type (mem w) p =? JSON_INT) ||
                  (val_get_type (mem w) p =? JSON_FLOAT)) = false /\
                 ((val_get_type (mem w) p =? JSON_STRING_SHORT) ||
                  (val_get_type (mem w) p =? JSON_STRING_LONG)) = true).
    { destruct Hty as [-> | ->]; repeat split; reflexivity. }
    destruct Et as (-> & -> & -> & -> & ->).
    destruct (stringify_string_spec (json_get_str (mem w) p) (json_get_str_len (mem w) p)
                sb w (proj1 Hap)) as (sb1 & w1 & E1 & S1 & C1).
    { lia. }
    { intros a Ha. apply (proj2 Hap), Hin. lia. }
    exists sb1, w1. split; [now rewrite E1|]. split; [exact S1|].
    rewrite C1, Hlen, Nat2Z.id, Hrd. reflexivity.
  - rewrite Hty. cbn [Z.eqb JSON_NULL JSON_FALSE JSON_TRUE JSON_INT JSON_FLOAT
                      JSON_STRING_SHORT JSON_STRING_LONG JSON_ARRAY Pos.eqb orb].
    destruct (append_apart A [91] sb w Hap) as (sb1 & w1 & E1 & S1 & C1);
      [repeat constructor; lia|].
    unfold strbuf_append_char. rewrite E1. cbn [and_then_opt].
    destruct (apart_step A sb sb1 w w1 Hap S1) as [Hap1 Ha1].
    destruct (repr_agree A (mem w) (mem w1) Ha1) as (_ & RL1 & _).
    cbn [jsize] in Hsz.
    destruct (stringify_array_loop_spec A opts (stringify_value_impl f opts) f Hnl IH
                vs l f dep (child (mem w) p) true sb1 w1) as (sb2 & w2 & E2 & S2 & C2).
    + now apply RL1.
    + apply (siblings_agree A (mem w) (mem w1) l Ha1 (repr_list_nodes A _ _ _ Hl)).
      exact Hsib.
    + exact Hap1.
    + apply List.Forall_forall. intros x Hx.
      pose proof (list_sum_bound (map jsize vs) (jsize x) (in_map jsize vs x Hx)). lia.
    + assert (length vs <= list_sum (map jsize vs))%nat; [|lia].
      rewrite <- (length_map jsize vs). apply list_sum_length.
      apply List.Forall_forall. intros x Hx. apply in_map_iff in Hx.
      destruct Hx as (y & <- & _). apply jsize_pos.
    + exists sb2, w2. split; [exact E2|]. split; [exact (strbuf_step_trans _ _ _ _ _ _ S1 S2)|].
      rewrite C2, C1, <- app_assoc. reflexivity.
  - rewrite Hty. cbn [Z.eqb JSON_NULL JSON_FALSE JSON_TRUE JSON_INT JSON_FLOAT
                      JSON_STRING_SHORT JSON_STRING_LONG JSON_ARRAY JSON_OBJECT Pos.eqb orb].
    destruct (append_apart A [123] sb w Hap) as (sb1 & w1 & E1 & S1 & C1);
      [repeat constructor; lia|].
    unfold strbuf_append_char. rewrite E1. cbn [and_then_opt].
    destruct (apart_step A sb sb1 w w1 Hap S1) as [Hap1 Ha1].
    destruct (repr_agree A (mem w) (mem w1) Ha1) as (_ & _ & RM1).
    cbn [jsize] in Hsz.
    set (sizes := map (fun kv : list Z * jval => S (jsize (snd kv))) ms) in Hsz.
    destruct (stringify_object_loop_spec A opts (stringify_value_impl f opts) f Hnl IH
                ms l f dep (child (mem w) p) true sb1 w1) as (sb2 & w2 & E2 & S2 & C2).
    + now apply RM1.
    + apply (siblings_agree A (mem w) (mem w1) l Ha1 (repr_members_nodes A _ _ _ Hl)).
      exact Hsib.
    + exact Hap1.
    + apply List.Forall_forall. intros x Hx.
      pose proof (list_sum_bound sizes (S (jsize (snd x)))
                    (in_map (fun kv : list Z * jval => S (jsize (snd kv))) ms x Hx)). lia.
    + assert (length ms <= list_sum sizes)%nat; [|lia].
      unfold sizes. rewrite <- (length_map (fun kv : list Z * jval => S (jsize (snd kv))) ms).
      apply list_sum_length.
      apply List.Forall_forall. intros x Hx. apply in_map_iff in Hx.
      destruct Hx as (y & <- & _). lia.
    + exists sb2, w2. split; [exact E2|]. split; [exact (strbuf_step_trans _ _ _ _ _ _ S1 S2)|].
      rewrite C2, C1, <- app_assoc. reflexivity.
Qed.

Lemma newline_ok_plain (opts : option json_stringify_options) :
  is_pretty opts = false -> newline_ok opts.
Proof.
  unfold is_pretty, newline_ok. destruct opts as [o|]; [|constructor].
  destruct (_ =? 0); [constructor | discriminate].
Qed.

Lemma stringify_value_impl_spec (A : Z -> Prop) (opts : option json_stringify_options)
    (fuel : nat) :
  is_pretty opts = false ->
  forall v p dep sb w,
    repr A (mem w) p v -> apart A sb w -> (jsize v < fuel)%nat ->
    exists sb' w',
      stringify_value_impl fuel opts p dep sb w = Some (true, sb', w') /\
      strbuf_step sb w sb' w' /\
      content sb' w' = content sb w ++ render v.
Proof.
  intros Hplain v p dep sb w Hr Hap Hsz.
  rewrite <- (proj1 (layout_plain A (mem w) opts Hplain) p v Hr dep).
  exact (stringify_value_impl_layout A opts fuel (newline_ok_plain opts Hplain)
           v p dep sb w Hr Hap Hsz).
Qed.

(** X24: on a buffer in use that lies apart from the tree,
    [stringify_value_impl] succeeds on every tree of nodes and appends
    exactly the text of the value the tree stands for: the elements of an
    array and the members of an object in the order of their nodes,
    separated by commas, a colon behind each key, [[]] and [{}] for empty
    containers; with the pretty flag each child stands on a line of its own,
    behind the newline string and [indent] spaces per level, a space follows
    each colon, and the closing byte of a container with children stands
    on its own line; without the flag there is no whitespace.  The fuel has
    to exceed the number of nodes. *)
Theorem stringify_value_impl_text (A : Z -> Prop) (opts : option json_stringify_options)
    (fuel : nat) (v : jval) (p dep : Z) (sb : strbuf) (w : world) :
  newline_ok opts ->
  repr A (mem w) p v -> apart A sb w -> (jsize v < fuel)%nat ->
  exists sb' w',
    stringify_value_impl fuel opts p dep sb w = Some (true, sb', w') /\
    strbuf_step sb w sb' w' /\
    content sb' w' = content sb w ++ layout opts v dep.
Proof.
  intros Hnl. exact (stringify_value_impl_layout A opts fuel Hnl v p dep sb w).
Qed.

Lemma stringify_value_impl_text_witness :
  let m := write_bytes
             (val_set_type
                (set_child
                   (set_tag_payload (set_child (val_set_type ∅ 64 JSON_OBJECT) 64 128) 128
                      (Z.lor JSON_STRING_SHORT (Z.shiftl 1 4)))
                   128 152)
                152 JSON_TRUE)
             129 [97] in
  let sw := strbuf_init 256 (set_mem fresh_world m) in
  let sb := default (mk_strbuf 0 0 0) (fst sw) in
  let w := snd sw in
  let v := JObject [([97], JTrue)] in
  let opts := Some (mk_stringify_options JSON_STRINGIFY_PRETTY 2 None) in
  exists sb' w',
    stringify_value_impl 4 opts 64 0 sb w = Some (true, sb', w') /\
    strbuf_step sb w sb' w' /\
    content sb' w' = content sb w ++ layout opts v 0.
Proof.
  intros m sw sb w v opts.
  assert (Hd : data sb = 4096) by (vm_compute; reflexivity).
  assert (Hc : cap sb = 256) by (vm_compute; reflexivity).
  assert (Hb : brk w = 4352) by (vm_compute; reflexivity).
  assert (Hs : json_get_str (mem w) 128 = 129) by (vm_compute; reflexivity).
  apply (stringify_value_impl_text (fun a => 64 <= a < 176) opts 4 v 64 0 sb w).
  - vm_compute. exact I.
  - apply (repr_object _ _ 64 [128]).
    + split; [discriminate | intros a Ha; lia].
    + vm_compute. reflexivity.
    + vm_compute. repeat split; discriminate.
    + constructor.
      * split; [discriminate | intros a Ha; lia].
      * split; [left; vm_compute; reflexivity|].
        split; [vm_compute; reflexivity|].
        split; [vm_compute; reflexivity|].
        split; [|vm_compute; discriminate].
        intros a Ha. rewrite Hs in Ha. cbn [length] in Ha. lia.
      * apply repr_true.
        -- split; [vm_compute; discriminate|].
           intros a Ha. replace (child (mem w) 128) with 152 in Ha by (vm_compute; reflexivity).
           lia.
        -- vm_compute. reflexivity.
      * constructor.
  - split.
    + constructor; try (rewrite ?Hd, ?Hc, ?Hb; lia).
      * split; vm_compute; discriminate.
      * vm_compute. reflexivity.
    + intros a Ha. unfold in_buf. rewrite Hd, Hc, Hb. lia.
  - cbn. lia.
Defined.

Lemma json_stringify_opts_layout (A : Z -> Prop) (opts : option json_stringify_options)
    (fuel : nat) (v : jval) (p : Z) (w : world) :
  newline_ok opts -> 0 < brk w ->
  repr A (mem w) p v -> (forall a, A a -> a < brk w) -> (jsize v < fuel)%nat ->
  exists str w',
    json_stringify_opts fuel p opts w = Some (str, Z.of_nat (length (layout opts v 0)), w') /\
    brk w <= str /\ str + Z.of_nat (length (layout opts v 0)) < brk w' /\
    live w' !! str <> None /\
    read_bytes (length (layout opts v 0)) (mem w') str = layout opts v 0 /\
    load8 (mem w') (str + Z.of_nat (length (layout opts v 0))) = 0 /\
    repr A (mem w') p v /\
    (forall a, a < brk w -> load8 (mem w') a = load8 (mem w) a).
Proof.
  intros Hnl Hbrk Hr HA Hsz.
  pose proof (repr_node_in A _ p v Hr) as [Hnz _].
  unfold json_stringify_opts. destruct (Z.eqb_spec p 0) as [|_]; [contradiction|].
  unfold stringify_value, strbuf_init, malloc, malloc_at.
  set (p0 := (brk w + 16 - 1) / 16 * 16).
  assert (Hp0 : brk w <= p0).
  { pose proof (Z.mul_succ_div_gt (brk w + 16 - 1) 16 ltac:(lia)). unfold p0. lia. }
  destruct (Z.eqb_spec p0 0) as [|_]; [lia|].
  set (sb0 := mk_strbuf p0 0 1024).
  set (w0 := mk_world (mem w) (p0 + 1024) (<[p0:=1024]> (live w)) (g_last_error w)
                      (g_initialized w) (g_cpu_features w) (hw_features w)).
  assert (Hap0 : apart A sb0 w0).
  { split.
    - constructor; cbn [data sb_len cap brk live sb0 w0]; try lia.
      apply lookup_insert_eq.
    - intros a Ha. specialize (HA a Ha). unfold in_buf. cbn [data cap brk sb0 w0]. lia. }
  destruct (stringify_value_impl_layout A opts fuel Hnl v p 0 sb0 w0 Hr Hap0 Hsz)
    as (sb1 & w1 & E1 & S1 & C1).
  rewrite E1.
  destruct (apart_step A sb0 sb1 w0 w1 Hap0 S1) as [Hap1 Ha1].
  destruct (append_apart A [0] sb1 w1 Hap1) as (sb2 & w2 & E2 & S2 & C2);
    [repeat constructor; lia|].
  unfold strbuf_append_char. rewrite E2. cbn [negb].
  destruct (apart_step A sb1 sb2 w1 w2 Hap1 S2) as [Hap2 Ha2].
  assert (Hlen1 : sb_len sb1 = Z.of_nat (length (layout opts v 0))).
  { pose proof (f_equal (@length Z) C1) as HL. unfold content in HL.
    rewrite length_app, !read_bytes_length in HL. cbn [sb_len sb0] in HL.
    pose proof (so_len _ _ (proj1 Hap1)). change (Z.to_nat 0) with 0%nat in HL. lia. }
  assert (Hlen2 : Z.to_nat (sb_len sb2) = (length (layout opts v 0) + 1)%nat).
  { pose proof (f_equal (@length Z) C2) as HL. unfold content in HL.
    rewrite length_app, !read_bytes_length in HL. cbn [length] in HL. lia. }
  assert (Htext : read_bytes (length (layout opts v 0)) (mem w2) (data sb2) ++
                  [load8 (mem w2) (data sb2 + Z.of_nat (length (layout opts v 0)))]
                  = layout opts v 0 ++ [0]).
  { assert (HC : content sb2 w2 = layout opts v 0 ++ [0]) by (rewrite C2, C1; reflexivity).
    unfold content in HC. rewrite Hlen2, read_bytes_app in HC. exact HC. }
  apply app_inj_tail in Htext. destruct Htext as [Ht Hnul].
  exists (data sb2), w2. rewrite Hlen1. split; [reflexivity|].
  split.
  { pose proof (ss_brk _ _ _ _ S1) as Hb1. pose proof (so_cap _ _ (proj1 Hap2)) as Hc2.
    cbn [brk w0] in Hb1.
    destruct (ss_buf _ _ _ _ S2 (data sb2)) as [I1|I1]; [unfold in_buf; lia | |lia].
    destruct (ss_buf _ _ _ _ S1 (data sb2) I1) as [I0|I0].
    - unfold in_buf in I0. cbn [data cap sb0] in I0. lia.
    - cbn [brk w0] in I0. lia. }
  split.
  { pose proof (so_brk _ _ (proj1 Hap2)). pose proof (so_len _ _ (proj1 Hap2)). lia. }
  split; [rewrite (so_live _ _ (proj1 Hap2)); discriminate|].
  split; [exact Ht|]. split; [exact Hnul|]. split.
  { apply (proj1 (repr_agree A (mem w) (mem w2) (agree_trans A _ _ _ Ha1 Ha2))). exact Hr. }
  assert (Hbelow : apart (fun a => a < brk w) sb0 w0).
  { split; [exact (proj1 Hap0)|].
    intros a Ha. unfold in_buf. cbn [data cap brk sb0 w0]. lia. }
  destruct (apart_step _ sb0 sb1 w0 w1 Hbelow S1) as [Hbelow1 Hb1].
  destruct (apart_step _ sb1 sb2 w1 w2 Hbelow1 S2) as [_ Hb2].
  intros a Ha. rewrite (Hb2 a Ha). exact (Hb1 a Ha).
Qed.

Lemma json_stringify_opts_spec (A : Z -> Prop) (opts : option json_stringify_options)
    (fuel : nat) (v : jval) (p : Z) (w : world) :
  is_pretty opts = false -> 0 < brk w ->
  repr A (mem w) p v -> (forall a, A a -> a < brk w) -> (jsize v < fuel)%nat ->
  exists str w',
    json_stringify_opts fuel p opts w = Some (str, Z.of_nat (length (render v)), w') /\
    brk w <= str /\ str + Z.of_nat (length (render v)) < brk w' /\
    live w' !! str <> None /\
    read_bytes (length (render v)) (mem w') str = render v /\
    load8 (mem w') (str + Z.of_nat (length (render v))) = 0 /\
    repr A (mem w') p v /\
    (forall a, a < brk w -> load8 (mem w') a = load8 (mem w) a).
Proof.
  intros Hplain Hbrk Hr HA Hsz.
  rewrite <- (proj1 (layout_plain A (mem w) opts Hplain) p v Hr 0).
  exact (json_stringify_opts_layout A opts fuel v p w (newline_ok_plain opts Hplain)
           Hbrk Hr HA Hsz).
Qed.

(** X25: [json_stringify_opts] (and so [json_stringify], which passes no
    options) on the root of a tree of nodes returns a fresh live block that
    holds the text of the value under the options, followed by a NUL byte,
    and the length of that text; the tree, and every byte allocated before
    the call, is left as it was.  The fuel has to exceed the number of
    nodes. *)
Theorem json_stringify_opts_text (A : Z -> Prop) (opts : option json_stringify_options)
    (fuel : nat) (v : jval) (p : Z) (w : world) :
  newline_ok opts -> 0 < brk w ->
  repr A (mem w) p v -> (forall a, A a -> a < brk w) -> (jsize v < fuel)%nat ->
  exists str w',
    json_stringify_opts fuel p opts w = Some (str, Z.of_nat (length (layout opts v 0)), w') /\
    brk w <= str /\ str + Z.of_nat (length (layout opts v 0)) < brk w' /\
    live w' !! str <> None /\
    read_bytes (length (layout opts v 0)) (mem w') str = layout opts v 0 /\
    load8 (mem w') (str + Z.of_nat (length (layout opts v 0))) = 0 /\
    repr A (mem w') p v /\
    (forall a, a < brk w -> load8 (mem w') a = load8 (mem w) a).
Proof. exact (json_stringify_opts_layout A opts fuel v p w). Qed.

Lemma json_stringify_opts_text_witness :
  let m := write_bytes
             (val_set_type
                (set_child
                   (set_tag_payload (set_child (val_set_type ∅ 64 JSON_OBJECT) 64 128) 128
                      (Z.lor JSON_STRING_SHORT (Z.shiftl 1 4)))
                   128 152)
                152 JSON_TRUE)
             129 [97] in
  let w := set_mem fresh_world m in
  let v := JObject [([97], JTrue)] in
  let opts := Some (mk_stringify_options JSON_STRINGIFY_PRETTY 2 None) in
  exists str w',
    json_stringify_opts 4 64 opts w = Some (str, Z.of_nat (length (layout opts v 0)), w') /\
    brk w <= str /\ str + Z.of_nat (length (layout opts v 0)) < brk w' /\
    live w' !! str <> None /\
    read_bytes (length (layout opts v 0)) (mem w') str = layout opts v 0 /\
    load8 (mem w') (str + Z.of_nat (length (layout opts v 0))) = 0 /\
    repr (fun a => 64 <= a < 176) (mem w') 64 v /\
    (forall a, a < brk w -> load8 (mem w') a = load8 (mem w) a).
Proof.
  intros m w v opts.
  assert (Hs : json_get_str (mem w) 128 = 129) by (vm_compute; reflexivity).
  apply (json_stringify_opts_text (fun a => 64 <= a < 176) opts 4 v 64 w).
  - vm_compute. exact I.
  - vm_compute. reflexivity.
  - apply (repr_object _ _ 64 [128]).
    + split; [discriminate | intros a Ha; lia].
    + vm_compute. reflexivity.
    + vm_compute. repeat split; discriminate.
    + constructor.
      * split; [discriminate | intros a Ha; lia].
      * split; [left; vm_compute; reflexivity|].
        split; [vm_compute; reflexivity|].
        split; [vm_compute; reflexivity|].
        split; [|vm_compute; discriminate].
        intros a Ha. rewrite Hs in Ha. cbn [length] in Ha. lia.
      * apply repr_true.
        -- split; [vm_compute; discriminate|].
           intros a Ha. replace (child (mem w) 128) with 152 in Ha by (vm_compute; reflexivity).
           lia.
        -- vm_compute. reflexivity.
      * constructor.
  - intros a Ha. change (brk w) with 4096. lia.
  - cbn. lia.
Defined.

(** * Cloning: the serializer feeds the parser *)

(** ** The compact text is JSON *)

Lemma dec_digits_int_part (n : nat) :
  forall v acc, 0 < v < 10 ^ Z.of_nat n ->
    exists d ds, dec_digits n v acc = d :: ds ++ acc /\ 49 <= d <= 57 /\ all_digits ds.
Proof.
  induction n as [|k IH]; intros v acc Hv; [cbn in Hv; lia|].
  cbn [dec_digits]. destruct (Z.ltb_spec v 10) as [Hlt|Hge].
  - exists (48 + v), []. split; [reflexivity|]. split; [lia | constructor].
  - rewrite Nat2Z.inj_succ, Z.pow_succ_r in Hv by lia.
    destruct (IH (v / 10) ((48 + v mod 10) :: acc)) as (d & ds & E & Hd & Hds).
    { split; [apply Z.div_str_pos; lia|]. apply Z.div_lt_upper_bound; lia. }
    exists d, (ds ++ [48 + v mod 10]). split; [now rewrite E, <- app_assoc|].
    split; [exact Hd|]. apply Forall_app. split; [exact Hds|].
    constructor; [|constructor]. pose proof (Z.mod_pos_bound v 10). lia.
Qed.

Lemma fmt_unsigned_int_part (v : Z) : 0 <= v -> int_part (fmt_unsigned v).
Proof.
  intros Hv. unfold fmt_unsigned. destruct (Z.eq_dec v 0) as [->|Hnz]; [exact ip_zero|].
  destruct (dec_digits_int_part (S (Z.to_nat (Z.log2 v))) v []) as (d & ds & E & Hd & Hds).
  - split; [lia|]. pose proof (Z.log2_nonneg v) as Hl.
    destruct (Z.log2_spec v ltac:(lia)) as [_ Hup].
    rewrite Nat2Z.inj_succ, Z2Nat.id by exact Hl.
    apply Z.lt_le_trans with (1 := Hup). apply Z.pow_le_mono_l. lia.
  - rewrite E, app_nil_r. now constructor.
Qed.

Lemma fmt_lld_number_text (v : Z) : number_text (fmt_lld v).
Proof.
  unfold fmt_lld. destruct (Z.ltb_spec v 0) as [Hneg|Hpos].
  - pose proof (nt_number [45] (fmt_unsigned (- v)) [] []) as H.
    rewrite !app_nil_r in H. apply H; [now right | | constructor | constructor |].
    + apply fmt_unsigned_int_part. lia.
    + intros []. reflexivity.
  - pose proof (nt_number [] (fmt_unsigned v) [] []) as H.
    rewrite !app_nil_r in H. apply H; [now left | | constructor | constructor |].
    + now apply fmt_unsigned_int_part.
    + intros []. reflexivity.
Qed.

Lemma string_node_are_bytes (A : Z -> Prop) (m : gmap Z Z) (p : Z) (bs : list Z) :
  string_node A m p bs -> are_bytes bs.
Proof. intros (_ & _ & <- & _). apply read_bytes_are_bytes. Qed.

Lemma escaped_value_text (bs : list Z) : are_bytes bs -> value_text 0 (escaped bs).
Proof. intros H. unfold escaped. apply (vt_string _ bs). now apply escaped_decodes. Qed.

(** The text of a tree without floats is the text of a JSON value. *)
Lemma render_value_text (A : Z -> Prop) (m : gmap Z Z) :
  (forall p v, repr A m p v -> no_float v = true -> exists d, value_text d (render v)) /\
  (forall l vs, repr_list A m l vs -> forallb no_float vs = true -> vs <> [] ->
     exists d, elements_text d (join (map render vs))) /\
  (forall l ms, repr_members A m l ms ->
     forallb (fun kv => no_float (snd kv)) ms = true -> ms <> [] ->
     exists d, members_text d
                 (join (map (fun kv => escaped (fst kv) ++ 58 :: render (snd kv)) ms))).
Proof.
  apply (repr_mutind A m
           (fun p v _ => no_float v = true -> exists d, value_text d (render v))
           (fun l vs _ => forallb no_float vs = true -> vs <> [] ->
              exists d, elements_text d (join (map render vs)))
           (fun l ms _ => forallb (fun kv => no_float (snd kv)) ms = true -> ms <> [] ->
              exists d, members_text d
                (join (map (fun kv => escaped (fst kv) ++ 58 :: render (snd kv)) ms)))).
  - intros. exists 0%nat. exact vt_null.
  - intros. exists 0%nat. exact vt_true.
  - intros. exists 0%nat. exact vt_false.
  - intros p z _ _ _ _. exists 0%nat. apply vt_number, fmt_lld_number_text.
  - intros p d _ _ _ H. discriminate H.
  - intros p bs _ Hs _. exists 0%nat.
    apply escaped_value_text, (string_node_are_bytes A m p bs Hs).
  - intros p l vs _ _ _ _ IH Hnf. cbn [no_float] in Hnf. cbn [render].
    destruct vs as [|v vs].
    + exists 1%nat. exact (vt_empty_array [] (List.Forall_nil _)).
    + destruct (IH Hnf ltac:(discriminate)) as (d & Hd). exists (S d).
      exact (vt_array [] d _ (List.Forall_nil _) Hd).
  - intros p l ms _ _ _ _ IH Hnf. cbn [no_float] in Hnf. cbn [render].
    destruct ms as [|kv ms].
    + exists 1%nat. exact (vt_empty_object [] (List.Forall_nil _)).
    + destruct (IH Hnf ltac:(discriminate)) as (d & Hd). exists (S d).
      exact (vt_object [] d _ (List.Forall_nil _) Hd).
  - intros _ H. now contradiction H.
  - intros p l v vs _ IHv _ IHl Hnf _. cbn [forallb] in Hnf.
    apply andb_prop in Hnf as [Hv Hvs]. destruct (IHv Hv) as (d1 & Hd1).
    destruct vs as [|v2 vs].
    + exists d1. cbn [map join]. rewrite <- (app_nil_r (render v)).
      exact (et_last d1 _ [] Hd1 (List.Forall_nil _)).
    + destruct (IHl Hvs ltac:(discriminate)) as (d2 & Hd2). exists (Nat.max d1 d2).
      exact (et_cons d1 _ [] [] d2 _ Hd1 (List.Forall_nil _) (List.Forall_nil _) Hd2).
  - intros _ H. now contradiction H.
  - intros k l bs v ms _ Hs _ IHv _ IHl Hnf _. cbn [forallb snd] in Hnf.
    apply andb_prop in Hnf as [Hv Hms]. destruct (IHv Hv) as (d1 & Hd1).
    pose proof (escaped_decodes bs (string_node_are_bytes A m k bs Hs)) as Hdec.
    destruct ms as [|kv ms].
    + exists d1. cbn [map join fst snd].
      pose proof (mt_last _ bs [] [] d1 _ [] Hdec (List.Forall_nil _) (List.Forall_nil _) Hd1
                    (List.Forall_nil _)) as H.
      cbn [app] in H. rewrite app_nil_r in H. exact H.
    + destruct (IHl Hms ltac:(discriminate)) as (d2 & Hd2). exists (Nat.max d1 d2).
      set (f := fun kv : list Z * jval => escaped (fst kv) ++ 58 :: render (snd kv)) in *.
      assert (E : join (map f ((bs, v) :: kv :: ms))
                  = escaped bs ++ 58 :: render v ++ 44 :: join (map f (kv :: ms))).
      { cbn [map join]. unfold f at 1. cbn [fst snd]. rewrite <- app_assoc. reflexivity. }
      rewrite E.
      exact (mt_cons _ bs [] [] d1 _ [] [] d2 _ Hdec (List.Forall_nil _) (List.Forall_nil _) Hd1
               (List.Forall_nil _) (List.Forall_nil _) Hd2).
Qed.

(** ** The compact text holds no NUL byte *)

Lemma escape_byte_is_text (b : Z) : 0 <= b < 256 -> is_text (escape_byte b).
Proof.
  intros Hb.
  assert (Hall : forallb (fun n => forallb (fun x => (0 <? x) && (x <? 256))
                                           (escape_byte (Z.of_nat n)))
                         (seq 0 256) = true) by (vm_compute; reflexivity).
  pose proof (proj1 (forallb_forall _ _) Hall (Z.to_nat b)) as H.
  cbv beta in H. rewrite Z2Nat.id in H by lia.
  assert (Hin : In (Z.to_nat b) (seq 0 256)) by (apply in_seq; lia).
  specialize (H Hin). apply List.Forall_forall. intros x Hx.
  pose proof (proj1 (forallb_forall _ _) H x Hx) as Hx0. cbv beta in Hx0.
  apply andb_prop in Hx0 as [H1 H2]. apply Z.ltb_lt in H1, H2. lia.
Qed.

Lemma escaped_is_text (bs : list Z) : are_bytes bs -> is_text (escaped bs).
Proof.
  intros H. unfold escaped. constructor; [lia|]. apply Forall_app. split.
  - induction H as [|b bs Hb _ IH]; cbn [map concat]; [constructor|].
    apply Forall_app. split; [now apply escape_byte_is_text | exact IH].
  - repeat constructor; lia.
Qed.

Lemma join_is_text (texts : list (list Z)) : Forall is_text texts -> is_text (join texts).
Proof.
  induction 1 as [|x t Hx Ht IH]; [constructor|].
  destruct t as [|y t]; [exact Hx|].
  change (is_text (x ++ 44 :: join (y :: t))).
  apply Forall_app. split; [exact Hx|]. constructor; [lia | exact IH].
Qed.

Lemma render_is_text (A : Z -> Prop) (m : gmap Z Z) :
  (forall p v, repr A m p v -> is_text (render v)) /\
  (forall l vs, repr_list A m l vs -> Forall is_text (map render vs)) /\
  (forall l ms, repr_members A m l ms ->
     Forall is_text (map (fun kv => escaped (fst kv) ++ 58 :: render (snd kv)) ms)).
Proof.
  apply (repr_mutind A m
           (fun p v _ => is_text (render v))
           (fun l vs _ => Forall is_text (map render vs))
           (fun l ms _ =>
              Forall is_text
                (map (fun kv => escaped (fst kv) ++ 58 :: render (snd kv)) ms))).
  - intros. vm_compute. repeat constructor; reflexivity.
  - intros. vm_compute. repeat constructor; reflexivity.
  - intros. vm_compute. repeat constructor; reflexivity.
  - intros. apply fmt_lld_is_text.
  - intros p d _ _ _. cbn [render].
    destruct (isnan d); [vm_compute; repeat constructor; reflexivity|].
    destruct (isinf d); [vm_compute; repeat constructor; reflexivity|].
    apply fmt_17g_is_text.
  - intros p bs _ Hs. apply escaped_is_text, (string_node_are_bytes A m p bs Hs).
  - intros p l vs _ _ _ _ IH. cbn [render].
    constructor; [lia|]. apply Forall_app. split; [apply join_is_text, IH|].
    repeat constructor; lia.
  - intros p l ms _ _ _ _ IH. cbn [render].
    constructor; [lia|]. apply Forall_app. split; [apply join_is_text, IH|].
    repeat constructor; lia.
  - constructor.
  - intros p l v vs _ IHv _ IHl. cbn [map]. constructor; [exact IHv | exact IHl].
  - constructor.
  - intros k l bs v ms _ Hs _ IHv _ IHl. cbn [map fst snd].
    constructor; [|exact IHl].
    apply Forall_app. split; [apply escaped_is_text, (string_node_are_bytes A m k bs Hs)|].
    constructor; [lia | exact IHv].
Qed.

(** [strlen] of a text without NUL that a NUL follows. *)
Lemma strlen_from_text (l : list Z) :
  forall n m p acc,
    is_text l -> read_bytes (length l) m p = l -> load8 m (p + Z.of_nat (length l)) = 0 ->
    (length l < n)%nat ->
    strlen_from n m p acc = Some (acc + Z.of_nat (length l)).
Proof.
  induction l as [|b l IH]; intros n m p acc Hnn Hrd Hz Hn;
    (destruct n as [|k]; [cbn [length] in Hn; lia|]); cbn [strlen_from].
  - cbn [length] in Hz. change (Z.of_nat 0) with 0 in *. rewrite Z.add_0_r in Hz.
    rewrite Hz. cbn. now rewrite Z.add_0_r.
  - cbn [length read_bytes] in Hrd. injection Hrd as Hb Hl.
    inversion Hnn as [|? ? Hb0 Hl0]; subst b.
    destruct (Z.eqb_spec (load8 m p) 0) as [|_]; [lia|].
    rewrite (IH k m (p + 1) (acc + 1) Hl0 Hl).
    + f_equal. cbn [length]. lia.
    + rewrite <- Hz. f_equal. cbn [length]. lia.
    + cbn [length] in Hn. lia.
Qed.

(** ** json_clone *)

(** X26: [json_clone] of a tree of nodes without a Float node succeeds: the
    text that [json_stringify] writes for it is accepted by [json_parse],
    which returns a document.  The fuel has to exceed the number of nodes and
    the length of the text.  The text is short enough for one node per byte
    to fit the first arena of the copy (64 KiB, 2730 bytes of text at most):
    every node is allocated for a token of at least one byte, so
    [arena_grow], which releases the block the nodes built so far live in,
    is never called (lemma [parse_value_keeps_arena]), and the copy has the
    arena it was created with.  The NUL byte behind the text stops the
    conversion of a number that ends it. *)
Theorem json_clone_succeeds (A : Z -> Prop) (fuel : nat) (v : jval) (p : Z) (w : world) :
  0 < brk w -> repr A (mem w) p v -> (forall a, A a -> a < brk w) ->
  no_float v = true -> (jsize v < fuel)%nat -> (length (render v) < fuel)%nat ->
  Z.of_nat (length (render v)) * sizeof_json_val <= 64 * 1024 ->
  exists d w', json_clone fuel p w = Some (Some d, w') /\ arena_size d = 64 * 1024.
Proof.
  intros Hbrk Hr HA Hnf Hsz Hlen Hfit.
  destruct (json_stringify_opts_spec A None fuel v p w eq_refl Hbrk Hr HA Hsz)
    as (str & w2 & E & Hstr & Hend & _ & Hrd & Hnul & _ & _).
  unfold json_clone, json_stringify. rewrite E.
  destruct (Z.eqb_spec str 0) as [|_]; [lia|].
  unfold strlen.
  rewrite (strlen_from_text (render v) fuel (mem w2) str 0
             (proj1 (render_is_text A (mem w)) p v Hr) Hrd Hnul Hlen).
  rewrite Z.add_0_l.
  destruct (proj1 (render_value_text A (mem w)) p v Hr Hnf) as (d & Hd).
  destruct (value_text_head d _ Hd) as (b & t & Et & _).
  unfold json_parse, json_parse_opts.
  destruct (json_init_brk w2) as [Hb3 Hm3].
  set (w3 := if g_initialized w2 then w2 else json_init w2) in *.
  destruct (Z.eqb_spec str 0) as [|_]; [lia|].
  destruct (Z.eqb_spec (Z.of_nat (length (render v))) 0) as [E0|_];
    [rewrite Et in E0; cbn [length] in E0; lia|].
  cbn [orb].
  pose proof (parse_json_first_arena str (Z.of_nat (length (render v))) None w3) as Hfirst.
  destruct (parse_json_text str None w3 d (render v)) as (r & w4 & E4 & Hyes & _).
  - lia.
  - lia.
  - now rewrite Hm3.
  - exists [], (render v), []. rewrite app_nil_r.
    split; [constructor|]. split; [exact Hd|]. split; [constructor | reflexivity].
  - intros _. split; [lia|]. rewrite Hm3, Hnul. reflexivity.
  - rewrite E4. destruct r as [doc|].
    + exists doc, (free str w4). split; [reflexivity|].
      exact (Hfirst doc w4 Hfit E4).
    + exfalso. apply Hyes; [left; lia | reflexivity].
Qed.

Lemma json_clone_succeeds_witness :
  let m := write_bytes
             (val_set_type
                (set_child
                   (set_tag_payload (set_child (val_set_type ∅ 64 JSON_OBJECT) 64 128) 128
                      (Z.lor JSON_STRING_SHORT (Z.shiftl 1 4)))
                   128 152)
                152 JSON_TRUE)
             129 [97] in
  let w := set_mem fresh_world m in
  exists d w', json_clone 16 64 w = Some (Some d, w') /\ arena_size d = 64 * 1024.
Proof.
  intros m w.
  assert (Hs : json_get_str (mem w) 128 = 129) by (vm_compute; reflexivity).
  apply (json_clone_succeeds (fun a => 64 <= a < 176) 16 (JObject [([97], JTrue)]) 64 w).
  - vm_compute. reflexivity.
  - apply (repr_object _ _ 64 [128]).
    + split; [discriminate | intros a Ha; lia].
    + vm_compute. reflexivity.
    + vm_compute. repeat split; discriminate.
    + constructor.
      * split; [discriminate | intros a Ha; lia].
      * split; [left; vm_compute; reflexivity|].
        split; [vm_compute; reflexivity|].
        split; [vm_compute; reflexivity|].
        split; [|vm_compute; discriminate].
        intros a Ha. rewrite Hs in Ha. cbn [length] in Ha. lia.
      * apply repr_true.
        -- split; [vm_compute; discriminate|].
           intros a Ha. replace (child (mem w) 128) with 152 in Ha by (vm_compute; reflexivity).
           lia.
        -- vm_compute. reflexivity.
      * constructor.
  - intros a Ha. change (brk w) with 4096. lia.
  - reflexivity.
  - cbn. lia.
  - vm_compute. lia.
  - vm_compute. discriminate.
Defined.

(** * json_equals on two copies of a value *)

Lemma count_siblings_enough (m : gmap Z Z) (l : list Z) :
  forall n p acc, siblings m p l -> (length l < n)%nat ->
    count_siblings n m p acc = Some (acc + Z.of_nat (length l)).
Proof.
  induction l as [|x t IH]; intros n p acc H Hn;
    (destruct n as [|k]; [cbn [length] in Hn; lia|]); cbn [count_siblings].
  - cbn [siblings] in H. subst p. cbn. now rewrite Z.add_0_r.
  - destruct H as (-> & Hx & Ht). destruct (Z.eqb_spec x 0) as [|_]; [contradiction|].
    rewrite (IH k (next m x) (acc + 1) Ht) by (cbn [length] in Hn; lia).
    f_equal. cbn [length]. lia.
Qed.

Lemma json_get_type_node (m : gmap Z Z) (p : Z) :
  p <> 0 ->
  json_get_type m p =
    if (val_get_type m p =? JSON_STRING_SHORT) || (val_get_type m p =? JSON_STRING_LONG)
    then JSON_STRING else val_get_type m p.
Proof.
  intros Hp. unfold json_get_type. destruct (Z.eqb_spec p 0); [contradiction | reflexivity].
Qed.

Lemma repr_members_split (A : Z -> Prop) (m : gmap Z Z) (ms1 : list (list Z * jval)) :
  forall l bs v ms2,
    repr_members A m l (ms1 ++ (bs, v) :: ms2) ->
    exists l1 k l2,
      l = l1 ++ k :: l2 /\ length l1 = length ms1 /\ repr_members A m l1 ms1 /\
      string_node A m k bs /\ repr A m (child m k) v.
Proof.
  induction ms1 as [|[bs1 v1] ms1 IH]; intros l bs v ms2 H; cbn [app] in H;
    inversion H as [|k l' bs' v' ms' Hk Hs Hv Hl' E1 E2]; subst.
  - exists [], k, l'. split; [reflexivity|]. split; [reflexivity|].
    split; [constructor|]. split; assumption.
  - destruct (IH l' bs v ms2 Hl') as (l1 & k1 & l2 & -> & Hlen & H1 & Hs1 & Hv1).
    exists (k :: l1), k1, l2. split; [reflexivity|]. split; [cbn [length]; lia|].
    split; [now constructor|]. split; assumption.
Qed.

Lemma repr_members_key (A : Z -> Prop) (m : gmap Z Z) (l : list Z)
    (ms : list (list Z * jval)) :
  repr_members A m l ms ->
  forall k, In k l -> exists bs, In bs (map fst ms) /\ string_node A m k bs.
Proof.
  induction 1 as [|k0 l bs v ms Hk Hs Hv Hl IH]; intros k Hin; [destruct Hin|].
  destruct Hin as [<-|Hin].
  - exists bs. split; [now left | exact Hs].
  - destruct (IH k Hin) as (bs' & Hbs & Hs'). exists bs'. split; [now right | exact Hs'].
Qed.

Section Pairs.

Variables A B : Z -> Prop.
Variable m : gmap Z Z.
Variable eq : Z -> Z -> option bool.
Variable bound : nat.

Hypothesis Heq : forall v a b,
  repr A m a v -> repr B m b v -> comparable v = true -> (jsize v < bound)%nat ->
  eq a b = Some true.

Lemma equals_array_loop_same (vs : list jval) :
  forall la lb n ca cb,
    repr_list A m la vs -> repr_list B m lb vs -> siblings m ca la -> siblings m cb lb ->
    Forall (fun v => comparable v = true /\ (jsize v < bound)%nat) vs ->
    (length vs < n)%nat ->
    equals_array_loop eq n m ca cb = Some true.
Proof.
  induction vs as [|v vs IH]; intros la lb n ca cb Ha Hb Hsa Hsb Hvs Hn;
    inversion Ha as [|pa la' ? ? Hpa Hla]; subst;
    inversion Hb as [|pb lb' ? ? Hpb Hlb]; subst;
    (destruct n as [|k]; [cbn [length] in Hn; lia|]); cbn [equals_array_loop].
  - cbn [siblings] in Hsa, Hsb. subst ca cb. reflexivity.
  - destruct Hsa as (-> & Hnza & Hna). destruct Hsb as (-> & Hnzb & Hnb).
    destruct (Z.eqb_spec pa 0) as [|_]; [contradiction|].
    destruct (Z.eqb_spec pb 0) as [|_]; [contradiction|]. cbn [negb andb].
    inversion Hvs as [|? ? [Hc Hsz] Hvs']; subst.
    rewrite (Heq v pa pb Hpa Hpb Hc Hsz).
    unfold json_arr_next.
    destruct (Z.eqb_spec pa 0) as [|_]; [contradiction|].
    destruct (Z.eqb_spec pb 0) as [|_]; [contradiction|].
    apply (IH la' lb'); try assumption. cbn [length] in Hn. lia.
Qed.

Variable b : Z.
Variable lb : list Z.
Variable ms : list (list Z * jval).

Hypothesis Hb : b <> 0.
Hypothesis Hbt : val_get_type m b = JSON_OBJECT.
Hypothesis Hbs : siblings m (child m b) lb.
Hypothesis Hbm : repr_members B m lb ms.
Hypothesis Hkeys : NoDup (map fst ms).

Lemma equals_object_loop_same (post : list (list Z * jval)) :
  forall pre la n key,
    ms = pre ++ post -> repr_members A m la post -> siblings m key la ->
    Forall (fun kv => comparable (snd kv) = true /\ (jsize (snd kv) < bound)%nat) post ->
    (length pre + 2 * length post < n)%nat ->
    equals_object_loop eq n m key b = Some true.
Proof.
  induction post as [|[bs v] post IH]; intros pre la n key Ems Ha Hsa Hpost Hn;
    inversion Ha as [|ka la' ? ? ? Hka Hsk Hva Hla]; subst la;
    (destruct n as [|k]; [cbn [length] in Hn; lia|]); cbn [equals_object_loop].
  - cbn [siblings] in Hsa. subst key. reflexivity.
  - subst. destruct Hsa as (-> & Hnz & Hnext).
    destruct (Z.eqb_spec ka 0) as [|_]; [contradiction|].
    destruct Hsk as (Hty & Hlen & Hrd & Hin & Hptr).
    unfold json_obj_key, json_obj_key_len, json_obj_getn.
    destruct (Z.eqb_spec b 0) as [|_]; [contradiction|].
    destruct (Z.eqb_spec (json_get_str m ka) 0) as [|_]; [contradiction|].
    rewrite Hbt. cbn [orb negb Z.eqb JSON_OBJECT Pos.eqb].
    destruct (repr_members_split B m pre lb bs v post Hbm)
      as (l1 & kb & l2 & El & Hl1 & Hm1 & Hskb & Hvb).
    rewrite El in Hbs.
    rewrite (obj_getn_loop_first m (json_get_str m ka) (json_get_str_len m ka)
               l1 kb l2 (S k) (child m b) Hbs).
    + pose proof (repr_node_in B m _ v Hvb) as [Hvnz _].
      destruct (Z.eqb_spec (child m kb) 0) as [|_]; [contradiction|].
      inversion Hpost as [|? ? [Hc Hsz] Hpost']; subst. cbn [snd] in Hc, Hsz.
      rewrite (Heq v (child m ka) (child m kb) Hva Hvb Hc Hsz).
      unfold json_obj_next. destruct (Z.eqb_spec ka 0) as [|_]; [contradiction|].
      apply (IH (pre ++ [(bs, v)]) la').
      * now rewrite <- app_assoc.
      * exact Hla.
      * exact Hnext.
      * exact Hpost'.
      * rewrite length_app. cbn [length] in *. lia.
    + intros k' Hk' (Hl' & _ & Hr').
      destruct (repr_members_key B m l1 pre Hm1 k' Hk') as (bs' & Hbs' & Hs').
      destruct Hs' as (_ & Hlen' & Hrd' & _).
      assert (E : bs' = bs).
      { rewrite <- Hrd', <- Hrd.
        assert (El' : length bs' = length bs) by lia.
        rewrite Hlen, Nat2Z.id in Hr'. rewrite El'. exact Hr'. }
      subst bs'. rewrite map_app in Hkeys. cbn [map fst] in Hkeys.
      apply NoDup_app in Hkeys as (_ & Hdis & _).
      apply (Hdis bs); [now apply list_elem_of_In | left].
    + destruct Hskb as (_ & Hlenb & Hrdb & _ & Hptrb).
      split; [lia|]. split; [exact Hptrb|].
      rewrite Hlen, Nat2Z.id, Hrd. exact Hrdb.
    + lia.
Qed.

End Pairs.

Lemma members_size_bound (ms : list (list Z * jval)) :
  (2 * length ms <= list_sum (map (fun kv : list Z * jval => S (jsize (snd kv))) ms))%nat.
Proof.
  induction ms as [|kv ms IH]; [simpl; lia|].
  simpl. pose proof (jsize_pos (snd kv)). lia.
Qed.

Lemma json_equals_same (A B : Z -> Prop) (m : gmap Z Z) (fuel : nat) :
  forall v a b,
    repr A m a v -> repr B m b v -> comparable v = true -> (jsize v < fuel)%nat ->
    json_equals fuel m a b = Some true.
Proof.
  induction fuel as [|f IH]; intros v a b Ha Hb Hc Hsz; [lia|].
  cbn [json_equals]. destruct (Z.eqb_spec a b) as [|_]; [reflexivity|].
  pose proof (repr_node_in A m a v Ha) as [Hnza _].
  pose proof (repr_node_in B m b v Hb) as [Hnzb _].
  destruct (Z.eqb_spec a 0) as [|_]; [contradiction|].
  destruct (Z.eqb_spec b 0) as [|_]; [contradiction|]. cbn [orb].
  rewrite (json_get_type_node m a Hnza), (json_get_type_node m b Hnzb).
  inversion Ha as [? _ Hta | ? _ Hta | ? _ Hta | ? z _ Hta Hza | ? d _ Hta Hda | ? bs _ Hsa
                   | ? la vs _ Hta Hsa Hla | ? la ms _ Hta Hsa Hla]; subst;
    inversion Hb as [? _ Htb | ? _ Htb | ? _ Htb | ? z' _ Htb Hzb | ? d' _ Htb Hdb | ? bs' _ Hsb
                     | ? lb vs' _ Htb Hsb Hlb | ? lb ms' _ Htb Hsb Hlb]; subst.
  - rewrite Hta, Htb. reflexivity.
  - rewrite Hta, Htb. reflexivity.
  - rewrite Hta, Htb. reflexivity.
  - rewrite Hta, Htb.
    cbn [Z.eqb Pos.eqb orb negb JSON_NULL JSON_TRUE JSON_FALSE JSON_INT JSON_STRING_SHORT
         JSON_STRING_LONG].
    now rewrite Hzb, Z.eqb_refl.
  - rewrite Hta, Htb.
    cbn [Z.eqb Pos.eqb orb negb JSON_NULL JSON_TRUE JSON_FALSE JSON_INT JSON_FLOAT
         JSON_STRING_SHORT JSON_STRING_LONG].
    unfold json_get_num.
    destruct (Z.eqb_spec a 0) as [|_]; [contradiction|].
    destruct (Z.eqb_spec b 0) as [|_]; [contradiction|].
    rewrite Hta, Htb. cbn [Z.eqb Pos.eqb JSON_FLOAT]. rewrite Hdb.
    cbn [comparable] in Hc. apply negb_true_iff in Hc.
    unfold double_eq. rewrite Hc. cbn [orb]. rewrite Z.eqb_refl. now destruct (_ && _).
  - destruct Hsa as (Hta & Hlena & Hrda & _ & _).
    destruct Hsb as (Htb & Hlenb & Hrdb & _ & _).
    assert (Ea : ((val_get_type m a =? JSON_STRING_SHORT) ||
                  (val_get_type m a =? JSON_STRING_LONG)) = true)
      by (destruct Hta as [-> | ->]; reflexivity).
    assert (Eb : ((val_get_type m b =? JSON_STRING_SHORT) ||
                  (val_get_type m b =? JSON_STRING_LONG)) = true)
      by (destruct Htb as [-> | ->]; reflexivity).
    rewrite Ea, Eb.
    cbn [Z.eqb Pos.eqb orb negb JSON_NULL JSON_TRUE JSON_FALSE JSON_INT JSON_FLOAT JSON_STRING].
    rewrite Hlena, Hlenb, Z.eqb_refl. cbn [negb].
    unfold memcmp_eq, bytes_eqb. rewrite Nat2Z.id, Hrda, Hrdb.
    f_equal. now apply bool_decide_eq_true_2.
  - rewrite Hta, Htb.
    cbn [Z.eqb Pos.eqb orb negb JSON_NULL JSON_TRUE JSON_FALSE JSON_INT JSON_FLOAT JSON_STRING
         JSON_STRING_SHORT JSON_STRING_LONG JSON_ARRAY].
    unfold json_arr_first.
    destruct (Z.eqb_spec a 0) as [|_]; [contradiction|].
    destruct (Z.eqb_spec b 0) as [|_]; [contradiction|].
    rewrite Hta, Htb. cbn [Z.eqb Pos.eqb orb negb JSON_ARRAY].
    cbn [comparable] in Hc. cbn [jsize] in Hsz.
    apply (equals_array_loop_same A B m (json_equals f m) f IH vs la lb); try assumption.
    + apply List.Forall_forall. intros x Hx. split.
      * exact (proj1 (forallb_forall _ _) Hc x Hx).
      * pose proof (list_sum_bound (map jsize vs) (jsize x) (in_map jsize vs x Hx)). lia.
    + assert (length vs <= list_sum (map jsize vs))%nat; [|lia].
      rewrite <- (length_map jsize vs). apply list_sum_length.
      apply List.Forall_forall. intros x Hx. apply in_map_iff in Hx.
      destruct Hx as (y & <- & _). apply jsize_pos.
  - rewrite Hta, Htb.
    cbn [Z.eqb Pos.eqb orb negb JSON_NULL JSON_TRUE JSON_FALSE JSON_INT JSON_FLOAT JSON_STRING
         JSON_STRING_SHORT JSON_STRING_LONG JSON_ARRAY JSON_OBJECT].
    cbn [comparable] in Hc. apply andb_prop in Hc as [Hnd Hcs].
    apply bool_decide_eq_true in Hnd. cbn [jsize] in Hsz.
    pose proof (members_size_bound ms) as Hms.
    pose proof (repr_members_length A m la ms Hla) as Ela.
    pose proof (repr_members_length B m lb ms Hlb) as Elb.
    unfold json_obj_size, json_obj_first.
    destruct (Z.eqb_spec a 0) as [|_]; [contradiction|].
    destruct (Z.eqb_spec b 0) as [|_]; [contradiction|].
    rewrite Hta, Htb. cbn [Z.eqb Pos.eqb orb negb JSON_OBJECT].
    rewrite (count_siblings_enough m la f _ 0 Hsa) by lia.
    rewrite (count_siblings_enough m lb f _ 0 Hsb) by lia.
    rewrite Ela, Elb, Z.eqb_refl. cbn [negb].
    apply (equals_object_loop_same A B m (json_equals f m) f IH b lb ms Hnzb Htb Hsb Hlb Hnd
             ms [] la); try assumption.
    + reflexivity.
    + apply List.Forall_forall. intros x Hx. split.
      * exact (proj1 (forallb_forall _ _) Hcs x Hx).
      * pose proof (list_sum_bound _ _
                      (in_map (fun kv : list Z * jval => S (jsize (snd kv))) ms x Hx)). lia.
    + cbn [length]. lia.
Qed.

(** X27: [json_equals] returns true on the roots of two trees of nodes that
    stand for the same value, wherever the two trees lie, when the value
    holds no NaN and the keys of each of its objects are pairwise distinct.
    The fuel has to exceed the number of nodes. *)
Theorem json_equals_copies (A B : Z -> Prop) (m : gmap Z Z) (fuel : nat) (v : jval) (a b : Z) :
  repr A m a v -> repr B m b v -> comparable v = true -> (jsize v < fuel)%nat ->
  json_equals fuel m a b = Some true.
Proof. exact (json_equals_same A B m fuel v a b). Qed.

Lemma json_equals_copies_witness :
  let object_at (m : gmap Z Z) (p : Z) :=
    write_bytes
      (val_set_type
         (set_child
            (set_tag_payload (set_child (val_set_type m p JSON_OBJECT) p (p + 64)) (p + 64)
               (Z.lor JSON_STRING_SHORT (Z.shiftl 1 4)))
            (p + 64) (p + 88))
         (p + 88) JSON_TRUE)
      (p + 65) [97] in
  let m := object_at (object_at ∅ 64) 256 in
  json_equals 4 m 64 256 = Some true.
Proof.
  intros object_at m.
  assert (Hobject : forall p, p = 64 \/ p = 256 ->
            repr (fun a => p <= a < p + 112) m p (JObject [([97], JTrue)])).
  { intros p Hp.
    assert (Hs : json_get_str m (p + 64) = p + 65)
      by (destruct Hp as [-> | ->]; vm_compute; reflexivity).
    assert (Hc : child m (p + 64) = p + 88)
      by (destruct Hp as [-> | ->]; vm_compute; reflexivity).
    apply (repr_object _ _ p [p + 64]).
    - split; [lia | intros a Ha; lia].
    - destruct Hp as [-> | ->]; vm_compute; reflexivity.
    - destruct Hp as [-> | ->]; vm_compute; repeat split; discriminate.
    - constructor.
      + split; [lia | intros a Ha; lia].
      + split; [left; destruct Hp as [-> | ->]; vm_compute; reflexivity|].
        split; [destruct Hp as [-> | ->]; vm_compute; reflexivity|].
        split; [destruct Hp as [-> | ->]; vm_compute; reflexivity|].
        split; [|lia].
        intros a Ha. rewrite Hs in Ha. cbn [length] in Ha. lia.
      + rewrite Hc. apply repr_true.
        * split; [lia | intros a Ha; lia].
        * destruct Hp as [-> | ->]; vm_compute; reflexivity.
      + constructor. }
  apply (json_equals_copies (fun a => 64 <= a < 64 + 112) (fun a => 256 <= a < 256 + 112)
           m 4 (JObject [([97], JTrue)]) 64 256).
  - apply Hobject. now left.
  - apply Hobject. now right.
  - vm_compute. reflexivity.
  - cbn. lia.
Defined.

(** * json_stringify_buf *)

(** X28: [json_stringify_buf] on the root of a tree of nodes returns the
    length of the compact text of the value, whatever the buffer.  A buffer
    longer than the text receives the whole text and its NUL byte, and
    nothing else allocated before the call changes; a buffer that is [NULL]
    or not longer than the text is not written at all: no byte allocated
    before the call changes.  The fuel has to exceed the number of nodes and
    the length of the text. *)
Theorem json_stringify_buf_whole (A : Z -> Prop) (fuel : nat) (v : jval)
    (p buf buf_len : Z) (w : world) :
  0 < brk w -> repr A (mem w) p v -> (forall a, A a -> a < brk w) ->
  (jsize v < fuel)%nat -> (length (render v) < fuel)%nat ->
  buf = 0 \/ 0 < buf /\ buf + buf_len <= brk w ->
  let n := Z.of_nat (length (render v)) in
  exists w',
    json_stringify_buf fuel p buf buf_len w = Some (n, w') /\
    (buf <> 0 -> n < buf_len ->
       read_bytes (length (render v)) (mem w') buf = render v /\
       load8 (mem w') (buf + n) = 0 /\
       forall a, a < brk w -> a < buf \/ buf + n < a -> load8 (mem w') a = load8 (mem w) a) /\
    (buf = 0 \/ buf_len <= n ->
       forall a, a < brk w -> load8 (mem w') a = load8 (mem w) a).
Proof.
  intros Hbrk Hr HA Hsz Hlen Hbuf n.
  destruct (json_stringify_opts_spec A None fuel v p w eq_refl Hbrk Hr HA Hsz)
    as (str & w2 & E & Hstr & Hend & _ & Hrd & Hnul & _ & Hframe).
  unfold json_stringify_buf, json_stringify. rewrite E.
  destruct (Z.eqb_spec str 0) as [|_]; [lia|].
  unfold strlen.
  rewrite (strlen_from_text (render v) fuel (mem w2) str 0
             (proj1 (render_is_text A (mem w)) p v Hr) Hrd Hnul Hlen).
  rewrite Z.add_0_l. fold n.
  assert (Hsrc : read_bytes (Z.to_nat (n + 1)) (mem w2) str = render v ++ [0]).
  { replace (Z.to_nat (n + 1)) with (length (render v) + 1)%nat by (unfold n; lia).
    rewrite read_bytes_app, Hrd. cbn [read_bytes]. now rewrite Hnul. }
  destruct (Z.eqb_spec buf 0) as [E0|Hnz]; cbn [negb andb].
  - exists (free str w2). split; [reflexivity|]. split; [intros H; contradiction|].
    intros _ a Ha. exact (Hframe a Ha).
  - destruct (Z.gtb_spec buf_len n) as [Hgt|Hle].
    + eexists. split; [reflexivity|]. cbn [free mem set_mem]. split; [|intros [|]; lia].
      intros _ _. unfold memcpy. rewrite Hsrc.
      assert (Hcopy : read_bytes (length (render v ++ [0]))
                        (write_bytes (mem w2) buf (render v ++ [0])) buf
                      = render v ++ [0]).
      { apply read_bytes_write_bytes. apply Forall_app. split.
        - apply is_text_are_bytes, (proj1 (render_is_text A (mem w)) p v Hr).
        - repeat constructor; lia. }
      rewrite length_app, read_bytes_app in Hcopy. cbn [length read_bytes] in Hcopy.
      apply app_inj_tail in Hcopy as [Ht Hz]. fold n in Hz.
      split; [exact Ht|]. split; [exact Hz|].
      intros a Ha Hout. rewrite load8_write_bytes_ne.
      * exact (Hframe a Ha).
      * rewrite length_app. cbn [length]. fold n. lia.
    + exists (free str w2). split; [reflexivity|]. split; [intros _ H; lia|].
      intros _ a Ha. exact (Hframe a Ha).
Qed.

Lemma json_stringify_buf_whole_witness :
  let m := write_bytes
             (val_set_type
                (set_child
                   (set_tag_payload (set_child (val_set_type ∅ 64 JSON_OBJECT) 64 128) 128
                      (Z.lor JSON_STRING_SHORT (Z.shiftl 1 4)))
                   128 152)
                152 JSON_TRUE)
             129 [97] in
  let w := set_mem fresh_world m in
  let v := JObject [([97], JTrue)] in
  let n := Z.of_nat (length (render v)) in
  exists w',
    json_stringify_buf 16 64 1024 4 w = Some (n, w') /\
    (1024 <> 0 -> n < 4 ->
       read_bytes (length (render v)) (mem w') 1024 = render v /\
       load8 (mem w') (1024 + n) = 0 /\
       forall a, a < brk w -> a < 1024 \/ 1024 + n < a ->
         load8 (mem w') a = load8 (mem w) a) /\
    (1024 = 0 \/ 4 <= n ->
       forall a, a < brk w -> load8 (mem w') a = load8 (mem w) a).
Proof.
  intros m w v.
  assert (Hs : json_get_str (mem w) 128 = 129) by (vm_compute; reflexivity).
  apply (json_stringify_buf_whole (fun a => 64 <= a < 176) 16 v 64 1024 4 w).
  - vm_compute. reflexivity.
  - apply (repr_object _ _ 64 [128]).
    + split; [discriminate | intros a Ha; lia].
    + vm_compute. reflexivity.
    + vm_compute. repeat split; discriminate.
    + constructor.
      * split; [discriminate | intros a Ha; lia].
      * split; [left; vm_compute; reflexivity|].
        split; [vm_compute; reflexivity|].
        split; [vm_compute; reflexivity|].
        split; [|vm_compute; discriminate].
        intros a Ha. rewrite Hs in Ha. cbn [length] in Ha. lia.
      * apply repr_true.
        -- split; [vm_compute; discriminate|].
           intros a Ha. replace (child (mem w) 128) with 152 in Ha by (vm_compute; reflexivity).
           lia.
        -- vm_compute. reflexivity.
      * constructor.
  - intros a Ha. change (brk w) with 4096. lia.
  - cbn. lia.
  - vm_compute. lia.
  - right. change (brk w) with 4096. lia.
Defined.

(** * The parser reads what the serializer writes *)

Lemma ws_newline_ok (opts : option json_stringify_options) : ws_newline opts -> newline_ok opts.
Proof.
  unfold ws_newline, newline_ok. destruct opts as [o|]; [|exact id].
  destruct (_ =? 0); [exact id|]. destruct (newline o) as [s|]; [|exact id].
  intros H. unfold are_bytes. induction H as [|b l Hb _ IH]; constructor; [|exact IH].
  unfold is_ws_byte in Hb.
  destruct (Z.eqb_spec b 32); [lia|]. destruct (Z.eqb_spec b 9); [lia|].
  destruct (Z.eqb_spec b 10); [lia|]. destruct (Z.eqb_spec b 13); [lia | discriminate].
Qed.

Lemma indent_text_is_ws (opts : option json_stringify_options) (dep : Z) :
  ws_newline opts -> is_ws (indent_text opts dep).
Proof.
  unfold ws_newline, indent_text. destruct opts as [o|]; [|constructor].
  destruct (_ =? 0); [constructor|]. intros H. apply Forall_app. split.
  - destruct (newline o); [exact H | repeat constructor].
  - apply List.Forall_forall. intros b Hb. apply repeat_spec in Hb. now subst b.
Qed.

Lemma colon_text_ws (opts : option json_stringify_options) :
  exists ws, is_ws ws /\ colon_text opts = 58 :: ws.
Proof.
  unfold colon_text. destruct (is_pretty opts).
  - exists [32]. split; [repeat constructor | reflexivity].
  - exists []. split; [constructor | reflexivity].
Qed.

(** The text of a tree without floats, under options whose newline is
    whitespace, is the text of a JSON value. *)
Lemma layout_value_text (A : Z -> Prop) (m : gmap Z Z) (opts : option json_stringify_options) :
  ws_newline opts ->
  (forall p v, repr A m p v -> no_float v = true ->
     forall dep, exists d, value_text d (layout opts v dep)) /\
  (forall l vs, repr_list A m l vs -> forallb no_float vs = true -> vs <> [] ->
     forall dep sep last, is_ws sep -> is_ws last ->
     exists d items,
       elements_text d items /\
       forall first,
         layout_children 93 sep last first (map (fun x => layout opts x dep) vs)
         = (if first then [] else [44]) ++ sep ++ items ++ [93]) /\
  (forall l ms, repr_members A m l ms ->
     forallb (fun kv => no_float (snd kv)) ms = true -> ms <> [] ->
     forall dep sep last, is_ws sep -> is_ws last ->
     exists d members,
       members_text d members /\
       forall first,
         layout_children 125 sep last first
           (map (fun kv => escaped (fst kv) ++ colon_text opts ++ layout opts (snd kv) dep) ms)
         = (if first then [] else [44]) ++ sep ++ members ++ [125]).
Proof.
  intros Hws.
  apply (repr_mutind A m
    (fun p v _ => no_float v = true -> forall dep, exists d, value_text d (layout opts v dep))
    (fun l vs _ => forallb no_float vs = true -> vs <> [] ->
       forall dep sep last, is_ws sep -> is_ws last ->
       exists d items,
         elements_text d items /\
         forall first,
           layout_children 93 sep last first (map (fun x => layout opts x dep) vs)
           = (if first then [] else [44]) ++ sep ++ items ++ [93])
    (fun l ms _ => forallb (fun kv => no_float (snd kv)) ms = true -> ms <> [] ->
       forall dep sep last, is_ws sep -> is_ws last ->
       exists d members,
         members_text d members /\
         forall first,
           layout_children 125 sep last first
             (map (fun kv => escaped (fst kv) ++ colon_text opts
                               ++ layout opts (snd kv) dep) ms)
           = (if first then [] else [44]) ++ sep ++ members ++ [125])).
  - intros. exists 0%nat. exact vt_null.
  - intros. exists 0%nat. exact vt_true.
  - intros. exists 0%nat. exact vt_false.
  - intros p z _ _ _ _ dep. exists 0%nat. apply vt_number, fmt_lld_number_text.
  - intros p d _ _ _ H. discriminate H.
  - intros p bs _ Hs _ dep. exists 0%nat.
    apply escaped_value_text, (string_node_are_bytes A m p bs Hs).
  - intros p l vs _ _ _ _ IH Hnf dep. cbn [no_float] in Hnf. cbn [layout].
    destruct vs as [|v vs].
    + exists 1%nat. exact (vt_empty_array [] (List.Forall_nil _)).
    + destruct (IH Hnf ltac:(discriminate) (dep + 1) (indent_text opts (dep + 1))
                  (indent_text opts dep) (indent_text_is_ws opts _ Hws)
                  (indent_text_is_ws opts _ Hws)) as (d & items & Hd & E).
      exists (S d). rewrite (E true). cbn [app].
      exact (vt_array _ d items (indent_text_is_ws opts _ Hws) Hd).
  - intros p l ms _ _ _ _ IH Hnf dep. cbn [no_float] in Hnf. cbn [layout].
    destruct ms as [|kv ms].
    + exists 1%nat. exact (vt_empty_object [] (List.Forall_nil _)).
    + destruct (IH Hnf ltac:(discriminate) (dep + 1) (indent_text opts (dep + 1))
                  (indent_text opts dep) (indent_text_is_ws opts _ Hws)
                  (indent_text_is_ws opts _ Hws)) as (d & members & Hd & E).
      exists (S d). rewrite (E true). cbn [app].
      exact (vt_object _ d members (indent_text_is_ws opts _ Hws) Hd).
  - intros _ H. now contradiction H.
  - intros p l v vs _ IHv _ IHl Hnf _ dep sep last Hsep Hlast. cbn [forallb] in Hnf.
    apply andb_prop in Hnf as [Hv Hvs]. destruct (IHv Hv dep) as (d1 & Hd1).
    destruct vs as [|v2 vs].
    + exists d1, (layout opts v dep ++ last). split; [exact (et_last d1 _ last Hd1 Hlast)|].
      intros first. cbn [map layout_children]. list_eq.
    + destruct (IHl Hvs ltac:(discriminate) dep sep last Hsep Hlast) as (d2 & items & Hd2 & E).
      exists (Nat.max d1 d2), (layout opts v dep ++ [] ++ 44 :: sep ++ items). split.
      * exact (et_cons d1 _ [] sep d2 items Hd1 (List.Forall_nil _) Hsep Hd2).
      * intros first. change (map (fun x => layout opts x dep) (v :: v2 :: vs))
          with (layout opts v dep :: map (fun x => layout opts x dep) (v2 :: vs)).
        cbn [layout_children]. rewrite (E false). list_eq.
  - intros _ H. now contradiction H.
  - intros k l bs v ms _ Hs _ IHv _ IHl Hnf _ dep sep last Hsep Hlast.
    cbn [forallb snd] in Hnf. apply andb_prop in Hnf as [Hv Hms].
    destruct (IHv Hv dep) as (d1 & Hd1).
    pose proof (escaped_decodes bs (string_node_are_bytes A m k bs Hs)) as Hdec.
    destruct (colon_text_ws opts) as (ws3 & Hws3 & Ecolon).
    set (f := fun kv : list Z * jval =>
                escaped (fst kv) ++ colon_text opts ++ layout opts (snd kv) dep).
    destruct ms as [|kv ms].
    + eexists d1, _. split.
      * exact (mt_last _ bs [] ws3 d1 _ last Hdec (List.Forall_nil _) Hws3 Hd1 Hlast).
      * intros first. cbn [map layout_children]. unfold f. cbn [fst snd].
        rewrite Ecolon. unfold escaped. list_eq.
    + destruct (IHl Hms ltac:(discriminate) dep sep last Hsep Hlast)
        as (d2 & members & Hd2 & E).
      fold f in E. eexists (Nat.max d1 d2), _. split.
      * exact (mt_cons _ bs [] ws3 d1 _ [] sep d2 members Hdec (List.Forall_nil _) Hws3 Hd1
                 (List.Forall_nil _) Hsep Hd2).
      * intros first. change (map f ((bs, v) :: kv :: ms))
          with (f (bs, v) :: map f (kv :: ms)).
        cbn [layout_children]. rewrite (E false). unfold f at 1. cbn [fst snd].
        rewrite Ecolon. unfold escaped. list_eq.
Qed.

(** X29: what [json_stringify_opts] writes for a tree of nodes without a
    Float node is accepted by [json_parse], whatever the options, provided
    the newline string is made of spaces, tabs, line feeds and carriage
    returns: compact and pretty texts can be read back.  The fuel has to
    exceed the number of nodes.  The text is short enough for one node per
    byte to fit the first arena of the parse (64 KiB, 2730 bytes of text at
    most): every node is allocated for a token of at least one byte, so
    [arena_grow], which releases the block the nodes built so far live in,
    is never called (lemma [parse_value_keeps_arena]), and the document has
    the arena it was created with.  The NUL byte behind the text stops the
    conversion of a number that ends it. *)
Theorem json_stringify_opts_parses (A : Z -> Prop) (opts : option json_stringify_options)
    (fuel : nat) (v : jval) (p : Z) (w : world) :
  ws_newline opts -> 0 < brk w ->
  repr A (mem w) p v -> (forall a, A a -> a < brk w) ->
  no_float v = true -> (jsize v < fuel)%nat ->
  Z.of_nat (length (layout opts v 0)) * sizeof_json_val <= 64 * 1024 ->
  exists str n w1 d w2,
    json_stringify_opts fuel p opts w = Some (str, n, w1) /\
    read_bytes (Z.to_nat n) (mem w1) str = layout opts v 0 /\
    json_parse str n w1 = Some (Some d, w2) /\ arena_size d = 64 * 1024.
Proof.
  intros Hws Hbrk Hr HA Hnf Hsz Hfit.
  destruct (json_stringify_opts_layout A opts fuel v p w (ws_newline_ok opts Hws)
              Hbrk Hr HA Hsz)
    as (str & w1 & E & Hstr & Hend & _ & Hrd & Hnul & _ & _).
  destruct (proj1 (layout_value_text A (mem w) opts Hws) p v Hr Hnf 0) as (d & Hd).
  destruct (value_text_head d _ Hd) as (b & t & Et & _).
  set (text := layout opts v 0) in *.
  assert (Hparse : exists doc w2, json_parse str (Z.of_nat (length text)) w1
                                  = Some (Some doc, w2)).
  { unfold json_parse, json_parse_opts.
    destruct (json_init_brk w1) as [Hb3 Hm3].
    set (w3 := if g_initialized w1 then w1 else json_init w1) in *.
    destruct (Z.eqb_spec str 0) as [|_]; [lia|].
    destruct (Z.eqb_spec (Z.of_nat (length text)) 0) as [E0|_];
      [rewrite Et in E0; cbn [length] in E0; lia|].
    cbn [orb].
    destruct (parse_json_text str None w3 d text) as (r & w4 & E4 & Hyes & _).
    - lia.
    - lia.
    - now rewrite Hm3.
    - exists [], text, []. rewrite app_nil_r.
      split; [constructor|]. split; [exact Hd|]. split; [constructor | reflexivity].
    - intros _. split; [lia|]. rewrite Hm3. fold text in Hnul. rewrite Hnul. reflexivity.
    - rewrite E4. destruct r as [doc|].
      + exists doc, w4. reflexivity.
      + exfalso. apply Hyes; [left; lia | reflexivity]. }
  destruct Hparse as (doc & w2 & Hp).
  exists str, (Z.of_nat (length text)), w1, doc, w2.
  split; [exact E|]. split; [now rewrite Nat2Z.id|]. split; [exact Hp|].
  exact (json_parse_opts_first_arena _ _ _ _ doc w2 Hfit Hp).
Qed.

Lemma json_stringify_opts_parses_witness :
  let m := write_bytes
             (val_set_type
                (set_child
                   (set_tag_payload (set_child (val_set_type ∅ 64 JSON_OBJECT) 64 128) 128
                      (Z.lor JSON_STRING_SHORT (Z.shiftl 1 4)))
                   128 152)
                152 JSON_TRUE)
             129 [97] in
  let w := set_mem fresh_world m in
  let v := JObject [([97], JTrue)] in
  let opts := Some (mk_stringify_options JSON_STRINGIFY_PRETTY 2 None) in
  exists str n w1 d w2,
    json_stringify_opts 4 64 opts w = Some (str, n, w1) /\
    read_bytes (Z.to_nat n) (mem w1) str = layout opts v 0 /\
    json_parse str n w1 = Some (Some d, w2) /\ arena_size d = 64 * 1024.
Proof.
  intros m w v opts.
  assert (Hs : json_get_str (mem w) 128 = 129) by (vm_compute; reflexivity).
  apply (json_stringify_opts_parses (fun a => 64 <= a < 176) opts 4 v 64 w).
  - vm_compute. exact I.
  - vm_compute. reflexivity.
  - apply (repr_object _ _ 64 [128]).
    + split; [discriminate | intros a Ha; lia].
    + vm_compute. reflexivity.
    + vm_compute. repeat split; discriminate.
    + constructor.
      * split; [discriminate | intros a Ha; lia].
      * split; [left; vm_compute; reflexivity|].
        split; [vm_compute; reflexivity|].
        split; [vm_compute; reflexivity|].
        split; [|vm_compute; discriminate].
        intros a Ha. rewrite Hs in Ha. cbn [length] in Ha. lia.
      * apply repr_true.
        -- split; [vm_compute; discriminate|].
           intros a Ha. replace (child (mem w) 128) with 152 in Ha by (vm_compute; reflexivity).
           lia.
        -- vm_compute. reflexivity.
      * constructor.
  - intros a Ha. change (brk w) with 4096. lia.
  - reflexivity.
  - cbn. lia.
  - vm_compute. discriminate.
Defined.
